(** * jsparagus [gen.py]: the grammar-lowering pipeline and the LALR state
    construction, embedded in Rocq.

    Every definition below follows a function of [src/espg/gen.py] and keeps
    its name.  Python dictionaries whose iteration order is observed are
    association lists; sets whose order is never observed by the properties
    proved here ([OrderedSet], [OrderedFrozenSet], [set]) are [gset]s, whose
    equality is equality of contents, as [==] is on the Python side.
    Exceptions are values of [error]; a function that may raise returns a
    [result]. *)

From Stdlib Require Import ZArith Lia.
From stdpp Require Import base decidable countable option list strings gmap sets sorting relations.

Set Default Proof Using "Type".
Set Warnings "-register-all,-clear-no-such-hyp".
Open Scope string_scope.
Open Scope list_scope.
Open Scope nat_scope.

(** ** Exceptions *)

Inductive error : Type :=
  | AssertionError
  | ValueError (msg : string)
  | IndexError
  | KeyError
  | AttributeError
  | OutOfFuel.

Inductive result (A : Type) : Type :=
  | Ok (a : A)
  | Raise (e : error).
Arguments Ok {A} a.
Arguments Raise {A} e.

(** Sequencing: the rest of the code runs on the value of [m], unless [m]
    raised. *)
Definition rbind {A B} (m : result A) (k : A → result B) : result B :=
  match m with
  | Ok a => k a
  | Raise e => Raise e
  end.

Declare Scope result_scope.
Notation "x ← y ; z" := (rbind y (λ x, z))
  (at level 20, y at level 100, z at level 200, only parsing) : result_scope.
Notation "' x ← y ; z" := (rbind y (λ x, z))
  (at level 20, x pattern, y at level 100, z at level 200, only parsing) : result_scope.
Open Scope result_scope.

Definition of_option {A} (e : error) (o : option A) : result A :=
  match o with
  | Some a => Ok a
  | None => Raise e
  end.

Global Instance result_fmap : FMap result := fun _ _ f m =>
  match m with
  | Ok a => Ok (f a)
  | Raise e => Raise e
  end.

(** [[f(x) for x in l]] where [f] may raise. *)
Definition rmap {A B} (f : A → result B) : list A → result (list B) :=
  fix go l :=
    match l with
    | [] => Ok []
    | x :: l' => y ← f x; ys ← go l'; Ok (y :: ys)
    end.

(** [for x in l: body(x)] where the body may raise. *)
Definition rforeach {A} (f : A → result unit) : list A → result unit :=
  fix go l :=
    match l with
    | [] => Ok tt
    | x :: l' => _ ← f x; go l'
    end.

(** ** Grammar model

    Modelled from the spec: the classes of [grammar.py] and [ordered.py],
    which are not part of the sources at hand.  The symbol kinds are the
    tagged union of the specification (section 3), restricted to what exists
    after function expansion: no [Var], no [Apply].  [is_optional],
    [is_lookahead_rule], [grammar.is_terminal] and [grammar.is_nt] are the
    tests of the tag.  [OrderedSet] and [OrderedFrozenSet] are sets with
    equality by content (section 4.B). *)

Definition terminal : Type := string.

Inductive nt_name : Type :=
  | Name (s : string)
  | InitNt (goal : string).

Global Instance nt_name_eq_dec : EqDecision nt_name.
Proof. solve_decision. Defined.

Global Instance nt_name_countable : Countable nt_name.
Proof.
  refine (inj_countable'
    (fun n => match n with Name s => inl s | InitNt g => inr g end)
    (fun x => match x with inl s => Name s | inr g => InitNt g end) _).
  by intros [].
Defined.

(** Elements of start sets, follow sets and [followed_by] sets: a terminal,
    the marker [EMPTY] of start sets, or [END] (Python's [None]).  [EMPTY] is
    a sentinel, so it is kept apart from every terminal.  In the source it
    is the string ["(empty)"]: the two agree as long as no terminal is
    spelled ["(empty)"], which is the case of the sequences that are
    [marker_free] below. *)
Inductive tok : Type :=
  | EMPTY
  | END
  | Tk (t : terminal).

Global Instance tok_eq_dec : EqDecision tok.
Proof. solve_decision. Defined.

Global Instance tok_countable : Countable tok.
Proof.
  refine (inj_countable'
    (fun x => match x with EMPTY => inl false | END => inl true | Tk t => inr t end)
    (fun x => match x with inl false => EMPTY | inl true => END | inr t => Tk t end) _).
  by intros [].
Defined.

Record LookaheadRule : Type := mkLookaheadRule {
  la_set : gset tok;
  la_positive : bool
}.

Global Instance LookaheadRule_eq_dec : EqDecision LookaheadRule.
Proof. solve_decision. Defined.

Inductive symbol : Type :=
  | T (t : terminal)
  | Nt (n : nt_name)
  | Optional (inner : symbol)
  | LA (rule : LookaheadRule).

Global Instance symbol_eq_dec : EqDecision symbol.
Proof. solve_decision. Defined.

Definition is_optional (e : symbol) : bool :=
  match e with Optional _ => true | _ => false end.

Definition is_lookahead_rule (e : symbol) : bool :=
  match e with LA _ => true | _ => false end.

Definition is_terminal (e : symbol) : bool :=
  match e with T _ => true | _ => false end.

Definition is_nt (e : symbol) : bool :=
  match e with Nt _ => true | _ => false end.

(** Reduction expressions: an index into the body (a nonnegative integer,
    section 3), [None], [Some(e)], [CallMethod(name, args)] or ['accept']. *)
Inductive reduce_expr : Type :=
  | RInt (i : nat)
  | RNone
  | RSome (inner : reduce_expr)
  | RCallMethod (method : string) (args : list reduce_expr)
  | RAccept.

Record Production : Type := mkProduction {
  p_nt : nt_name;
  p_body : list symbol;
  p_action : reduce_expr
}.

Definition with_body (p : Production) (body : list symbol) : Production :=
  mkProduction (p_nt p) body (p_action p).

(** [grammar.nonterminals] is an insertion-ordered dictionary. *)
Record Grammar : Type := mkGrammar {
  nonterminals : list (nt_name * list Production);
  goals : list nt_name;
  init_nts : list nt_name
}.

Definition with_nonterminals (g : Grammar)
    (nts : list (nt_name * list Production)) : Grammar :=
  mkGrammar nts (goals g) (init_nts g).

(** Lookup in an insertion-ordered dictionary. *)
Fixpoint dict_get {K V} `{EqDecision K} (d : list (K * V)) (k : K) : option V :=
  match d with
  | [] => None
  | (k', v) :: d' => if decide (k = k') then Some v else dict_get d' k
  end.

(** [d[k] = v]: an existing key keeps its place. *)
Fixpoint dict_set {K V} `{EqDecision K} (d : list (K * V)) (k : K) (v : V)
    : list (K * V) :=
  match d with
  | [] => [(k, v)]
  | (k', v') :: d' =>
      if decide (k = k') then (k, v) :: d' else (k', v') :: dict_set d' k v
  end.

(** ** Lowering: expansion of optional symbols *)

Record Prod : Type := mkProd {
  prod_nt : nt_name;
  prod_source_index : nat;
  prod_rhs : list symbol;
  prod_removals : list nat;
  prod_action : reduce_expr
}.

(** [e.inner] *)
Definition inner_of (e : symbol) : symbol :=
  match e with Optional x => x | _ => e end.

(** [expand_optional_symbols_in_rhs(rhs, start_index)], the generator read
    as the list of what it yields.  The search loop is [list_find] on
    [rhs[start_index:]]; [fuel] bounds the depth of the recursion. *)
Fixpoint expand_optional_fuel (fuel : nat) (rhs : list symbol) (start_index : nat)
    : list (list symbol * list nat) :=
  match list_find (λ e, is_optional e = true) (drop start_index rhs) with
  | None => [(drop start_index rhs, [])]
  | Some (j, e) =>
      let i := start_index + j in
      match fuel with
      | 0 => []
      | S fuel' =>
          flat_map (λ '(expanded, r),
                      [ (take j (drop start_index rhs) ++ expanded, i :: r);
                        (take j (drop start_index rhs) ++ [inner_of e] ++ expanded, r) ])
                   (expand_optional_fuel fuel' rhs (S i))
      end
  end.

Definition expand_optional_symbols_in_rhs (rhs : list symbol) (start_index : nat)
    : list (list symbol * list nat) :=
  expand_optional_fuel (length rhs) rhs start_index.

(** The same enumeration by recursion on the suffix [rhs[k:]]; used to reason
    about [expand_optional_symbols_in_rhs]. *)
Fixpoint expand_suffix (suffix : list symbol) (k : nat)
    : list (list symbol * list nat) :=
  match suffix with
  | [] => [([], [])]
  | e :: tl =>
      if is_optional e
      then flat_map (λ '(expanded, r), [ (expanded, k :: r); (inner_of e :: expanded, r) ])
                    (expand_suffix tl (S k))
      else map (λ '(expanded, r), (e :: expanded, r)) (expand_suffix tl (S k))
  end.

(** [sum(1 for r in removals if r < expr)] *)
Definition removals_below (removals : list nat) (i : nat) : nat :=
  length (filter (λ r, r < i) removals).

(** [adjust_reduce_expr], the closure of [expand_all_optional_elements], with
    the two variables it captures ([p.body] and [removals]) as arguments. *)
Fixpoint adjust_reduce_expr (body : list symbol) (removals : list nat)
    (expr : reduce_expr) : result reduce_expr :=
  match expr with
  | RInt i =>
      if decide (i ∈ removals) then Ok RNone
      else
        e ← of_option IndexError (body !! i);
        let was_optional := is_optional e in
        let i' := i - removals_below removals i in
        if was_optional then Ok (RSome (RInt i')) else Ok (RInt i')
  | RNone => Ok RNone
  | RSome inner => RSome <$> adjust_reduce_expr body removals inner
  | RCallMethod method args =>
      RCallMethod method <$> rmap (adjust_reduce_expr body removals) args
  | RAccept => Ok RAccept
  end.

(** The body of the innermost loop of [expand_all_optional_elements]: the
    [Production] appended to [expanded_grammar[nt]] and the [Prod] appended to
    [prods]. *)
Definition expand_one (nt : nt_name) (prod_index : nat) (p : Production)
    (x : list symbol * list nat) : result (Production * Prod) :=
  let '(expanded_rhs, removals) := x in
  adjusted_action ← adjust_reduce_expr (p_body p) removals (p_action p);
  Ok (mkProduction (p_nt p) expanded_rhs adjusted_action,
      mkProd nt prod_index expanded_rhs removals adjusted_action).

Definition expand_production (nt : nt_name) (x : nat * Production)
    : result (list (Production * Prod)) :=
  rmap (expand_one nt x.1 x.2) (expand_optional_symbols_in_rhs (p_body x.2) 0).

Definition expand_nt (nt : nt_name) (plist : list Production)
    : result (list (Production * Prod)) :=
  (λ ll, concat ll) <$> rmap (expand_production nt) (imap pair plist).

Definition by_nt_dict : Type := list (nt_name * list (nat * list symbol)).

(** The outer loop, threading [expanded_grammar], [prods] and
    [prods_with_indexes_by_nt]. *)
Fixpoint expand_all_loop (nts : list (nt_name * list Production))
    (expanded_grammar : list (nt_name * list Production))
    (prods : list Prod) (by_nt : by_nt_dict)
    : result (list (nt_name * list Production) * list Prod * by_nt_dict) :=
  match nts with
  | [] => Ok (expanded_grammar, prods, by_nt)
  | (nt, plist) :: nts' =>
      pairs ← expand_nt nt plist;
      expand_all_loop nts'
        (expanded_grammar ++ [(nt, pairs.*1)])
        (prods ++ pairs.*2)
        (by_nt ++ [(nt, imap (λ k pr, (length prods + k, prod_rhs pr)) pairs.*2)])
  end.

Definition expand_all_optional_elements (grammar : Grammar)
    : result (Grammar * list Prod * by_nt_dict) :=
  '(expanded_grammar, prods, by_nt) ← expand_all_loop (nonterminals grammar) [] [] [];
  Ok (with_nonterminals grammar expanded_grammar, prods, by_nt).

(** ** Lowering: empty right-hand sides *)

(** [make_epsilon_free_step_2] *)
Definition make_epsilon_free_step_2 (grammar : Grammar) : Grammar :=
  let goal_nts := goals grammar in
  with_nonterminals grammar
    (map (λ '(nt, plist),
            (nt, filter (λ p, 0 < length (p_body p) ∨ nt ∈ goal_nts) plist))
         (nonterminals grammar)).

(** ** Operations on grammars *)

(** [fix(f, start)]: iterate [f] until the value no longer changes.  The
    Python loop is unbounded; [fuel] bounds the number of iterations and
    running out of it is reported as [OutOfFuel]. *)
Fixpoint fix_loop {A} `{EqDecision A} (fuel : nat) (f : A → result A)
    (prev current : A) : result A :=
  if decide (current = prev) then Ok current
  else match fuel with
       | 0 => Raise OutOfFuel
       | S fuel' => next ← f current; fix_loop fuel' f current next
       end.

Definition fix_ {A} `{EqDecision A} (fuel : nat) (f : A → result A) (start : A)
    : result A :=
  current ← f start; fix_loop fuel f start current.

(** [production_is_empty] of [empty_nt_set]. *)
Definition production_is_empty (empties : gset nt_name) (p : Production) : bool :=
  forallb (λ e, is_lookahead_rule e
                || is_optional e
                || match e with Nt n => bool_decide (n ∈ empties) | _ => false end)
          (p_body p).

Definition empty_nt_set_step (grammar : Grammar) (empties : gset nt_name)
    : gset nt_name :=
  list_to_set
    (map fst (filter (λ x, existsb (production_is_empty empties) x.2 = true)
                     (nonterminals grammar))).

(** [empty_nt_set(grammar)].  The iteration starts from the empty set and
    only grows, so it stops within as many rounds as there are
    nonterminals. *)
Definition empty_nt_set (grammar : Grammar) : result (gset nt_name) :=
  fix_ (S (length (nonterminals grammar)))
       (λ empties, Ok (empty_nt_set_step grammar empties)) ∅.

(** The [for e in rhs] loop of [check_cycle_free]; [None] is a [break],
    [Some result] the [else] branch of the loop. *)
Fixpoint single_nt_scan (empties : gset nt_name) (rhs : list symbol)
    (result : list nt_name) (all_possibly_empty_so_far : bool)
    : option (list nt_name) :=
  match rhs with
  | [] => Some result
  | e :: rest =>
      match e with
      | T _ => None
      | Nt n =>
          if decide (n ∈ empties) then
            single_nt_scan empties rest
              (if all_possibly_empty_so_far then result ++ [n] else result)
              all_possibly_empty_so_far
          else if negb all_possibly_empty_so_far then None
          else single_nt_scan empties rest [n] false
      | Optional inner =>
          single_nt_scan empties rest
            (match inner with Nt m => result ++ [m] | _ => result end)
            all_possibly_empty_so_far
      | LA _ => single_nt_scan empties rest result all_possibly_empty_so_far
      end
  end.

(** [direct_produces[orig]] after the loops over the productions of [orig]. *)
Definition direct_produces_of (empties : gset nt_name) (plist : list Production)
    : gset nt_name :=
  foldl (λ acc p,
           foldl (λ acc x,
                    match single_nt_scan empties x.1 [] true with
                    | Some result => acc ∪ list_to_set result
                    | None => acc
                    end)
                 acc (expand_optional_symbols_in_rhs (p_body p) 0))
        ∅ plist.

(** [step] of [check_cycle_free]; [produces[a]] raises [KeyError] on a
    nonterminal that is not a key. *)
Definition produces_step (produces : list (nt_name * gset nt_name))
    : result (list (nt_name * gset nt_name)) :=
  rmap (λ x,
          reached ← rmap (λ a, of_option KeyError (dict_get produces a))
                         (elements x.2);
          Ok (x.1, x.2 ∪ ⋃ reached))
       produces.

(** [check_cycle_free(grammar)] *)
Definition check_cycle_free (grammar : Grammar) : result unit :=
  empties ← empty_nt_set grammar;
  let direct_produces :=
    map (λ x, (x.1, direct_produces_of empties x.2)) (nonterminals grammar) in
  produces ← fix_ (S (length direct_produces * length direct_produces))
                  produces_step direct_produces;
  rforeach (λ x,
              dest ← of_option KeyError (dict_get produces x.1);
              if decide (x.1 ∈ dest)
              then Raise (ValueError "invalid grammar: nonterminal can produce itself")
              else Ok tt)
           (nonterminals grammar).

(** [check_lookahead_rules(grammar)] *)
Definition check_lookahead_rules (grammar : Grammar) : result unit :=
  _ ← check_cycle_free grammar;
  rforeach (λ x,
    rforeach (λ source_production,
      rforeach (λ y,
                  match last y.1 with
                  | Some e =>
                      if is_lookahead_rule e
                      then Raise (ValueError
                             "invalid grammar: lookahead restriction at end of production")
                      else Ok tt
                  | None => Ok tt
                  end)
               (expand_optional_symbols_in_rhs (p_body source_production) 0))
      x.2)
    (nonterminals grammar).

(** [make_epsilon_free_step_1(grammar)] *)
Definition make_epsilon_free_step_1 (grammar : Grammar) : result Grammar :=
  empties ← empty_nt_set grammar;
  let hack e :=
    match e with
    | Nt n => if decide (n ∈ empties) then Optional e else e
    | _ => e
    end in
  Ok (with_nonterminals grammar
        (map (λ x, (x.1, map (λ p, with_body p (map hack (p_body p))) x.2))
             (nonterminals grammar))).

(** ** Start sets and follow sets *)

(** [for x in l: st = body(st, x)] where the body may raise. *)
Definition rfoldl {A S} (f : S → A → result S) : S → list A → result S :=
  fix go st l :=
    match l with
    | [] => Ok st
    | x :: l' => st' ← f st x; go st' l'
    end.

(** The set a lookahead rule leaves of [future]: [future & e.set] or
    [future - e.set]. *)
Definition restrict (rule : LookaheadRule) (future : gset tok) : gset tok :=
  if la_positive rule then future ∩ la_set rule else future ∖ la_set rule.

(** The loop of [seq_start], entered with the set [s] built so far and the
    rest of the sequence; the recursive call on [seq[i + 1:]] is the same loop
    started afresh from [{EMPTY}].  On a lookahead rule the loop returns
    [future] alone: [s] is not part of the result. *)
Fixpoint seq_start_loop (start : gmap nt_name (gset tok)) (s : gset tok)
    (seq : list symbol) : result (gset tok) :=
  match seq with
  | [] => Ok s
  | e :: rest =>
      if decide (EMPTY ∉ s) then Ok s
      else
        let s := s ∖ {[ EMPTY ]} in
        match e with
        | T t => seq_start_loop start (s ∪ {[ Tk t ]}) rest
        | Nt n =>
            start_e ← of_option KeyError (start !! n);
            seq_start_loop start (s ∪ start_e) rest
        | LA rule =>
            future ← seq_start_loop start {[ EMPTY ]} rest;
            Ok (restrict rule future)
        | Optional _ => Raise AssertionError
        end
  end.

(** [seq_start(grammar, start, seq)] *)
Definition seq_start (start : gmap nt_name (gset tok)) (seq : list symbol)
    : result (gset tok) :=
  seq_start_loop start {[ EMPTY ]} seq.

(** One round of the [for nt, plist in grammar.nonterminals.items()] loop of
    [start_sets]; [start] is updated in place, so later nonterminals of the
    same round see the new sets. *)
Fixpoint start_sets_round (items : list (nt_name * list Production))
    (start : gmap nt_name (gset tok)) (done : bool)
    : result (gmap nt_name (gset tok) * bool) :=
  match items with
  | [] => Ok (start, done)
  | (nt, plist) :: items' =>
      sets ← rmap (λ p, seq_start start (p_body p)) plist;
      let nt_start : gset tok := ⋃ sets in
      current ← of_option KeyError (start !! nt);
      if decide (nt_start ≠ current)
      then start_sets_round items' (<[nt := nt_start]> start) false
      else start_sets_round items' start done
  end.

Fixpoint start_sets_loop (fuel : nat) (grammar : Grammar)
    (start : gmap nt_name (gset tok)) : result (gmap nt_name (gset tok)) :=
  match fuel with
  | 0 => Raise OutOfFuel
  | S fuel' =>
      match start_sets_round (nonterminals grammar) start true with
      | Ok (new_start, true) => Ok new_start
      | Ok (new_start, false) => start_sets_loop fuel' grammar new_start
      | Raise e => Raise e
      end
  end.

(** The number of rounds [start_sets] is given: the Python loop is
    unbounded, and a run that needs more rounds than this is reported as
    [OutOfFuel]. *)
Definition start_sets_fuel (grammar : Grammar) : nat :=
  S (length (nonterminals grammar)
     * S (sum_list (map (λ x, sum_list (map (λ p, length (p_body p)) x.2))
                        (nonterminals grammar)))).

(** [start_sets(grammar)] *)
Definition start_sets (grammar : Grammar) : result (gmap nt_name (gset tok)) :=
  start_sets_loop (start_sets_fuel grammar) grammar
    (list_to_map (map (λ x, (x.1, ∅)) (nonterminals grammar))).

(** The set [s] that the loop of [suffix_start_list] computes for the element
    [e], from [sets[-1]].  [debug] is Python's [__debug__]: the [assert]
    statements run unless the interpreter was started with [-O]. *)
Definition suffix_start_of (debug : bool) (start : gmap nt_name (gset tok))
    (e : symbol) (previous : gset tok) : result (gset tok) :=
  match e with
  | T t => Ok {[ Tk t ]}
  | Nt n =>
      s ← of_option KeyError (start !! n);
      Ok (if decide (EMPTY ∈ s) then (s ∖ {[ EMPTY ]}) ∪ previous else s)
  | LA rule => Ok (restrict rule previous)
  | Optional _ => Raise (if debug then AssertionError else AttributeError)
  end.

(** The loop of [suffix_start_list]; [todo] is what is left of
    [reversed(rhs)]. *)
Fixpoint suffix_start_loop (debug : bool) (start : gmap nt_name (gset tok))
    (rhs todo : list symbol) (sets : list (gset tok)) : result (list (gset tok)) :=
  match todo with
  | [] => Ok sets
  | e :: todo' =>
      previous ← of_option IndexError (last sets);
      s ← suffix_start_of debug start e previous;
      _ ← (if debug then
             expected ← seq_start start (drop (length rhs - length sets) rhs);
             if decide (s = expected) then Ok tt else Raise AssertionError
           else Ok tt) : result unit;
      suffix_start_loop debug start rhs todo' (sets ++ [s])
  end.

Definition suffix_start_list (debug : bool) (start : gmap nt_name (gset tok))
    (rhs : list symbol) : result (list (gset tok)) :=
  sets ← suffix_start_loop debug start rhs (reverse rhs) [ {[ EMPTY ]} ];
  let sets := reverse sets in
  _ ← (if debug then
         expected ← rmap (λ i, seq_start start (drop i rhs)) (seq 0 (S (length rhs)));
         if decide (sets = expected) then Ok tt else Raise AssertionError
       else Ok tt) : result unit;
  Ok sets.

(** [make_start_set_cache(grammar, prods, start)] *)
Definition make_start_set_cache (debug : bool) (prods : list Prod)
    (start : gmap nt_name (gset tok)) : result (list (list (gset tok))) :=
  rmap (λ prod, suffix_start_list debug start (prod_rhs prod)) prods.

(** [follow[nt]] on a [defaultdict(OrderedSet)]. *)
Definition follow_of (follow : gmap nt_name (gset tok)) (nt : nt_name) : gset tok :=
  default ∅ (follow !! nt).

(** [prods_with_indexes_by_nt[nt]] on a [defaultdict(list)]. *)
Definition prods_of (by_nt : by_nt_dict) (nt : nt_name) : list (nat * list symbol) :=
  default [] (dict_get by_nt nt).

(** [s.add(x)] on an [OrderedSet] kept as a list. *)
Definition ordered_add {A} `{EqDecision A} (s : list A) (x : A) : list A :=
  if decide (x ∈ s) then s else s ++ [x].

(** The variables [visited], [follow] and [subsumes_relation] that the
    closure [visit] of [follow_sets] updates. *)
Record follow_state : Type := mkFollowState {
  visited : gset nt_name;
  follow : gmap nt_name (gset tok);
  subsumes_relation : list (nt_name * nt_name)
}.

(** [visit(nt)] of [follow_sets]; [fuel] bounds the depth of the recursion. *)
Fixpoint visit (fuel : nat) (by_nt : by_nt_dict)
    (start_set_cache : list (list (gset tok))) (nt : nt_name) (st : follow_state)
    : result follow_state :=
  match fuel with
  | 0 => Raise OutOfFuel
  | S fuel' =>
      if decide (nt ∈ visited st) then Ok st
      else
        rfoldl (λ st x,
          rfoldl (λ st y,
            match y.2 with
            | Nt symbol =>
                st ← visit fuel' by_nt start_set_cache symbol st;
                row ← of_option IndexError (start_set_cache !! x.1);
                after ← of_option IndexError (row !! S y.1);
                let '(after, relation) :=
                  if decide (EMPTY ∈ after)
                  then (after ∖ {[ EMPTY ]},
                        ordered_add (subsumes_relation st) (symbol, nt))
                  else (after, subsumes_relation st) in
                Ok (mkFollowState (visited st)
                      (<[symbol := follow_of (follow st) symbol ∪ after]> (follow st))
                      relation)
            | _ => Ok st
            end) st (imap pair x.2))
          (mkFollowState ({[ nt ]} ∪ visited st) (follow st) (subsumes_relation st))
          (prods_of by_nt nt)
  end.

(** One round over [subsumes_relation]. *)
Fixpoint subsume_round (relation : list (nt_name * nt_name))
    (follow : gmap nt_name (gset tok)) (done : bool)
    : gmap nt_name (gset tok) * bool :=
  match relation with
  | [] => (follow, done)
  | (target, source) :: relation' =>
      if decide (follow_of follow source ∖ follow_of follow target ≠ ∅)
      then subsume_round relation'
             (<[target := follow_of follow target ∪ follow_of follow source]> follow)
             false
      else subsume_round relation' follow done
  end.

Fixpoint subsume_loop (fuel : nat) (relation : list (nt_name * nt_name))
    (follow : gmap nt_name (gset tok)) : result (gmap nt_name (gset tok)) :=
  match fuel with
  | 0 => Raise OutOfFuel
  | S fuel' =>
      match subsume_round relation follow true with
      | (follow', true) => Ok follow'
      | (follow', false) => subsume_loop fuel' relation follow'
      end
  end.

(** [follow_sets(grammar, prods_with_indexes_by_nt, start_set_cache)].  The
    depth of [visit] is bounded by the number of nonterminals that have
    productions; a round of the final loop that is not the last adds a
    terminal to some follow set. *)
Definition follow_sets (grammar : Grammar) (by_nt : by_nt_dict)
    (start_set_cache : list (list (gset tok))) : result (gmap nt_name (gset tok)) :=
  let seeded :=
    foldl (λ follow init_nt, <[init_nt := follow_of follow init_nt ∪ {[ END ]}]> follow)
          ∅ (init_nts grammar) in
  st ← rfoldl (λ st nt, visit (2 + length by_nt) by_nt start_set_cache nt st)
              (mkFollowState ∅ seeded []) (init_nts grammar);
  subsume_loop
    (S (length (subsumes_relation st)
        * size (⋃ (map snd (map_to_list (follow st))) : gset tok)))
    (subsumes_relation st) (follow st).

(** ** The lowering steps of [generate_parser]

    [expand_function_nonterminals] is left out: the grammars considered here
    have no parameterized nonterminals, every nonterminal is reachable from a
    goal, and the step returns such a grammar as it is. *)
Definition lower_grammar (grammar : Grammar) : result (Grammar * list Prod * by_nt_dict) :=
  _ ← check_cycle_free grammar;
  _ ← check_lookahead_rules grammar;
  grammar1 ← make_epsilon_free_step_1 grammar;
  match expand_all_optional_elements grammar1 with
  | Ok (grammar2, prods, by_nt) => Ok (make_epsilon_free_step_2 grammar2, prods, by_nt)
  | Raise e => Raise e
  end.

(** ** Derivations

    The reference against which start sets are judged: [derives grammar α β]
    when the sentential form [β] is obtained from [α] by replacing
    nonterminals by bodies of their productions, any number of times. *)
Inductive derives (grammar : Grammar) : list symbol → list symbol → Prop :=
  | derives_refl α : derives grammar α α
  | derives_step α n β plist p γ :
      dict_get (nonterminals grammar) n = Some plist →
      p ∈ plist →
      derives grammar (α ++ p_body p ++ β) γ →
      derives grammar (α ++ Nt n :: β) γ.

(** ** LR items *)

Global Instance LookaheadRule_countable : Countable LookaheadRule.
Proof.
  refine (inj_countable' (λ r, (la_set r, la_positive r))
                         (λ x, mkLookaheadRule x.1 x.2) _).
  by intros [].
Defined.

(** Modelled from the spec: [lookahead_contains] of [grammar.py], which is
    not among the sources: whether an item's lookahead restriction (absent,
    or a [LookaheadRule]) admits the terminal [t]. *)
Definition lookahead_contains (rule : option LookaheadRule) (t : terminal) : bool :=
  match rule with
  | None => true
  | Some r =>
      if la_positive r then bool_decide (Tk t ∈ la_set r)
      else bool_decide (Tk t ∉ la_set r)
  end.

(** Modelled from the spec: [lookahead_intersect] of [grammar.py], which is
    not among the sources: the restriction that admits what both [a] and [b]
    admit. *)
Definition lookahead_intersect (a b : option LookaheadRule) : option LookaheadRule :=
  match a, b with
  | None, _ => b
  | _, None => a
  | Some ra, Some rb =>
      Some (match la_positive ra, la_positive rb with
            | true, true => mkLookaheadRule (la_set ra ∩ la_set rb) true
            | true, false => mkLookaheadRule (la_set ra ∖ la_set rb) true
            | false, true => mkLookaheadRule (la_set rb ∖ la_set ra) true
            | false, false => mkLookaheadRule (la_set ra ∪ la_set rb) false
            end)
  end.

Record LRItem : Type := mkLRItem {
  prod_index : nat;
  offset : nat;
  lookahead : option LookaheadRule;
  followed_by : gset tok
}.

Global Instance LRItem_eq_dec : EqDecision LRItem.
Proof. solve_decision. Defined.

(** [item_key] of [State.update]; the same triple indexes the dictionary of
    [State.__init__] and makes up [State.key]. *)
Definition item_key (item : LRItem) : nat * nat * option LookaheadRule :=
  (prod_index item, offset item, lookahead item).

Record PgenContext : Type := mkPgenContext {
  context_grammar : Grammar;
  context_prods : list Prod;
  context_prods_with_indexes_by_nt : by_nt_dict;
  context_start_set_cache : list (list (gset tok));
  context_follow : gmap nt_name (gset tok)
}.

(** [l[-k:]] *)
Definition last_n {A} (l : list A) (k : nat) : list A :=
  match k with
  | 0 => l
  | S _ => drop (length l - k) l
  end.

(** [item_history] of [assert_items_are_compatible]. *)
Definition item_history (prods : list Prod) (item : LRItem) : result (list symbol) :=
  prod ← of_option IndexError (prods !! prod_index item);
  Ok (filter (λ e, is_lookahead_rule e = false) (take (offset item) (prod_rhs prod))).

(** [assert_items_are_compatible(grammar, prods, items)]; [max] of an empty
    sequence raises [ValueError], and returns the first of several maxima. *)
Definition assert_items_are_compatible (prods : list Prod) (items : list LRItem)
    : result unit :=
  pairs ← rmap (λ item, history ← item_history prods item; Ok (item, history)) items;
  match pairs with
  | [] => Raise (ValueError "max() arg is an empty sequence")
  | first :: others =>
      let known_history :=
        (foldl (λ best pair, if length best.2 <? length pair.2 then pair else best)
               first others).2 in
      rforeach (λ pair : LRItem * list symbol,
                  if decide (take (offset pair.1) pair.2
                             = last_n known_history (offset pair.1))
                  then Ok tt else Raise AssertionError)
               pairs
  end.

(** [PgenContext.make_lr_item]: the loop that steps over lookahead rules,
    run on [rhs[offset:]].  The block after it is disabled in the source
    ([if False]), so an item is always returned. *)
Fixpoint skip_lookahead_rules (rest : list symbol) (offset : nat)
    (lookahead : option LookaheadRule) : nat * option LookaheadRule :=
  match rest with
  | LA rule :: rest' =>
      skip_lookahead_rules rest' (S offset) (lookahead_intersect lookahead (Some rule))
  | _ => (offset, lookahead)
  end.

Definition make_lr_item (context : PgenContext) (prod_index offset : nat)
    (lookahead : option LookaheadRule) (followed_by : gset tok) : result LRItem :=
  prod ← of_option IndexError (context_prods context !! prod_index);
  let '(offset', lookahead') :=
    skip_lookahead_rules (drop offset (prod_rhs prod)) offset lookahead in
  Ok (mkLRItem prod_index offset' lookahead' followed_by).

(** [specific_follow(start_set_cache, prod_id, offset, followed_by)] *)
Definition specific_follow (start_set_cache : list (list (gset tok)))
    (prod_id offset : nat) (followed_by : gset tok) : result (gset tok) :=
  row ← of_option IndexError (start_set_cache !! prod_id);
  result ← of_option IndexError (row !! (offset + 1));
  Ok (if decide (EMPTY ∈ result) then result ∖ {[ EMPTY ]} ∪ followed_by else result).

(** ** States

    A [State] object is shared between the list [states], the dictionary
    [states_by_key] and the queue [todo] of [analyze_states], and is updated
    in place; it is kept once, in [states], and referred to by its index
    there, which is its [id].  [_debug_traceback] and [_hash] only serve
    error messages and hashing and are left out.

    [key] is the text of the sorted triples [(prod_index, offset, lookahead)]
    of the items.  The items of a state have distinct triples, so this text
    is a canonical form of the set of those triples, and the set stands for
    it.  The sorting itself is taken to succeed: [sorted] compares the items
    as tuples, and the [TypeError] that it raises when it has to compare the
    lookaheads of two items with the same [prod_index] and [offset], one
    [None] and one a rule, is not modelled. *)
Record State : Type := mkState {
  lr_items : list LRItem;
  key : gset (nat * nat * option LookaheadRule);
  id : option nat;
  action_row : option (list (tok * Z));
  ctn_row : option (list (nt_name * nat))
}.

(** The dictionary [a] of [State.__init__] after the loop over [items]. *)
Definition consolidate (items : list LRItem)
    : list ((nat * nat * option LookaheadRule) * gset tok) :=
  foldl (λ a item,
           dict_set a (item_key item)
                    (default ∅ (dict_get a (item_key item)) ∪ followed_by item))
        [] items.

(** [State.__init__(context, items)] *)
Definition State_init (context : PgenContext) (items : list LRItem) : result State :=
  let a := consolidate items in
  let lr_items := map (λ kv, mkLRItem kv.1.1.1 kv.1.1.2 kv.1.2 kv.2) a in
  let key := list_to_set (map item_key lr_items) in
  _ ← assert_items_are_compatible (context_prods context) lr_items;
  Ok (mkState lr_items key None None None).

(** The lazy [any(...)] of [State.update]. *)
Fixpoint any_new_followed_by
    (new_followed_by : list ((nat * nat * option LookaheadRule) * gset tok))
    (items : list LRItem) : result bool :=
  match items with
  | [] => Ok false
  | item :: items' =>
      new ← of_option KeyError (dict_get new_followed_by (item_key item));
      if decide (new ∖ followed_by item ≠ ∅) then Ok true
      else any_new_followed_by new_followed_by items'
  end.

(** [State.update(self, new_state)]: the state after the call and the value
    returned. *)
Definition State_update (self new_state : State) : result (State * bool) :=
  if decide (key new_state ≠ key self) then Raise AssertionError
  else if decide (length (lr_items self) ≠ length (lr_items new_state))
  then Raise AssertionError
  else
    let new_followed_by :=
      foldl (λ d item, dict_set d (item_key item) (followed_by item))
            [] (lr_items new_state) in
    changed ← any_new_followed_by new_followed_by (lr_items self);
    if negb changed then Ok (self, false)
    else
      merged ← rmap (λ item,
                 new ← of_option KeyError (dict_get new_followed_by (item_key item));
                 Ok (mkLRItem (prod_index item) (offset item) (lookahead item)
                              (followed_by item ∪ new)))
              (lr_items self);
      Ok (mkState (foldl ordered_add [] merged) (key self) (id self)
                  (action_row self) (ctn_row self),
          true).

(** [State.closure(self)]; [fuel] bounds the number of items taken from
    [closure_todo]. *)
Fixpoint closure_loop (fuel : nat) (context : PgenContext)
    (closure closure_todo : list LRItem) : result (list LRItem) :=
  match closure_todo with
  | [] => Ok closure
  | item :: closure_todo' =>
      match fuel with
      | 0 => Raise OutOfFuel
      | S fuel' =>
          prod ← of_option IndexError (context_prods context !! prod_index item);
          match prod_rhs prod !! offset item with
          | Some (Nt next_symbol) =>
              both ← rfoldl (λ (acc : list LRItem * list LRItem)
                               (x : nat * list symbol),
                  still_there ←
                    match x.2 with
                    | _ :: _ => Ok true
                    | [] =>
                        plist ← of_option KeyError
                                  (dict_get (nonterminals (context_grammar context))
                                            next_symbol);
                        Ok (existsb (λ p, bool_decide (p_body p = x.2)) plist)
                    end;
                  if still_there : bool then
                    followers ← specific_follow (context_start_set_cache context)
                                  (prod_index item) (offset item) (followed_by item);
                    new_item ← make_lr_item context x.1 0 (lookahead item) followers;
                    if decide (new_item ∈ acc.1) then Ok acc
                    else Ok (acc.1 ++ [new_item], acc.2 ++ [new_item])
                  else Ok acc)
                (closure, closure_todo')
                (prods_of (context_prods_with_indexes_by_nt context) next_symbol);
              closure_loop fuel' context both.1 both.2
          | _ => closure_loop fuel' context closure closure_todo'
          end
      end
  end.

Definition State_closure (fuel : nat) (context : PgenContext) (self : State)
    : result (list LRItem) :=
  closure_loop fuel context (lr_items self) (lr_items self).

(** The tables [shift_items], [ctn_items] and [reduce_prods] of
    [State.analyze]. *)
Record step1_tables : Type := mkStep1 {
  shift_items : list (terminal * list LRItem);
  ctn_items : list (nt_name * list LRItem);
  reduce_prods : list (tok * nat)
}.

(** [d[k].add(x)] on a [defaultdict(OrderedSet)]. *)
Definition dict_add {K A} `{EqDecision K} `{EqDecision A}
    (d : list (K * list A)) (k : K) (x : A) : list (K * list A) :=
  dict_set d k (ordered_add (default [] (dict_get d k)) x).

(** The [for t in item.followed_by] loop of [State.analyze].  It runs over
    the terminals in the order of [elements]; the entries it installs, and
    whether it raises, do not depend on the order. *)
Definition install_reduces (context : PgenContext) (nt : nt_name) (item : LRItem)
    (reduce_prods : list (tok * nat)) : result (list (tok * nat)) :=
  rfoldl (λ reduce_prods t,
            if decide (t ∈ follow_of (context_follow context) nt) then
              match dict_get reduce_prods t with
              | Some _ => Raise (ValueError "reduce-reduce conflict")
              | None => Ok (dict_set reduce_prods t (prod_index item))
              end
            else Ok reduce_prods)
         reduce_prods (elements (followed_by item)).

(** The body of the [for item in self.closure()] loop of [State.analyze]. *)
Definition analyze_item (context : PgenContext) (tables : step1_tables)
    (item : LRItem) : result step1_tables :=
  prod ← of_option IndexError (context_prods context !! prod_index item);
  let nt := prod_nt prod in
  let rhs := prod_rhs prod in
  match rhs !! offset item with
  | Some next_symbol =>
      match next_symbol with
      | T t =>
          if lookahead_contains (lookahead item) t then
            next_item ← make_lr_item context (prod_index item) (offset item + 1)
                          None (followed_by item);
            Ok (mkStep1 (dict_add (shift_items tables) t next_item)
                        (ctn_items tables) (reduce_prods tables))
          else Ok tables
      | Nt n =>
          next_item ← make_lr_item context (prod_index item) (offset item + 1)
                        None (followed_by item);
          Ok (mkStep1 (shift_items tables)
                      (dict_add (ctn_items tables) n next_item) (reduce_prods tables))
      | _ => Raise AssertionError
      end
  | None =>
      match lookahead item with
      | Some _ =>
          Raise (ValueError
            "invalid grammar: lookahead restriction still active at end of production")
      | None =>
          reduce_prods' ← install_reduces context nt item (reduce_prods tables);
          Ok (mkStep1 (shift_items tables) (ctn_items tables) reduce_prods')
      end
  end.

(** Step 1 of [State.analyze], on the items of the closure. *)
Definition analyze_step1 (context : PgenContext) (closure : list LRItem)
    : result step1_tables :=
  rfoldl (analyze_item context) (mkStep1 [] [] []) closure.

(** The variables [states], [states_by_key] and [todo] of [analyze_states]
    that the closure [get_state_index] updates.  [states_by_key] and [todo]
    hold indexes into [states]. *)
Record builder : Type := mkBuilder {
  states : list State;
  states_by_key : list (gset (nat * nat * option LookaheadRule) * nat);
  todo : list nat
}.

(** [get_state_index(successor)] of [analyze_states]. *)
Definition get_state_index (b : builder) (successor : State) : result (nat * builder) :=
  match dict_get (states_by_key b) (key successor) with
  | Some i =>
      state ← of_option IndexError (states b !! i);
      updated ← State_update state successor;
      state_id ← of_option AttributeError (id updated.1);
      Ok (state_id,
          mkBuilder (<[i := updated.1]> (states b)) (states_by_key b)
                    (if updated.2 then todo b ++ [i] else todo b))
  | None =>
      let i := length (states b) in
      let state := mkState (lr_items successor) (key successor) (Some i)
                           (action_row successor) (ctn_row successor) in
      Ok (i, mkBuilder (states b ++ [state])
                       (dict_set (states_by_key b) (key state) i)
                       (todo b ++ [i]))
  end.

(** The part of [generate_parser] between the lowering steps and the call of
    [analyze_states]: the data gathered in the [PgenContext]. *)
Definition make_context (debug : bool) (grammar : Grammar) : result PgenContext :=
  match lower_grammar grammar with
  | Ok (grammar, prods, prods_with_indexes_by_nt) =>
      start ← start_sets grammar;
      start_set_cache ← make_start_set_cache debug prods start;
      follow ← follow_sets grammar prods_with_indexes_by_nt start_set_cache;
      Ok (mkPgenContext grammar prods prods_with_indexes_by_nt start_set_cache follow)
  | Raise e => Raise e
  end.

Section tables.

(** [ACCEPT] of [pgen_runtime.py], which is not among the sources: a reserved
    integer. *)
Context (ACCEPT : Z).

(** The first loop of step 2 of [State.analyze]: its body, on the pair of
    [action_row] and the variables of [analyze_states], and the loop. *)
Definition encode_shift (context : PgenContext) (acc : list (tok * Z) * builder)
    (x : terminal * list LRItem) : result (list (tok * Z) * builder) :=
  shift_state ← State_init context x.2;
  r ← get_state_index acc.2 shift_state;
  Ok (dict_set acc.1 (Tk x.1) (Z.of_nat r.1), r.2).

Definition encode_shifts (context : PgenContext) (b : builder)
    (shift_items : list (terminal * list LRItem))
    : result (list (tok * Z) * builder) :=
  rfoldl (encode_shift context) ([], b) shift_items.

(** The second loop of step 2 of [State.analyze]. *)
Definition encode_reduces (context : PgenContext) (action_row : list (tok * Z))
    (reduce_prods : list (tok * nat)) : result (list (tok * Z)) :=
  rfoldl (λ action_row (x : tok * nat),
            prod ← of_option IndexError (context_prods context !! x.2);
            match dict_get action_row x.1 with
            | Some _ => Raise (ValueError "shift-reduce conflict")
            | None =>
                Ok (dict_set action_row x.1
                      (match prod_nt prod with
                       | InitNt _ => ACCEPT
                       | _ => (- Z.of_nat x.2 - 1)%Z
                       end))
            end)
         action_row reduce_prods.

(** The dictionary comprehension that builds [ctn_row]: one entry, and the
    whole. *)
Definition encode_ctn (context : PgenContext) (acc : list (nt_name * nat) * builder)
    (x : nt_name * list LRItem) : result (list (nt_name * nat) * builder) :=
  ctn_state ← State_init context x.2;
  r ← get_state_index acc.2 ctn_state;
  Ok (dict_set acc.1 x.1 r.1, r.2).

Definition encode_ctns (context : PgenContext) (b : builder)
    (ctn_items : list (nt_name * list LRItem))
    : result (list (nt_name * nat) * builder) :=
  rfoldl (encode_ctn context) ([], b) ctn_items.

(** [State.analyze(self, get_state_index)], for the state [states[i]]. *)
Definition State_analyze (fuel : nat) (context : PgenContext) (b : builder) (i : nat)
    : result builder :=
  self ← of_option IndexError (states b !! i);
  closure ← State_closure fuel context self;
  tables ← analyze_step1 context closure;
  shifted ← encode_shifts context b (shift_items tables);
  action_row ← encode_reduces context shifted.1 (reduce_prods tables);
  ctns ← encode_ctns context shifted.2 (ctn_items tables);
  self' ← of_option IndexError (states ctns.2 !! i);
  Ok (mkBuilder
        (<[i := mkState (lr_items self') (key self') (id self')
                        (Some action_row) (Some ctns.1)]> (states ctns.2))
        (states_by_key ctns.2) (todo ctns.2)).

(** [prod == Prod(init_nt, 0, [init_nt.goal], removals=[], action="accept")],
    the test behind [prods.index(...)] in [analyze_states]. *)
Definition is_init_prod (init_nt : nt_name) (goal : string) (prod : Prod) : bool :=
  bool_decide (prod_nt prod = init_nt)
  && bool_decide (prod_source_index prod = 0)
  && bool_decide (prod_rhs prod = [Nt (Name goal)])
  && bool_decide (prod_removals prod = [])
  && match prod_action prod with RAccept => true | _ => false end.

(** The loop [while todo] of [analyze_states]. *)
Fixpoint analyze_loop (fuel : nat) (context : PgenContext) (b : builder)
    : result builder :=
  match todo b with
  | [] => Ok b
  | i :: rest =>
      match fuel with
      | 0 => Raise OutOfFuel
      | S fuel' =>
          b' ← State_analyze fuel context
                 (mkBuilder (states b) (states_by_key b) rest) i;
          analyze_loop fuel' context b'
      end
  end.

(** The body of the loop of [analyze_states] that computes the start states,
    on the pair of [init_state_map] and the variables of [analyze_states]. *)
Definition add_init_state (context : PgenContext) (acc : list (string * nat) * builder)
    (init_nt : nt_name) : result (list (string * nat) * builder) :=
  goal ← match init_nt with
         | InitNt goal => Ok goal
         | Name _ => Raise AttributeError
         end;
  found ← of_option (ValueError "is not in list")
            (list_find (λ prod, is_init_prod init_nt goal prod = true)
                       (context_prods context));
  start_item ← make_lr_item context found.1 0 None {[ END ]};
  init_state ← State_init context [start_item];
  r ← get_state_index acc.2 init_state;
  Ok (dict_set acc.1 goal r.1, r.2).

(** [analyze_states(context, prods)]: [states] and [init_state_map]. *)
Definition analyze_states (fuel : nat) (context : PgenContext)
    : result (list State * list (string * nat)) :=
  start ← rfoldl (add_init_state context) ([], mkBuilder [] [] [])
                 (init_nts (context_grammar context));
  b ← analyze_loop fuel context start.2;
  Ok (states b, start.1).

(** [generate_parser], up to the call of the emitter: the lowered grammar,
    the flat productions, the states and the map of initial states. *)
Definition generate_parser (debug : bool) (fuel : nat) (grammar : Grammar)
    : result (Grammar * list Prod * list State * list (string * nat)) :=
  context ← make_context debug grammar;
  tables ← analyze_states fuel context;
  Ok (context_grammar context, context_prods context, tables.1, tables.2).

End tables.

(** ** Invariants of states *)

(** What [State.__init__] establishes and [State.update] keeps: the items
    of a state have distinct triples, and [key] lists them. *)
Definition state_wf (s : State) : Prop :=
  NoDup (map item_key (lr_items s))
  ∧ key s = list_to_set (map item_key (lr_items s)).

(** An item is in range when its production exists and its [offset] is at
    most the length of the right-hand side. *)
Definition item_in_range (context : PgenContext) (item : LRItem) : Prop :=
  ∃ prod, context_prods context !! prod_index item = Some prod
          ∧ offset item ≤ length (prod_rhs prod).

(** The invariant of the variables of [analyze_states]: every state has
    items with distinct triples, listed by its key, and in range; and
    [states_by_key] sends a key to the index of a state with that key and
    that [id]. *)
Definition state_ok (context : PgenContext) (s : State) : Prop :=
  state_wf s ∧ Forall (item_in_range context) (lr_items s).

Definition builder_ok (context : PgenContext) (b : builder) : Prop :=
  Forall (state_ok context) (states b)
  ∧ ∀ k i, dict_get (states_by_key b) k = Some i →
           ∃ s, states b !! i = Some s ∧ key s = k ∧ id s = Some i.

(** ** Where the cache and [seq_start] agree

    A sequence is well formed for [start] when it holds terminals,
    nonterminals with a start set and lookahead rules; it is guarded when no
    lookahead rule comes right after a nonterminal whose start set has
    [EMPTY]. *)
Definition seq_wf (start : gmap nt_name (gset tok)) (seq : list symbol) : Prop :=
  Forall (λ e, match e with
               | T _ | LA _ => True
               | Nt n => is_Some (start !! n)
               | Optional _ => False
               end) seq.

Fixpoint lookahead_guarded (start : gmap nt_name (gset tok)) (seq : list symbol)
    : Prop :=
  match seq with
  | [] => True
  | e :: rest =>
      match e, rest with
      | Nt n, LA _ :: _ => EMPTY ∉ default ∅ (start !! n)
      | _, _ => True
      end
      ∧ lookahead_guarded start rest
  end.

(** ** The cycle check: what is produced directly, and the measures of its
    iteration *)

(** [b] is in [direct_produces[a]], the dictionary that [check_cycle_free]
    builds before it iterates. *)
Definition direct_produces (grammar : Grammar) (empties : gset nt_name)
    (a b : nt_name) : Prop :=
  ∃ plist, dict_get (nonterminals grammar) a = Some plist
           ∧ b ∈ direct_produces_of empties plist.

(** What one pass of [step] does to the entry of [k]. *)
Definition produces_entry (produces : list (nt_name * gset nt_name))
    (dest dest' : gset nt_name) : Prop :=
  (∀ a, a ∈ dest → is_Some (dict_get produces a))
  ∧ ∀ b, b ∈ dest' ↔ b ∈ dest ∨ ∃ a D, a ∈ dest ∧ dict_get produces a = Some D ∧ b ∈ D.

(** The dictionary [direct_produces] of [check_cycle_free]. *)
Definition direct_produces_dict (grammar : Grammar) (empties : gset nt_name)
    : list (nt_name * gset nt_name) :=
  map (λ x, (x.1, direct_produces_of empties x.2)) (nonterminals grammar).

(** Every entry holds what is directly produced. *)
Definition produces_above (grammar : Grammar) (empties : gset nt_name)
    (produces : list (nt_name * gset nt_name)) : Prop :=
  ∀ a b, direct_produces grammar empties a b →
         ∃ dest, dict_get produces a = Some dest ∧ b ∈ dest.

(** Every entry holds only what is produced through one or more steps. *)
Definition produces_below (grammar : Grammar) (empties : gset nt_name)
    (produces : list (nt_name * gset nt_name)) : Prop :=
  ∀ a dest b, dict_get produces a = Some dest → b ∈ dest →
              tc (direct_produces grammar empties) a b.

Definition total_size (produces : list (nt_name * gset nt_name)) : nat :=
  sum_list (map (λ x, size x.2) produces).

(** A production of [a] whose body is the single nonterminal [b]. *)
Definition unit_production (grammar : Grammar) (a b : nt_name) : Prop :=
  ∃ plist p, dict_get (nonterminals grammar) a = Some plist
             ∧ p ∈ plist ∧ p_body p = [Nt b].

(** ** The dictionaries of [expand_all_optional_elements]

    An entry of the expanded grammar and the entry of
    [prods_with_indexes_by_nt] for the same nonterminal agree when they list
    the same right-hand sides in the same order and every index leads, in
    [prods], to the flat production of that nonterminal with that right-hand
    side and the action of the grammar's production. *)
Definition indexes_agree (prods : list Prod) (x : nt_name * list Production)
    (y : nt_name * list (nat * list symbol)) : Prop :=
  x.1 = y.1
  ∧ Forall2 (λ q e, ∃ prod, prods !! e.1 = Some prod
                            ∧ prod_nt prod = x.1 ∧ prod_rhs prod = e.2
                            ∧ p_body q = e.2 ∧ p_action q = prod_action prod)
            x.2 y.2.

(** ** The rows of the cache of suffix start sets

    The sets built so far by the loop of [suffix_start_list], for the part
    [post] of the right-hand side that it has passed: one set more than
    elements, [{EMPTY}] first, then each set computed from the one before it
    and the element passed. *)
Definition suffix_sets (debug : bool) (start : gmap nt_name (gset tok))
    (post : list symbol) (sets : list (gset tok)) : Prop :=
  length sets = S (length post)
  ∧ sets !! 0 = Some {[ EMPTY ]}
  ∧ ∀ j e, reverse post !! j = Some e →
      ∃ s previous, sets !! S j = Some s ∧ sets !! j = Some previous
                    ∧ suffix_start_of debug start e previous = Ok s.

(** ** Follow sets: what the walk of [follow_sets] establishes

    [X] occurs in a right-hand side listed for [nt]. *)
Definition occurs_in (by_nt : by_nt_dict) (nt X : nt_name) : Prop :=
  ∃ k rhs, (k, rhs) ∈ prods_of by_nt nt ∧ Nt X ∈ rhs.

(** The follow sets are closed at [nt]: for every nonterminal [X] at a
    position [i] of a right-hand side of [nt], what can start the rest of
    the right-hand side is in the follow set of [X], and so is the follow
    set of [nt] when the rest can be empty. *)
Definition follow_closed (by_nt : by_nt_dict) (start_set_cache : list (list (gset tok)))
    (follow : gmap nt_name (gset tok)) (nt : nt_name) : Prop :=
  ∀ k rhs i X, (k, rhs) ∈ prods_of by_nt nt → rhs !! i = Some (Nt X) →
    ∃ row after,
      start_set_cache !! k = Some row ∧ row !! S i = Some after
      ∧ after ∖ {[ EMPTY ]} ⊆ follow_of follow X
      ∧ (EMPTY ∈ after → follow_of follow nt ⊆ follow_of follow X).

(** The variables of [follow_sets] only grow. *)
Definition follow_le (st st' : follow_state) : Prop :=
  visited st ⊆ visited st'
  ∧ (∀ n, follow_of (follow st) n ⊆ follow_of (follow st') n)
  ∧ (∀ x, x ∈ subsumes_relation st → x ∈ subsumes_relation st').

(** The occurrence of [X] at position [i] of the right-hand side [k] of [nt]
    has been dealt with. *)
Definition occurrence_done (start_set_cache : list (list (gset tok)))
    (st : follow_state) (nt : nt_name) (k i : nat) (X : nt_name) : Prop :=
  X ∈ visited st
  ∧ ∃ row after,
      start_set_cache !! k = Some row ∧ row !! S i = Some after
      ∧ after ∖ {[ EMPTY ]} ⊆ follow_of (follow st) X
      ∧ (EMPTY ∈ after → (X, nt) ∈ subsumes_relation st).

Definition nt_done (by_nt : by_nt_dict) (start_set_cache : list (list (gset tok)))
    (st : follow_state) (nt : nt_name) : Prop :=
  ∀ k rhs i X, (k, rhs) ∈ prods_of by_nt nt → rhs !! i = Some (Nt X) →
    occurrence_done start_set_cache st nt k i X.

Definition no_empty (follow : gmap nt_name (gset tok)) : Prop :=
  ∀ n, EMPTY ∉ follow_of follow n.

(** What a part of the walk achieves, from [st] to [st']. *)
Definition walk_progress (by_nt : by_nt_dict) (start_set_cache : list (list (gset tok)))
    (st st' : follow_state) : Prop :=
  follow_le st st'
  ∧ (∀ n, n ∈ visited st' → n ∉ visited st → nt_done by_nt start_set_cache st' n)
  ∧ (no_empty (follow st) → no_empty (follow st')).

(** ** The path algorithm

    [find_path(start_set, successors, test)].  Points are values of a type
    with decidable equality, [successors] gives the list of what the
    iterable yields, and [test] is a predicate; both are taken to return
    without raising.  A path is the list that the function builds, of points
    and edges in turn.  [links] is the dictionary of the function, in
    insertion order: a start point is bound to [None], any other point to
    the pair of its predecessor and the edge from it. *)
Inductive path_elem (P E : Type) : Type :=
  | Point (p : P)
  | Edge (e : E).
Arguments Point {P E} p.
Arguments Edge {P E} e.

Section find_path.

Context {P E : Type} `{EqDecision P}.
Context (successors : P → list (E * P)) (test : P → bool).

(** The loop over [start_set]: [inl p] when it returns [[p]], else the
    variables [links] and [todo] after it. *)
Fixpoint seed_loop (start_set : list P) (links : list (P * option (P * E)))
    (todo : list P) : P + list (P * option (P * E)) * list P :=
  match start_set with
  | [] => inr (links, todo)
  | p :: rest =>
      match dict_get links p with
      | None =>
          let links := dict_set links p None in
          if test p then inl p else seed_loop rest links (todo ++ [p])
      | Some _ => seed_loop rest links todo
      end
  end.

(** The loop [for edge, b in successors(a)]: [inl (b, links)] when it is
    left by [break], with [found] set. *)
Fixpoint scan_successors (a : P) (succ : list (E * P))
    (links : list (P * option (P * E))) (todo : list P)
    : P * list (P * option (P * E)) + list (P * option (P * E)) * list P :=
  match succ with
  | [] => inr (links, todo)
  | (edge, b) :: rest =>
      match dict_get links b with
      | None =>
          let links := dict_set links b (Some (a, edge)) in
          if test b then inl (b, links)
          else scan_successors a rest links (todo ++ [b])
      | Some _ => scan_successors a rest links todo
      end
  end.

(** The loop [while todo]; [fuel] bounds the number of points taken from
    the queue. *)
Fixpoint search_loop (fuel : nat) (links : list (P * option (P * E))) (todo : list P)
    : result (option (P * list (P * option (P * E)))) :=
  match todo with
  | [] => Ok None
  | a :: todo' =>
      match fuel with
      | 0 => Raise OutOfFuel
      | S fuel' =>
          match scan_successors a (successors a) links todo' with
          | inl found => Ok (Some found)
          | inr (links', todo'') => search_loop fuel' links' todo''
          end
      end
  end.

(** The loop that follows [links] back from [b]; [fuel] bounds the number
    of its rounds. *)
Fixpoint trace_back (fuel : nat) (links : list (P * option (P * E))) (b : P)
    (path : list (path_elem P E)) : result (list (path_elem P E)) :=
  match dict_get links b with
  | None => Raise KeyError
  | Some None => Ok path
  | Some (Some (a, edge)) =>
      match fuel with
      | 0 => Raise OutOfFuel
      | S fuel' => trace_back fuel' links a (path ++ [Edge edge; Point a])
      end
  end.

(** [find_path(start_set, successors, test)] *)
Definition find_path (fuel : nat) (start_set : list P)
    : result (option (list (path_elem P E))) :=
  match seed_loop start_set [] [] with
  | inl p => Ok (Some [Point p])
  | inr (links, todo) =>
      found ← search_loop fuel links todo;
      match found with
      | None => Ok None
      | Some (b, links) =>
          path ← trace_back (length links) links b [Point b];
          Ok (Some (reverse path))
      end
  end.

(** [path] leads from [a] to [z]: it starts with [a], ends with [z], and
    every edge in it is followed by a point that [successors] gives, with
    this edge, for the point before it. *)
Inductive is_path : P → list (path_elem P E) → P → Prop :=
  | is_path_point p : is_path p [Point p] p
  | is_path_step a e b rest z :
      (e, b) ∈ successors a → is_path b rest z →
      is_path a (Point a :: Edge e :: rest) z.

(** What [trace_back] appends, read from [b] back to a start point. *)
Inductive back_path : P → list (path_elem P E) → P → Prop :=
  | back_path_root b : back_path b [] b
  | back_path_step b e a steps root :
      (e, b) ∈ successors a → back_path a steps root →
      back_path b (Edge e :: Point a :: steps) root.

(** The invariant of [links]: built by binding new points, a start point to
    [None], any other to a point bound before it and an edge from it. *)
Inductive links_ok (start_set : list P) : list (P * option (P * E)) → Prop :=
  | links_ok_nil : links_ok start_set []
  | links_ok_root links b :
      links_ok start_set links → dict_get links b = None → b ∈ start_set →
      links_ok start_set (links ++ [(b, None)])
  | links_ok_link links b a e :
      links_ok start_set links → dict_get links b = None →
      is_Some (dict_get links a) → (e, b) ∈ successors a →
      links_ok start_set (links ++ [(b, Some (a, e))]).

(** The invariant of the search: every start point is bound, no bound point
    passes the test, the queue holds bound points, and a bound point that
    has left the queue has all its successors bound. *)
Definition search_ok (start_set : list P) (links : list (P * option (P * E)))
    (todo : list P) : Prop :=
  (∀ p, p ∈ start_set → is_Some (dict_get links p))
  ∧ (∀ p, is_Some (dict_get links p) → test p = false)
  ∧ (∀ p, p ∈ todo → is_Some (dict_get links p))
  ∧ (∀ a e b, is_Some (dict_get links a) → a ∉ todo → (e, b) ∈ successors a →
       is_Some (dict_get links b)).

End find_path.

(** ** Stepping in

    [new_item] is what [State.closure] makes of [item] and a production of
    the nonterminal after the dot of [item]: the production is still in the
    grammar (its right-hand side is not empty, or the grammar has a
    production of the nonterminal with this body), and the item starts it
    with the lookahead of [item] and the followers that [specific_follow]
    gives. *)
Definition steps_into (context : PgenContext) (item new_item : LRItem) : Prop :=
  ∃ prod next_symbol dest_prod_index callee_rhs followers,
    context_prods context !! prod_index item = Some prod
    ∧ prod_rhs prod !! offset item = Some (Nt next_symbol)
    ∧ (dest_prod_index, callee_rhs)
        ∈ prods_of (context_prods_with_indexes_by_nt context) next_symbol
    ∧ (callee_rhs ≠ []
       ∨ ∃ plist p, dict_get (nonterminals (context_grammar context)) next_symbol
                      = Some plist
                    ∧ p ∈ plist ∧ p_body p = callee_rhs)
    ∧ specific_follow (context_start_set_cache context)
        (prod_index item) (offset item) (followed_by item) = Ok followers
    ∧ make_lr_item context dest_prod_index 0 (lookahead item) followers = Ok new_item.

(** ** Stepping over a symbol

    The item that [State.analyze] makes of [item] to step over the symbol
    after its dot. *)
Definition advance (context : PgenContext) (item : LRItem) : result LRItem :=
  make_lr_item context (prod_index item) (offset item + 1) None (followed_by item).

(** What step 1 of [State.analyze] has to record for [item]: a shift for
    the terminal after the dot when the lookahead of the item allows it, a
    continuation for the nonterminal after the dot, and at the end of the
    production a reduce for every terminal of [followed_by] that is in the
    follow set of the nonterminal of the production. *)
Definition item_recorded (context : PgenContext) (tables : step1_tables)
    (item : LRItem) : Prop :=
  ∃ prod,
    context_prods context !! prod_index item = Some prod
    ∧ match prod_rhs prod !! offset item with
      | Some (T t) =>
          lookahead_contains (lookahead item) t = true →
          ∃ next_item items,
            advance context item = Ok next_item
            ∧ dict_get (shift_items tables) t = Some items ∧ next_item ∈ items
      | Some (Nt n) =>
          ∃ next_item items,
            advance context item = Ok next_item
            ∧ dict_get (ctn_items tables) n = Some items ∧ next_item ∈ items
      | Some (Optional _) | Some (LA _) => False
      | None =>
          lookahead item = None
          ∧ ∀ t, t ∈ followed_by item →
                 t ∈ follow_of (context_follow context) (prod_nt prod) →
                 dict_get (reduce_prods tables) t = Some (prod_index item)
      end.

(** ** The graph of states

    [target] covers [item] when it has an item with the triple of [item]
    and at least its [followed_by]; [s'] is above [s] when it has the key of
    [s] and covers its items. *)
Definition covers (target : State) (item : LRItem) : Prop :=
  ∃ item', item' ∈ lr_items target
           ∧ item_key item' = item_key item
           ∧ followed_by item ⊆ followed_by item'.

Definition state_le (s s' : State) : Prop :=
  key s' = key s ∧ ∀ item, item ∈ lr_items s → covers s' item.

Definition states_le (l l' : list State) : Prop :=
  ∀ j s, l !! j = Some s → ∃ s', l' !! j = Some s' ∧ state_le s s'.

(** How the variables of [analyze_states] move: states keep their place and
    grow, the queue keeps its entries, and a state that is new or has
    changed is in the queue. *)
Definition builder_le (b b' : builder) : Prop :=
  states_le (states b) (states b')
  ∧ (∀ j, j ∈ todo b → j ∈ todo b')
  ∧ (∀ j s', states b' !! j = Some s' → states b !! j = Some s' ∨ j ∈ todo b').

(** The entries of the rows of [s] are in range for [n] states: an entry
    of [action_row] is the index of a state, or the code of a production
    that exists ([ACCEPT] for a production of an [InitNt], [-p - 1]
    otherwise); an entry of [ctn_row] is the index of a state. *)
Definition rows_in_range (ACCEPT : Z) (context : PgenContext) (n : nat) (s : State)
    : Prop :=
  (∀ row t v, action_row s = Some row → dict_get row t = Some v →
     (∃ j, v = Z.of_nat j ∧ j < n)
     ∨ (∃ p prod, context_prods context !! p = Some prod
                  ∧ v = match prod_nt prod with
                        | InitNt _ => ACCEPT
                        | _ => (- Z.of_nat p - 1)%Z
                        end))
  ∧ (∀ row nt j, ctn_row s = Some row → dict_get row nt = Some j → j < n).

(** The shape of the variables of [analyze_states] while the state [hole],
    if any, is being analysed: a state has its index as [id] and is
    registered under its key, its rows are in range, and it has rows unless
    it is in the queue or being analysed. *)
Definition graph_wf (ACCEPT : Z) (context : PgenContext) (hole : option nat)
    (b : builder) : Prop :=
  ∀ i s, states b !! i = Some s →
    id s = Some i
    ∧ dict_get (states_by_key b) (key s) = Some i
    ∧ rows_in_range ACCEPT context (length (states b)) s
    ∧ (i ∈ todo b ∨ hole = Some i
       ∨ (is_Some (action_row s) ∧ is_Some (ctn_row s))).

(** The rows of [s] serve [item] among the states [sts]: for the terminal
    after the dot, when the lookahead of the item allows it, [action_row]
    leads to a state that covers the item advanced over it; for the
    nonterminal after the dot, [ctn_row] does; at the end of the production
    the item has no lookahead left and [action_row] has the code of the
    production for every terminal of [followed_by] that is in the follow set
    of its nonterminal. *)
Definition item_served (ACCEPT : Z) (context : PgenContext) (sts : list State)
    (s : State) (item : LRItem) : Prop :=
  ∃ prod,
    context_prods context !! prod_index item = Some prod
    ∧ match prod_rhs prod !! offset item with
      | Some (T t) =>
          lookahead_contains (lookahead item) t = true →
          ∃ row j target next_item,
            action_row s = Some row ∧ dict_get row (Tk t) = Some (Z.of_nat j)
            ∧ sts !! j = Some target
            ∧ advance context item = Ok next_item ∧ covers target next_item
      | Some (Nt n) =>
          ∃ row j target next_item,
            ctn_row s = Some row ∧ dict_get row n = Some j
            ∧ sts !! j = Some target
            ∧ advance context item = Ok next_item ∧ covers target next_item
      | Some (Optional _) | Some (LA _) => False
      | None =>
          lookahead item = None
          ∧ ∀ t, t ∈ followed_by item →
                 t ∈ follow_of (context_follow context) (prod_nt prod) →
                 ∃ row, action_row s = Some row
                        ∧ dict_get row t
                          = Some (match prod_nt prod with
                                  | InitNt _ => ACCEPT
                                  | _ => (- Z.of_nat (prod_index item) - 1)%Z
                                  end)
      end.

(** Every item that can be reached from the items of [s] by stepping in,
    that is every item of the closure of [s], is served. *)
Definition transitions_ok (ACCEPT : Z) (context : PgenContext) (sts : list State)
    (s : State) : Prop :=
  ∀ root item, root ∈ lr_items s → rtc (steps_into context) root item →
               item_served ACCEPT context sts s item.

(** While the state [hole], if any, is being analysed: the rows of every
    state that is not in the queue serve its closure. *)
Definition graph_served (ACCEPT : Z) (context : PgenContext) (hole : option nat)
    (b : builder) : Prop :=
  ∀ k s, states b !! k = Some s →
    k ∈ todo b ∨ hole = Some k ∨ transitions_ok ACCEPT context (states b) s.

(** ** The path algorithm: levels of the search

    The search of [find_path] goes level by level.  [reach_in start_set n p]
    says that [p] can be reached from a point of [start_set] in [n] steps,
    and [depth links p n] that [links] leads from [p] back to a start point
    in [n] steps. *)
Section find_path_levels.

Context {P E : Type} `{EqDecision P}.
Context (successors : P → list (E * P)) (test : P → bool).

Inductive reach_in (start_set : list P) : nat → P → Prop :=
  | reach_in_start p : p ∈ start_set → reach_in start_set 0 p
  | reach_in_step n a e b :
      reach_in start_set n a → (e, b) ∈ successors a →
      reach_in start_set (S n) b.

Inductive depth (links : list (P * option (P * E))) : P → nat → Prop :=
  | depth_root p : dict_get links p = Some None → depth links p 0
  | depth_link p a e n :
      dict_get links p = Some (Some (a, e)) → depth links a n →
      depth links p (S n).

(** The invariant of the search while the successors [succ] of [a] are
    still to be gone through, the queue being [front ++ back]: a bound point
    has a depth, and cannot be reached in fewer steps; the points of [front]
    have depth [k], as [a] has, and those of [back] depth [k + 1]; every
    point that can be reached in [k] steps or fewer is bound; no bound point
    passes the test; and the successors of a bound point that has left the
    queue are bound, except those of [a] in [succ]. *)
Definition scan_ok (start_set : list P) (a : P) (succ : list (E * P))
    (links : list (P * option (P * E))) (front back : list P) (k : nat) : Prop :=
  (∀ p, is_Some (dict_get links p) →
     ∃ n, depth links p n ∧ ∀ m, reach_in start_set m p → n ≤ m)
  ∧ (∀ p, p ∈ front → depth links p k)
  ∧ (∀ p, p ∈ back → depth links p (S k))
  ∧ depth links a k
  ∧ (∀ m p, reach_in start_set m p → m ≤ k → is_Some (dict_get links p))
  ∧ (∀ p, is_Some (dict_get links p) → test p = false)
  ∧ (∀ a' e b, is_Some (dict_get links a') → a' ∉ front ++ back →
       (e, b) ∈ successors a' →
       is_Some (dict_get links b) ∨ (a' = a ∧ (e, b) ∈ succ)).

(** The invariant between two rounds of the loop [while todo]. *)
Definition bfs_ok (start_set : list P) (links : list (P * option (P * E)))
    (front back : list P) (k : nat) : Prop :=
  (∀ p, is_Some (dict_get links p) →
     ∃ n, depth links p n ∧ ∀ m, reach_in start_set m p → n ≤ m)
  ∧ (∀ p, p ∈ front → depth links p k)
  ∧ (∀ p, p ∈ back → depth links p (S k))
  ∧ (∀ m p, reach_in start_set m p → m ≤ k → is_Some (dict_get links p))
  ∧ (∀ p, is_Some (dict_get links p) → test p = false)
  ∧ (∀ a' e b, is_Some (dict_get links a') → a' ∉ front ++ back →
       (e, b) ∈ successors a' → is_Some (dict_get links b)).

End find_path_levels.

(** ** Where the marker [EMPTY] stays apart from the terminals

    In the source [EMPTY] is the string ["(empty)"], so a terminal with this
    spelling is taken for the marker.  A sequence is free of the marker when
    no terminal in it is spelled so and neither the start sets of its
    nonterminals nor the sets of its lookahead rules hold a terminal spelled
    so; the sets computed from such a sequence hold no such terminal, and
    are then the sets of the source, with [EMPTY] for ["(empty)"]. *)
Definition marker_free (start : gmap nt_name (gset tok)) (seq : list symbol) : Prop :=
  Forall (λ e, match e with
               | T t => t ≠ "(empty)"
               | Nt n => Tk "(empty)" ∉ default ∅ (start !! n)
               | LA rule => Tk "(empty)" ∉ la_set rule
               | Optional _ => True
               end) seq.

(** ** Worked inputs *)

(** [S ::= A? B?], [A ::= a], [B ::= b], with the action of [S] capturing
    both optional children. *)
Definition s3_grammar : Grammar :=
  mkGrammar
    [ (Name "S", [ mkProduction (Name "S")
                     [Optional (Nt (Name "A")); Optional (Nt (Name "B"))]
                     (RCallMethod "pair" [RInt 0; RInt 1]) ]);
      (Name "A", [ mkProduction (Name "A") [T "a"] (RInt 0) ]);
      (Name "B", [ mkProduction (Name "B") [T "b"] (RInt 0) ]) ]
    [Name "S"] [InitNt "S"].

Definition s3_expanded : result (Grammar * list Prod * by_nt_dict) :=
  Eval vm_compute in expand_all_optional_elements s3_grammar.

(** [A ::= [lookahead not in {x}] B], [B ::= (empty) | b]: a lookahead
    restriction followed only by a nonterminal that matches the empty
    string. *)
Definition not_x : LookaheadRule := mkLookaheadRule {[ Tk "x" ]} false.

Definition trailing_grammar : Grammar :=
  mkGrammar
    [ (Name "A", [ mkProduction (Name "A") [LA not_x; Nt (Name "B")] (RInt 1) ]);
      (Name "B", [ mkProduction (Name "B") [] RNone;
                   mkProduction (Name "B") [T "b"] (RInt 0) ]) ]
    [Name "A"] [InitNt "A"].

(** Goals [S] and [G], with [S ::= G [lookahead not in {y}] x] and
    [G ::= (empty) | g]: a goal that matches the empty string, used in front
    of a lookahead restriction. *)
Definition not_y : LookaheadRule := mkLookaheadRule {[ Tk "y" ]} false.

Definition nullable_goal_grammar : Grammar :=
  mkGrammar
    [ (InitNt "S", [ mkProduction (InitNt "S") [Nt (Name "S")] RAccept ]);
      (InitNt "G", [ mkProduction (InitNt "G") [Nt (Name "G")] RAccept ]);
      (Name "S", [ mkProduction (Name "S") [Nt (Name "G"); LA not_y; T "x"]
                     (RCallMethod "s" [RInt 0; RInt 2]) ]);
      (Name "G", [ mkProduction (Name "G") [] RNone;
                   mkProduction (Name "G") [T "g"] (RInt 0) ]) ]
    [Name "S"; Name "G"] [InitNt "S"; InitNt "G"].

(** What the lowering steps make of it. *)
Definition nullable_goal_final : Grammar :=
  mkGrammar
    [ (InitNt "S", [ mkProduction (InitNt "S") [Nt (Name "S")] RAccept ]);
      (InitNt "G", [ mkProduction (InitNt "G") [Nt (Name "G")] RAccept ]);
      (Name "S", [ mkProduction (Name "S") [LA not_y; T "x"]
                     (RCallMethod "s" [RNone; RInt 1]);
                   mkProduction (Name "S") [Nt (Name "G"); LA not_y; T "x"]
                     (RCallMethod "s" [RSome (RInt 0); RInt 2]) ]);
      (Name "G", [ mkProduction (Name "G") [] RNone;
                   mkProduction (Name "G") [T "g"] (RInt 0) ]) ]
    [Name "S"; Name "G"] [InitNt "S"; InitNt "G"].

Definition nullable_goal_prods : list Prod :=
  [ mkProd (InitNt "S") 0 [Nt (Name "S")] [] RAccept;
    mkProd (InitNt "G") 0 [] [0] RAccept;
    mkProd (InitNt "G") 0 [Nt (Name "G")] [] RAccept;
    mkProd (Name "S") 0 [LA not_y; T "x"] [0] (RCallMethod "s" [RNone; RInt 1]);
    mkProd (Name "S") 0 [Nt (Name "G"); LA not_y; T "x"] []
      (RCallMethod "s" [RSome (RInt 0); RInt 2]);
    mkProd (Name "G") 0 [] [] RNone;
    mkProd (Name "G") 1 [T "g"] [] (RInt 0) ].

Definition nullable_goal_by_nt : by_nt_dict :=
  [ (InitNt "S", [ (0, [Nt (Name "S")]) ]);
    (InitNt "G", [ (1, []); (2, [Nt (Name "G")]) ]);
    (Name "S", [ (3, [LA not_y; T "x"]); (4, [Nt (Name "G"); LA not_y; T "x"]) ]);
    (Name "G", [ (5, []); (6, [T "g"]) ]) ].

Definition nullable_goal_start : gmap nt_name (gset tok) :=
  {[ InitNt "S" := {[ Tk "x" ]};
     InitNt "G" := {[ EMPTY; Tk "g" ]};
     Name "S" := {[ Tk "x" ]};
     Name "G" := {[ EMPTY; Tk "g" ]} ]}.

Definition nullable_goal_cache : list (list (gset tok)) :=
  [ [ {[ Tk "x" ]}; {[ EMPTY ]} ];
    [ {[ EMPTY ]} ];
    [ {[ EMPTY; Tk "g" ]}; {[ EMPTY ]} ];
    [ {[ Tk "x" ]}; {[ Tk "x" ]}; {[ EMPTY ]} ];
    [ {[ Tk "g"; Tk "x" ]}; {[ Tk "x" ]}; {[ Tk "x" ]}; {[ EMPTY ]} ];
    [ {[ EMPTY ]} ];
    [ {[ Tk "g" ]}; {[ EMPTY ]} ] ].

(** [E ::= E + T | T], [T ::= T * F | F], [F ::= ( E ) | NUM], goal [E]. *)
Definition arith_grammar : Grammar :=
  let call nt body :=
    mkProduction (Name nt) body (RCallMethod nt (imap (λ i _, RInt i) body)) in
  mkGrammar
    [ (InitNt "E", [ mkProduction (InitNt "E") [Nt (Name "E")] RAccept ]);
      (Name "E", [ call "E" [Nt (Name "E"); T "+"; Nt (Name "T")];
                   call "E" [Nt (Name "T")] ]);
      (Name "T", [ call "T" [Nt (Name "T"); T "*"; Nt (Name "F")];
                   call "T" [Nt (Name "F")] ]);
      (Name "F", [ call "F" [T "("; Nt (Name "E"); T ")"];
                   call "F" [T "NUM"] ]) ]
    [Name "E"] [InitNt "E"].

(** What [generate_parser] gathers about it. *)
Definition arith_prods : list Prod :=
  [ mkProd (InitNt "E") 0 [Nt (Name "E")] [] RAccept;
    mkProd (Name "E") 0 [Nt (Name "E"); T "+"; Nt (Name "T")] []
      (RCallMethod "E" [RInt 0; RInt 1; RInt 2]);
    mkProd (Name "E") 1 [Nt (Name "T")] [] (RCallMethod "E" [RInt 0]);
    mkProd (Name "T") 0 [Nt (Name "T"); T "*"; Nt (Name "F")] []
      (RCallMethod "T" [RInt 0; RInt 1; RInt 2]);
    mkProd (Name "T") 1 [Nt (Name "F")] [] (RCallMethod "T" [RInt 0]);
    mkProd (Name "F") 0 [T "("; Nt (Name "E"); T ")"] []
      (RCallMethod "F" [RInt 0; RInt 1; RInt 2]);
    mkProd (Name "F") 1 [T "NUM"] [] (RCallMethod "F" [RInt 0]) ].

Definition arith_by_nt : by_nt_dict :=
  [ (InitNt "E", [ (0, [Nt (Name "E")]) ]);
    (Name "E", [ (1, [Nt (Name "E"); T "+"; Nt (Name "T")]); (2, [Nt (Name "T")]) ]);
    (Name "T", [ (3, [Nt (Name "T"); T "*"; Nt (Name "F")]); (4, [Nt (Name "F")]) ]);
    (Name "F", [ (5, [T "("; Nt (Name "E"); T ")"]); (6, [T "NUM"]) ]) ].

Definition arith_cache : list (list (gset tok)) :=
  let first : gset tok := {[ Tk "NUM"; Tk "(" ]} in
  [ [ first; {[ EMPTY ]} ];
    [ first; {[ Tk "+" ]}; first; {[ EMPTY ]} ];
    [ first; {[ EMPTY ]} ];
    [ first; {[ Tk "*" ]}; first; {[ EMPTY ]} ];
    [ first; {[ EMPTY ]} ];
    [ {[ Tk "(" ]}; first; {[ Tk ")" ]}; {[ EMPTY ]} ];
    [ {[ Tk "NUM" ]}; {[ EMPTY ]} ] ].

Definition arith_follow : gmap nt_name (gset tok) :=
  {[ InitNt "E" := {[ END ]};
     Name "E" := {[ Tk "+"; Tk ")"; END ]};
     Name "T" := {[ Tk "+"; Tk ")"; Tk "*"; END ]};
     Name "F" := {[ Tk "+"; Tk ")"; Tk "*"; END ]} ]}.

Definition arith_context : PgenContext :=
  mkPgenContext arith_grammar arith_prods arith_by_nt arith_cache arith_follow.

(** Two states with the same triples, as [State.__init__] builds them from
    items of the arithmetic grammar. *)
Definition merge_self : State :=
  mkState [ mkLRItem 1 1 None {[ Tk "+" ]}; mkLRItem 0 1 None {[ END ]} ]
          {[ (1, 1, None); (0, 1, None) ]} (Some 3) None None.

Definition merge_new : State :=
  mkState [ mkLRItem 0 1 None {[ END ]}; mkLRItem 1 1 None {[ END ]} ]
          {[ (1, 1, None); (0, 1, None) ]} None None None.

(** The value of [ACCEPT] used in the worked tables. *)
Definition accept_code : Z := (-9223372036854775807)%Z.

(** The states of the arithmetic grammar, and the variables of
    [analyze_states] once the queue is empty. *)
Definition arith_states : list State :=
  [
    mkState [ mkLRItem 0 0 None {[ END ]} ]
            {[ (0, 0, None) ]} (Some 0)
            (Some [ (Tk "(", 1%Z); (Tk "NUM", 2%Z) ])
            (Some [ (Name "E", 3); (Name "T", 4); (Name "F", 5) ]);
    mkState [ mkLRItem 5 1 None {[ Tk "+"; Tk ")"; Tk "*"; END ]} ]
            {[ (5, 1, None) ]} (Some 1)
            (Some [ (Tk "(", 1%Z); (Tk "NUM", 2%Z) ])
            (Some [ (Name "E", 6); (Name "T", 4); (Name "F", 5) ]);
    mkState [ mkLRItem 6 1 None {[ Tk "+"; Tk ")"; Tk "*"; END ]} ]
            {[ (6, 1, None) ]} (Some 2)
            (Some [ (Tk "+", (-7)%Z); (Tk ")", (-7)%Z); (Tk "*", (-7)%Z); (END, (-7)%Z) ])
            (Some []);
    mkState [ mkLRItem 0 1 None {[ END ]}; mkLRItem 1 1 None {[ Tk "+"; END ]} ]
            {[ (0, 1, None); (1, 1, None) ]} (Some 3)
            (Some [ (Tk "+", 7%Z); (END, accept_code) ])
            (Some []);
    mkState [ mkLRItem 2 1 None {[ Tk "+"; Tk ")"; END ]}; mkLRItem 3 1 None {[ Tk "+"; Tk ")"; Tk "*"; END ]} ]
            {[ (2, 1, None); (3, 1, None) ]} (Some 4)
            (Some [ (Tk "*", 8%Z); (Tk "+", (-3)%Z); (Tk ")", (-3)%Z); (END, (-3)%Z) ])
            (Some []);
    mkState [ mkLRItem 4 1 None {[ Tk "+"; Tk ")"; Tk "*"; END ]} ]
            {[ (4, 1, None) ]} (Some 5)
            (Some [ (Tk "+", (-5)%Z); (Tk ")", (-5)%Z); (Tk "*", (-5)%Z); (END, (-5)%Z) ])
            (Some []);
    mkState [ mkLRItem 5 2 None {[ Tk "+"; Tk ")"; Tk "*"; END ]}; mkLRItem 1 1 None {[ Tk "+"; Tk ")" ]} ]
            {[ (5, 2, None); (1, 1, None) ]} (Some 6)
            (Some [ (Tk ")", 9%Z); (Tk "+", 7%Z) ])
            (Some []);
    mkState [ mkLRItem 1 2 None {[ Tk "+"; Tk ")"; END ]} ]
            {[ (1, 2, None) ]} (Some 7)
            (Some [ (Tk "(", 1%Z); (Tk "NUM", 2%Z) ])
            (Some [ (Name "T", 10); (Name "F", 5) ]);
    mkState [ mkLRItem 3 2 None {[ Tk "+"; Tk ")"; Tk "*"; END ]} ]
            {[ (3, 2, None) ]} (Some 8)
            (Some [ (Tk "(", 1%Z); (Tk "NUM", 2%Z) ])
            (Some [ (Name "F", 11) ]);
    mkState [ mkLRItem 5 3 None {[ Tk "+"; Tk ")"; Tk "*"; END ]} ]
            {[ (5, 3, None) ]} (Some 9)
            (Some [ (Tk "+", (-6)%Z); (Tk ")", (-6)%Z); (Tk "*", (-6)%Z); (END, (-6)%Z) ])
            (Some []);
    mkState [ mkLRItem 1 3 None {[ Tk "+"; Tk ")"; END ]}; mkLRItem 3 1 None {[ Tk "+"; Tk ")"; Tk "*"; END ]} ]
            {[ (1, 3, None); (3, 1, None) ]} (Some 10)
            (Some [ (Tk "*", 8%Z); (Tk "+", (-2)%Z); (Tk ")", (-2)%Z); (END, (-2)%Z) ])
            (Some []);
    mkState [ mkLRItem 3 3 None {[ Tk "+"; Tk ")"; Tk "*"; END ]} ]
            {[ (3, 3, None) ]} (Some 11)
            (Some [ (Tk "+", (-4)%Z); (Tk ")", (-4)%Z); (Tk "*", (-4)%Z); (END, (-4)%Z) ])
            (Some []) ].


(** State 4 holds [E ::= T .] and [T ::= T . * F]. *)
Definition arith_state4 : State :=
  mkState [ mkLRItem 2 1 None {[ Tk "+"; Tk ")"; END ]};
            mkLRItem 3 1 None {[ Tk "+"; Tk ")"; Tk "*"; END ]} ]
          {[ (2, 1, None); (3, 1, None) ]} (Some 4)
          (Some [ (Tk "*", 8%Z); (Tk "+", (-3)%Z); (Tk ")", (-3)%Z); (END, (-3)%Z) ])
          (Some []).

Definition arith_state4_tables : step1_tables :=
  mkStep1 [ ("*", [ mkLRItem 3 2 None {[ Tk "+"; Tk ")"; Tk "*"; END ]} ]) ]
          []
          [ (Tk "+", 2); (Tk ")", 2); (END, 2) ].

Definition self_grammar : Grammar :=
  mkGrammar
    [ (Name "A", [ mkProduction (Name "A") [Nt (Name "B")] (RInt 0) ]);
      (Name "B", [ mkProduction (Name "B") [Nt (Name "A")] (RInt 0);
                   mkProduction (Name "B") [T "b"] (RInt 0) ]) ]
    [Name "A"] [InitNt "A"].

Definition optional_tail_grammar : Grammar :=
  mkGrammar
    [ (Name "A", [ mkProduction (Name "A")
                     [T "a"; LA not_x; Optional (T "b")] (RInt 0) ]) ]
    [Name "A"] [InitNt "A"].

(** The start sets of the arithmetic grammar. *)
Definition arith_start : gmap nt_name (gset tok) :=
  {[ InitNt "E" := {[ Tk "NUM"; Tk "(" ]};
     Name "E" := {[ Tk "NUM"; Tk "(" ]};
     Name "T" := {[ Tk "NUM"; Tk "(" ]};
     Name "F" := {[ Tk "NUM"; Tk "(" ]} ]}.

(** A graph for [find_path]: the points [0], [1], [2], ..., with an edge
    ["next"] from each point below [3] to the one after it and an edge
    ["stay"] from each point to itself; the test is passed by [2]. *)
Definition chain_successors (n : nat) : list (string * nat) :=
  if n <? 3 then [("stay", n); ("next", S n)] else [("stay", n)].

Definition chain_test (n : nat) : bool := n =? 2.

(** A test that no point of this graph reached from [0] passes. *)
Definition far_test (n : nat) : bool := n =? 7.

(** The data gathered for the grammar with the goals [S] and [G], with no
    follow sets. *)
Definition nullable_goal_context : PgenContext :=
  mkPgenContext nullable_goal_final nullable_goal_prods nullable_goal_by_nt
                nullable_goal_cache ∅.

(** The variables of [analyze_states] after [merge_new] has been looked up
    in the empty graph. *)
Definition merge_builder : builder :=
  mkBuilder [ mkState (lr_items merge_new) (key merge_new) (Some 0) None None ]
            [ (key merge_new, 0) ] [ 0 ].

(** * Properties *)

(** Closed equations between values are settled by evaluation. *)
Ltac vm_refl :=
  lazymatch goal with
  | |- ?x = ?y => vm_cast_no_check (eq_refl y)
  end.

(** ** Generic facts about [result] *)

Lemma rbind_Ok {A B} (m : result A) (k : A → result B) (b : B) :
  rbind m k = Ok b ↔ ∃ a, m = Ok a ∧ k a = Ok b.
Proof.
  destruct m as [a|e]; simpl; split.
  - eauto.
  - by intros (a' & [= ->] & ?).
  - done.
  - by intros (a' & [=] & ?).
Qed.

Lemma rfmap_Ok {A B} (f : A → B) (m : result A) (b : B) :
  (f <$> m) = Ok b ↔ ∃ a, m = Ok a ∧ b = f a.
Proof.
  destruct m as [a|e]; simpl; split.
  - intros [= <-]. eauto.
  - by intros (a' & [= ->] & ->).
  - done.
  - by intros (a' & [=] & ?).
Qed.

Lemma rmap_Ok {A B} (f : A → result B) (l : list A) (ys : list B) :
  rmap f l = Ok ys ↔ Forall2 (λ x y, f x = Ok y) l ys.
Proof.
  revert ys. induction l as [|x l IH]; intros ys; simpl.
  - split; [intros [= <-]; constructor | by inversion 1].
  - split.
    + intros (y & Hy & (ys' & Hys & [= <-])%rbind_Ok)%rbind_Ok.
      constructor; [done | by apply IH].
    + inversion 1 as [|? y ? ys' Hy Hys]; subst.
      apply rbind_Ok. exists y. split; [done|].
      apply rbind_Ok. exists ys'. split; [by apply IH | done].
Qed.

Lemma of_option_Ok {A} (e : error) (o : option A) (a : A) :
  of_option e o = Ok a ↔ o = Some a.
Proof. destruct o; simpl; split; congruence. Qed.

Example gset_computes :
  ({[ Tk "a"; EMPTY ]} ∖ {[ EMPTY ]} : gset tok) ∪ {[ END ]} = {[ END; Tk "a" ]}.
Proof. vm_refl. Qed.

(** ** Dictionaries *)

Lemma dict_get_set {K V} `{EqDecision K} (d : list (K * V)) (k k' : K) (v : V) :
  dict_get (dict_set d k v) k' = if decide (k' = k) then Some v else dict_get d k'.
Proof.
  induction d as [|[k0 v0] d IH]; simpl.
  - by destruct (decide (k' = k)).
  - destruct (decide (k = k0)) as [->|Hne]; simpl.
    + by destruct (decide (k' = k0)).
    + destruct (decide (k' = k0)) as [->|]; [|done].
      by rewrite decide_False by done.
Qed.

Lemma dict_set_keys {K V} `{EqDecision K} (d : list (K * V)) (k : K) (v : V) :
  (dict_set d k v).*1 = if decide (k ∈ d.*1) then d.*1 else d.*1 ++ [k].
Proof.
  induction d as [|[k0 v0] d IH].
  - rewrite decide_False; [done|]. apply not_elem_of_nil.
  - cbn [dict_set fmap list_fmap fst]. fold (d.*1).
    destruct (decide (k = k0)) as [->|Hne].
    + rewrite decide_True; [done|]. left.
    + cbn [fmap list_fmap fst]. fold ((dict_set d k v).*1). rewrite IH.
      destruct (decide (k ∈ d.*1)) as [Hin|Hnin].
      * rewrite decide_True; [done|]. by right.
      * rewrite decide_False; [done|].
        intros [?|?]%elem_of_cons; done.
Qed.

Lemma dict_set_NoDup {K V} `{EqDecision K} (d : list (K * V)) (k : K) (v : V) :
  NoDup d.*1 → NoDup (dict_set d k v).*1.
Proof.
  intros Hd. rewrite dict_set_keys. destruct (decide (k ∈ d.*1)); [done|].
  apply NoDup_app. split; [done|]. split; [|apply NoDup_singleton].
  intros x Hx ->%list_elem_of_singleton. done.
Qed.

Lemma dict_get_Some_elem {K V} `{EqDecision K} (d : list (K * V)) (k : K) (v : V) :
  dict_get d k = Some v → (k, v) ∈ d.
Proof.
  induction d as [|[k0 v0] d IH]; simpl; [done|].
  destruct (decide (k = k0)) as [->|]; [intros [= ->]; left | right; auto].
Qed.

Lemma dict_get_elem_NoDup {K V} `{EqDecision K} (d : list (K * V)) (k : K) (v : V) :
  NoDup d.*1 → (k, v) ∈ d → dict_get d k = Some v.
Proof.
  induction d as [|[k0 v0] d IH]; simpl; [by intros _ ?%elem_of_nil|].
  intros [Hk0 Hd]%NoDup_cons [[= -> ->]|Hin]%elem_of_cons.
  - by rewrite decide_True.
  - rewrite decide_False; [auto|]. intros ->. apply Hk0.
    apply list_elem_of_fmap. by exists (k0, v).
Qed.

Lemma dict_get_None_keys {K V} `{EqDecision K} (d : list (K * V)) (k : K) :
  dict_get d k = None ↔ k ∉ d.*1.
Proof.
  induction d as [|[k0 v0] d IH]; simpl.
  - split; [intros _; apply not_elem_of_nil | done].
  - destruct (decide (k = k0)) as [->|Hne].
    + split; [done|]. intros []. left.
    + rewrite IH. rewrite not_elem_of_cons. tauto.
Qed.

(** ** Optional expansion *)

Example expand_if_else :
  expand_optional_symbols_in_rhs [T "if"; Optional (T "else")] 0
  = [([T "if"], [1]); ([T "if"; T "else"], [])].
Proof. vm_refl. Qed.

Lemma expand_suffix_app (pre l : list symbol) (k : nat) :
  Forall (λ e, ¬ is_optional e = true) pre →
  expand_suffix (pre ++ l) k
  = map (λ '(expanded, r), (pre ++ expanded, r)) (expand_suffix l (k + length pre)).
Proof.
  revert k. induction pre as [|e pre IH]; intros k Hpre; simpl.
  - rewrite Nat.add_0_r. induction (expand_suffix l k) as [|[??] ? IHl]; simpl;
      [done | by rewrite <- IHl].
  - inversion Hpre as [|?? He Hpre']; subst.
    destruct (is_optional e) eqn:Hopt; [done|].
    rewrite IH by done. rewrite map_map.
    replace (S k + length pre) with (k + S (length pre)) by lia.
    apply map_ext. by intros [??].
Qed.

Lemma expand_optional_fuel_suffix (fuel : nat) (rhs : list symbol) (start_index : nat) :
  length rhs - start_index ≤ fuel →
  expand_optional_fuel fuel rhs start_index
  = expand_suffix (drop start_index rhs) start_index.
Proof.
  revert start_index. induction fuel as [|fuel IH]; intros start_index Hfuel.
  - simpl. rewrite drop_ge by lia. done.
  - simpl. destruct (list_find _ _) as [[j e]|] eqn:Hfind.
    + apply list_find_Some in Hfind as (Hj & He & Hbefore).
      assert (Hlen : j < length (drop start_index rhs))
        by (by eapply lookup_lt_Some).
      rewrite length_drop in Hlen.
      rewrite IH by lia.
      replace (expand_suffix (drop start_index rhs) start_index)
        with (expand_suffix (take j (drop start_index rhs)
                             ++ e :: drop (S j) (drop start_index rhs)) start_index)
        by (by rewrite take_drop_middle).
      rewrite expand_suffix_app.
      2:{ apply Forall_forall. intros y Hy.
          apply list_elem_of_lookup in Hy as [i Hi].
          apply lookup_take_Some in Hi as [Hi Hlt]. by eapply Hbefore. }
      simpl. rewrite He. rewrite drop_drop.
      rewrite length_take, length_drop.
      replace (start_index + j `min` (length rhs - start_index))
        with (start_index + j) by lia.
      replace (start_index + S j) with (S (start_index + j)) by lia.
      generalize (expand_suffix (drop (S (start_index + j)) rhs) (S (start_index + j))).
      intros l. induction l as [|[ex r] l IHl]; simpl; [done|].
      by rewrite IHl.
    + apply list_find_None in Hfind.
      rewrite <- (app_nil_r (drop start_index rhs)) at 2.
      rewrite expand_suffix_app by done. simpl. by rewrite app_nil_r.
Qed.

Lemma expand_optional_symbols_in_rhs_suffix (rhs : list symbol) :
  expand_optional_symbols_in_rhs rhs 0 = expand_suffix rhs 0.
Proof.
  unfold expand_optional_symbols_in_rhs.
  rewrite expand_optional_fuel_suffix by lia. by rewrite drop_0.
Qed.

Lemma expand_suffix_spec (l : list symbol) (k : nat) (expanded : list symbol) (r : list nat) :
  (expanded, r) ∈ expand_suffix l k →
  length l = length expanded + length r
  ∧ StronglySorted lt r
  ∧ Forall (λ i, k ≤ i ∧ ∃ inner, l !! (i - k) = Some (Optional inner)) r.
Proof.
  revert k expanded r. induction l as [|e l IH]; intros k expanded r; simpl.
  - intros [= -> ->]%list_elem_of_singleton. repeat split; constructor.
  - destruct (is_optional e) eqn:Hopt.
    + intros ([ex r'] & Hin & Hx)%list_elem_of_In%in_flat_map.
      apply list_elem_of_In, IH in Hin as (Hlen & Hsorted & Hall).
      assert (Hall' : Forall (λ i, k ≤ i ∧ ∃ inner, (e :: l) !! (i - k) = Some (Optional inner)) r').
      { eapply Forall_impl; [exact Hall|]. simpl. intros i (Hi & inner & Hlook).
        split; [lia|]. exists inner.
        replace (i - k) with (S (i - S k)) by lia. done. }
      destruct Hx as [[= <- <-]|[[= <- <-]|[]]]; simpl.
      * split; [lia|]. split.
        { constructor; [done|]. eapply Forall_impl; [exact Hall|]. simpl. lia. }
        constructor; [|done]. split; [lia|].
        rewrite Nat.sub_diag. destruct e; try done. by eexists.
      * split; [lia|]. done.
    + intros ([ex r'] & Heq & Hin)%list_elem_of_fmap.
      simpl in Heq. injection Heq as -> ->.
      apply IH in Hin as (Hlen & Hsorted & Hall). simpl.
      split; [lia|]. split; [done|].
      eapply Forall_impl; [exact Hall|]. simpl. intros i (Hi & inner & Hlook).
      split; [lia|]. exists inner.
      replace (i - k) with (S (i - S k)) by lia. done.
Qed.

Lemma expand_optional_symbols_in_rhs_spec (body expanded : list symbol) (r : list nat) :
  (expanded, r) ∈ expand_optional_symbols_in_rhs body 0 →
  length body = length expanded + length r
  ∧ StronglySorted lt r
  ∧ Forall (λ i, ∃ inner, body !! i = Some (Optional inner)) r.
Proof.
  rewrite expand_optional_symbols_in_rhs_suffix.
  intros (Hlen & Hsorted & Hall)%expand_suffix_spec.
  split; [done|]. split; [done|].
  eapply Forall_impl; [exact Hall|]. simpl. intros i (_ & inner & Hi).
  exists inner. by rewrite Nat.sub_0_r in Hi.
Qed.

Lemma expand_one_spec (nt : nt_name) (i : nat) (p : Production)
    (x : list symbol * list nat) (q : Production) (pr : Prod) :
  expand_one nt i p x = Ok (q, pr) →
  prod_nt pr = nt ∧ prod_source_index pr = i ∧ (prod_rhs pr, prod_removals pr) = x
  ∧ adjust_reduce_expr (p_body p) x.2 (p_action p) = Ok (prod_action pr).
Proof.
  destruct x as [expanded_rhs removals]. unfold expand_one.
  intros (a & Ha & [= <- <-])%rbind_Ok. done.
Qed.

Lemma expand_production_spec (nt : nt_name) (i : nat) (p : Production)
    (pairs : list (Production * Prod)) (pr : Prod) :
  expand_production nt (i, p) = Ok pairs →
  pr ∈ pairs.*2 →
  prod_nt pr = nt ∧ prod_source_index pr = i
  ∧ (prod_rhs pr, prod_removals pr) ∈ expand_optional_symbols_in_rhs (p_body p) 0
  ∧ adjust_reduce_expr (p_body p) (prod_removals pr) (p_action p) = Ok (prod_action pr).
Proof.
  unfold expand_production. simpl. intros Hmap%rmap_Ok.
  intros ([q pr'] & -> & Hin)%list_elem_of_fmap. simpl.
  apply list_elem_of_lookup in Hin as [k Hk].
  destruct (Forall2_lookup_r _ _ _ _ _ Hmap Hk) as (x & Hx & Hone).
  apply expand_one_spec in Hone as (? & ? & Heq & Hadj).
  rewrite <- Heq in Hadj. simpl in Hadj.
  repeat split; try done. rewrite Heq. by eapply list_elem_of_lookup_2.
Qed.

Lemma expand_nt_spec (nt : nt_name) (plist : list Production)
    (pairs : list (Production * Prod)) (pr : Prod) :
  expand_nt nt plist = Ok pairs →
  pr ∈ pairs.*2 →
  ∃ p, plist !! prod_source_index pr = Some p ∧ prod_nt pr = nt
    ∧ (prod_rhs pr, prod_removals pr) ∈ expand_optional_symbols_in_rhs (p_body p) 0
    ∧ adjust_reduce_expr (p_body p) (prod_removals pr) (p_action p) = Ok (prod_action pr).
Proof.
  unfold expand_nt. intros (ll & Hmap%rmap_Ok & ->)%rfmap_Ok.
  intros ([q pr'] & -> & Hin)%list_elem_of_fmap. simpl.
  apply list_elem_of_In, in_concat in Hin as (l & Hl & Hin).
  apply list_elem_of_In, list_elem_of_lookup in Hl as [k Hk].
  destruct (Forall2_lookup_r _ _ _ _ _ Hmap Hk) as ([i p] & Hx & Hprod).
  apply list_lookup_imap_Some in Hx as (p' & Hp & [= -> ->]).
  eapply expand_production_spec with (pr := pr') in Hprod as (? & -> & ? & ?).
  2:{ apply list_elem_of_fmap. exists (q, pr'). split; [done|]. by apply list_elem_of_In. }
  by exists p'.
Qed.

Lemma expand_all_loop_spec (nts expanded_grammar : list (nt_name * list Production))
    (prods : list Prod) (by_nt : by_nt_dict)
    (expanded_grammar' : list (nt_name * list Production))
    (prods' : list Prod) (by_nt' : by_nt_dict) (pr : Prod) :
  expand_all_loop nts expanded_grammar prods by_nt
    = Ok (expanded_grammar', prods', by_nt') →
  pr ∈ prods' →
  pr ∈ prods
  ∨ ∃ plist p, (prod_nt pr, plist) ∈ nts ∧ plist !! prod_source_index pr = Some p
      ∧ (prod_rhs pr, prod_removals pr) ∈ expand_optional_symbols_in_rhs (p_body p) 0
      ∧ adjust_reduce_expr (p_body p) (prod_removals pr) (p_action p)
        = Ok (prod_action pr).
Proof.
  revert expanded_grammar prods by_nt.
  induction nts as [|[nt plist] nts IH]; intros expanded_grammar prods by_nt; simpl.
  - intros [= _ <- _]. by left.
  - intros (pairs & Hnt & Hloop)%rbind_Ok Hin.
    destruct (IH _ _ _ Hloop Hin) as [Hold|(pl & p & Hpl & ?)].
    + apply elem_of_app in Hold as [?|Hnew]; [by left|]. right.
      destruct (expand_nt_spec _ _ _ _ Hnt Hnew) as (p & ? & <- & ? & ?).
      exists plist, p. split; [by left | done].
    + right. exists pl, p. split; [by right | done].
Qed.

(** C4.  Every flat [Prod] emitted by [expand_all_optional_elements] comes
    from a source production of its nonterminal, at its [index], whose body
    has length [|rhs| + |removals|]; the removals are strictly ascending and
    each one is the position of an [Optional] in that body. *)
Theorem expand_all_optional_elements_removals (grammar grammar' : Grammar)
    (prods : list Prod) (by_nt : by_nt_dict) (pr : Prod) :
  expand_all_optional_elements grammar = Ok (grammar', prods, by_nt) →
  pr ∈ prods →
  ∃ plist p,
    (prod_nt pr, plist) ∈ nonterminals grammar
    ∧ plist !! prod_source_index pr = Some p
    ∧ length (p_body p) = length (prod_rhs pr) + length (prod_removals pr)
    ∧ StronglySorted lt (prod_removals pr)
    ∧ Forall (λ i, ∃ inner, p_body p !! i = Some (Optional inner)) (prod_removals pr).
Proof.
  unfold expand_all_optional_elements.
  intros ([[eg ps] bn] & Hloop & [= _ <- _])%rbind_Ok Hin.
  destruct (expand_all_loop_spec _ _ _ _ _ _ _ _ Hloop Hin)
    as [Hnil|(plist & p & Hpl & Hp & Hexp & _)].
  - by apply elem_of_nil in Hnil.
  - exists plist, p. split; [done|]. split; [done|].
    by apply expand_optional_symbols_in_rhs_spec.
Qed.

Example s3_flat_productions :
  (λ x, x.1.2) <$> s3_expanded
  = Ok [ mkProd (Name "S") 0 [] [0; 1] (RCallMethod "pair" [RNone; RNone]);
         mkProd (Name "S") 0 [Nt (Name "A")] [1]
           (RCallMethod "pair" [RSome (RInt 0); RNone]);
         mkProd (Name "S") 0 [Nt (Name "B")] [0]
           (RCallMethod "pair" [RNone; RSome (RInt 0)]);
         mkProd (Name "S") 0 [Nt (Name "A"); Nt (Name "B")] []
           (RCallMethod "pair" [RSome (RInt 0); RSome (RInt 1)]);
         mkProd (Name "A") 0 [T "a"] [] (RInt 0);
         mkProd (Name "B") 0 [T "b"] [] (RInt 0) ].
Proof. reflexivity. Qed.

Lemma expand_all_optional_elements_removals_witness :
  let pr := mkProd (Name "S") 0 [Nt (Name "A")] [1]
              (RCallMethod "pair" [RSome (RInt 0); RNone]) in
  ∃ plist p,
    (prod_nt pr, plist) ∈ nonterminals s3_grammar
    ∧ plist !! prod_source_index pr = Some p
    ∧ length (p_body p) = length (prod_rhs pr) + length (prod_removals pr)
    ∧ StronglySorted lt (prod_removals pr)
    ∧ Forall (λ i, ∃ inner, p_body p !! i = Some (Optional inner)) (prod_removals pr).
Proof.
  intros pr.
  eapply (expand_all_optional_elements_removals s3_grammar _ _ _ pr).
  - vm_compute. reflexivity.
  - do 2 constructor.
Defined.

(** ** Rewriting of reduction expressions *)

Lemma removals_below_bound (removals : list nat) (a i : nat) :
  StronglySorted lt removals →
  Forall (λ r, a ≤ r) removals →
  removals_below removals i ≤ i - a.
Proof.
  unfold removals_below. intros Hsorted. revert a.
  induction Hsorted as [|x l Hsorted IH Hx]; intros a Ha; simpl; [lia|].
  inversion Ha as [|?? Hax Hal]; subst.
  rewrite filter_cons. destruct (decide (x < i)); simpl.
  - assert (length (filter (λ r, r < i) l) ≤ i - S x); [|lia].
    apply IH. eapply Forall_impl; [exact Hx|]. simpl. lia.
  - by apply IH.
Qed.

Lemma removals_below_cons (r : nat) (removals : list nat) (i : nat) :
  removals_below (r :: removals) i
  = (if decide (r < i) then 1 else 0) + removals_below removals i.
Proof. unfold removals_below. rewrite filter_cons. by destruct (decide (r < i)). Qed.

Lemma inner_of_plain (e : symbol) : is_optional e = false → inner_of e = e.
Proof. by destruct e. Qed.

(** The rewritten index of a kept slot is the position of that slot in the
    expanded right-hand side. *)
Lemma expand_suffix_index (l : list symbol) (k : nat) (expanded : list symbol)
    (r : list nat) (i : nat) (e : symbol) :
  (expanded, r) ∈ expand_suffix l k →
  k ≤ i → i ∉ r → l !! (i - k) = Some e →
  expanded !! (i - k - removals_below r i) = Some (inner_of e).
Proof.
  revert k expanded r. induction l as [|e0 l IH]; intros k expanded r; [done|].
  assert (Hkept : ∀ ex' r' x,
            (ex', r') ∈ expand_suffix l (S k) → x = inner_of e0 →
            k ≤ i → i ∉ r' → (e0 :: l) !! (i - k) = Some e →
            (x :: ex') !! (i - k - removals_below r' i) = Some (inner_of e)).
  { intros ex' r' x Hin -> Hle Hnin Hlook.
    pose proof (expand_suffix_spec _ _ _ _ Hin) as (_ & Hsorted & Hall).
    assert (Hbound : removals_below r' i ≤ i - S k).
    { apply removals_below_bound; [done|].
      eapply Forall_impl; [exact Hall|]. simpl. tauto. }
    destruct (decide (i = k)) as [->|Hne].
    - rewrite Nat.sub_diag in *. injection Hlook as <-. done.
    - replace (i - k) with (S (i - S k)) in Hlook by lia. simpl in Hlook.
      replace (i - k - removals_below r' i) with (S (i - S k - removals_below r' i))
        by lia.
      simpl. apply IH; [done | lia | done | done]. }
  simpl. destruct (is_optional e0) eqn:Hopt.
  - intros ([ex' r'] & Hin & Hx)%list_elem_of_In%in_flat_map Hle Hnin Hlook.
    apply list_elem_of_In in Hin.
    destruct Hx as [[= <- <-]|[[= <- <-]|[]]].
    + apply not_elem_of_cons in Hnin as [Hne Hnin].
      replace (i - k) with (S (i - S k)) in Hlook by lia. simpl in Hlook.
      rewrite removals_below_cons, decide_True by lia.
      replace (i - k - (1 + removals_below r' i)) with (i - S k - removals_below r' i)
        by lia.
      apply IH; [done | lia | done | done].
    + by apply Hkept.
  - intros ([ex' r'] & Heq & Hin)%list_elem_of_fmap Hle Hnin Hlook.
    simpl in Heq. injection Heq as -> ->.
    apply Hkept; [done | by rewrite inner_of_plain | done | done | done].
Qed.

(** C3.  For the removals [R] of any expansion of a production body,
    [adjust_reduce_expr] sends an index in [R] to [None], a kept optional
    slot [i] to [Some(i')] and a kept plain slot to [i'], where
    [i' = i - |{r in R : r < i}|] (a true subtraction: the count never
    exceeds [i]) is the position of the kept symbol in the expanded
    right-hand side; [None] to [None]; [Some(e)] to [Some(adjust(e))];
    [CallMethod(name, args)] to [CallMethod(name, map adjust args)]; and
    ['accept'] to ['accept']. *)
Theorem adjust_reduce_expr_spec (body expanded : list symbol) (R : list nat) :
  (expanded, R) ∈ expand_optional_symbols_in_rhs body 0 →
  (∀ i, i ∈ R → adjust_reduce_expr body R (RInt i) = Ok RNone)
  ∧ (∀ i inner, i ∉ R → body !! i = Some (Optional inner) →
       removals_below R i ≤ i
       ∧ expanded !! (i - removals_below R i) = Some inner
       ∧ adjust_reduce_expr body R (RInt i)
         = Ok (RSome (RInt (i - removals_below R i))))
  ∧ (∀ i e, i ∉ R → body !! i = Some e → is_optional e = false →
       removals_below R i ≤ i
       ∧ expanded !! (i - removals_below R i) = Some e
       ∧ adjust_reduce_expr body R (RInt i) = Ok (RInt (i - removals_below R i)))
  ∧ adjust_reduce_expr body R RNone = Ok RNone
  ∧ (∀ e, adjust_reduce_expr body R (RSome e) = RSome <$> adjust_reduce_expr body R e)
  ∧ (∀ name args,
       adjust_reduce_expr body R (RCallMethod name args)
       = RCallMethod name <$> rmap (adjust_reduce_expr body R) args)
  ∧ adjust_reduce_expr body R RAccept = Ok RAccept.
Proof.
  intros Hexp.
  pose proof (expand_optional_symbols_in_rhs_spec _ _ _ Hexp) as (_ & Hsorted & _).
  rewrite expand_optional_symbols_in_rhs_suffix in Hexp.
  assert (Hbound : ∀ i, removals_below R i ≤ i).
  { intros i. rewrite <- (Nat.sub_0_r i) at 2.
    apply removals_below_bound; [done|]. apply Forall_forall. intros; lia. }
  assert (Hslot : ∀ i e, i ∉ R → body !! i = Some e →
            expanded !! (i - removals_below R i) = Some (inner_of e)).
  { intros i e Hi Hbody. rewrite <- (Nat.sub_0_r i) at 1.
    apply (expand_suffix_index body 0); [done | lia | done |].
    by rewrite Nat.sub_0_r. }
  split; [|split; [|split]]; [| | |done].
  - intros i Hi. simpl. by rewrite decide_True.
  - intros i inner Hi Hbody. split; [done|]. split; [by apply (Hslot i _ Hi Hbody)|].
    simpl. rewrite decide_False by done. by rewrite Hbody.
  - intros i e Hi Hbody He. split; [done|]. split.
    + rewrite <- (inner_of_plain e He). by apply Hslot.
    + simpl. rewrite decide_False by done. rewrite Hbody. simpl. by rewrite He.
Qed.

Lemma adjust_reduce_expr_spec_witness :
  let body := [Optional (Nt (Name "A")); Optional (Nt (Name "B"))] in
  let expanded := [Nt (Name "B")] in
  let R := [0] in
  (∀ i, i ∈ R → adjust_reduce_expr body R (RInt i) = Ok RNone)
  ∧ (∀ i inner, i ∉ R → body !! i = Some (Optional inner) →
       removals_below R i ≤ i
       ∧ expanded !! (i - removals_below R i) = Some inner
       ∧ adjust_reduce_expr body R (RInt i)
         = Ok (RSome (RInt (i - removals_below R i))))
  ∧ (∀ i e, i ∉ R → body !! i = Some e → is_optional e = false →
       removals_below R i ≤ i
       ∧ expanded !! (i - removals_below R i) = Some e
       ∧ adjust_reduce_expr body R (RInt i) = Ok (RInt (i - removals_below R i)))
  ∧ adjust_reduce_expr body R RNone = Ok RNone
  ∧ (∀ e, adjust_reduce_expr body R (RSome e) = RSome <$> adjust_reduce_expr body R e)
  ∧ (∀ name args,
       adjust_reduce_expr body R (RCallMethod name args)
       = RCallMethod name <$> rmap (adjust_reduce_expr body R) args)
  ∧ adjust_reduce_expr body R RAccept = Ok RAccept.
Proof.
  intros body expanded R.
  apply (adjust_reduce_expr_spec body expanded R).
  vm_compute. do 3 constructor.
Defined.

(** ** Removal of empty right-hand sides *)

(** C9.  [make_epsilon_free_step_2] keeps the nonterminals and their order,
    and keeps a production of [nt] exactly when its body is nonempty or [nt]
    is a goal; the kept productions are unchanged and stay in order.  Hence
    an empty body survives only on a goal, and a nonterminal all of whose
    bodies are nonempty keeps its production list as it is. *)
Theorem make_epsilon_free_step_2_spec (grammar : Grammar) :
  let grammar' := make_epsilon_free_step_2 grammar in
  (nonterminals grammar').*1 = (nonterminals grammar).*1
  ∧ goals grammar' = goals grammar
  ∧ (∀ i nt plist, nonterminals grammar !! i = Some (nt, plist) →
       ∃ plist', nonterminals grammar' !! i = Some (nt, plist')
         ∧ plist' = filter (λ p, 0 < length (p_body p) ∨ nt ∈ goals grammar) plist
         ∧ (∀ p, p ∈ plist' ↔ p ∈ plist ∧ (p_body p ≠ [] ∨ nt ∈ goals grammar))
         ∧ plist' `sublist_of` plist
         ∧ (Forall (λ p, p_body p ≠ []) plist → plist' = plist))
  ∧ (∀ nt plist' p, (nt, plist') ∈ nonterminals grammar' → p ∈ plist' →
       p_body p = [] → nt ∈ goals grammar).
Proof.
  assert (Hne : ∀ l : list symbol, 0 < length l ↔ l ≠ []).
  { intros [|??]; simpl; split; (done || lia). }
  simpl. split; [|split; [done|split]].
  - induction (nonterminals grammar) as [|[nt plist] l IH]; simpl; [done|].
    f_equal. exact IH.
  - intros i nt plist Hi. eexists. split.
    { rewrite list_lookup_fmap, Hi. done. }
    split; [done|]. split; [|split].
    + intros p. rewrite list_elem_of_filter, Hne. tauto.
    + apply sublist_filter.
    + intros Hall. clear Hi. induction Hall as [|p l Hp Hall IH]; [done|].
      rewrite filter_cons. rewrite decide_True by (left; by apply Hne).
      by rewrite IH.
  - intros nt plist' p ([nt' plist] & [= -> ->] & Hin)%list_elem_of_fmap.
    intros [[Hp|Hg] _]%list_elem_of_filter Hbody; [|done].
    rewrite Hbody in Hp. simpl in Hp. lia.
Qed.

(** ** Validators *)

Lemma rforeach_Ok {A} (f : A → result unit) (l : list A) :
  rforeach f l = Ok tt ↔ Forall (λ x, f x = Ok tt) l.
Proof.
  induction l as [|x l IH]; simpl.
  - split; [constructor | done].
  - split.
    + intros ([] & Hx & Hl)%rbind_Ok. constructor; [done | by apply IH].
    + inversion 1 as [|?? Hx Hl]; subst. apply rbind_Ok. exists tt.
      split; [done | by apply IH].
Qed.

(** What the validator does catch: when it returns normally, no expansion
    of any body ends in a [LookaheadRule]. *)
Lemma check_lookahead_rules_last (grammar : Grammar) (nt : nt_name)
    (plist : list Production) (p : Production) (rhs : list symbol) (r : list nat)
    (rule : LookaheadRule) :
  check_lookahead_rules grammar = Ok tt →
  (nt, plist) ∈ nonterminals grammar →
  p ∈ plist →
  (rhs, r) ∈ expand_optional_symbols_in_rhs (p_body p) 0 →
  last rhs ≠ Some (LA rule).
Proof.
  unfold check_lookahead_rules.
  intros ([] & _ & Hall%rforeach_Ok)%rbind_Ok Hnt Hp Hrhs Hlast.
  rewrite Forall_forall in Hall. specialize (Hall _ Hnt). simpl in Hall.
  apply rforeach_Ok in Hall. rewrite Forall_forall in Hall.
  specialize (Hall _ Hp). apply rforeach_Ok in Hall.
  rewrite Forall_forall in Hall. specialize (Hall _ Hrhs). simpl in Hall.
  by rewrite Hlast in Hall.
Qed.

(** The lowering steps then turn the body into one that ends in the
    lookahead rule. *)
Example trailing_grammar_lowered :
  (λ x, x.1.2) <$> lower_grammar trailing_grammar
  = Ok [ mkProd (Name "A") 0 [LA not_x] [1] RNone;
         mkProd (Name "A") 0 [LA not_x; Nt (Name "B")] [] (RSome (RInt 1));
         mkProd (Name "B") 0 [] [] RNone;
         mkProd (Name "B") 1 [T "b"] [] (RInt 0) ].
Proof. vm_refl. Qed.

(** C2.  On [A ::= [lookahead not in {x}] B] with [B] matching the empty
    string, the lookahead restriction is followed only by a nullable
    element, and [check_lookahead_rules] returns normally instead of
    raising. *)
Theorem check_lookahead_rules_nullable_tail :
  dict_get (nonterminals trailing_grammar) (Name "A")
    = Some [ mkProduction (Name "A") [LA not_x; Nt (Name "B")] (RInt 1) ]
  ∧ (Name "B" ∈@{gset nt_name} {[ Name "A"; Name "B" ]}
     ∧ empty_nt_set trailing_grammar = Ok {[ Name "A"; Name "B" ]})
  ∧ check_lookahead_rules trailing_grammar = Ok tt.
Proof.
  split; [reflexivity|]. split; [split|].
  - set_solver.
  - vm_refl.
  - vm_refl.
Qed.

(** ** Termination of [empty_nt_set] *)

Lemma production_is_empty_mono (X Y : gset nt_name) (p : Production) :
  X ⊆ Y → production_is_empty X p = true → production_is_empty Y p = true.
Proof.
  unfold production_is_empty. intros Hsub. rewrite !forallb_forall.
  intros Hall e He. specialize (Hall e He).
  destruct e as [?|n|?|?]; simpl in *; try done.
  apply bool_decide_eq_true in Hall. apply bool_decide_eq_true. auto.
Qed.

Lemma elem_of_empty_nt_set_step (grammar : Grammar) (X : gset nt_name) (nt : nt_name) :
  nt ∈ empty_nt_set_step grammar X
  ↔ ∃ plist, (nt, plist) ∈ nonterminals grammar
             ∧ existsb (production_is_empty X) plist = true.
Proof.
  unfold empty_nt_set_step. rewrite elem_of_list_to_set, list_elem_of_fmap. split.
  - intros ([nt' plist] & -> & [Hp Hin]%list_elem_of_filter). by exists plist.
  - intros (plist & Hin & Hp). exists (nt, plist). split; [done|].
    by apply list_elem_of_filter.
Qed.

Lemma empty_nt_set_step_mono (grammar : Grammar) (X Y : gset nt_name) :
  X ⊆ Y → empty_nt_set_step grammar X ⊆ empty_nt_set_step grammar Y.
Proof.
  intros Hsub nt. rewrite !elem_of_empty_nt_set_step.
  intros (plist & Hin & Hp). exists plist. split; [done|].
  apply existsb_exists in Hp as (p & Hp & Hempty). apply existsb_exists.
  exists p. split; [done|]. by eapply production_is_empty_mono.
Qed.

Lemma empty_nt_set_step_bounded (grammar : Grammar) (X : gset nt_name) :
  empty_nt_set_step grammar X ⊆ list_to_set (nonterminals grammar).*1.
Proof.
  intros nt (plist & Hin & _)%elem_of_empty_nt_set_step.
  apply elem_of_list_to_set, list_elem_of_fmap. by exists (nt, plist).
Qed.

Lemma size_list_to_set_le (l : list nt_name) :
  size (list_to_set l : gset nt_name) ≤ length l.
Proof.
  induction l as [|x l IH].
  - change (size (∅ : gset nt_name) ≤ 0). by rewrite size_empty.
  - change (size ({[ x ]} ∪ list_to_set l : gset nt_name) ≤ S (length l)).
    rewrite size_union_alt, size_singleton.
    assert (size (list_to_set l ∖ {[ x ]} : gset nt_name) ≤ size (list_to_set l : gset nt_name)).
    { apply subseteq_size. set_solver. }
    lia.
Qed.

Lemma fix_loop_gset_total (f : gset nt_name → gset nt_name) (U : gset nt_name)
    (fuel : nat) (prev : gset nt_name) :
  (∀ X Y, X ⊆ Y → f X ⊆ f Y) → (∀ X, f X ⊆ U) →
  prev ⊆ f prev → size U - size prev ≤ fuel →
  ∃ r, fix_loop fuel (λ x, Ok (f x)) prev (f prev) = Ok r ∧ f r = r.
Proof.
  intros Hmono Hbound. revert prev.
  induction fuel as [|fuel IH]; intros prev Hprev Hfuel.
  - simpl. destruct (decide (f prev = prev)) as [Heq|Hne].
    + exists (f prev). split; [done | by rewrite Heq].
    + exfalso. assert (size prev < size U); [|lia].
      apply (Nat.lt_le_trans _ (size (f prev))); [|by apply subseteq_size].
      apply subset_size. split; [done|]. intros Hsub. apply Hne. set_solver.
  - simpl. destruct (decide (f prev = prev)) as [Heq|Hne].
    + exists (f prev). split; [done | by rewrite Heq].
    + apply IH; [by apply Hmono|].
      assert (size prev < size (f prev)); [|lia].
      apply subset_size. split; [done|]. intros Hsub. apply Hne. set_solver.
Qed.

(** [empty_nt_set] always returns, and what it returns is a fixed point of
    the step: the fuel it is given is enough. *)
Lemma empty_nt_set_total (grammar : Grammar) :
  ∃ empties, empty_nt_set grammar = Ok empties
             ∧ empty_nt_set_step grammar empties = empties.
Proof.
  unfold empty_nt_set, fix_. cbn [rbind].
  apply (fix_loop_gset_total (empty_nt_set_step grammar)
           (list_to_set (nonterminals grammar).*1)).
  - apply empty_nt_set_step_mono.
  - apply empty_nt_set_step_bounded.
  - set_solver.
  - pose proof (size_list_to_set_le (nonterminals grammar).*1) as Hle.
    rewrite length_fmap in Hle. lia.
Qed.

(** ** Start sets *)

Lemma nullable_goal_lowering :
  lower_grammar nullable_goal_grammar
  = Ok (nullable_goal_final, nullable_goal_prods, nullable_goal_by_nt).
Proof. vm_refl. Qed.

Lemma nullable_goal_start_sets :
  start_sets nullable_goal_final = Ok nullable_goal_start.
Proof. vm_refl. Qed.

(** C1.  The grammar with goals [S] and [G], [S ::= G [lookahead not in {y}] x]
    and [G ::= (empty) | g] passes the validators and is lowered; in the
    lowered grammar [S] derives a form that begins with the terminal [g],
    yet the start set computed for [S] is [{x}]: it lacks [g]. *)
Theorem start_sets_misses_leading_terminal :
  lower_grammar nullable_goal_grammar
  = Ok (nullable_goal_final, nullable_goal_prods, nullable_goal_by_nt)
  ∧ derives nullable_goal_final [Nt (Name "S")] [T "g"; LA not_y; T "x"]
  ∧ ∃ start,
      start_sets nullable_goal_final = Ok start
      ∧ start !! Name "S" = Some {[ Tk "x" ]}
      ∧ Tk "g" ∉@{gset tok} {[ Tk "x" ]}.
Proof.
  split; [exact nullable_goal_lowering|]. split.
  - eapply (derives_step _ [] (Name "S") []); [reflexivity | |].
    { apply list_elem_of_further, list_elem_of_here. }
    eapply (derives_step _ [] (Name "G") [LA not_y; T "x"]); [reflexivity | |].
    { apply list_elem_of_further, list_elem_of_here. }
    apply derives_refl.
  - exists nullable_goal_start. split; [exact nullable_goal_start_sets|].
    split; [vm_refl | set_solver].
Qed.

(** ** The cache of suffix start sets *)

Lemma nullable_goal_make_start_set_cache :
  make_start_set_cache false nullable_goal_prods nullable_goal_start
  = Ok nullable_goal_cache.
Proof. vm_refl. Qed.

(** C8.  For the lowered grammar above, the row built right to left for
    [S ::= G [lookahead not in {y}] x] starts with [{g, x}], while
    [seq_start] of the whole right-hand side is [{x}]: the assertion in
    [suffix_start_list] fails and [make_start_set_cache] raises instead of
    returning a cache.  With assertions switched off the cache is returned
    and differs from the per-suffix computation at index 0 of that row. *)
Theorem make_start_set_cache_differs_from_seq_start :
  start_sets nullable_goal_final = Ok nullable_goal_start
  ∧ nullable_goal_prods !! 4
    = Some (mkProd (Name "S") 0 [Nt (Name "G"); LA not_y; T "x"] []
              (RCallMethod "s" [RSome (RInt 0); RInt 2]))
  ∧ make_start_set_cache true nullable_goal_prods nullable_goal_start
    = Raise AssertionError
  ∧ make_start_set_cache false nullable_goal_prods nullable_goal_start
    = Ok nullable_goal_cache
  ∧ nullable_goal_cache !! 4
    = Some [ {[ Tk "g"; Tk "x" ]}; {[ Tk "x" ]}; {[ Tk "x" ]}; {[ EMPTY ]} ]
  ∧ seq_start nullable_goal_start (drop 0 [Nt (Name "G"); LA not_y; T "x"])
    = Ok {[ Tk "x" ]}
  ∧ ({[ Tk "g"; Tk "x" ]} : gset tok) ≠ {[ Tk "x" ]}.
Proof.
  split; [exact nullable_goal_start_sets|]. split; [reflexivity|].
  split; [vm_refl|].
  split; [exact nullable_goal_make_start_set_cache|].
  split; [reflexivity|]. split; [vm_refl|].
  intros Heq. assert (Hin : Tk "g" ∈@{gset tok} {[ Tk "x" ]}); [|set_solver].
  rewrite <- Heq. set_solver.
Qed.

(** ** The cache on guarded right-hand sides *)

Lemma seq_start_loop_stop (start : gmap nt_name (gset tok)) (s : gset tok)
    (seq : list symbol) :
  EMPTY ∉ s → seq_start_loop start s seq = Ok s.
Proof. intros Hs. destruct seq; simpl; [done|]. by rewrite decide_True. Qed.

Lemma seq_start_loop_total (start : gmap nt_name (gset tok)) (s : gset tok)
    (seq : list symbol) :
  seq_wf start seq → ∃ r, seq_start_loop start s seq = Ok r.
Proof.
  intros Hwf. revert s. induction Hwf as [|e seq He Hwf IH]; intros s; simpl; [eauto|].
  destruct (decide (EMPTY ∉ s)) as [?|_]; [eauto|].
  destruct e as [t|n|?|rule]; [apply IH | | done |].
  - destruct He as [sn ->]. simpl. apply IH.
  - destruct (IH {[ EMPTY ]}) as [future ->]. simpl. eauto.
Qed.

(** Entered with a set [s] that holds [EMPTY], on a guarded sequence that
    does not begin with a lookahead rule, the loop of [seq_start] adds to
    [s] without [EMPTY] what it computes from [{EMPTY}]. *)
Lemma seq_start_loop_acc (start : gmap nt_name (gset tok)) (s : gset tok)
    (seq : list symbol) (r : gset tok) :
  seq_wf start seq → lookahead_guarded start seq →
  EMPTY ∈ s →
  match seq with LA _ :: _ => False | _ => True end →
  seq_start_loop start {[ EMPTY ]} seq = Ok r →
  seq_start_loop start s seq = Ok (s ∖ {[ EMPTY ]} ∪ r).
Proof.
  intros Hwf. revert s r.
  induction Hwf as [|e seq He Hwf IH]; intros s r Hguard Hs Hhead; simpl.
  - intros [= <-]. f_equal. apply set_eq. intros x.
    destruct (decide (x = EMPTY)) as [->|]; set_solver.
  - rewrite (decide_False (P := EMPTY ∉ s)) by (intros Hn; by apply Hn).
    rewrite (decide_False (P := EMPTY ∉ ({[ EMPTY ]} : gset tok))) by set_solver.
    destruct Hguard as [Hhere Hguard].
    destruct e as [t|n|?|rule]; [| | done | done].
    + rewrite !seq_start_loop_stop by set_solver.
      intros [= <-]. f_equal. set_solver.
    + destruct He as [sn Hsn]. rewrite Hsn. simpl.
      destruct (decide (EMPTY ∈ sn)) as [Hin|Hnin].
      * assert (Hrest : match seq with LA _ :: _ => False | _ => True end).
        { destruct seq as [|[] ?]; try done. rewrite Hsn in Hhere. simpl in Hhere. done. }
        destruct (seq_start_loop_total start {[ EMPTY ]} seq Hwf) as [r' Hr'].
        rewrite (IH _ r' Hguard) by (done || set_solver).
        rewrite (IH _ r' Hguard) by (done || set_solver).
        intros [= <-]. f_equal. set_solver.
      * rewrite !seq_start_loop_stop by set_solver.
        intros [= <-]. f_equal. set_solver.
Qed.

(** On a guarded sequence [seq_start] satisfies the recurrence that
    [suffix_start_list] runs from right to left. *)
Lemma seq_start_cons (debug : bool) (start : gmap nt_name (gset tok)) (e : symbol)
    (rest : list symbol) (previous : gset tok) :
  seq_wf start (e :: rest) → lookahead_guarded start (e :: rest) →
  seq_start start rest = Ok previous →
  ∃ s, suffix_start_of debug start e previous = Ok s
       ∧ seq_start start (e :: rest) = Ok s.
Proof.
  intros [He Hwf]%Forall_cons [Hhere Hguard] Hprev. unfold seq_start in *. simpl.
  rewrite (decide_False (P := EMPTY ∉ ({[ EMPTY ]} : gset tok))) by set_solver.
  destruct e as [t|n|?|rule]; [| | done |]; simpl.
  - eexists. split; [done|]. rewrite seq_start_loop_stop by set_solver.
    f_equal. set_solver.
  - destruct He as [sn Hsn]. rewrite Hsn. simpl. eexists. split; [done|].
    destruct (decide (EMPTY ∈ sn)) as [Hin|Hnin].
    + assert (Hrest : match rest with LA _ :: _ => False | _ => True end).
      { destruct rest as [|[] ?]; try done. rewrite Hsn in Hhere. simpl in Hhere. done. }
      rewrite (seq_start_loop_acc _ _ _ previous Hwf Hguard) by (done || set_solver).
      f_equal. set_solver.
    + rewrite seq_start_loop_stop by set_solver. f_equal. set_solver.
  - rewrite Hprev. simpl. eauto.
Qed.

Lemma lookahead_guarded_app (start : gmap nt_name (gset tok)) (pre post : list symbol) :
  lookahead_guarded start (pre ++ post) → lookahead_guarded start post.
Proof. induction pre as [|e pre IH]; simpl; [done|]. intros [_ ?]. auto. Qed.

Lemma suffix_start_loop_guarded (debug : bool) (start : gmap nt_name (gset tok))
    (rhs todo post : list symbol) (sets : list (gset tok)) :
  seq_wf start rhs → lookahead_guarded start rhs →
  rhs = reverse todo ++ post →
  length sets = S (length post) →
  (∀ j, j ≤ length post →
     ∃ s, sets !! j = Some s ∧ seq_start start (drop (length rhs - j) rhs) = Ok s) →
  ∃ sets',
    suffix_start_loop debug start rhs todo sets = Ok sets'
    ∧ length sets' = S (length rhs)
    ∧ ∀ j, j ≤ length rhs →
        ∃ s, sets' !! j = Some s ∧ seq_start start (drop (length rhs - j) rhs) = Ok s.
Proof.
  intros Hwf Hguard. revert post sets.
  induction todo as [|e todo IH]; intros post sets Hrhs Hlen Hinv.
  - simpl in Hrhs. subst post. exists sets. split; [done|]. split; done.
  - rewrite reverse_cons, <- (assoc_L (++)) in Hrhs. simpl in Hrhs.
    assert (Hlenrhs : length rhs = length (reverse todo) + S (length post)).
    { rewrite Hrhs at 1. rewrite length_app. done. }
    assert (Hdrop : drop (length rhs - S (length post)) rhs = e :: post).
    { rewrite Hrhs at 2. replace (length rhs - S (length post)) with (length (reverse todo)) by lia.
      by rewrite drop_app_length. }
    assert (Hdrop' : drop (length rhs - length post) rhs = post).
    { replace (length rhs - length post) with (length rhs - S (length post) + 1) by lia.
      rewrite <- drop_drop, Hdrop. done. }
    destruct (Hinv (length post)) as (previous & Hprev & Hseq); [done|].
    rewrite Hdrop' in Hseq.
    assert (Hwf' : seq_wf start (e :: post)).
    { rewrite Hrhs in Hwf. by apply Forall_app in Hwf as [_ ?]. }
    assert (Hguard' : lookahead_guarded start (e :: post)).
    { rewrite Hrhs in Hguard. by apply lookahead_guarded_app in Hguard. }
    destruct (seq_start_cons debug _ _ _ _ Hwf' Hguard' Hseq) as (s & Hs & Hcons).
    simpl. rewrite last_lookup, Hlen. simpl. rewrite Hprev. simpl. rewrite Hs. simpl.
    assert (Hassert : (if debug then
               rbind (seq_start start (drop (length rhs - S (length post)) rhs))
                 (λ expected, if decide (s = expected) then Ok tt else Raise AssertionError)
             else Ok tt) = Ok tt).
    { destruct debug; [|done]. rewrite Hdrop, Hcons. simpl. by rewrite decide_True. }
    rewrite Hassert. simpl.
    apply (IH (e :: post)); [done | rewrite length_app; simpl; lia |].
    intros j Hj. simpl in Hj. destruct (decide (j = S (length post))) as [->|Hne].
    + exists s. rewrite lookup_app_r by lia. rewrite Hlen, Nat.sub_diag. simpl.
      by rewrite Hdrop.
    + destruct (Hinv j) as (sj & Hsj & Hseqj); [lia|].
      exists sj. split; [|done]. by apply lookup_app_l_Some.
Qed.

(** On a well-formed, guarded right-hand side [suffix_start_list] returns,
    with or without assertions, the list of the [|rhs| + 1] sets that
    [seq_start] computes for the suffixes. *)
Lemma suffix_start_list_guarded (debug : bool) (start : gmap nt_name (gset tok))
    (rhs : list symbol) :
  seq_wf start rhs → lookahead_guarded start rhs →
  ∃ cache,
    suffix_start_list debug start rhs = Ok cache
    ∧ length cache = S (length rhs)
    ∧ ∀ i, i ≤ length rhs →
        ∃ s, cache !! i = Some s ∧ seq_start start (drop i rhs) = Ok s.
Proof.
  intros Hwf Hguard.
  destruct (suffix_start_loop_guarded debug start rhs (reverse rhs) [] [ {[ EMPTY ]} ]
              Hwf Hguard) as (sets & Hloop & Hlen & Hinv).
  { by rewrite reverse_involutive, app_nil_r. }
  { done. }
  { intros j Hj. simpl in Hj. replace j with 0 by lia. exists {[ EMPTY ]}.
    split; [done|]. rewrite Nat.sub_0_r, drop_all. done. }
  assert (Hcache : ∀ i, i ≤ length rhs →
            ∃ s, reverse sets !! i = Some s ∧ seq_start start (drop i rhs) = Ok s).
  { intros i Hi. destruct (Hinv (length rhs - i)) as (s & Hs & Hseq); [lia|].
    exists s. replace (length rhs - (length rhs - i)) with i in Hseq by lia.
    split; [|done]. rewrite reverse_lookup by lia.
    rewrite <- Hs. f_equal. lia. }
  exists (reverse sets). unfold suffix_start_list. rewrite Hloop. cbn [rbind].
  split; [|split; [by rewrite length_reverse | done]].
  destruct debug; [|done].
  assert (Hexpected : rmap (λ i, seq_start start (drop i rhs)) (seq 0 (S (length rhs)))
                      = Ok (reverse sets)).
  { apply rmap_Ok, Forall2_same_length_lookup. split.
    - by rewrite length_seq, length_reverse.
    - intros i x y Hx Hy. apply lookup_seq in Hx as [-> Hlt]. simpl.
      destruct (Hcache i) as (s & Hs & Hseq); [lia|].
      rewrite Hs in Hy. by injection Hy as <-. }
  rewrite Hexpected. cbn [rbind]. by rewrite decide_True.
Qed.

(** ** Consolidation of items in [State.__init__] *)

Lemma consolidate_snoc (items : list LRItem) (item : LRItem) :
  consolidate (items ++ [item])
  = dict_set (consolidate items) (item_key item)
      (default ∅ (dict_get (consolidate items) (item_key item)) ∪ followed_by item).
Proof. unfold consolidate. by rewrite foldl_app. Qed.

Lemma consolidate_spec (items : list LRItem) :
  NoDup (consolidate items).*1
  ∧ (∀ k, k ∈ (consolidate items).*1 ↔ k ∈ map item_key items)
  ∧ (∀ k v, dict_get (consolidate items) k = Some v →
       ∀ t, t ∈ v ↔ ∃ j, j ∈ items ∧ item_key j = k ∧ t ∈ followed_by j).
Proof.
  induction items as [|item items (Hnd & Hkeys & Hget)] using rev_ind.
  - split; [constructor|]. split; [done|]. done.
  - rewrite consolidate_snoc. split; [by apply dict_set_NoDup|]. split.
    + intros k. rewrite dict_set_keys, fmap_app, elem_of_app. simpl.
      rewrite list_elem_of_singleton, <- Hkeys.
      destruct (decide (item_key item ∈ (consolidate items).*1)) as [Hin|Hnin].
      * split; [tauto|]. intros [?| ->]; done.
      * rewrite elem_of_app, list_elem_of_singleton. done.
    + intros k v. rewrite dict_get_set.
      destruct (decide (k = item_key item)) as [->|Hne].
      * intros [= <-] t. rewrite elem_of_union. split.
        -- intros [Ht|Ht].
           ++ destruct (dict_get (consolidate items) (item_key item)) as [v'|] eqn:Hv;
                simpl in Ht; [|set_solver].
              apply (Hget _ _ Hv) in Ht as (j & Hj & Hk & Ht).
              exists j. rewrite elem_of_app. auto.
           ++ exists item. rewrite elem_of_app, list_elem_of_singleton. auto.
        -- intros (j & [Hj| ->%list_elem_of_singleton]%elem_of_app & Hk & Ht); [|by right].
           left. destruct (dict_get (consolidate items) (item_key item)) as [v'|] eqn:Hv.
           ++ simpl. apply (Hget _ _ Hv). eauto.
           ++ apply dict_get_None_keys in Hv. exfalso. apply Hv, Hkeys.
              apply list_elem_of_fmap. eauto.
      * intros Hv t. rewrite (Hget _ _ Hv). split.
        -- intros (j & Hj & Hk & Ht). exists j. rewrite elem_of_app. auto.
        -- intros (j & [Hj| ->%list_elem_of_singleton]%elem_of_app & Hk & Ht); [eauto|].
           by destruct Hne.
Qed.

Lemma State_init_items (context : PgenContext) (items : list LRItem) (s : State) :
  State_init context items = Ok s →
  lr_items s = map (λ kv, mkLRItem kv.1.1.1 kv.1.1.2 kv.1.2 kv.2) (consolidate items)
  ∧ map item_key (lr_items s) = (consolidate items).*1
  ∧ key s = list_to_set (map item_key (lr_items s))
  ∧ id s = None.
Proof.
  unfold State_init. intros ([] & _ & [= <-])%rbind_Ok. simpl.
  split; [done|]. split; [|done].
  rewrite map_map. apply map_ext. by intros [[[??]?]?].
Qed.

Lemma State_init_wf (context : PgenContext) (items : list LRItem) (s : State) :
  State_init context items = Ok s → state_wf s.
Proof.
  intros (_ & Hkeys & Hkey & _)%State_init_items. split; [|done].
  rewrite Hkeys. apply consolidate_spec.
Qed.

Lemma State_init_elem (context : PgenContext) (items : list LRItem) (s : State)
    (item : LRItem) :
  State_init context items = Ok s →
  item ∈ lr_items s ↔ dict_get (consolidate items) (item_key item) = Some (followed_by item).
Proof.
  intros (Hitems & _)%State_init_items. rewrite Hitems.
  destruct (consolidate_spec items) as (Hnd & _ & _).
  rewrite list_elem_of_fmap. split.
  - intros ([[[p o] l] v] & -> & Hin). simpl. by apply dict_get_elem_NoDup.
  - intros Hget%dict_get_Some_elem. eexists; split; [|exact Hget]. by destruct item.
Qed.

Lemma State_init_keys (context : PgenContext) (items : list LRItem) (s : State) :
  State_init context items = Ok s →
  ∀ k, k ∈ map item_key (lr_items s) ↔ k ∈ map item_key items.
Proof.
  intros (_ & Hkeys & _)%State_init_items k. rewrite Hkeys.
  apply consolidate_spec.
Qed.

(** C10.  The items of a constructed state have pairwise distinct
    [(prod_index, offset, lookahead)] triples, exactly the triples of the
    items passed in; the [followed_by] set of each is the union of the
    [followed_by] sets of the items passed in with that triple.  Hence two
    collections of items with the same triples and the same unions give
    states with equal keys (equal states, by [State.__eq__]) and the same
    items. *)
Theorem State_init_consolidates (context : PgenContext) (items : list LRItem)
    (s : State) :
  State_init context items = Ok s →
  NoDup (map item_key (lr_items s))
  ∧ (∀ k, k ∈ map item_key (lr_items s) ↔ k ∈ map item_key items)
  ∧ (∀ item, item ∈ lr_items s →
       ∀ t, t ∈ followed_by item
            ↔ ∃ j, j ∈ items ∧ item_key j = item_key item ∧ t ∈ followed_by j)
  ∧ (∀ items' s',
       State_init context items' = Ok s' →
       (∀ k, k ∈ map item_key items ↔ k ∈ map item_key items') →
       (∀ k t, (∃ j, j ∈ items ∧ item_key j = k ∧ t ∈ followed_by j)
               ↔ (∃ j, j ∈ items' ∧ item_key j = k ∧ t ∈ followed_by j)) →
       key s = key s' ∧ ∀ item, item ∈ lr_items s ↔ item ∈ lr_items s').
Proof.
  intros Hs. pose proof (State_init_items _ _ _ Hs) as (Hitems & Hkeys & Hkey & _).
  destruct (consolidate_spec items) as (Hnd & Hk & Hget).
  split; [by rewrite Hkeys|]. split; [by apply (State_init_keys context)|]. split.
  - intros item Hin t. apply (State_init_elem _ _ _ _ Hs) in Hin. by apply Hget.
  - intros items' s' Hs' Hsame Hunion.
    pose proof (State_init_items _ _ _ Hs') as (Hitems' & Hkeys' & Hkey' & _).
    destruct (consolidate_spec items') as (Hnd' & Hk' & Hget').
    assert (Hdict : ∀ k v, dict_get (consolidate items) k = Some v →
                           dict_get (consolidate items') k = Some v).
    { intros k v Hv.
      destruct (dict_get (consolidate items') k) as [v'|] eqn:Hv'.
      - f_equal. apply set_eq. intros t.
        rewrite (Hget _ _ Hv), (Hget' _ _ Hv'). symmetry. apply Hunion.
      - apply dict_get_None_keys in Hv'. exfalso. apply Hv', Hk', Hsame, Hk.
        apply dict_get_Some_elem in Hv. apply list_elem_of_fmap. by exists (k, v). }
    assert (Hdict' : ∀ k v, dict_get (consolidate items') k = Some v →
                            dict_get (consolidate items) k = Some v).
    { intros k v Hv'.
      destruct (dict_get (consolidate items) k) as [v0|] eqn:Hv.
      - f_equal. apply set_eq. intros t.
        rewrite (Hget _ _ Hv), (Hget' _ _ Hv'). apply Hunion.
      - apply dict_get_None_keys in Hv. exfalso. apply Hv, Hk, Hsame, Hk'.
        apply dict_get_Some_elem in Hv'. apply list_elem_of_fmap. by exists (k, v). }
    split.
    + rewrite Hkey, Hkey', Hkeys, Hkeys'. apply set_eq. intros k.
      rewrite !elem_of_list_to_set, Hk, Hk'. apply Hsame.
    + intros item. rewrite (State_init_elem _ _ _ _ Hs), (State_init_elem _ _ _ _ Hs').
      split; auto.
Qed.

Lemma arith_make_context : make_context true arith_grammar = Ok arith_context.
Proof. vm_refl. Qed.

Lemma State_init_consolidates_witness :
  let items := [ mkLRItem 1 1 None {[ Tk "+" ]};
                 mkLRItem 0 1 None {[ END ]};
                 mkLRItem 1 1 None {[ END ]} ] in
  let s := mkState [ mkLRItem 1 1 None {[ Tk "+"; END ]}; mkLRItem 0 1 None {[ END ]} ]
                   {[ (1, 1, None); (0, 1, None) ]} None None None in
  NoDup (map item_key (lr_items s))
  ∧ (∀ k, k ∈ map item_key (lr_items s) ↔ k ∈ map item_key items)
  ∧ (∀ item, item ∈ lr_items s →
       ∀ t, t ∈ followed_by item
            ↔ ∃ j, j ∈ items ∧ item_key j = item_key item ∧ t ∈ followed_by j)
  ∧ (∀ items' s',
       State_init arith_context items' = Ok s' →
       (∀ k, k ∈ map item_key items ↔ k ∈ map item_key items') →
       (∀ k t, (∃ j, j ∈ items ∧ item_key j = k ∧ t ∈ followed_by j)
               ↔ (∃ j, j ∈ items' ∧ item_key j = k ∧ t ∈ followed_by j)) →
       key s = key s' ∧ ∀ item, item ∈ lr_items s ↔ item ∈ lr_items s').
Proof.
  intros items s. apply (State_init_consolidates arith_context items s). vm_refl.
Defined.

(** ** Merging of states *)

Lemma new_followed_by_get (items : list LRItem) (n : LRItem) :
  NoDup (map item_key items) →
  n ∈ items →
  dict_get (foldl (λ d item, dict_set d (item_key item) (followed_by item)) [] items)
           (item_key n)
  = Some (followed_by n).
Proof.
  induction items as [|x items IH] using rev_ind; [by intros _ ?%elem_of_nil|].
  rewrite map_app, foldl_app. simpl.
  intros (Hnd & Hx & _)%NoDup_app [Hin| ->%list_elem_of_singleton]%elem_of_app.
  - rewrite dict_get_set, decide_False; [by apply IH|].
    intros Heq. apply (Hx (item_key n)).
    + apply list_elem_of_fmap. eauto.
    + rewrite Heq. apply list_elem_of_singleton. done.
  - by rewrite dict_get_set, decide_True.
Qed.

Lemma any_new_followed_by_spec
    (new_followed_by : list ((nat * nat * option LookaheadRule) * gset tok))
    (items : list LRItem) :
  (∀ i, i ∈ items → is_Some (dict_get new_followed_by (item_key i))) →
  ∃ changed,
    any_new_followed_by new_followed_by items = Ok changed
    ∧ (changed = false
       ↔ ∀ i v, i ∈ items → dict_get new_followed_by (item_key i) = Some v →
                v ⊆ followed_by i).
Proof.
  induction items as [|x items IH]; intros Hall; simpl.
  - exists false. split; [done|]. split; [|done].
    intros _ i v Hi. by apply elem_of_nil in Hi.
  - destruct (Hall x) as [v Hv]; [left|]. rewrite Hv. simpl.
    destruct (decide (v ∖ followed_by x ≠ ∅)) as [Hne|He].
    + exists true. split; [done|]. split; [done|]. intros Hsub. exfalso.
      apply Hne. specialize (Hsub x v (list_elem_of_here _ _) Hv). set_solver.
    + destruct IH as (changed & Hany & Hchanged).
      { intros i Hi. apply Hall. by right. }
      exists changed. split; [done|]. rewrite Hchanged. split.
      * intros Hsub i w [->|Hi]%elem_of_cons Hw; [|eauto].
        rewrite Hv in Hw. injection Hw as <-.
        apply dec_stable in He. set_solver.
      * intros Hsub i w Hi. apply Hsub. by right.
Qed.

Lemma foldl_ordered_add_NoDup {A} `{EqDecision A} (acc l : list A) :
  NoDup (acc ++ l) → foldl ordered_add acc l = acc ++ l.
Proof.
  revert acc. induction l as [|x l IH]; intros acc Hnd; simpl.
  - by rewrite app_nil_r.
  - unfold ordered_add at 2. rewrite decide_False.
    + rewrite IH; rewrite <- (assoc_L (++)); done.
    + apply NoDup_app in Hnd as (_ & Hdisj & _). intros Hin.
      apply (Hdisj x Hin). left.
Qed.

Lemma same_key_same_triples (self new_state : State) :
  state_wf self → state_wf new_state → key new_state = key self →
  (∀ k, k ∈ map item_key (lr_items self) ↔ k ∈ map item_key (lr_items new_state))
  ∧ length (lr_items self) = length (lr_items new_state).
Proof.
  intros [Hnd Hkey] [Hnd' Hkey'] Heq.
  assert (Hiff : ∀ k, k ∈ map item_key (lr_items self)
                      ↔ k ∈ map item_key (lr_items new_state)).
  { intros k. rewrite Hkey, Hkey' in Heq.
    rewrite <- (elem_of_list_to_set (C := gset _) k (map item_key (lr_items self))).
    rewrite <- (elem_of_list_to_set (C := gset _) k (map item_key (lr_items new_state))).
    by rewrite Heq. }
  split; [done|].
  rewrite <- (length_map item_key (lr_items self)).
  rewrite <- (length_map item_key (lr_items new_state)).
  apply Permutation_length, NoDup_Permutation; done.
Qed.

(** What [State.update] computes, for states with distinct triples per item
    and equal keys: every existing item has a partner in the new state, the
    lazy [any] returns, and the state is either left alone or rebuilt item by
    item. *)
Lemma State_update_computes (self new_state : State) :
  state_wf self → state_wf new_state → key new_state = key self →
  let nfb := foldl (λ d item, dict_set d (item_key item) (followed_by item))
                   [] (lr_items new_state) in
  let merge := λ i, mkLRItem (prod_index i) (offset i) (lookahead i)
                      (followed_by i ∪ default ∅ (dict_get nfb (item_key i))) in
  (∀ i, i ∈ lr_items self →
     ∃ n, n ∈ lr_items new_state ∧ item_key n = item_key i
          ∧ dict_get nfb (item_key i) = Some (followed_by n))
  ∧ ∃ changed,
      (changed = false
       ↔ ∀ i n, i ∈ lr_items self → n ∈ lr_items new_state →
                item_key n = item_key i → followed_by n ⊆ followed_by i)
      ∧ State_update self new_state
        = Ok (if changed
              then mkState (map merge (lr_items self)) (key self) (id self)
                           (action_row self) (ctn_row self)
              else self,
              changed).
Proof.
  intros Hwf Hwf' Hkey nfb merge.
  destruct (same_key_same_triples _ _ Hwf Hwf' Hkey) as [Hiff Hlen].
  destruct Hwf as [Hnd Hk], Hwf' as [Hnd' Hk'].
  assert (Hpartner : ∀ i, i ∈ lr_items self →
            ∃ n, n ∈ lr_items new_state ∧ item_key n = item_key i
                 ∧ dict_get nfb (item_key i) = Some (followed_by n)).
  { intros i Hi.
    assert (Hin : item_key i ∈ map item_key (lr_items new_state)).
    { apply Hiff, list_elem_of_fmap. eauto. }
    apply list_elem_of_fmap in Hin as (n & Hn & Hin).
    exists n. split; [done|]. split; [done|]. rewrite Hn.
    by apply new_followed_by_get. }
  split; [done|].
  destruct (any_new_followed_by_spec nfb (lr_items self)) as (changed & Hany & Hchanged).
  { intros i Hi. destruct (Hpartner i Hi) as (n & _ & _ & ->). eauto. }
  exists changed. split.
  { rewrite Hchanged. split.
    - intros Hsub i n Hi Hn Heq. apply (Hsub i _ Hi).
      rewrite <- Heq. by apply new_followed_by_get.
    - intros Hsub i v Hi Hv. destruct (Hpartner i Hi) as (n & Hn & Heq & Hget).
      rewrite Hget in Hv. injection Hv as <-. by apply Hsub. }
  unfold State_update. rewrite decide_False by (by intros []).
  rewrite decide_False by (by intros []). fold nfb. rewrite Hany. simpl.
  destruct changed; simpl; [|done].
  assert (Hmerged : rmap (λ item,
               new ← of_option KeyError (dict_get nfb (item_key item));
               Ok (mkLRItem (prod_index item) (offset item) (lookahead item)
                            (followed_by item ∪ new)))
            (lr_items self) = Ok (map merge (lr_items self))).
  { apply rmap_Ok, Forall2_fmap_r, Forall_Forall2_diag, Forall_forall.
    intros i Hi. destruct (Hpartner i Hi) as (n & _ & _ & Hget).
    cbv beta. rewrite Hget. simpl. unfold merge. by rewrite Hget. }
  rewrite Hmerged. simpl.
  assert (Hndm : NoDup (map merge (lr_items self))).
  { apply (NoDup_fmap_1 item_key).
    change (NoDup (map item_key (map merge (lr_items self)))).
    rewrite map_map. exact Hnd. }
  by rewrite (foldl_ordered_add_NoDup [] _ Hndm).
Qed.

(** C5.  For two states with distinct triples per item and equal keys,
    [State.update] returns; it returns [False], leaving the state as it is,
    exactly when every item of the new state has its [followed_by] included
    in that of the existing item with the same triple; otherwise it returns
    [True] and replaces each existing item by the item with the same triple
    and the union of the two [followed_by] sets.  In both cases every
    existing item keeps its triple and all of its [followed_by]. *)
Theorem State_update_spec (self new_state : State) :
  state_wf self → state_wf new_state → key new_state = key self →
  ∃ self' changed,
    State_update self new_state = Ok (self', changed)
    ∧ (changed = false
       ↔ ∀ i n, i ∈ lr_items self → n ∈ lr_items new_state →
                item_key n = item_key i → followed_by n ⊆ followed_by i)
    ∧ (changed = false → self' = self)
    ∧ (changed = true →
         Forall2 (λ i i',
                    item_key i' = item_key i
                    ∧ ∃ n, n ∈ lr_items new_state ∧ item_key n = item_key i
                           ∧ followed_by i' = followed_by i ∪ followed_by n)
                 (lr_items self) (lr_items self'))
    ∧ (∀ i, i ∈ lr_items self →
         ∃ i', i' ∈ lr_items self' ∧ item_key i' = item_key i
               ∧ followed_by i ⊆ followed_by i')
    ∧ key self' = key self ∧ id self' = id self ∧ state_wf self'.
Proof.
  intros Hwf Hwf' Hkey.
  destruct (State_update_computes _ _ Hwf Hwf' Hkey) as (Hpartner & changed & Hiff & Hupd).
  destruct Hwf as [Hnd Hk].
  eexists _, changed. split; [exact Hupd|]. split; [exact Hiff|].
  destruct changed; simpl.
  - split; [done|]. split; [|split; [|split; [done|split; [done|split]]]]; simpl.
    + intros _. apply Forall2_fmap_r, Forall_Forall2_diag, Forall_forall.
      intros i Hi. split; [done|]. destruct (Hpartner i Hi) as (n & Hn & Heq & Hget).
      exists n. split; [done|]. split; [done|]. simpl. by rewrite Hget.
    + intros i Hi. eexists. split; [by apply list_elem_of_fmap_2|].
      split; [done|]. simpl. set_solver.
    + by rewrite map_map.
    + by rewrite map_map.
  - split; [done|]. split; [done|]. split; [|done].
    intros i Hi. by exists i.
Qed.

Example merge_new_built :
  State_init arith_context
    [ mkLRItem 0 1 None {[ END ]}; mkLRItem 1 1 None ∅; mkLRItem 1 1 None {[ END ]} ]
  = Ok merge_new.
Proof. vm_refl. Qed.

Example merge_self_new :
  State_update merge_self merge_new
  = Ok (mkState [ mkLRItem 1 1 None {[ Tk "+"; END ]}; mkLRItem 0 1 None {[ END ]} ]
                {[ (1, 1, None); (0, 1, None) ]} (Some 3) None None, true).
Proof. vm_refl. Qed.

Lemma State_update_spec_witness :
  ∃ self' changed,
    State_update merge_self merge_new = Ok (self', changed)
    ∧ (changed = false
       ↔ ∀ i n, i ∈ lr_items merge_self → n ∈ lr_items merge_new →
                item_key n = item_key i → followed_by n ⊆ followed_by i)
    ∧ (changed = false → self' = merge_self)
    ∧ (changed = true →
         Forall2 (λ i i',
                    item_key i' = item_key i
                    ∧ ∃ n, n ∈ lr_items merge_new ∧ item_key n = item_key i
                           ∧ followed_by i' = followed_by i ∪ followed_by n)
                 (lr_items merge_self) (lr_items self'))
    ∧ (∀ i, i ∈ lr_items merge_self →
         ∃ i', i' ∈ lr_items self' ∧ item_key i' = item_key i
               ∧ followed_by i ⊆ followed_by i')
    ∧ key self' = key merge_self ∧ id self' = id merge_self ∧ state_wf self'.
Proof.
  apply (State_update_spec merge_self merge_new).
  - split; [refine (bool_decide_unpack _ _); vm_compute; exact I | vm_refl].
  - split; [refine (bool_decide_unpack _ _); vm_compute; exact I | vm_refl].
  - vm_refl.
Defined.

(** ** State analysis: the tables of step 1 *)

Lemma rfoldl_invariant {A S} (f : S → A → result S) (P : S → Prop)
    (st : S) (l : list A) (st' : S) :
  rfoldl f st l = Ok st' →
  P st →
  (∀ s x s', x ∈ l → P s → f s x = Ok s' → P s') →
  P st'.
Proof.
  revert st. induction l as [|x l IH]; intros st; simpl.
  - by intros [= <-].
  - intros (s1 & Hx & Hl)%rbind_Ok Hst Hstep.
    apply (IH s1 Hl).
    + apply (Hstep st x); [left | done | done].
    + intros s y s' Hy. apply Hstep. by right.
Qed.

Lemma install_reduces_spec (context : PgenContext) (nt : nt_name) (item : LRItem)
    (reduce_prods reduce_prods' : list (tok * nat)) (t : tok) (p : nat) :
  install_reduces context nt item reduce_prods = Ok reduce_prods' →
  dict_get reduce_prods' t = Some p →
  dict_get reduce_prods t = Some p
  ∨ (p = prod_index item ∧ t ∈ followed_by item
     ∧ t ∈ follow_of (context_follow context) nt).
Proof.
  unfold install_reduces. intros Hfold. revert t p.
  apply (rfoldl_invariant _
           (λ rp, ∀ t p, dict_get rp t = Some p →
                         dict_get reduce_prods t = Some p
                         ∨ (p = prod_index item ∧ t ∈ followed_by item
                            ∧ t ∈ follow_of (context_follow context) nt))
           _ _ _ Hfold); [by left|].
  intros rp x rp' Hx%elem_of_elements IH Hstep t p.
  destruct (decide (x ∈ follow_of (context_follow context) nt)) as [Hfollow|];
    [|injection Hstep as <-; apply IH].
  destruct (dict_get rp x) eqn:Hrp; [done|]. injection Hstep as <-.
  rewrite dict_get_set. destruct (decide (t = x)) as [->|]; [|apply IH].
  intros [= <-]. by right.
Qed.

Lemma analyze_item_reduce (context : PgenContext) (tables tables' : step1_tables)
    (item : LRItem) (t : tok) (p : nat) :
  analyze_item context tables item = Ok tables' →
  dict_get (reduce_prods tables') t = Some p →
  dict_get (reduce_prods tables) t = Some p
  ∨ (p = prod_index item
     ∧ ∃ prod, context_prods context !! p = Some prod
               ∧ prod_rhs prod !! offset item = None
               ∧ lookahead item = None
               ∧ t ∈ followed_by item
               ∧ t ∈ follow_of (context_follow context) (prod_nt prod)).
Proof.
  unfold analyze_item. intros (prod & Hprod%of_option_Ok & Hrest)%rbind_Ok.
  destruct (prod_rhs prod !! offset item) as [next_symbol|] eqn:Hnext.
  - destruct next_symbol as [a|n|?|?]; try done.
    + destruct (lookahead_contains (lookahead item) a).
      * apply rbind_Ok in Hrest as (next_item & _ & [= <-]). by left.
      * injection Hrest as <-. by left.
    + apply rbind_Ok in Hrest as (next_item & _ & [= <-]). by left.
  - destruct (lookahead item) eqn:Hla; [done|].
    apply rbind_Ok in Hrest as (rp & Hinstall & [= <-]). simpl.
    intros [?|(-> & ? & ?)]%(install_reduces_spec _ _ _ _ _ _ _ Hinstall); [by left|].
    right. split; [done|]. by exists prod.
Qed.

Lemma analyze_step1_reduce (context : PgenContext) (closure : list LRItem)
    (tables : step1_tables) (t : tok) (p : nat) :
  analyze_step1 context closure = Ok tables →
  dict_get (reduce_prods tables) t = Some p →
  ∃ item prod,
    item ∈ closure ∧ prod_index item = p
    ∧ context_prods context !! p = Some prod
    ∧ prod_rhs prod !! offset item = None
    ∧ lookahead item = None
    ∧ t ∈ followed_by item
    ∧ t ∈ follow_of (context_follow context) (prod_nt prod).
Proof.
  unfold analyze_step1. intros Hfold. revert t p.
  apply (rfoldl_invariant _
           (λ tb, ∀ t p, dict_get (reduce_prods tb) t = Some p →
              ∃ item prod,
                item ∈ closure ∧ prod_index item = p
                ∧ context_prods context !! p = Some prod
                ∧ prod_rhs prod !! offset item = None
                ∧ lookahead item = None
                ∧ t ∈ followed_by item
                ∧ t ∈ follow_of (context_follow context) (prod_nt prod))
           _ _ _ Hfold); [done|].
  intros tb item tb' Hitem IH Hstep t p
    [?|(-> & prod & ?)]%(analyze_item_reduce _ _ _ _ _ _ Hstep); [by apply IH|].
  by exists item, prod.
Qed.

Lemma skip_lookahead_rules_bounds (rest : list symbol) (offset : nat)
    (lookahead : option LookaheadRule) :
  offset ≤ (skip_lookahead_rules rest offset lookahead).1
  ∧ (skip_lookahead_rules rest offset lookahead).1 ≤ offset + length rest.
Proof.
  revert offset lookahead. induction rest as [|e rest IH]; intros offset lookahead; simpl.
  - lia.
  - destruct e; simpl; try lia.
    specialize (IH (S offset) (lookahead_intersect lookahead (Some rule))). lia.
Qed.

Lemma make_lr_item_spec (context : PgenContext) (p o : nat)
    (la : option LookaheadRule) (fb : gset tok) (item : LRItem) :
  make_lr_item context p o la fb = Ok item →
  prod_index item = p ∧ followed_by item = fb ∧ o ≤ offset item
  ∧ ∃ prod, context_prods context !! p = Some prod
            ∧ (o ≤ length (prod_rhs prod) → offset item ≤ length (prod_rhs prod)).
Proof.
  unfold make_lr_item. intros (prod & Hprod%of_option_Ok & Hrest)%rbind_Ok.
  pose proof (skip_lookahead_rules_bounds (drop o (prod_rhs prod)) o la) as [Hlo Hhi].
  destruct (skip_lookahead_rules _ _ _) as [o' la']. injection Hrest as <-. simpl in *.
  split; [done|]. split; [done|]. split; [done|].
  exists prod. split; [done|]. rewrite length_drop in Hhi. lia.
Qed.

Lemma make_lr_item_in_range (context : PgenContext) (p o : nat)
    (la : option LookaheadRule) (fb : gset tok) (item : LRItem) :
  make_lr_item context p o la fb = Ok item →
  (∀ prod, context_prods context !! p = Some prod → o ≤ length (prod_rhs prod)) →
  item_in_range context item.
Proof.
  intros (Hp & _ & _ & prod & Hprod & Hle)%make_lr_item_spec Ho.
  exists prod. rewrite Hp. split; [done|]. apply Hle. by apply Ho.
Qed.

Lemma closure_loop_in_range (fuel : nat) (context : PgenContext)
    (closure closure_todo result : list LRItem) :
  closure_loop fuel context closure closure_todo = Ok result →
  Forall (item_in_range context) closure →
  Forall (item_in_range context) result.
Proof.
  revert closure closure_todo.
  induction fuel as [|fuel IH]; intros closure closure_todo; simpl.
  - destruct closure_todo; [by intros [= <-] | done].
  - destruct closure_todo as [|item closure_todo]; [by intros [= <-]|].
    intros (prod & Hprod & Hrest)%rbind_Ok Hclosure.
    destruct (prod_rhs prod !! offset item) as [[?|next_symbol|?|?]|];
      try (by eapply IH).
    apply rbind_Ok in Hrest as (both & Hboth & Hloop).
    apply (IH _ _ Hloop).
    apply (rfoldl_invariant _ (λ acc, Forall (item_in_range context) acc.1)
             _ _ _ Hboth); [done|].
    intros acc x acc' _ Hacc (still & _ & Hstep)%rbind_Ok.
    destruct still; [|by injection Hstep as <-].
    apply rbind_Ok in Hstep as (followers & _ & Hstep).
    apply rbind_Ok in Hstep as (new_item & Hnew & Hstep).
    destruct (decide (new_item ∈ acc.1)); injection Hstep as <-; [done|]. simpl.
    apply Forall_app. split; [done|]. apply Forall_singleton.
    apply (make_lr_item_in_range _ _ _ _ _ _ Hnew). intros; lia.
Qed.

(** C6.  When the items of a state are in range and its analysis gets
    through step 1, every entry [t -> p] of [reduce_prods] comes from an item
    of the closure of the state that stands at the end of production [p],
    carries no lookahead restriction and has [t] in its [followed_by] set;
    and [t] is in the follow set of the nonterminal of [p]. *)
Theorem State_analyze_reduce_entries (fuel : nat) (context : PgenContext)
    (self : State) (closure : list LRItem) (tables : step1_tables)
    (t : tok) (p : nat) :
  Forall (item_in_range context) (lr_items self) →
  State_closure fuel context self = Ok closure →
  analyze_step1 context closure = Ok tables →
  dict_get (reduce_prods tables) t = Some p →
  ∃ item prod,
    item ∈ closure
    ∧ prod_index item = p
    ∧ context_prods context !! p = Some prod
    ∧ offset item = length (prod_rhs prod)
    ∧ lookahead item = None
    ∧ t ∈ followed_by item
    ∧ t ∈ follow_of (context_follow context) (prod_nt prod).
Proof.
  intros Hrange Hclosure Htables Hget.
  destruct (analyze_step1_reduce _ _ _ _ _ Htables Hget)
    as (item & prod & Hitem & Hp & Hprod & Hend & Hla & Ht & Hfollow).
  exists item, prod. repeat (split; [done|]). split; [|done].
  apply (closure_loop_in_range _ _ _ _ _ Hclosure) in Hrange.
  rewrite Forall_forall in Hrange. destruct (Hrange _ Hitem) as (prod' & Hprod' & Hle).
  rewrite Hp, Hprod in Hprod'. injection Hprod' as <-.
  apply lookup_ge_None in Hend. lia.
Qed.

(** ** State analysis: the action row *)

Section action_row.

Context (ACCEPT : Z).

Lemma encode_shifts_spec (context : PgenContext) (b b' : builder)
    (shift_items : list (terminal * list LRItem)) (row : list (tok * Z)) :
  encode_shifts context b shift_items = Ok (row, b') →
  ∀ t v, dict_get row t = Some v →
    ∃ a items successor b1 r,
      t = Tk a ∧ (a, items) ∈ shift_items
      ∧ State_init context items = Ok successor
      ∧ get_state_index b1 successor = Ok r
      ∧ v = Z.of_nat r.1.
Proof.
  unfold encode_shifts. intros Hfold.
  change row with (row, b').1.
  apply (rfoldl_invariant _
           (λ acc : list (tok * Z) * builder,
              ∀ t v, dict_get acc.1 t = Some v →
                ∃ a items successor b1 r,
                  t = Tk a ∧ (a, items) ∈ shift_items
                  ∧ State_init context items = Ok successor
                  ∧ get_state_index b1 successor = Ok r
                  ∧ v = Z.of_nat r.1)
           _ _ _ Hfold); [done|].
  intros acc [a items] acc' Hx IH Hstep. unfold encode_shift in Hstep.
  apply rbind_Ok in Hstep as (successor & Hs & Hstep).
  apply rbind_Ok in Hstep as (r & Hr & [= <-]). simpl. intros t v.
  rewrite dict_get_set. destruct (decide (t = Tk a)) as [->|]; [|apply IH].
  intros [= <-]. by exists a, items, successor, acc.2, r.
Qed.


Lemma encode_reduces_spec (context : PgenContext) (row row' : list (tok * Z))
    (reduce_prods : list (tok * nat)) :
  encode_reduces ACCEPT context row reduce_prods = Ok row' →
  ∀ t v, dict_get row' t = Some v →
    (dict_get row t = Some v ∧ t ∉ reduce_prods.*1)
    ∨ (dict_get row t = None
       ∧ ∃ p prod,
           (t, p) ∈ reduce_prods
           ∧ context_prods context !! p = Some prod
           ∧ v = match prod_nt prod with
                 | InitNt _ => ACCEPT
                 | _ => (- Z.of_nat p - 1)%Z
                 end).
Proof.
  unfold encode_reduces. revert row.
  induction reduce_prods as [|[t0 p0] reduce_prods IH]; intros row; simpl.
  - intros [= <-] t v Hv. left. split; [done|]. apply not_elem_of_nil.
  - intros (row1 & Hstep & Hrest)%rbind_Ok t v Hv.
    apply rbind_Ok in Hstep as (prod & Hprod%of_option_Ok & Hstep). simpl in *.
    destruct (dict_get row t0) eqn:Hrow0; [done|]. injection Hstep as <-.
    destruct (IH _ Hrest t v Hv) as [[Hget Hnin]|(Hget & p & prod' & Hin & Hprod' & ->)].
    + rewrite dict_get_set in Hget. destruct (decide (t = t0)) as [->|Hne].
      * injection Hget as <-. right. split; [done|].
        exists p0, prod. split; [left | done].
      * left. split; [done|]. rewrite not_elem_of_cons. done.
    + rewrite dict_get_set in Hget. destruct (decide (t = t0)) as [->|Hne]; [done|].
      right. split; [done|]. exists p, prod'. split; [by right | done].
Qed.

End action_row.

(** ** The invariant of the state graph

    The hypotheses of the theorems on [State.update] and on the reduce
    entries hold for every state that [analyze_states] builds. *)

Lemma item_in_range_key (context : PgenContext) (i j : LRItem) :
  item_key i = item_key j → item_in_range context i → item_in_range context j.
Proof.
  unfold item_key, item_in_range. intros [= Hp Ho _] (prod & Hprod & Hle).
  exists prod. by rewrite <- Hp, <- Ho.
Qed.

Lemma State_init_ok (context : PgenContext) (items : list LRItem) (s : State) :
  State_init context items = Ok s →
  Forall (item_in_range context) items →
  state_ok context s.
Proof.
  intros Hs Hitems. split; [by eapply State_init_wf|].
  pose proof (State_init_keys _ _ _ Hs) as Hkeys.
  apply Forall_forall. intros item Hin.
  assert (Hk : item_key item ∈ map item_key items).
  { apply Hkeys, list_elem_of_fmap. eauto. }
  apply list_elem_of_fmap in Hk as (j & Hj & Hjin).
  rewrite Forall_forall in Hitems.
  apply (item_in_range_key _ j); [done | by apply Hitems].
Qed.

Lemma State_update_ok (context : PgenContext) (self new_state self' : State)
    (changed : bool) :
  state_ok context self → state_wf new_state → key new_state = key self →
  State_update self new_state = Ok (self', changed) →
  state_ok context self' ∧ key self' = key self ∧ id self' = id self.
Proof.
  intros [Hwf Hrange] Hwf' Hkey Hupd.
  destruct (State_update_computes _ _ Hwf Hwf' Hkey) as (_ & c & _ & Hs).
  rewrite Hupd in Hs. injection Hs as -> <-.
  destruct changed; [|done]. simpl. split; [|done].
  destruct Hwf as [Hnd Hk]. split; [split|]; simpl.
  - by rewrite map_map.
  - by rewrite map_map.
  - apply Forall_fmap. eapply Forall_impl; [exact Hrange|].
    intros i. by apply item_in_range_key.
Qed.

Lemma get_state_index_ok (context : PgenContext) (b b' : builder)
    (successor : State) (i : nat) :
  builder_ok context b → state_ok context successor →
  get_state_index b successor = Ok (i, b') →
  builder_ok context b'
  ∧ length (states b) ≤ length (states b')
  ∧ ∃ s, states b' !! i = Some s ∧ key s = key successor ∧ id s = Some i.
Proof.
  intros [Hstates Hkeys] [Hwf Hrange]. unfold get_state_index.
  destruct (dict_get (states_by_key b) (key successor)) as [j|] eqn:Hj.
  - destruct (Hkeys _ _ Hj) as (s & Hs & Hk & Hid). rewrite Hs. simpl.
    intros ([self' changed] & Hupd & Hrest)%rbind_Ok. simpl in Hrest.
    assert (Hsok : state_ok context s).
    { rewrite Forall_forall in Hstates. apply Hstates. by eapply list_elem_of_lookup_2. }
    destruct (State_update_ok _ _ _ _ _ Hsok Hwf (eq_sym Hk) Hupd) as (Hok' & Hk' & Hid').
    rewrite Hid', Hid in Hrest. simpl in Hrest. injection Hrest as <- <-. simpl.
    assert (Hlt : j < length (states b)) by (by eapply lookup_lt_Some).
    split; [split|split].
    + by apply Forall_insert.
    + intros k n Hn. simpl in *. destruct (Hkeys _ _ Hn) as (s0 & Hs0 & Hk0 & Hid0).
      destruct (decide (n = j)) as [->|Hne].
      * exists self'. rewrite list_lookup_insert_eq by done.
        rewrite Hs in Hs0. injection Hs0 as <-.
        split; [done|]. split; [by rewrite Hk' | by rewrite Hid'].
      * exists s0. by rewrite list_lookup_insert_ne.
    + by rewrite length_insert.
    + exists self'. rewrite list_lookup_insert_eq by done.
      split; [done|]. split; [by rewrite Hk', Hk | by rewrite Hid'].
  - intros [= <- <-]. simpl. split; [split|split].
    + apply Forall_app. split; [done|]. apply Forall_singleton.
      destruct Hwf as [Hnd Hkey]. split; [split|]; done.
    + intros k n. simpl. rewrite dict_get_set.
      destruct (decide (k = key successor)) as [->|].
      * intros [= <-]. eexists. rewrite lookup_app_r, Nat.sub_diag by done. done.
      * intros Hn. destruct (Hkeys _ _ Hn) as (s0 & Hs0 & ?).
        exists s0. split; [|done]. by apply lookup_app_l_Some.
    + rewrite length_app. simpl. lia.
    + eexists. rewrite lookup_app_r, Nat.sub_diag by done. done.
Qed.

Lemma dict_set_elem {K V} `{EqDecision K} (d : list (K * V)) (k : K) (v : V)
    (y : K * V) :
  y ∈ dict_set d k v → y ∈ d ∨ y = (k, v).
Proof.
  induction d as [|[k0 v0] d IH]; simpl.
  - intros ->%list_elem_of_singleton. by right.
  - destruct (decide (k = k0)) as [->|].
    + intros [->|?]%elem_of_cons; [by right | left; by right].
    + intros [->|[?|?]%IH]%elem_of_cons; [left; left | left; by right | by right].
Qed.

Lemma dict_add_Forall {K A} `{EqDecision K} `{EqDecision A} (P : A → Prop)
    (d : list (K * list A)) (k : K) (x : A) :
  Forall (λ kv, Forall P kv.2) d → P x →
  Forall (λ kv, Forall P kv.2) (dict_add d k x).
Proof.
  intros Hd Hx. apply Forall_forall. intros y [Hy| ->]%dict_set_elem.
  - rewrite Forall_forall in Hd. by apply Hd.
  - simpl. unfold ordered_add.
    assert (Hold : Forall P (default [] (dict_get d k))).
    { destruct (dict_get d k) as [l|] eqn:Hl; simpl; [|constructor].
      apply dict_get_Some_elem in Hl. rewrite Forall_forall in Hd. by apply (Hd _ Hl). }
    destruct (decide _); [done|]. apply Forall_app. split; [done|].
    by apply Forall_singleton.
Qed.

Lemma analyze_step1_in_range (context : PgenContext) (closure : list LRItem)
    (tables : step1_tables) :
  analyze_step1 context closure = Ok tables →
  Forall (λ kv, Forall (item_in_range context) kv.2) (shift_items tables)
  ∧ Forall (λ kv, Forall (item_in_range context) kv.2) (ctn_items tables).
Proof.
  unfold analyze_step1. intros Hfold.
  apply (rfoldl_invariant _
           (λ tb, Forall (λ kv, Forall (item_in_range context) kv.2) (shift_items tb)
                  ∧ Forall (λ kv, Forall (item_in_range context) kv.2) (ctn_items tb))
           _ _ _ Hfold); [by split; constructor|].
  intros tb item tb' _ [Hshift Hctn] Hstep. unfold analyze_item in Hstep.
  apply rbind_Ok in Hstep as (prod & Hprod%of_option_Ok & Hstep).
  assert (Hnext : ∀ next_item,
            is_Some (prod_rhs prod !! offset item) →
            make_lr_item context (prod_index item) (offset item + 1) None
                         (followed_by item) = Ok next_item →
            item_in_range context next_item).
  { intros next_item Hsome%lookup_lt_is_Some Hmake.
    apply (make_lr_item_in_range _ _ _ _ _ _ Hmake).
    intros prod' Hprod'. rewrite Hprod in Hprod'. injection Hprod' as <-. lia. }
  destruct (prod_rhs prod !! offset item) as [next_symbol|] eqn:Hsym.
  - destruct next_symbol as [a|n|?|?]; try done.
    + destruct (lookahead_contains (lookahead item) a); [|by injection Hstep as <-].
      apply rbind_Ok in Hstep as (next_item & Hmake & [= <-]). simpl.
      split; [|done]. apply dict_add_Forall; [done|]. by apply Hnext.
    + apply rbind_Ok in Hstep as (next_item & Hmake & [= <-]). simpl.
      split; [done|]. apply dict_add_Forall; [done|]. by apply Hnext.
  - destruct (lookahead item); [done|].
    by apply rbind_Ok in Hstep as (rp & _ & [= <-]).
Qed.

Lemma encode_shifts_ok (context : PgenContext) (b b' : builder)
    (shift_items : list (terminal * list LRItem)) (row : list (tok * Z)) :
  builder_ok context b →
  Forall (λ kv, Forall (item_in_range context) kv.2) shift_items →
  encode_shifts context b shift_items = Ok (row, b') →
  builder_ok context b' ∧ length (states b) ≤ length (states b').
Proof.
  unfold encode_shifts. intros Hb Hitems Hfold.
  change b' with (row, b').2.
  apply (rfoldl_invariant _
           (λ acc : list (tok * Z) * builder,
              builder_ok context acc.2 ∧ length (states b) ≤ length (states acc.2))
           _ _ _ Hfold); [by split|].
  intros acc x acc' Hx [Hacc Hlen] Hstep. unfold encode_shift in Hstep.
  apply rbind_Ok in Hstep as (successor & Hs & Hstep).
  apply rbind_Ok in Hstep as ([i b1] & Hr & [= <-]). simpl.
  rewrite Forall_forall in Hitems.
  destruct (get_state_index_ok _ _ _ _ _ Hacc (State_init_ok _ _ _ Hs (Hitems _ Hx)) Hr)
    as (Hok & Hle & _).
  split; [done | lia].
Qed.

Lemma encode_ctns_ok (context : PgenContext) (b b' : builder)
    (ctn_items : list (nt_name * list LRItem)) (row : list (nt_name * nat)) :
  builder_ok context b →
  Forall (λ kv, Forall (item_in_range context) kv.2) ctn_items →
  encode_ctns context b ctn_items = Ok (row, b') →
  builder_ok context b' ∧ length (states b) ≤ length (states b').
Proof.
  unfold encode_ctns. intros Hb Hitems Hfold.
  change b' with (row, b').2.
  apply (rfoldl_invariant _
           (λ acc : list (nt_name * nat) * builder,
              builder_ok context acc.2 ∧ length (states b) ≤ length (states acc.2))
           _ _ _ Hfold); [by split|].
  intros acc x acc' Hx [Hacc Hlen] Hstep. unfold encode_ctn in Hstep.
  apply rbind_Ok in Hstep as (successor & Hs & Hstep).
  apply rbind_Ok in Hstep as ([i b1] & Hr & [= <-]). simpl.
  rewrite Forall_forall in Hitems.
  destruct (get_state_index_ok _ _ _ _ _ Hacc (State_init_ok _ _ _ Hs (Hitems _ Hx)) Hr)
    as (Hok & Hle & _).
  split; [done | lia].
Qed.

Section invariant.

Context (ACCEPT : Z).

Lemma State_analyze_ok (fuel : nat) (context : PgenContext) (b b' : builder) (i : nat) :
  builder_ok context b →
  State_analyze ACCEPT fuel context b i = Ok b' →
  builder_ok context b'.
Proof.
  intros Hb. unfold State_analyze.
  intros (self & Hself%of_option_Ok & Hrest)%rbind_Ok.
  apply rbind_Ok in Hrest as (closure & Hclosure & Hrest).
  apply rbind_Ok in Hrest as (tables & Htables & Hrest).
  apply rbind_Ok in Hrest as ([shifted b1] & Hshift & Hrest).
  apply rbind_Ok in Hrest as (row & Hreduce & Hrest).
  apply rbind_Ok in Hrest as ([ctns b2] & Hctn & Hrest).
  apply rbind_Ok in Hrest as (self' & Hself'%of_option_Ok & [= <-]). simpl in *.
  destruct (analyze_step1_in_range _ _ _ Htables) as [Hsh Hct].
  destruct (encode_shifts_ok _ _ _ _ _ Hb Hsh Hshift) as [Hb1 _].
  destruct (encode_ctns_ok _ _ _ _ _ Hb1 Hct Hctn) as [[Hstates Hkeys] _].
  assert (Hlt : i < length (states b2)) by (by eapply lookup_lt_Some).
  assert (Hok : state_ok context self').
  { rewrite Forall_forall in Hstates. apply Hstates. by eapply list_elem_of_lookup_2. }
  split; simpl.
  - apply Forall_insert; [done|]. destruct Hok as [[Hnd Hkey] Hrange].
    split; [split|]; done.
  - intros k n Hn. destruct (Hkeys _ _ Hn) as (s0 & Hs0 & Hk0 & Hid0).
    destruct (decide (n = i)) as [->|Hne].
    + eexists. rewrite list_lookup_insert_eq by done.
      rewrite Hself' in Hs0. injection Hs0 as <-. done.
    + exists s0. by rewrite list_lookup_insert_ne.
Qed.

Lemma analyze_loop_ok (fuel : nat) (context : PgenContext) (b b' : builder) :
  builder_ok context b →
  analyze_loop ACCEPT fuel context b = Ok b' →
  builder_ok context b' ∧ todo b' = [].
Proof.
  revert b. induction fuel as [|fuel IH]; intros b Hb; simpl.
  - destruct (todo b) eqn:Htodo; [|done]. intros [= <-]. done.
  - destruct (todo b) as [|i rest] eqn:Htodo; [intros [= <-]; done|].
    intros (b1 & Hanalyze & Hloop)%rbind_Ok.
    apply (IH b1); [|done].
    eapply State_analyze_ok; [|exact Hanalyze]. exact Hb.
Qed.

(** Every state in the result of [analyze_states] has items with distinct
    triples, listed by its key, and in range. *)
Lemma analyze_states_ok (fuel : nat) (context : PgenContext)
    (result : list State) (init_state_map : list (string * nat)) :
  analyze_states ACCEPT fuel context = Ok (result, init_state_map) →
  Forall (state_ok context) result.
Proof.
  unfold analyze_states. intros ([m b0] & Hstart & Hrest)%rbind_Ok.
  apply rbind_Ok in Hrest as (b & Hloop & [= <- _]). simpl in *.
  assert (Hb0 : builder_ok context b0).
  { change b0 with (m, b0).2.
    apply (rfoldl_invariant _ (λ acc : list (string * nat) * builder,
                                 builder_ok context acc.2) _ _ _ Hstart).
    - split; [constructor|]. by intros k i.
    - intros acc init_nt acc' _ Hacc Hstep. unfold add_init_state in Hstep.
      apply rbind_Ok in Hstep as (goal & _ & Hstep).
      apply rbind_Ok in Hstep as (found & _ & Hstep).
      apply rbind_Ok in Hstep as (start_item & Hmake & Hstep).
      apply rbind_Ok in Hstep as (init_state & Hinit & Hstep).
      apply rbind_Ok in Hstep as ([i b1] & Hr & [= <-]). simpl.
      eapply get_state_index_ok; [exact Hacc | | exact Hr].
      apply (State_init_ok _ _ _ Hinit), Forall_singleton.
      apply (make_lr_item_in_range _ _ _ _ _ _ Hmake). intros; lia. }
  by destruct (analyze_loop_ok _ _ _ _ Hb0 Hloop) as [[? _] _].
Qed.

End invariant.

(** ** The tables of the arithmetic grammar *)

Example arith_tables :
  analyze_states accept_code 100 arith_context = Ok (arith_states, [("E", 0)]).
Proof. vm_refl. Qed.

Example arith_state4_analysed : arith_states !! 4 = Some arith_state4.
Proof. vm_refl. Qed.

Example arith_state4_step1 :
  analyze_step1 arith_context (lr_items arith_state4) = Ok arith_state4_tables.
Proof. vm_refl. Qed.

Lemma State_analyze_reduce_entries_witness :
  ∃ item prod,
    item ∈ lr_items arith_state4
    ∧ prod_index item = 2
    ∧ context_prods arith_context !! 2 = Some prod
    ∧ offset item = length (prod_rhs prod)
    ∧ lookahead item = None
    ∧ Tk "+" ∈ followed_by item
    ∧ Tk "+" ∈ follow_of (context_follow arith_context) (prod_nt prod).
Proof.
  apply (State_analyze_reduce_entries 100 arith_context arith_state4
           (lr_items arith_state4) arith_state4_tables (Tk "+") 2).
  - repeat constructor; eexists; (split; [reflexivity | simpl; lia]).
  - vm_refl.
  - vm_refl.
  - vm_refl.
Defined.

(** ** The fixed-point driver *)

Lemma fix_loop_fixed {A} `{EqDecision A} (fuel : nat) (f : A → result A)
    (prev current r : A) :
  f prev = Ok current →
  fix_loop fuel f prev current = Ok r →
  f r = Ok r.
Proof.
  revert prev current. induction fuel as [|fuel IH]; intros prev current Hf; simpl.
  - destruct (decide (current = prev)); [|done]. intros [= <-]. congruence.
  - destruct (decide (current = prev)).
    + intros [= <-]. congruence.
    + destruct (f current) as [next|] eqn:Hnext; simpl; [|done]. by apply IH.
Qed.

Lemma fix_loop_invariant {A} `{EqDecision A} (I : A → Prop) (fuel : nat)
    (f : A → result A) (prev current r : A) :
  (∀ x y, I x → f x = Ok y → I y) →
  I current →
  fix_loop fuel f prev current = Ok r →
  I r.
Proof.
  intros Hstep. revert prev current.
  induction fuel as [|fuel IH]; intros prev current Hcur; simpl.
  - destruct (decide (current = prev)); [|done]. by intros [= <-].
  - destruct (decide (current = prev)); [by intros [= <-]|].
    destruct (f current) as [next|] eqn:Hnext; simpl; [|done].
    apply IH. by eapply Hstep.
Qed.

Lemma fix_invariant {A} `{EqDecision A} (I : A → Prop) (fuel : nat)
    (f : A → result A) (start r : A) :
  (∀ x y, I x → f x = Ok y → I y) →
  I start →
  fix_ fuel f start = Ok r →
  I r ∧ f r = Ok r.
Proof.
  intros Hstep Hstart. unfold fix_.
  intros (current & Hcur & Hloop)%rbind_Ok. split.
  - eapply fix_loop_invariant; [done| |done]. by eapply Hstep.
  - by eapply fix_loop_fixed.
Qed.

Lemma fix_loop_Raise {A} `{EqDecision A} (fuel : nat) (f : A → result A)
    (prev current : A) (e : error) :
  fix_loop fuel f prev current = Raise e →
  e = OutOfFuel ∨ ∃ x, f x = Raise e.
Proof.
  revert prev current. induction fuel as [|fuel IH]; intros prev current; simpl.
  - destruct (decide (current = prev)); [done|]. intros [= <-]. by left.
  - destruct (decide (current = prev)); [done|].
    destruct (f current) as [next|e'] eqn:Hnext; simpl.
    + apply IH.
    + intros [= <-]. right. by exists current.
Qed.

(** X1.  [fix] returns only fixed points of [f]; started on a fixed point it
    returns it, whatever the budget; and an exception of the first call of
    [f] is the outcome. *)
Theorem fix_returns_fixed_point {A} `{EqDecision A} (fuel : nat) (f : A → result A)
    (start : A) :
  (∀ r, fix_ fuel f start = Ok r → f r = Ok r)
  ∧ (f start = Ok start → fix_ fuel f start = Ok start)
  ∧ (∀ e, f start = Raise e → fix_ fuel f start = Raise e).
Proof.
  split; [|split].
  - intros r. unfold fix_. intros (current & Hcur & Hloop)%rbind_Ok.
    by eapply fix_loop_fixed.
  - intros Hstart. unfold fix_. rewrite Hstart. cbn [rbind].
    destruct fuel; simpl; by rewrite decide_True.
  - intros e He. unfold fix_. by rewrite He.
Qed.

(** ** Nullable nonterminals *)

Lemma fix_loop_gset_least (f : gset nt_name → gset nt_name) (U : gset nt_name)
    (fuel : nat) (prev : gset nt_name) :
  (∀ X Y, X ⊆ Y → f X ⊆ f Y) → (∀ X, f X ⊆ U) →
  prev ⊆ f prev → (∀ X, f X ⊆ X → prev ⊆ X) →
  size U - size prev ≤ fuel →
  ∃ r, fix_loop fuel (λ x, Ok (f x)) prev (f prev) = Ok r
       ∧ f r = r ∧ ∀ X, f X ⊆ X → r ⊆ X.
Proof.
  intros Hmono Hbound. revert prev.
  assert (∀ prev, (∀ X, f X ⊆ X → prev ⊆ X) → ∀ X, f X ⊆ X → f prev ⊆ X) as Hleast.
  { intros prev Hprev X HX. etrans; [|exact HX]. apply Hmono. by apply Hprev. }
  induction fuel as [|fuel IH]; intros prev Hprev Hlow Hfuel.
  - simpl. destruct (decide (f prev = prev)) as [Heq|Hne].
    + exists (f prev). split; [done|]. split; [by rewrite Heq | by apply Hleast].
    + exfalso. assert (size prev < size U); [|lia].
      apply (Nat.lt_le_trans _ (size (f prev))); [|by apply subseteq_size].
      apply subset_size. split; [done|]. intros Hsub. apply Hne. set_solver.
  - simpl. destruct (decide (f prev = prev)) as [Heq|Hne].
    + exists (f prev). split; [done|]. split; [by rewrite Heq | by apply Hleast].
    + apply IH; [by apply Hmono | by apply Hleast |].
      assert (size prev < size (f prev)); [|lia].
      apply subset_size. split; [done|]. intros Hsub. apply Hne. set_solver.
Qed.

(** X2.  [empty_nt_set] always returns; the set it returns holds exactly the
    nonterminals with a production that is empty with respect to this very
    set, and it is included in every set closed under the step: it is the
    least such set. *)
Theorem empty_nt_set_least_fixed_point (grammar : Grammar) :
  ∃ empties,
    empty_nt_set grammar = Ok empties
    ∧ (∀ nt, nt ∈ empties
             ↔ ∃ plist, (nt, plist) ∈ nonterminals grammar
                        ∧ existsb (production_is_empty empties) plist = true)
    ∧ (∀ X, empty_nt_set_step grammar X ⊆ X → empties ⊆ X).
Proof.
  destruct (fix_loop_gset_least (empty_nt_set_step grammar)
              (list_to_set (nonterminals grammar).*1)
              (S (length (nonterminals grammar))) ∅)
    as (r & Hr & Hfix & Hleast).
  - apply empty_nt_set_step_mono.
  - apply empty_nt_set_step_bounded.
  - set_solver.
  - set_solver.
  - pose proof (size_list_to_set_le (nonterminals grammar).*1) as Hle.
    rewrite length_fmap in Hle. lia.
  - exists r. split; [exact Hr|]. split; [|exact Hleast].
    intros nt. rewrite <- elem_of_empty_nt_set_step. by rewrite Hfix.
Qed.

(** ** The cycle check *)

Lemma rmap_Raise {A B} (f : A → result B) (l : list A) (e : error) :
  rmap f l = Raise e → ∃ x, x ∈ l ∧ f x = Raise e.
Proof.
  induction l as [|x l IH]; simpl; [done|].
  destruct (f x) as [y|e'] eqn:Hx; simpl.
  - destruct (rmap f l) as [ys|e'']; simpl; [done|].
    intros [= <-]. destruct IH as (x' & ? & ?); [done|].
    exists x'. split; [by right | done].
  - intros [= <-]. exists x. split; [by left | done].
Qed.

Lemma rforeach_Raise {A} (f : A → result unit) (l : list A) (e : error) :
  rforeach f l = Raise e → ∃ x, x ∈ l ∧ f x = Raise e.
Proof.
  induction l as [|x l IH]; simpl; [done|].
  destruct (f x) as [[]|e'] eqn:Hx; simpl.
  - intros (x' & ? & ?)%IH. exists x'. split; [by right | done].
  - intros [= <-]. exists x. split; [by left | done].
Qed.

Lemma dict_get_map_values {K V W} `{EqDecision K} (g : K → V → W)
    (d : list (K * V)) (k : K) :
  dict_get (map (λ x, (x.1, g x.1 x.2)) d) k = g k <$> dict_get d k.
Proof.
  induction d as [|[k' v] d IH]; simpl; [done|].
  destruct (decide (k = k')) as [->|]; [done | exact IH].
Qed.

Lemma dict_get_Forall2 {K V} `{EqDecision K} (R : K → V → V → Prop)
    (d d' : list (K * V)) (k : K) :
  Forall2 (λ x y, y.1 = x.1 ∧ R x.1 x.2 y.2) d d' →
  match dict_get d k with
  | Some v => ∃ v', dict_get d' k = Some v' ∧ R k v v'
  | None => dict_get d' k = None
  end.
Proof.
  induction 1 as [|[k1 v1] [k2 v2] d d' [Hk HR] _ IH]; simpl in *; [done|].
  subst k2. destruct (decide (k = k1)) as [->|]; [|exact IH]. by exists v2.
Qed.

Lemma produces_step_Ok (produces produces' : list (nt_name * gset nt_name)) :
  produces_step produces = Ok produces' →
  Forall2 (λ x y, y.1 = x.1 ∧ produces_entry produces x.2 y.2) produces produces'.
Proof.
  unfold produces_step. intros Hmap%rmap_Ok.
  eapply Forall2_impl; [exact Hmap|]. clear Hmap.
  intros [k dest] [k' dest']. cbn [fst snd].
  intros (reached & Hreached%rmap_Ok & [= <- <-])%rbind_Ok.
  split; [done|].
  assert (∀ a, a ∈ elements dest →
               ∃ D, D ∈ reached ∧ dict_get produces a = Some D) as Hl.
  { intros a Ha. apply list_elem_of_lookup in Ha as [i Hi].
    destruct (Forall2_lookup_l _ _ _ _ _ Hreached Hi) as (D & HD & HaD%of_option_Ok).
    exists D. split; [by eapply list_elem_of_lookup_2 | done]. }
  assert (∀ D, D ∈ reached →
               ∃ a, a ∈ elements dest ∧ dict_get produces a = Some D) as Hr.
  { intros D HD. apply list_elem_of_lookup in HD as [i Hi].
    destruct (Forall2_lookup_r _ _ _ _ _ Hreached Hi) as (a & Ha & HaD%of_option_Ok).
    exists a. split; [by eapply list_elem_of_lookup_2 | done]. }
  split.
  - intros a Ha%elem_of_elements. destruct (Hl a Ha) as (D & _ & ->). by eexists.
  - intros b. rewrite elem_of_union, elem_of_union_list. split.
    + intros [?|(D & HD & Hb)]; [by left|]. right.
      destruct (Hr D HD) as (a & Ha%elem_of_elements & HaD). by exists a, D.
    + intros [?|(a & D & Ha%elem_of_elements & HaD & Hb)]; [by left|]. right.
      destruct (Hl a Ha) as (D' & HD' & HaD'). exists D'. split; [done|]. congruence.
Qed.

Lemma produces_step_Raise (produces : list (nt_name * gset nt_name)) (e : error) :
  produces_step produces = Raise e → e = KeyError.
Proof.
  unfold produces_step. intros ([k dest] & _ & Hx)%rmap_Raise. cbn [fst snd] in Hx.
  destruct (rmap _ (elements dest)) as [reached|e'] eqn:Hreached; simpl in Hx; [done|].
  injection Hx as ->. apply rmap_Raise in Hreached as (a & _ & Ha).
  destruct (dict_get produces a); simpl in Ha; [done|]. by injection Ha.
Qed.

Lemma dict_get_step (produces produces' : list (nt_name * gset nt_name))
    (k : nt_name) (dest : gset nt_name) :
  produces_step produces = Ok produces' →
  dict_get produces k = Some dest →
  ∃ dest', dict_get produces' k = Some dest' ∧ produces_entry produces dest dest'.
Proof.
  intros Hstep%produces_step_Ok Hk.
  pose proof (dict_get_Forall2 (λ _, produces_entry produces) _ _ k Hstep) as H.
  by rewrite Hk in H.
Qed.

Lemma elem_of_direct_produces_of (empties : gset nt_name) (plist : list Production)
    (b : nt_name) :
  b ∈ direct_produces_of empties plist
  ↔ ∃ p x result, p ∈ plist
      ∧ x ∈ expand_optional_symbols_in_rhs (p_body p) 0
      ∧ single_nt_scan empties x.1 [] true = Some result
      ∧ b ∈ result.
Proof.
  unfold direct_produces_of.
  set (inner := λ (acc : gset nt_name) (x : list symbol * list nat),
         match single_nt_scan empties x.1 [] true with
         | Some result => acc ∪ list_to_set result
         | None => acc
         end).
  assert (∀ l acc, b ∈ foldl inner acc l
            ↔ b ∈ acc ∨ ∃ x result, x ∈ l
                ∧ single_nt_scan empties x.1 [] true = Some result ∧ b ∈ result)
    as Hinner.
  { induction l as [|x l IH]; intros acc; simpl.
    - split; [by left|]. intros [?|(? & ? & []%elem_of_nil & _)]. done.
    - rewrite IH. unfold inner.
      destruct (single_nt_scan empties x.1 [] true) as [result|] eqn:Hscan.
      + rewrite elem_of_union, elem_of_list_to_set. split.
        * intros [[?|?]|(x' & r' & ? & ? & ?)]; [by left| |].
          -- right. exists x, result. split; [by left | done].
          -- right. exists x', r'. split; [by right | done].
        * intros [?|(x' & r' & [->|?]%elem_of_cons & Hs & ?)]; [by left; left| |].
          -- left; right. congruence.
          -- right. by exists x', r'.
      + split.
        * intros [?|(x' & r' & ? & ? & ?)]; [by left|].
          right. exists x', r'. split; [by right | done].
        * intros [?|(x' & r' & [->|?]%elem_of_cons & Hs & ?)]; [by left|congruence|].
          right. by exists x', r'. }
  assert (∀ l acc,
    b ∈ foldl (λ acc p, foldl inner acc (expand_optional_symbols_in_rhs (p_body p) 0))
              acc l
    ↔ b ∈ acc ∨ ∃ p x result, p ∈ l
        ∧ x ∈ expand_optional_symbols_in_rhs (p_body p) 0
        ∧ single_nt_scan empties x.1 [] true = Some result ∧ b ∈ result) as Houter.
  { induction l as [|p l IH]; intros acc; simpl.
    - split; [by left|]. intros [?|(? & ? & ? & []%elem_of_nil & _)]. done.
    - rewrite IH, Hinner. split.
      + intros [[?|(x & r & ? & ? & ?)]|(p' & x & r & ? & ? & ? & ?)]; [by left| |].
        * right. exists p, x, r. split; [by left | done].
        * right. exists p', x, r. split; [by right | done].
      + intros [?|(p' & x & r & [->|?]%elem_of_cons & ? & ? & ?)]; [by left; left| |].
        * left; right. by exists x, r.
        * right. by exists p', x, r. }
  rewrite Houter. split; [|by right]. intros [[]%elem_of_empty|?]. done.
Qed.





Lemma dict_get_direct (grammar : Grammar) (empties : gset nt_name) (a : nt_name) :
  dict_get (direct_produces_dict grammar empties) a
  = direct_produces_of empties <$> dict_get (nonterminals grammar) a.
Proof. apply (dict_get_map_values (λ _, direct_produces_of empties)). Qed.

Lemma above_direct (grammar : Grammar) (empties : gset nt_name) :
  produces_above grammar empties (direct_produces_dict grammar empties).
Proof.
  intros a b (plist & Ha & Hb). exists (direct_produces_of empties plist).
  split; [|done]. by rewrite dict_get_direct, Ha.
Qed.

Lemma below_direct (grammar : Grammar) (empties : gset nt_name) :
  produces_below grammar empties (direct_produces_dict grammar empties).
Proof.
  intros a dest b Ha Hb. rewrite dict_get_direct in Ha.
  destruct (dict_get (nonterminals grammar) a) as [plist|] eqn:Hplist; [|done].
  revert Hb. injection Ha as <-. intros Hb. apply tc_once. by exists plist.
Qed.

Lemma above_step (grammar : Grammar) (empties : gset nt_name)
    (produces produces' : list (nt_name * gset nt_name)) :
  produces_above grammar empties produces →
  produces_step produces = Ok produces' →
  produces_above grammar empties produces'.
Proof.
  intros Habove Hstep a b Hab. destruct (Habove a b Hab) as (dest & Ha & Hb).
  destruct (dict_get_step _ _ _ _ Hstep Ha) as (dest' & Ha' & _ & Hdest').
  exists dest'. split; [done|]. apply Hdest'. by left.
Qed.

Lemma below_step (grammar : Grammar) (empties : gset nt_name)
    (produces produces' : list (nt_name * gset nt_name)) :
  produces_below grammar empties produces →
  produces_step produces = Ok produces' →
  produces_below grammar empties produces'.
Proof.
  intros Hbelow Hstep a dest' b Ha' Hb.
  pose proof (dict_get_Forall2 (λ _, produces_entry produces) _ _ a
                (produces_step_Ok _ _ Hstep)) as H.
  destruct (dict_get produces a) as [dest|] eqn:Ha; [|congruence].
  destruct H as (dest'' & Ha'' & _ & Hdest'). assert (dest'' = dest') as -> by congruence.
  destruct (proj1 (Hdest' b) Hb) as [Hb'|(c & D & Hc & HcD & HbD)].
  - by eapply Hbelow.
  - eapply tc_transitive; by eapply Hbelow.
Qed.

(** At a fixed point of [step], an entry holds whatever its members
    produce. *)
Lemma fixed_point_closed (grammar : Grammar) (empties : gset nt_name)
    (produces : list (nt_name * gset nt_name)) :
  produces_above grammar empties produces →
  produces_step produces = Ok produces →
  ∀ a b dest, tc (direct_produces grammar empties) a b →
              dict_get produces a = Some dest → b ∈ dest.
Proof.
  intros Habove Hfix a b dest Htc. revert dest.
  induction Htc as [a b Hab|a c b Hac Hcb IH]; intros dest Ha.
  - destruct (Habove a b Hab) as (dest' & Ha' & Hb). congruence.
  - destruct (Habove a c Hac) as (dest' & Ha' & Hc).
    assert (dest' = dest) as -> by congruence.
    destruct (dict_get_step _ _ _ _ Hfix Ha) as (dest'' & Ha'' & Hkeys & Hdest').
    assert (dest'' = dest) as -> by congruence.
    destruct (Hkeys c Hc) as [D HD].
    apply Hdest'. right. exists c, D. split; [done|]. split; [done|]. by apply IH.
Qed.

Lemma check_cycle_free_accepts (grammar : Grammar) (empties : gset nt_name) :
  empty_nt_set grammar = Ok empties →
  check_cycle_free grammar = Ok tt →
  ∀ nt, ¬ tc (direct_produces grammar empties) nt nt.
Proof.
  intros Hempties. unfold check_cycle_free. rewrite Hempties. cbn [rbind].
  fold (direct_produces_dict grammar empties).
  intros (produces & Hfix & Hall%rforeach_Ok)%rbind_Ok nt Htc.
  destruct (fix_invariant (produces_above grammar empties) _ _ _ _
              (above_step grammar empties) (above_direct grammar empties) Hfix)
    as [Habove Hfixed].
  assert (∃ plist, dict_get (nonterminals grammar) nt = Some plist) as [plist Hnt].
  { inversion Htc as [?? (plist & ? & _)|??? (plist & ? & _)]; by exists plist. }
  apply dict_get_Some_elem in Hnt. rewrite Forall_forall in Hall.
  specialize (Hall _ Hnt). cbn [fst] in Hall.
  destruct (dict_get produces nt) as [dest|] eqn:Hdest; simpl in Hall; [|done].
  destruct (decide (nt ∈ dest)) as [|Hnot]; [done|].
  apply Hnot. by eapply fixed_point_closed.
Qed.

Lemma check_cycle_free_rejects (grammar : Grammar) (empties : gset nt_name)
    (msg : string) :
  empty_nt_set grammar = Ok empties →
  check_cycle_free grammar = Raise (ValueError msg) →
  ∃ nt, tc (direct_produces grammar empties) nt nt.
Proof.
  intros Hempties. unfold check_cycle_free. rewrite Hempties. cbn [rbind].
  fold (direct_produces_dict grammar empties).
  destruct (fix_ _ produces_step (direct_produces_dict grammar empties))
    as [produces|e] eqn:Hfix; cbn [rbind].
  - intros ([nt plist] & _ & Hx)%rforeach_Raise. cbn [fst] in Hx.
    destruct (fix_invariant (produces_below grammar empties) _ _ _ _
                (below_step grammar empties) (below_direct grammar empties) Hfix)
      as [Hbelow _].
    destruct (dict_get produces nt) as [dest|] eqn:Hdest; simpl in Hx; [|done].
    destruct (decide (nt ∈ dest)); [|done]. exists nt. by eapply Hbelow.
  - intros [= ->]. exfalso. unfold fix_ in Hfix.
    destruct (produces_step (direct_produces_dict grammar empties))
      as [current|e] eqn:Hfirst; cbn [rbind] in Hfix.
    + apply fix_loop_Raise in Hfix as [?|[x Hx%produces_step_Raise]]; done.
    + injection Hfix as ->. by apply produces_step_Raise in Hfirst.
Qed.

(** X3.  [check_cycle_free] returns normally only if no nonterminal reaches
    itself through the entries of [direct_produces], and raises its
    [ValueError] only if one does. *)
Theorem check_cycle_free_spec (grammar : Grammar) :
  ∃ empties,
    empty_nt_set grammar = Ok empties
    ∧ (check_cycle_free grammar = Ok tt →
       ∀ nt, ¬ tc (direct_produces grammar empties) nt nt)
    ∧ (∀ msg, check_cycle_free grammar = Raise (ValueError msg) →
       ∃ nt, tc (direct_produces grammar empties) nt nt).
Proof.
  destruct (empty_nt_set_total grammar) as (empties & Hempties & _).
  exists empties. split; [done|]. split.
  - by apply check_cycle_free_accepts.
  - intros msg. by apply check_cycle_free_rejects.
Qed.

(** *** The iteration of [check_cycle_free] ends *)

Lemma total_size_mono (produces produces' : list (nt_name * gset nt_name)) :
  Forall2 (λ x y, y.1 = x.1 ∧ x.2 ⊆ y.2) produces produces' →
  total_size produces ≤ total_size produces'
  ∧ (total_size produces' ≤ total_size produces → produces' = produces).
Proof.
  unfold total_size.
  induction 1 as [|[k D] [k' D'] l l' [Hk HD] _ [IHle IHeq]]; simpl in *; [done|].
  subst k'. pose proof (subseteq_size _ _ HD) as Hsize. split; [lia|].
  intros Hle. rewrite IHeq by lia. f_equal. f_equal.
  assert (size D' ≤ size D) as Hge by lia.
  pose proof (set_subseteq_size_eq D D' HD Hge) as Heq. by subst.
Qed.

Lemma total_size_bound (produces : list (nt_name * gset nt_name)) (U : gset nt_name) :
  Forall (λ x, x.2 ⊆ U) produces →
  total_size produces ≤ length produces * size U.
Proof.
  unfold total_size. induction 1 as [|x l Hx _ IH]; simpl; [done|].
  pose proof (subseteq_size _ _ Hx). lia.
Qed.

Lemma produces_step_bounded (produces produces' : list (nt_name * gset nt_name)) :
  produces_step produces = Ok produces' →
  produces'.*1 = produces.*1
  ∧ Forall2 (λ x y, y.1 = x.1 ∧ x.2 ⊆ y.2) produces produces'
  ∧ Forall (λ y, y.2 ⊆ list_to_set produces.*1) produces'.
Proof.
  intros Hstep%produces_step_Ok.
  assert (∀ a D, dict_get produces a = Some D → D ⊆ list_to_set produces.*1) as Hin.
  { intros a D Ha%dict_get_Some_elem b Hb.
    apply list_elem_of_lookup in Ha as [i Hi].
    destruct (Forall2_lookup_l _ _ _ _ _ Hstep Hi) as (y & _ & _ & Hkeys & _).
    destruct (Hkeys b Hb) as [Db HDb%dict_get_Some_elem].
    apply elem_of_list_to_set, list_elem_of_fmap. by exists (b, Db). }
  split; [|split].
  - clear Hin. induction Hstep as [|x y l l' [Hk _] _ IH]; simpl; [done|]. by f_equal.
  - eapply Forall2_impl; [exact Hstep|]. intros x y (Hk & _ & Hy).
    split; [done|]. intros b Hb. apply Hy. by left.
  - apply Forall_forall. intros y Hy. apply list_elem_of_lookup in Hy as [i Hi].
    destruct (Forall2_lookup_r _ _ _ _ _ Hstep Hi) as (x & Hx & _ & Hkeys & Hy).
    intros b [Hb|(a & D & Ha & HaD & Hb)]%Hy.
    + destruct (Hkeys b Hb) as [Db HDb%dict_get_Some_elem].
      apply elem_of_list_to_set, list_elem_of_fmap. by exists (b, Db).
    + by eapply Hin.
Qed.

Lemma fix_loop_produces_fuel (fuel : nat) (produces produces' : list (nt_name * gset nt_name)) :
  produces_step produces = Ok produces' →
  length produces * length produces - total_size produces ≤ fuel →
  fix_loop fuel produces_step produces produces' ≠ Raise OutOfFuel.
Proof.
  revert produces produces'.
  induction fuel as [|fuel IH]; intros produces produces' Hstep Hfuel.
  - destruct (produces_step_bounded _ _ Hstep) as (Hkeys & Hmono & Hbound).
    destruct (total_size_mono _ _ Hmono) as [Hle Heq].
    pose proof (total_size_bound _ _ Hbound) as Hmax.
    pose proof (size_list_to_set_le produces.*1) as HU.
    rewrite length_fmap in HU.
    assert (length produces' = length produces) as Hlen.
    { by rewrite <- (length_fmap fst produces'), Hkeys, length_fmap. }
    rewrite Hlen in Hmax. simpl. rewrite decide_True; [done|]. apply Heq. nia.
  - simpl. destruct (decide (produces' = produces)) as [|Hne]; [done|].
    destruct (produces_step produces') as [next|e] eqn:Hnext; cbn [rbind].
    + destruct (produces_step_bounded _ _ Hstep) as (Hkeys & Hmono & Hbound).
      destruct (total_size_mono _ _ Hmono) as [Hle Heq].
      pose proof (total_size_bound _ _ Hbound) as Hmax.
      pose proof (size_list_to_set_le produces.*1) as HU.
      rewrite length_fmap in HU.
      assert (length produces' = length produces) as Hlen.
      { by rewrite <- (length_fmap fst produces'), Hkeys, length_fmap. }
      rewrite Hlen in Hmax. apply IH; [done|]. rewrite Hlen.
      assert (total_size produces < total_size produces'); [|nia].
      destruct (decide (total_size produces' ≤ total_size produces)); [|lia].
      exfalso. by apply Hne, Heq.
    + intros [= ->]. by apply produces_step_Raise in Hnext.
Qed.

(** X4.  The iteration of [check_cycle_free] ends within its budget: the
    function returns normally, or raises the [ValueError] of a cycle, or
    raises [KeyError] on a nonterminal without an entry. *)
Theorem check_cycle_free_outcomes (grammar : Grammar) :
  check_cycle_free grammar = Ok tt
  ∨ (∃ msg, check_cycle_free grammar = Raise (ValueError msg))
  ∨ check_cycle_free grammar = Raise KeyError.
Proof.
  destruct (empty_nt_set_total grammar) as (empties & Hempties & _).
  unfold check_cycle_free. rewrite Hempties. cbn [rbind].
  set (direct := map (λ x, (x.1, direct_produces_of empties x.2)) (nonterminals grammar)).
  destruct (fix_ _ produces_step direct) as [produces|e] eqn:Hfix; cbn [rbind].
  - destruct (rforeach _ (nonterminals grammar)) as [[]|e] eqn:Hall; [by left|].
    right. apply rforeach_Raise in Hall as ([nt plist] & _ & Hx). cbn [fst] in Hx.
    destruct (dict_get produces nt) as [dest|]; simpl in Hx.
    + destruct (decide (nt ∈ dest)); [|done]. injection Hx as <-. left. by eexists.
    + injection Hx as <-. by right.
  - right; right. f_equal. unfold fix_ in Hfix.
    destruct (produces_step direct) as [current|e'] eqn:Hfirst; cbn [rbind] in Hfix.
    + pose proof (fix_loop_produces_fuel (S (length direct * length direct))
                    _ _ Hfirst ltac:(lia)) as Hfuel.
      destruct (fix_loop_Raise _ _ _ _ _ Hfix) as [->|[x Hx%produces_step_Raise]];
        [by destruct Hfuel | done].
    + injection Hfix as <-. by apply produces_step_Raise in Hfirst.
Qed.

Lemma unit_production_direct (grammar : Grammar) (empties : gset nt_name)
    (a b : nt_name) :
  unit_production grammar a b → direct_produces grammar empties a b.
Proof.
  intros (plist & p & Ha & Hp & Hbody). exists plist. split; [done|].
  apply elem_of_direct_produces_of. exists p, ([Nt b], []), [b].
  split; [done|]. split; [|split].
  - rewrite Hbody. apply list_elem_of_singleton. reflexivity.
  - simpl. by destruct (decide (b ∈ empties)).
  - by apply list_elem_of_singleton.
Qed.

(** X5.  A nonterminal that reaches itself through productions whose body
    is a single nonterminal is never accepted by [check_cycle_free]. *)
Theorem check_cycle_free_unit_cycle (grammar : Grammar) (nt : nt_name) :
  tc (unit_production grammar) nt nt →
  check_cycle_free grammar ≠ Ok tt.
Proof.
  intros Htc Hok.
  destruct (empty_nt_set_total grammar) as (empties & Hempties & _).
  apply (check_cycle_free_accepts grammar empties Hempties Hok nt).
  apply (tc_congruence (λ x, x) (direct_produces grammar empties)) in Htc; [done|].
  intros a b. apply unit_production_direct.
Qed.

Lemma check_cycle_free_unit_cycle_witness :
  check_cycle_free self_grammar ≠ Ok tt.
Proof.
  apply (check_cycle_free_unit_cycle self_grammar (Name "A")).
  eapply tc_l; [|apply tc_once].
  - exists [ mkProduction (Name "A") [Nt (Name "B")] (RInt 0) ],
           (mkProduction (Name "A") [Nt (Name "B")] (RInt 0)).
    split; [reflexivity|]. split; [by left | reflexivity].
  - exists [ mkProduction (Name "B") [Nt (Name "A")] (RInt 0);
             mkProduction (Name "B") [T "b"] (RInt 0) ],
           (mkProduction (Name "B") [Nt (Name "A")] (RInt 0)).
    split; [reflexivity|]. split; [by left | reflexivity].
Defined.

(** ** The check of lookahead rules *)

Lemma check_lookahead_rules_Ok (grammar : Grammar) :
  check_lookahead_rules grammar = Ok tt →
  check_cycle_free grammar = Ok tt
  ∧ ∀ nt plist p rhs r rule,
      (nt, plist) ∈ nonterminals grammar → p ∈ plist →
      (rhs, r) ∈ expand_optional_symbols_in_rhs (p_body p) 0 →
      last rhs ≠ Some (LA rule).
Proof.
  unfold check_lookahead_rules.
  intros ([] & Hcycle & Hall%rforeach_Ok)%rbind_Ok. split; [done|].
  intros nt plist p rhs r rule Hnt Hp Hrhs Hlast.
  rewrite Forall_forall in Hall. specialize (Hall _ Hnt). simpl in Hall.
  apply rforeach_Ok in Hall. rewrite Forall_forall in Hall.
  specialize (Hall _ Hp). apply rforeach_Ok in Hall.
  rewrite Forall_forall in Hall. specialize (Hall _ Hrhs). simpl in Hall.
  by rewrite Hlast in Hall.
Qed.

(** X6.  [check_lookahead_rules] returns normally exactly when
    [check_cycle_free] does and no expansion of the optional symbols of any
    body ends in a lookahead rule. *)
Theorem check_lookahead_rules_spec (grammar : Grammar) :
  check_lookahead_rules grammar = Ok tt
  ↔ check_cycle_free grammar = Ok tt
    ∧ ∀ nt plist p rhs r rule,
        (nt, plist) ∈ nonterminals grammar → p ∈ plist →
        (rhs, r) ∈ expand_optional_symbols_in_rhs (p_body p) 0 →
        last rhs ≠ Some (LA rule).
Proof.
  split; [apply check_lookahead_rules_Ok|].
  unfold check_lookahead_rules.
  intros [Hcycle Hall]. rewrite Hcycle. cbn [rbind].
  apply rforeach_Ok, Forall_forall. intros [nt plist] Hnt.
  apply rforeach_Ok, Forall_forall. intros p Hp.
  apply rforeach_Ok, Forall_forall. intros [rhs r] Hrhs. cbn [fst snd] in *.
  destruct (last rhs) as [e|] eqn:Hlast; [|done].
  destruct e as [?|?|?|rule]; try done.
  by destruct (Hall nt plist p rhs r rule).
Qed.

Lemma expand_suffix_all_removed (tail : list symbol) (k : nat) :
  Forall (λ e, is_optional e = true) tail →
  ∃ r, ([], r) ∈ expand_suffix tail k.
Proof.
  intros Htail. revert k. induction Htail as [|e tail He _ IH]; intros k; simpl.
  - exists []. by left.
  - rewrite He. destruct (IH (S k)) as [r Hr]. exists (k :: r).
    apply list_elem_of_In, in_flat_map. exists ([], r).
    split; [by apply list_elem_of_In | by left].
Qed.

Lemma expand_suffix_ends_in (pre tail : list symbol) (e : symbol) (k : nat) :
  is_optional e = false →
  Forall (λ e, is_optional e = true) tail →
  ∃ expanded r, (expanded ++ [e], r) ∈ expand_suffix (pre ++ e :: tail) k.
Proof.
  intros He Htail. revert k. induction pre as [|x pre IH]; intros k; simpl.
  - rewrite He. destruct (expand_suffix_all_removed tail (S k) Htail) as [r Hr].
    exists [], r. apply list_elem_of_fmap. by exists ([], r).
  - destruct (IH (S k)) as (expanded & r & Hin). destruct (is_optional x).
    + exists expanded, (k :: r). apply list_elem_of_In, in_flat_map.
      exists (expanded ++ [e], r). split; [by apply list_elem_of_In | by left].
    + exists (x :: expanded), r. apply list_elem_of_fmap.
      by exists (expanded ++ [e], r).
Qed.

(** X7.  A grammar with a body in which a lookahead rule is the last
    element, or has only optional elements after it, is rejected: once the
    cycle check has passed, [check_lookahead_rules] raises its
    [ValueError]. *)
Theorem check_lookahead_rules_optional_tail (grammar : Grammar) (nt : nt_name)
    (plist : list Production) (p : Production) (pre tail : list symbol)
    (rule : LookaheadRule) :
  (nt, plist) ∈ nonterminals grammar → p ∈ plist →
  p_body p = pre ++ LA rule :: tail →
  Forall (λ e, is_optional e = true) tail →
  check_cycle_free grammar = Ok tt →
  check_lookahead_rules grammar
  = Raise (ValueError "invalid grammar: lookahead restriction at end of production").
Proof.
  intros Hnt Hp Hbody Htail Hcycle.
  destruct (check_lookahead_rules grammar) as [[]|e] eqn:Hcheck.
  - exfalso. apply check_lookahead_rules_Ok in Hcheck as [_ Hall].
    destruct (expand_suffix_ends_in pre tail (LA rule) 0 eq_refl Htail)
      as (expanded & r & Hin).
    apply (Hall nt plist p (expanded ++ [LA rule]) r rule Hnt Hp).
    + by rewrite Hbody, expand_optional_symbols_in_rhs_suffix.
    + by rewrite last_snoc.
  - f_equal. unfold check_lookahead_rules in Hcheck. rewrite Hcycle in Hcheck.
    cbn [rbind] in Hcheck.
    apply rforeach_Raise in Hcheck as (x & _ & Hx).
    apply rforeach_Raise in Hx as (q & _ & Hq).
    apply rforeach_Raise in Hq as (y & _ & Hy).
    destruct (last y.1) as [e'|]; [|done]. destruct (is_lookahead_rule e'); [|done].
    by injection Hy.
Qed.

Lemma check_lookahead_rules_optional_tail_witness :
  check_lookahead_rules optional_tail_grammar
  = Raise (ValueError "invalid grammar: lookahead restriction at end of production").
Proof.
  apply (check_lookahead_rules_optional_tail optional_tail_grammar (Name "A")
           [ mkProduction (Name "A") [T "a"; LA not_x; Optional (T "b")] (RInt 0) ]
           (mkProduction (Name "A") [T "a"; LA not_x; Optional (T "b")] (RInt 0))
           [T "a"] [Optional (T "b")] not_x).
  - by left.
  - by left.
  - reflexivity.
  - by repeat constructor.
  - vm_refl.
Defined.

(** ** The enumeration of optional symbols *)

Lemma length_flat_map_pair {A B} (g h : A → B) (l : list A) :
  length (flat_map (λ x, [g x; h x]) l) = 2 * length l.
Proof. induction l as [|x l IH]; simpl; [done | lia]. Qed.

Lemma expand_suffix_length (l : list symbol) (k : nat) :
  length (expand_suffix l k) = 2 ^ length (filter (λ e, is_optional e = true) l).
Proof.
  revert k. induction l as [|e l IH]; intros k; simpl; [done|].
  rewrite filter_cons. destruct (is_optional e) eqn:He.
  - rewrite decide_True by done. simpl.
    erewrite (flat_map_ext _ (λ x, [(x.1, k :: x.2); (inner_of e :: x.1, x.2)]));
      [|by intros [??]].
    rewrite length_flat_map_pair, IH. lia.
  - rewrite decide_False by done. by rewrite length_map, IH.
Qed.

Lemma expand_suffix_removals_NoDup (l : list symbol) (k : nat) :
  NoDup (expand_suffix l k).*2.
Proof.
  revert k. induction l as [|e l IH]; intros k; simpl.
  - apply NoDup_singleton.
  - destruct (is_optional e) eqn:He.
    + specialize (IH (S k)).
      assert (Forall (λ x : list symbol * list nat, k ∉ x.2) (expand_suffix l (S k)))
        as Hk.
      { apply Forall_forall. intros [ex r] (_ & _ & Hall)%expand_suffix_spec Hin.
        rewrite Forall_forall in Hall. destruct (Hall k Hin) as [? _]. lia. }
      induction (expand_suffix l (S k)) as [|[ex r] L IHL]; simpl; [constructor|].
      inversion IH as [|?? Hr HL]; subst. inversion Hk as [|?? Hkr HkL]; subst.
      simpl in *. specialize (IHL HL HkL).
      assert (∀ r', r' ∈ (flat_map (λ '(expanded, r0),
                 [(expanded, k :: r0); (inner_of e :: expanded, r0)]) L).*2 →
               ∃ r0, r0 ∈ L.*2 ∧ (r' = k :: r0 ∨ r' = r0)) as Hshape.
      { intros r' ([ex' r''] & -> & Hin)%list_elem_of_fmap.
        apply list_elem_of_In, in_flat_map in Hin as ([ex0 r0] & Hin0 & Hx).
        exists r0. split.
        - apply list_elem_of_fmap. exists (ex0, r0). split; [done|].
          by apply list_elem_of_In.
        - destruct Hx as [[= _ <-]|[[= _ <-]|[]]]; simpl; auto. }
      constructor; [|constructor; [|done]].
      * intros [Heq|Hin]%elem_of_cons.
        { apply (f_equal length) in Heq. simpl in Heq. lia. }
        destruct (Hshape _ Hin) as (r0 & Hr0 & [[= Heq]|Heq]); subst r0; [done|].
        rewrite Forall_forall in HkL.
        apply list_elem_of_fmap in Hr0 as ([ex0 r1] & Heq & Hin1).
        apply (HkL _ Hin1). simpl in *. rewrite <- Heq. by left.
      * intros Hin. destruct (Hshape _ Hin) as (r0 & Hr0 & [Heq|Heq]); subst; [|done].
        apply Hkr. by left.
    + rewrite <- list_fmap_compose.
      erewrite (list_fmap_ext _ snd); [apply IH|]. by intros ? [??].
Qed.

(** X8.  [expand_optional_symbols_in_rhs(rhs, start_index)] yields two to
    the power of the number of optional elements of [rhs[start_index:]]
    pairs, with removal lists that are pairwise different; without optional
    elements it yields [rhs[start_index:]] alone, with no removal. *)
Theorem expand_optional_symbols_in_rhs_count (rhs : list symbol) (start_index : nat) :
  length (expand_optional_symbols_in_rhs rhs start_index)
  = 2 ^ length (filter (λ e, is_optional e = true) (drop start_index rhs))
  ∧ NoDup (expand_optional_symbols_in_rhs rhs start_index).*2
  ∧ (Forall (λ e, is_optional e = false) (drop start_index rhs) →
     expand_optional_symbols_in_rhs rhs start_index = [(drop start_index rhs, [])]).
Proof.
  unfold expand_optional_symbols_in_rhs.
  rewrite expand_optional_fuel_suffix by lia.
  split; [apply expand_suffix_length|]. split; [apply expand_suffix_removals_NoDup|].
  intros Hplain.
  rewrite <- (app_nil_r (drop start_index rhs)) at 1.
  rewrite expand_suffix_app.
  - simpl. by rewrite app_nil_r.
  - eapply Forall_impl; [exact Hplain|]. simpl. intros e He. by rewrite He.
Qed.

(** ** What [expand_all_optional_elements] records *)

Lemma expand_production_Ok (nt : nt_name) (i : nat) (p : Production)
    (pairs : list (Production * Prod)) :
  expand_production nt (i, p) = Ok pairs →
  Forall2 (λ x qp, ∃ action,
             adjust_reduce_expr (p_body p) x.2 (p_action p) = Ok action
             ∧ qp = (mkProduction (p_nt p) x.1 action, mkProd nt i x.1 x.2 action))
          (expand_optional_symbols_in_rhs (p_body p) 0) pairs.
Proof.
  unfold expand_production. cbn [fst snd]. intros Hmap%rmap_Ok.
  eapply Forall2_impl; [exact Hmap|]. intros [rhs r] qp. unfold expand_one.
  intros (action & Haction & [= <-])%rbind_Ok. by exists action.
Qed.

Lemma expand_nt_Ok (nt : nt_name) (plist : list Production)
    (pairs : list (Production * Prod)) :
  expand_nt nt plist = Ok pairs →
  ∃ chunks, pairs = concat chunks
            ∧ Forall2 (λ ip chunk, expand_production nt ip = Ok chunk)
                      (imap pair plist) chunks.
Proof.
  unfold expand_nt. intros (chunks & Hmap%rmap_Ok & ->)%rfmap_Ok. by exists chunks.
Qed.

Lemma expand_nt_complete (nt : nt_name) (plist : list Production)
    (pairs : list (Production * Prod)) (i : nat) (p : Production)
    (x : list symbol * list nat) :
  expand_nt nt plist = Ok pairs →
  plist !! i = Some p →
  x ∈ expand_optional_symbols_in_rhs (p_body p) 0 →
  ∃ action, adjust_reduce_expr (p_body p) x.2 (p_action p) = Ok action
            ∧ (mkProduction (p_nt p) x.1 action, mkProd nt i x.1 x.2 action) ∈ pairs.
Proof.
  intros (chunks & -> & Hchunks)%expand_nt_Ok Hp Hx.
  assert (imap pair plist !! i = Some (i, p)) as Hip.
  { by rewrite list_lookup_imap, Hp. }
  destruct (Forall2_lookup_l _ _ _ _ _ Hchunks Hip) as (chunk & Hchunk & Hprod).
  apply expand_production_Ok in Hprod.
  apply list_elem_of_lookup in Hx as [j Hj].
  destruct (Forall2_lookup_l _ _ _ _ _ Hprod Hj) as (qp & Hqp & action & Haction & ->).
  exists action. split; [done|].
  apply list_elem_of_In, in_concat. exists chunk.
  split; apply list_elem_of_In; by eapply list_elem_of_lookup_2.
Qed.

Lemma expand_nt_aligned (nt : nt_name) (plist : list Production)
    (pairs : list (Production * Prod)) :
  expand_nt nt plist = Ok pairs →
  Forall (λ qp, p_body qp.1 = prod_rhs qp.2 ∧ p_action qp.1 = prod_action qp.2
                ∧ prod_nt qp.2 = nt) pairs.
Proof.
  intros (chunks & -> & Hchunks)%expand_nt_Ok.
  apply Forall_forall. intros qp (chunk & Hchunk & Hqp)%list_elem_of_In%in_concat.
  apply list_elem_of_In, list_elem_of_lookup in Hchunk as [k Hk].
  destruct (Forall2_lookup_r _ _ _ _ _ Hchunks Hk) as ([i p] & _ & Hprod).
  apply expand_production_Ok in Hprod.
  apply list_elem_of_In, list_elem_of_lookup in Hqp as [j Hj].
  by destruct (Forall2_lookup_r _ _ _ _ _ Hprod Hj) as (x & _ & action & _ & ->).
Qed.

Lemma indexes_agree_app (prods more : list Prod) (x : nt_name * list Production)
    (y : nt_name * list (nat * list symbol)) :
  indexes_agree prods x y → indexes_agree (prods ++ more) x y.
Proof.
  intros [Hk Hall]. split; [done|]. eapply Forall2_impl; [exact Hall|].
  intros q e (prod & Hprod & ?). exists prod. split; [|done].
  by apply lookup_app_l_Some.
Qed.

Lemma expand_all_loop_indexes (nts expanded_grammar : list (nt_name * list Production))
    (prods : list Prod) (by_nt : by_nt_dict)
    (expanded_grammar' : list (nt_name * list Production))
    (prods' : list Prod) (by_nt' : by_nt_dict) :
  expand_all_loop nts expanded_grammar prods by_nt
    = Ok (expanded_grammar', prods', by_nt') →
  Forall2 (indexes_agree prods) expanded_grammar by_nt →
  (∀ k prod, prods !! k = Some prod →
     ∃ entries, (prod_nt prod, entries) ∈ by_nt ∧ (k, prod_rhs prod) ∈ entries) →
  Forall2 (indexes_agree prods') expanded_grammar' by_nt'
  ∧ (∀ k prod, prods' !! k = Some prod →
       ∃ entries, (prod_nt prod, entries) ∈ by_nt' ∧ (k, prod_rhs prod) ∈ entries)
  ∧ expanded_grammar'.*1 = expanded_grammar.*1 ++ nts.*1.
Proof.
  revert expanded_grammar prods by_nt.
  induction nts as [|[nt plist] nts IH]; intros expanded_grammar prods by_nt; simpl.
  - intros [= <- <- <-] Hagree Hlisted. by rewrite app_nil_r.
  - intros (pairs & Hnt & Hloop)%rbind_Ok Hagree Hlisted.
    pose proof (expand_nt_aligned _ _ _ Hnt) as Haligned.
    apply IH in Hloop as (Hagree' & Hlisted' & Hkeys).
    + split; [done|]. split; [done|].
      rewrite Hkeys, fmap_app. simpl. by rewrite <- app_assoc.
    + apply Forall2_app.
      * eapply Forall2_impl; [exact Hagree|]. intros x y. apply indexes_agree_app.
      * constructor; [|constructor]. split; [done|]. cbn [fst snd].
        apply Forall2_same_length_lookup. split.
        { by rewrite length_imap, !length_fmap. }
        intros j q e Hq He.
        apply list_lookup_imap_Some in He as (pr & Hpr & ->).
        apply list_lookup_fmap_Some in Hq as ([q' pr1] & -> & Hq).
        apply list_lookup_fmap_Some in Hpr as ([q2 pr2] & -> & Hpr).
        assert (Some (q', pr1) = Some (q2, pr2)) as [= -> ->] by congruence.
        rewrite Forall_forall in Haligned.
        destruct (Haligned (q2, pr2)) as (Hbody & Haction & Hnt');
          [by eapply list_elem_of_lookup_2|].
        exists pr2. cbn [fst snd] in *. split; [|done].
        rewrite lookup_app_r by lia.
        replace (length prods + j - length prods) with j by lia.
        by rewrite list_lookup_fmap, Hpr.
    + intros k prod Hk. apply lookup_app_Some in Hk as [Hk|[Hge Hk]].
      * destruct (Hlisted k prod Hk) as (entries & Hin & Hentry).
        exists entries. split; [|done]. apply elem_of_app. by left.
      * exists (imap (λ k pr, (length prods + k, prod_rhs pr)) pairs.*2).
        apply list_lookup_fmap_Some in Hk as ([q pr] & -> & Hk).
        rewrite Forall_forall in Haligned.
        destruct (Haligned (q, pr)) as (_ & _ & Hnt');
          [by eapply list_elem_of_lookup_2|]. cbn [fst snd] in *.
        split.
        -- rewrite Hnt'. apply elem_of_app. right. by left.
        -- apply list_elem_of_lookup. exists (k - length prods).
           rewrite list_lookup_imap, list_lookup_fmap, Hk. simpl.
           do 2 f_equal. lia.
Qed.

Lemma expand_all_loop_complete (nts expanded_grammar : list (nt_name * list Production))
    (prods : list Prod) (by_nt : by_nt_dict)
    (expanded_grammar' : list (nt_name * list Production))
    (prods' : list Prod) (by_nt' : by_nt_dict) :
  expand_all_loop nts expanded_grammar prods by_nt
    = Ok (expanded_grammar', prods', by_nt') →
  (∀ pr, pr ∈ prods → pr ∈ prods')
  ∧ ∀ nt plist i p x,
      (nt, plist) ∈ nts → plist !! i = Some p →
      x ∈ expand_optional_symbols_in_rhs (p_body p) 0 →
      ∃ action, adjust_reduce_expr (p_body p) x.2 (p_action p) = Ok action
                ∧ mkProd nt i x.1 x.2 action ∈ prods'.
Proof.
  revert expanded_grammar prods by_nt.
  induction nts as [|[nt plist] nts IH]; intros expanded_grammar prods by_nt; simpl.
  - intros [= <- <- <-]. split; [done|]. intros ????? []%elem_of_nil.
  - intros (pairs & Hnt & Hloop)%rbind_Ok.
    apply IH in Hloop as [Hkeep Hall]. split.
    + intros pr Hpr. apply Hkeep, elem_of_app. by left.
    + intros nt' plist' i p x [[= -> ->]|Hin]%elem_of_cons Hp Hx.
      * destruct (expand_nt_complete _ _ _ _ _ _ Hnt Hp Hx) as (action & Ha & Hin).
        exists action. split; [done|]. apply Hkeep, elem_of_app. right.
        apply list_elem_of_fmap. by eexists (_, _).
      * by eapply Hall.
Qed.

(** X9.  The three results of [expand_all_optional_elements] agree: the
    expanded grammar has the nonterminals of the source grammar, in the same
    order; for each of them [prods_with_indexes_by_nt] lists, in the order
    of the expanded grammar, the right-hand sides of its productions, each
    with an index at which [prods] holds that flat production; and every
    index of [prods] is listed under the nonterminal of its production. *)
Theorem expand_all_optional_elements_indexes (grammar grammar' : Grammar)
    (prods : list Prod) (by_nt : by_nt_dict) :
  expand_all_optional_elements grammar = Ok (grammar', prods, by_nt) →
  (nonterminals grammar').*1 = (nonterminals grammar).*1
  ∧ goals grammar' = goals grammar
  ∧ init_nts grammar' = init_nts grammar
  ∧ Forall2 (indexes_agree prods) (nonterminals grammar') by_nt
  ∧ ∀ k prod, prods !! k = Some prod →
      ∃ entries, (prod_nt prod, entries) ∈ by_nt ∧ (k, prod_rhs prod) ∈ entries.
Proof.
  unfold expand_all_optional_elements.
  intros ([[eg ps] bn] & Hloop & [= <- <- <-])%rbind_Ok.
  apply expand_all_loop_indexes in Hloop as (Hagree & Hlisted & Hkeys);
    [|apply Forall2_nil; done|intros ??; by rewrite lookup_nil].
  by repeat split.
Qed.

Lemma expand_all_optional_elements_indexes_witness :
  ∃ grammar' prods by_nt,
    expand_all_optional_elements s3_grammar = Ok (grammar', prods, by_nt)
    ∧ (nonterminals grammar').*1 = (nonterminals s3_grammar).*1
    ∧ goals grammar' = goals s3_grammar
    ∧ init_nts grammar' = init_nts s3_grammar
    ∧ Forall2 (indexes_agree prods) (nonterminals grammar') by_nt
    ∧ ∀ k prod, prods !! k = Some prod →
        ∃ entries, (prod_nt prod, entries) ∈ by_nt ∧ (k, prod_rhs prod) ∈ entries.
Proof.
  eexists _, _, _. split; [vm_compute; reflexivity|].
  apply (expand_all_optional_elements_indexes s3_grammar). vm_compute. reflexivity.
Defined.

(** X10.  Nothing is lost: for every production of the source grammar and
    every pair that [expand_optional_symbols_in_rhs] yields for its body,
    [prods] holds the flat production with that right-hand side and those
    removals, under the nonterminal and the index of the source production,
    with the adjusted action. *)
Theorem expand_all_optional_elements_complete (grammar grammar' : Grammar)
    (prods : list Prod) (by_nt : by_nt_dict) (nt : nt_name)
    (plist : list Production) (i : nat) (p : Production)
    (rhs : list symbol) (r : list nat) :
  expand_all_optional_elements grammar = Ok (grammar', prods, by_nt) →
  (nt, plist) ∈ nonterminals grammar →
  plist !! i = Some p →
  (rhs, r) ∈ expand_optional_symbols_in_rhs (p_body p) 0 →
  ∃ action, adjust_reduce_expr (p_body p) r (p_action p) = Ok action
            ∧ mkProd nt i rhs r action ∈ prods.
Proof.
  unfold expand_all_optional_elements.
  intros ([[eg ps] bn] & Hloop & [= <- <- <-])%rbind_Ok Hnt Hp Hx.
  apply expand_all_loop_complete in Hloop as [_ Hall].
  apply (Hall nt plist i p (rhs, r) Hnt Hp Hx).
Qed.

Lemma expand_all_optional_elements_complete_witness :
  ∃ prods action,
    (λ x, x.1.2) <$> expand_all_optional_elements s3_grammar = Ok prods
    ∧ adjust_reduce_expr [Optional (Nt (Name "A")); Optional (Nt (Name "B"))] [1]
        (RCallMethod "pair" [RInt 0; RInt 1]) = Ok action
    ∧ mkProd (Name "S") 0 [Nt (Name "A")] [1] action ∈ prods.
Proof.
  eexists _. 
  destruct (expand_all_optional_elements_complete s3_grammar
              (with_nonterminals s3_grammar
                 [ (Name "S",
                    [ mkProduction (Name "S") [] (RCallMethod "pair" [RNone; RNone]);
                      mkProduction (Name "S") [Nt (Name "A")]
                        (RCallMethod "pair" [RSome (RInt 0); RNone]);
                      mkProduction (Name "S") [Nt (Name "B")]
                        (RCallMethod "pair" [RNone; RSome (RInt 0)]);
                      mkProduction (Name "S") [Nt (Name "A"); Nt (Name "B")]
                        (RCallMethod "pair" [RSome (RInt 0); RSome (RInt 1)]) ]);
                   (Name "A", [ mkProduction (Name "A") [T "a"] (RInt 0) ]);
                   (Name "B", [ mkProduction (Name "B") [T "b"] (RInt 0) ]) ])
              [ mkProd (Name "S") 0 [] [0; 1] (RCallMethod "pair" [RNone; RNone]);
                mkProd (Name "S") 0 [Nt (Name "A")] [1]
                  (RCallMethod "pair" [RSome (RInt 0); RNone]);
                mkProd (Name "S") 0 [Nt (Name "B")] [0]
                  (RCallMethod "pair" [RNone; RSome (RInt 0)]);
                mkProd (Name "S") 0 [Nt (Name "A"); Nt (Name "B")] []
                  (RCallMethod "pair" [RSome (RInt 0); RSome (RInt 1)]);
                mkProd (Name "A") 0 [T "a"] [] (RInt 0);
                mkProd (Name "B") 0 [T "b"] [] (RInt 0) ]
              [ (Name "S", [ (0, []); (1, [Nt (Name "A")]); (2, [Nt (Name "B")]);
                             (3, [Nt (Name "A"); Nt (Name "B")]) ]);
                (Name "A", [ (4, [T "a"]) ]);
                (Name "B", [ (5, [T "b"]) ]) ]
              (Name "S")
              [ mkProduction (Name "S")
                  [Optional (Nt (Name "A")); Optional (Nt (Name "B"))]
                  (RCallMethod "pair" [RInt 0; RInt 1]) ]
              0
              (mkProduction (Name "S")
                 [Optional (Nt (Name "A")); Optional (Nt (Name "B"))]
                 (RCallMethod "pair" [RInt 0; RInt 1]))
              [Nt (Name "A")] [1])
    as (action & Haction & Hin).
  - reflexivity.
  - by left.
  - reflexivity.
  - vm_compute. right; left.
  - exists action. split; [reflexivity|]. split; [exact Haction | exact Hin].
Defined.

Lemma expand_suffix_plain (l : list symbol) (k : nat) (expanded : list symbol)
    (r : list nat) :
  Forall (λ e, is_optional (inner_of e) = false) l →
  (expanded, r) ∈ expand_suffix l k →
  Forall (λ e, is_optional e = false) expanded.
Proof.
  intros Hl. revert k expanded r.
  induction Hl as [|e l He _ IH]; intros k expanded r; simpl.
  - intros [= -> ->]%list_elem_of_singleton. constructor.
  - destruct (is_optional e) eqn:Hopt.
    + intros ([ex r'] & Hin & Hx)%list_elem_of_In%in_flat_map.
      apply list_elem_of_In, IH in Hin.
      destruct Hx as [[= <- <-]|[[= <- <-]|[]]]; [done | by constructor].
    + intros ([ex r'] & [= -> ->] & Hin)%list_elem_of_fmap.
      apply IH in Hin. constructor; [done | exact Hin].
Qed.

(** X11.  Downstream of [expand_all_optional_elements] there are no optional
    elements: when no [Optional] of the source grammar wraps another
    [Optional], no right-hand side in [prods] and no body of the expanded
    grammar holds an [Optional]. *)
Theorem expand_all_optional_elements_plain (grammar grammar' : Grammar)
    (prods : list Prod) (by_nt : by_nt_dict) :
  expand_all_optional_elements grammar = Ok (grammar', prods, by_nt) →
  (∀ nt plist p, (nt, plist) ∈ nonterminals grammar → p ∈ plist →
     Forall (λ e, is_optional (inner_of e) = false) (p_body p)) →
  (∀ prod, prod ∈ prods → Forall (λ e, is_optional e = false) (prod_rhs prod))
  ∧ (∀ nt plist q, (nt, plist) ∈ nonterminals grammar' → q ∈ plist →
       Forall (λ e, is_optional e = false) (p_body q)).
Proof.
  intros Hexp Hsource.
  assert (∀ prod, prod ∈ prods → Forall (λ e, is_optional e = false) (prod_rhs prod))
    as Hprods.
  { intros prod Hprod. revert Hexp. unfold expand_all_optional_elements.
    intros ([[eg ps] bn] & Hloop & [= <- <- <-])%rbind_Ok.
    destruct (expand_all_loop_spec _ _ _ _ _ _ _ _ Hloop Hprod)
      as [[]%elem_of_nil|(plist & p & Hpl & Hp & Hin & _)].
    rewrite expand_optional_symbols_in_rhs_suffix in Hin.
    eapply expand_suffix_plain; [|exact Hin].
    eapply Hsource; [exact Hpl|]. by eapply list_elem_of_lookup_2. }
  split; [exact Hprods|].
  intros nt plist q Hnt Hq. revert Hexp Hnt. unfold expand_all_optional_elements.
  intros ([[eg ps] bn] & Hloop & [= <- <- <-])%rbind_Ok Hnt. cbn [nonterminals] in Hnt.
  apply expand_all_loop_indexes in Hloop as (Hagree & _ & _);
    [|apply Forall2_nil; done|intros ??; by rewrite lookup_nil].
  apply list_elem_of_lookup in Hnt as [i Hi].
  destruct (Forall2_lookup_l _ _ _ _ _ Hagree Hi) as (y & _ & _ & Hall).
  apply list_elem_of_lookup in Hq as [j Hj]. cbn [snd] in Hall.
  destruct (Forall2_lookup_l _ _ _ _ _ Hall Hj)
    as (e & _ & prod & Hprod & _ & Hrhs & Hbody & _).
  rewrite Hbody, <- Hrhs. apply Hprods. by eapply list_elem_of_lookup_2.
Qed.

Lemma Forall_productions (Q : Production → Prop) (nts : list (nt_name * list Production)) :
  Forall (λ x, Forall Q x.2) nts →
  ∀ nt plist p, (nt, plist) ∈ nts → p ∈ plist → Q p.
Proof.
  rewrite Forall_forall. intros Hall nt plist p Hnt Hp.
  specialize (Hall _ Hnt). rewrite Forall_forall in Hall. by apply Hall.
Qed.

Lemma expand_all_optional_elements_plain_witness :
  ∃ grammar' prods by_nt,
    expand_all_optional_elements s3_grammar = Ok (grammar', prods, by_nt)
    ∧ (∀ prod, prod ∈ prods → Forall (λ e, is_optional e = false) (prod_rhs prod))
    ∧ (∀ nt plist q, (nt, plist) ∈ nonterminals grammar' → q ∈ plist →
         Forall (λ e, is_optional e = false) (p_body q)).
Proof.
  eexists _, _, _. split; [vm_compute; reflexivity|].
  eapply (expand_all_optional_elements_plain s3_grammar).
  - vm_compute. reflexivity.
  - apply Forall_productions. repeat constructor.
Defined.

(** ** Wrapping the nonterminals that match the empty string *)

(** X12.  [make_epsilon_free_step_1] always returns.  The grammar it returns
    has the same nonterminals in the same order, the same goals, and for
    each nonterminal as many productions, each with the body of the source
    production in which the nonterminals of [empty_nt_set(grammar)], and
    only these elements, are wrapped in [Optional]; so no body of it holds
    such a nonterminal unwrapped, and [inner_of] undoes the wrapping of a
    body without [Optional]. *)
Theorem make_epsilon_free_step_1_spec (grammar : Grammar) :
  ∃ empties grammar',
    empty_nt_set grammar = Ok empties
    ∧ make_epsilon_free_step_1 grammar = Ok grammar'
    ∧ goals grammar' = goals grammar
    ∧ init_nts grammar' = init_nts grammar
    ∧ Forall2 (λ x y,
         y.1 = x.1
         ∧ Forall2 (λ p q,
              p_nt q = p_nt p ∧ p_action q = p_action p
              ∧ Forall2 (λ e e',
                   e' = match e with
                        | Nt n => if decide (n ∈ empties) then Optional e else e
                        | _ => e
                        end)
                  (p_body p) (p_body q)
              ∧ (∀ n, Nt n ∈ p_body q → n ∉ empties)
              ∧ (Forall (λ e, is_optional e = false) (p_body p) →
                 map inner_of (p_body q) = p_body p))
             x.2 y.2)
        (nonterminals grammar) (nonterminals grammar').
Proof.
  destruct (empty_nt_set_total grammar) as (empties & Hempties & _).
  unfold make_epsilon_free_step_1. rewrite Hempties. cbn [rbind].
  eexists empties, _. split; [done|]. split; [reflexivity|].
  split; [done|]. split; [done|]. cbn [nonterminals].
  apply Forall2_fmap_r, Forall_Forall2_diag, Forall_forall.
  intros [nt plist] _. cbn [fst snd]. split; [done|].
  apply Forall2_fmap_r, Forall_Forall2_diag, Forall_forall.
  intros p _. unfold with_body, compose. cbn [p_nt p_action p_body].
  generalize (p_body p). intros body.
  split; [done|]. split; [done|]. split; [|split].
  - apply Forall2_fmap_r, Forall_Forall2_diag, Forall_forall. by intros e _.
  - intros n ([?|m|?|?] & Heq & _)%list_elem_of_fmap; try done.
    destruct (decide (m ∈ empties)); [done|]. by injection Heq as ->.
  - induction 1 as [|e l He _ IH]; simpl; [done|]. rewrite IH. f_equal.
    destruct e as [?|m|?|?]; try done. by destruct (decide (m ∈ empties)).
Qed.

(** ** What the lowering keeps of a body without optional elements *)

Lemma expand_suffix_all_kept (l : list symbol) (k : nat) :
  (map inner_of l, []) ∈ expand_suffix l k.
Proof.
  revert k. induction l as [|e l IH]; intros k; simpl; [by left|].
  destruct (is_optional e) eqn:He.
  - apply list_elem_of_In, in_flat_map. exists (map inner_of l, []).
    split; [apply list_elem_of_In, IH | right; by left].
  - apply list_elem_of_fmap. exists (map inner_of l, []).
    split; [|apply IH]. by rewrite inner_of_plain.
Qed.

Lemma lower_grammar_plain_body (grammar final : Grammar) (prods : list Prod)
    (by_nt : by_nt_dict) (nt : nt_name) (plist : list Production) (i : nat)
    (p : Production) :
  lower_grammar grammar = Ok (final, prods, by_nt) →
  (nt, plist) ∈ nonterminals grammar →
  plist !! i = Some p →
  Forall (λ e, is_optional e = false) (p_body p) →
  ∃ action, mkProd nt i (p_body p) [] action ∈ prods
            ∧ (p_action p = RAccept → action = RAccept).
Proof.
  unfold lower_grammar.
  intros ([] & _ & ([] & _ & (grammar1 & Hstep1 & Hexp)%rbind_Ok)%rbind_Ok)%rbind_Ok
    Hnt Hp Hplain.
  destruct (expand_all_optional_elements grammar1) as [[[grammar2 ps] bn]|] eqn:Hall;
    [|done].
  injection Hexp as <- <- <-.
  revert Hstep1. unfold make_epsilon_free_step_1.
  intros (empties & _ & [= <-])%rbind_Ok.
  set (hack := λ e, match e with
                    | Nt n => if decide (n ∈ empties) then Optional e else e
                    | _ => e
                    end) in *.
  revert Hall. unfold expand_all_optional_elements. cbn [nonterminals with_nonterminals].
  intros ([[eg ps'] bn'] & Hloop & [= _ <- _])%rbind_Ok.
  apply expand_all_loop_complete in Hloop as [_ Hcomplete].
  destruct (Hcomplete nt (map (λ p, with_body p (map hack (p_body p))) plist) i
              (with_body p (map hack (p_body p))) (p_body p, []))
    as (action & Haction & Hin).
  - apply list_elem_of_fmap. by exists (nt, plist).
  - change (map ?f ?l) with (f <$> l). by rewrite list_lookup_fmap, Hp.
  - cbn [with_body p_body]. rewrite expand_optional_symbols_in_rhs_suffix.
    assert (map inner_of (map hack (p_body p)) = p_body p) as Heq.
    { clear -Hplain. induction Hplain as [|e l He _ IH]; simpl; [done|].
      rewrite IH. f_equal. destruct e as [?|m|?|?]; try done. simpl.
      by destruct (decide (m ∈ empties)). }
    rewrite <- Heq at 1. apply expand_suffix_all_kept.
  - exists action. split; [exact Hin|]. cbn [with_body p_body p_action fst snd] in Haction.
    intros Hacc. rewrite Hacc in Haction. simpl in Haction. by injection Haction.
Qed.

(** X13.  A production of the source grammar whose body has no optional
    element is kept by the lowering steps: [prods] holds a flat production
    with its nonterminal, its index, its body as right-hand side and no
    removal; the action ['accept'] is kept as it is. *)
Theorem lower_grammar_keeps_plain_bodies (grammar final : Grammar) (prods : list Prod)
    (by_nt : by_nt_dict) (nt : nt_name) (plist : list Production) (i : nat)
    (p : Production) :
  lower_grammar grammar = Ok (final, prods, by_nt) →
  (nt, plist) ∈ nonterminals grammar →
  plist !! i = Some p →
  Forall (λ e, is_optional e = false) (p_body p) →
  ∃ action, mkProd nt i (p_body p) [] action ∈ prods
            ∧ (p_action p = RAccept → action = RAccept).
Proof. apply lower_grammar_plain_body. Qed.

Lemma lower_grammar_keeps_plain_bodies_witness :
  ∃ action,
    mkProd (Name "S") 0 [Nt (Name "G"); LA not_y; T "x"] [] action
      ∈ nullable_goal_prods
    ∧ (RCallMethod "s" [RInt 0; RInt 2] = RAccept → action = RAccept).
Proof.
  apply (lower_grammar_keeps_plain_bodies nullable_goal_grammar nullable_goal_final
           nullable_goal_prods nullable_goal_by_nt (Name "S")
           [ mkProduction (Name "S") [Nt (Name "G"); LA not_y; T "x"]
               (RCallMethod "s" [RInt 0; RInt 2]) ] 0
           (mkProduction (Name "S") [Nt (Name "G"); LA not_y; T "x"]
              (RCallMethod "s" [RInt 0; RInt 2]))).
  - vm_refl.
  - do 2 right. by left.
  - reflexivity.
  - by repeat constructor.
Defined.

(** X14.  The flat production that [analyze_states] looks up for an initial
    nonterminal is there: when the source grammar has
    [InitNt(goal) ::= goal] with the action ['accept'] as first production
    of [InitNt(goal)], the lookup [prods.index(...)] finds an index, also
    when the goal matches the empty string. *)
Theorem lower_grammar_init_prod (grammar final : Grammar) (prods : list Prod)
    (by_nt : by_nt_dict) (goal : string) (plist : list Production) :
  lower_grammar grammar = Ok (final, prods, by_nt) →
  (InitNt goal, plist) ∈ nonterminals grammar →
  plist !! 0 = Some (mkProduction (InitNt goal) [Nt (Name goal)] RAccept) →
  ∃ k, list_find (λ prod, is_init_prod (InitNt goal) goal prod = true) prods
       = Some (k, mkProd (InitNt goal) 0 [Nt (Name goal)] [] RAccept).
Proof.
  intros Hlower Hnt Hp.
  destruct (lower_grammar_plain_body _ _ _ _ _ _ _ _ Hlower Hnt Hp)
    as (action & Hin & Haction); [by repeat constructor|].
  rewrite Haction in Hin by done. cbn [p_body] in Hin.
  destruct (list_find_elem_of (λ prod, is_init_prod (InitNt goal) goal prod = true)
              prods _ Hin) as [[k prod] Hfind].
  { unfold is_init_prod. cbn. by rewrite !bool_decide_eq_true_2. }
  exists k. rewrite Hfind. do 2 f_equal.
  apply list_find_Some in Hfind as (_ & Hprod & _).
  unfold is_init_prod in Hprod.
  destruct prod as [pnt pidx prhs prem pact]. cbn in Hprod.
  repeat (apply andb_prop in Hprod as [Hprod ?]).
  repeat match goal with H : bool_decide _ = true |- _ =>
    apply bool_decide_eq_true in H end.
  subst. by destruct pact.
Qed.

Lemma lower_grammar_init_prod_witness :
  ∃ k, list_find (λ prod, is_init_prod (InitNt "G") "G" prod = true)
                 nullable_goal_prods
       = Some (k, mkProd (InitNt "G") 0 [Nt (Name "G")] [] RAccept).
Proof.
  apply (lower_grammar_init_prod nullable_goal_grammar nullable_goal_final
           nullable_goal_prods nullable_goal_by_nt "G"
           [ mkProduction (InitNt "G") [Nt (Name "G")] RAccept ]).
  - vm_refl.
  - right. by left.
  - reflexivity.
Defined.

(** ** The equations of the start sets *)

Lemma start_sets_round_false (items : list (nt_name * list Production))
    (start start' : gmap nt_name (gset tok)) (done : bool) :
  start_sets_round items start false = Ok (start', done) → done = false.
Proof.
  revert start. induction items as [|[nt plist] items IH]; intros start; simpl.
  - by intros [= _ <-].
  - intros (sets & _ & (current & _ & Hrest)%rbind_Ok)%rbind_Ok.
    destruct (decide (⋃ sets ≠ current)); by eapply IH.
Qed.

Lemma start_sets_round_dom (items : list (nt_name * list Production))
    (start start' : gmap nt_name (gset tok)) (done done' : bool) :
  start_sets_round items start done = Ok (start', done') → dom start' = dom start.
Proof.
  revert start done. induction items as [|[nt plist] items IH]; intros start done; simpl.
  - by intros [= <- _].
  - intros (sets & _ & (current & Hcur%of_option_Ok & Hrest)%rbind_Ok)%rbind_Ok.
    destruct (decide (⋃ sets ≠ current)).
    + apply IH in Hrest. rewrite Hrest, dom_insert_L.
      apply elem_of_dom_2 in Hcur. set_solver.
    + by eapply IH.
Qed.

Lemma start_sets_round_true (items : list (nt_name * list Production))
    (start start' : gmap nt_name (gset tok)) :
  start_sets_round items start true = Ok (start', true) →
  start' = start
  ∧ Forall (λ x, ∃ sets, rmap (λ p, seq_start start (p_body p)) x.2 = Ok sets
                         ∧ start !! x.1 = Some (⋃ sets)) items.
Proof.
  induction items as [|[nt plist] items IH]; simpl.
  - intros [= <-]. by split.
  - intros (sets & Hsets & (current & Hcur%of_option_Ok & Hrest)%rbind_Ok)%rbind_Ok.
    destruct (decide (⋃ sets ≠ current)) as [|Heq].
    + by apply start_sets_round_false in Hrest.
    + apply dec_stable in Heq. destruct (IH Hrest) as [-> Hall].
      split; [done|]. constructor; [|done]. exists sets. cbn [fst snd].
      split; [done|]. by rewrite Heq.
Qed.

Lemma start_sets_loop_Ok (fuel : nat) (grammar : Grammar)
    (start result : gmap nt_name (gset tok)) :
  start_sets_loop fuel grammar start = Ok result →
  dom result = dom start
  ∧ Forall (λ x, ∃ sets, rmap (λ p, seq_start result (p_body p)) x.2 = Ok sets
                         ∧ result !! x.1 = Some (⋃ sets)) (nonterminals grammar).
Proof.
  revert start. induction fuel as [|fuel IH]; intros start; simpl; [done|].
  destruct (start_sets_round (nonterminals grammar) start true)
    as [[new_start [|]]|] eqn:Hround; [| |done].
  - intros [= <-]. destruct (start_sets_round_true _ _ _ Hround) as [-> Hall].
    by split.
  - intros Hloop. destruct (IH _ Hloop) as [Hdom Hall]. split; [|done].
    rewrite Hdom. by eapply start_sets_round_dom.
Qed.

(** X15.  The start sets that [start_sets] returns satisfy the equations it
    iterates: the keys are the nonterminals of the grammar, and the set of
    each nonterminal is the union of what [seq_start] gives, with these very
    sets, for the bodies of its productions. *)
Theorem start_sets_fixed_point (grammar : Grammar) (start : gmap nt_name (gset tok)) :
  start_sets grammar = Ok start →
  dom start = list_to_set (nonterminals grammar).*1
  ∧ ∀ nt plist, (nt, plist) ∈ nonterminals grammar →
      ∃ sets, rmap (λ p, seq_start start (p_body p)) plist = Ok sets
              ∧ start !! nt = Some (⋃ sets).
Proof.
  unfold start_sets. intros [Hdom Hall]%start_sets_loop_Ok. split.
  - rewrite Hdom, dom_list_to_map_L. f_equal.
    change (map ?f ?l) with (f <$> l). rewrite <- list_fmap_compose.
    by apply list_fmap_ext.
  - intros nt plist Hnt. rewrite Forall_forall in Hall. apply (Hall _ Hnt).
Qed.

Lemma start_sets_fixed_point_witness :
  dom nullable_goal_start = list_to_set (nonterminals nullable_goal_final).*1
  ∧ ∀ nt plist, (nt, plist) ∈ nonterminals nullable_goal_final →
      ∃ sets, rmap (λ p, seq_start nullable_goal_start (p_body p)) plist = Ok sets
              ∧ nullable_goal_start !! nt = Some (⋃ sets).
Proof. apply (start_sets_fixed_point nullable_goal_final nullable_goal_start). vm_refl. Defined.

(** ** The cache of suffix start sets, row by row *)

Lemma rmap_total {A B} (f : A → result B) (R : A → B → Prop) (l : list A) :
  Forall (λ x, ∃ y, f x = Ok y ∧ R x y) l →
  ∃ ys, rmap f l = Ok ys ∧ Forall2 R l ys.
Proof.
  induction 1 as [|x l (y & Hy & HR) _ (ys & Hys & Hall)]; simpl.
  - exists []. split; [done | constructor].
  - exists (y :: ys). rewrite Hy, Hys. split; [done | by constructor].
Qed.

Lemma seq_wf_decide (start : gmap nt_name (gset tok)) (seq : list symbol) :
  forallb (λ e, match e with
                | T _ | LA _ => true
                | Nt n => bool_decide (is_Some (start !! n))
                | Optional _ => false
                end) seq = true →
  seq_wf start seq.
Proof.
  intros Hall. apply Forall_forall. intros e He.
  rewrite forallb_forall in Hall. specialize (Hall e (proj1 (list_elem_of_In _ _) He)).
  destruct e; try done. by apply bool_decide_eq_true in Hall.
Qed.

Lemma suffix_start_loop_sets (debug : bool) (start : gmap nt_name (gset tok))
    (rhs todo post : list symbol) (sets sets' : list (gset tok)) :
  suffix_start_loop debug start rhs todo sets = Ok sets' →
  suffix_sets debug start post sets →
  suffix_sets debug start (reverse todo ++ post) sets'.
Proof.
  revert post sets. induction todo as [|e todo IH]; intros post sets; simpl.
  - by intros [= <-].
  - intros (previous & Hprev%of_option_Ok & (s & Hs & (_ & _ & Hloop)%rbind_Ok)%rbind_Ok)%rbind_Ok
      (Hlen & Hfirst & Hsteps).
    rewrite reverse_cons, <- app_assoc. apply (IH (e :: post) _ Hloop).
    rewrite last_lookup in Hprev. rewrite Hlen in Hprev. simpl in Hprev.
    split; [|split].
    + rewrite length_app. simpl. lia.
    + by apply lookup_app_l_Some.
    + intros j e'. rewrite reverse_cons. intros Hj.
      apply lookup_app_Some in Hj as [Hj|[Hge Hj]].
      * destruct (Hsteps j e' Hj) as (s' & previous' & ? & ? & ?).
        exists s', previous'. split; [by apply lookup_app_l_Some|].
        split; [by apply lookup_app_l_Some | done].
      * rewrite length_reverse in Hge, Hj.
        apply list_lookup_singleton_Some in Hj as [Hj ->].
        assert (j = length post) as -> by lia.
        exists s, previous. split; [|split; [by apply lookup_app_l_Some | done]].
        rewrite lookup_app_r by lia. rewrite Hlen, Nat.sub_diag. done.
Qed.

Lemma suffix_start_list_rows (debug : bool) (start : gmap nt_name (gset tok))
    (rhs : list symbol) (row : list (gset tok)) :
  suffix_start_list debug start rhs = Ok row →
  length row = S (length rhs)
  ∧ row !! length rhs = Some {[ EMPTY ]}
  ∧ ∀ i e, rhs !! i = Some e →
      ∃ s next, row !! i = Some s ∧ row !! S i = Some next
                ∧ suffix_start_of debug start e next = Ok s.
Proof.
  unfold suffix_start_list.
  intros (sets & Hloop & (_ & _ & [= <-])%rbind_Ok)%rbind_Ok.
  apply (suffix_start_loop_sets _ _ _ _ []) in Hloop as (Hlen & Hfirst & Hsteps).
  2:{ split; [done|]. split; [done|]. intros j e. by rewrite reverse_nil, lookup_nil. }
  rewrite app_nil_r, reverse_involutive in Hlen, Hsteps.
  split; [by rewrite length_reverse|]. split.
  - rewrite reverse_lookup by lia. rewrite Hlen.
    replace (S (length rhs) - S (length rhs)) with 0 by lia. done.
  - intros i e Hi. pose proof (lookup_lt_Some _ _ _ Hi) as Hlt.
    destruct (Hsteps (length rhs - S i) e) as (s & next & Hs & Hnext & Hof).
    { rewrite reverse_lookup by lia.
      replace (length rhs - S (length rhs - S i)) with i by lia. done. }
    exists s, next. rewrite !reverse_lookup by lia. rewrite Hlen.
    replace (S (length rhs) - S i) with (S (length rhs - S i)) by lia.
    replace (S (length rhs) - S (S i)) with (length rhs - S i) by lia. done.
Qed.

(** X17.  Whenever [make_start_set_cache] returns, the cache has one row per
    flat production; a row has one set more than the right-hand side has
    elements, ends in [{EMPTY}], and each other set of it is computed from
    the element at its position and the set after it. *)
Theorem make_start_set_cache_rows (debug : bool) (prods : list Prod)
    (start : gmap nt_name (gset tok)) (cache : list (list (gset tok))) :
  make_start_set_cache debug prods start = Ok cache →
  Forall2 (λ prod row,
      length row = S (length (prod_rhs prod))
      ∧ row !! length (prod_rhs prod) = Some {[ EMPTY ]}
      ∧ ∀ i e, prod_rhs prod !! i = Some e →
          ∃ s next, row !! i = Some s ∧ row !! S i = Some next
                    ∧ suffix_start_of debug start e next = Ok s)
    prods cache.
Proof.
  unfold make_start_set_cache. intros Hmap%rmap_Ok.
  eapply Forall2_impl; [exact Hmap|]. intros prod row. apply suffix_start_list_rows.
Qed.

Lemma make_start_set_cache_rows_witness :
  Forall2 (λ prod row,
      length row = S (length (prod_rhs prod))
      ∧ row !! length (prod_rhs prod) = Some {[ EMPTY ]}
      ∧ ∀ i e, prod_rhs prod !! i = Some e →
          ∃ s next, row !! i = Some s ∧ row !! S i = Some next
                    ∧ suffix_start_of false nullable_goal_start e next = Ok s)
    nullable_goal_prods nullable_goal_cache.
Proof.
  apply (make_start_set_cache_rows false nullable_goal_prods nullable_goal_start).
  vm_refl.
Defined.

Lemma suffix_start_list_marker_free (debug : bool) (start : gmap nt_name (gset tok))
    (rhs : list symbol) (row : list (gset tok)) :
  suffix_start_list debug start rhs = Ok row →
  marker_free start rhs →
  Forall (λ s, Tk "(empty)" ∉ s) row.
Proof.
  intros (Hlen & Hlast & Hrows)%suffix_start_list_rows Hfree.
  assert (Hback : ∀ k, k ≤ length rhs →
            ∀ s, row !! (length rhs - k) = Some s → Tk "(empty)" ∉ s).
  { induction k as [|k IH]; intros Hk s Hs.
    - rewrite Nat.sub_0_r, Hlast in Hs. injection Hs as <-. set_solver.
    - assert (is_Some (rhs !! (length rhs - S k))) as [e He].
      { apply lookup_lt_is_Some. lia. }
      destruct (Hrows _ _ He) as (s' & next & Hs' & Hnext & Hstep).
      rewrite Hs in Hs'. injection Hs' as <-.
      replace (S (length rhs - S k)) with (length rhs - k) in Hnext by lia.
      specialize (IH ltac:(lia) next Hnext).
      unfold marker_free in Hfree. rewrite Forall_forall in Hfree.
      specialize (Hfree e (list_elem_of_lookup_2 _ _ _ He)).
      destruct e as [t|n|inner|rule]; simpl in Hstep.
      + injection Hstep as <-. set_solver.
      + apply rbind_Ok in Hstep as (s0 & Hs0%of_option_Ok & [= <-]).
        rewrite Hs0 in Hfree. simpl in Hfree.
        destruct (decide (EMPTY ∈ s0)); set_solver.
      + by destruct debug.
      + injection Hstep as <-. unfold restrict.
        destruct (la_positive rule); set_solver. }
  apply Forall_forall. intros s [i Hi]%list_elem_of_lookup.
  apply (Hback (length rhs - i)).
  - lia.
  - apply lookup_lt_Some in Hi as Hlt.
    replace (length rhs - (length rhs - i)) with i by lia. done.
Qed.

(** X16.  On flat productions whose right-hand sides hold terminals,
    nonterminals with a start set and lookahead rules, none of these right
    after a nonterminal whose start set has [EMPTY], and where no terminal,
    start set or lookahead rule uses the spelling ["(empty)"] of the marker,
    [make_start_set_cache] returns, with its assertions switched on or off,
    and [cache[n][i] == seq_start(grammar, start, prods[n].rhs[i:])], as its
    documentation says; no set of the cache holds a terminal spelled like
    the marker. *)
Theorem make_start_set_cache_agrees (debug : bool) (prods : list Prod)
    (start : gmap nt_name (gset tok)) :
  Forall (λ prod, seq_wf start (prod_rhs prod)
                  ∧ lookahead_guarded start (prod_rhs prod)
                  ∧ marker_free start (prod_rhs prod)) prods →
  ∃ cache,
    make_start_set_cache debug prods start = Ok cache
    ∧ Forall2 (λ prod row,
         length row = S (length (prod_rhs prod))
         ∧ ∀ i, i ≤ length (prod_rhs prod) →
             ∃ s, row !! i = Some s
                  ∧ seq_start start (drop i (prod_rhs prod)) = Ok s
                  ∧ Tk "(empty)" ∉ s)
        prods cache.
Proof.
  intros Hall. unfold make_start_set_cache. apply rmap_total.
  eapply Forall_impl; [exact Hall|]. intros prod (Hwf & Hguard & Hfree).
  destruct (suffix_start_list_guarded debug start (prod_rhs prod) Hwf Hguard)
    as (row & Hrow & Hlen & Hrows).
  exists row. split; [done|]. split; [done|]. intros i Hi.
  destruct (Hrows i Hi) as (s & Hs & Hseq). exists s. split; [done|]. split; [done|].
  pose proof (suffix_start_list_marker_free _ _ _ _ Hrow Hfree) as Hmark.
  rewrite Forall_forall in Hmark. by apply Hmark, list_elem_of_lookup_2 with i.
Qed.

Lemma marker_free_decide (start : gmap nt_name (gset tok)) (seq : list symbol) :
  forallb (λ e, match e with
                | T t => bool_decide (t ≠ "(empty)")
                | Nt n => bool_decide (Tk "(empty)" ∉ default ∅ (start !! n))
                | LA rule => bool_decide (Tk "(empty)" ∉ la_set rule)
                | Optional _ => true
                end) seq = true →
  marker_free start seq.
Proof.
  intros Hall. apply Forall_forall. intros e He.
  rewrite forallb_forall in Hall. specialize (Hall e (proj1 (list_elem_of_In _ _) He)).
  destruct e; try done; by apply bool_decide_eq_true in Hall.
Qed.

Lemma make_start_set_cache_agrees_witness :
  ∃ cache,
    make_start_set_cache true arith_prods arith_start = Ok cache
    ∧ Forall2 (λ prod row,
         length row = S (length (prod_rhs prod))
         ∧ ∀ i, i ≤ length (prod_rhs prod) →
             ∃ s, row !! i = Some s
                  ∧ seq_start arith_start (drop i (prod_rhs prod)) = Ok s
                  ∧ Tk "(empty)" ∉ s)
        arith_prods cache.
Proof.
  apply (make_start_set_cache_agrees true arith_prods arith_start).
  repeat (apply Forall_cons; split;
            [split; [apply seq_wf_decide; vm_compute; reflexivity
                    |split; [simpl; tauto
                            |apply marker_free_decide; vm_compute; reflexivity]]|]).
  apply Forall_nil. exact I.
Defined.

(** ** Follow sets *)

Lemma rfoldl_prefix_invariant {A S} (f : S → A → result S) (P : list A → S → Prop)
    (st : S) (l : list A) (st' : S) :
  rfoldl f st l = Ok st' →
  P [] st →
  (∀ pre x s s', P pre s → f s x = Ok s' → P (pre ++ [x]) s') →
  P l st'.
Proof.
  intros Hfold Hinit Hstep.
  assert (∀ pre s, P pre s → rfoldl f s l = Ok st' → P (pre ++ l) st') as H.
  { clear st Hfold Hinit. induction l as [|x l IH]; intros pre s Hpre Hfold.
    - simpl in Hfold. injection Hfold as <-. by rewrite app_nil_r.
    - simpl in Hfold. apply rbind_Ok in Hfold as (s1 & Hx & Hrest).
      rewrite (cons_middle x pre l), app_assoc.
      apply (IH _ s1); [by eapply Hstep | done]. }
  by apply (H [] st).
Qed.

Lemma follow_of_insert (follow : gmap nt_name (gset tok)) (k n : nt_name) (v : gset tok) :
  follow_of (<[k := v]> follow) n = if decide (n = k) then v else follow_of follow n.
Proof.
  unfold follow_of. destruct (decide (n = k)) as [->|].
  - by rewrite lookup_insert_eq.
  - by rewrite lookup_insert_ne.
Qed.

Lemma follow_le_refl (st : follow_state) : follow_le st st.
Proof. by repeat split. Qed.

Lemma follow_le_trans (st1 st2 st3 : follow_state) :
  follow_le st1 st2 → follow_le st2 st3 → follow_le st1 st3.
Proof.
  intros (? & Hf & ?) (? & Hf' & ?). split; [set_solver|]. split; [|auto].
  intros n. etrans; [apply Hf | apply Hf'].
Qed.

Lemma occurrence_done_mono (cache : list (list (gset tok))) (st st' : follow_state)
    (nt : nt_name) (k i : nat) (X : nt_name) :
  follow_le st st' →
  occurrence_done cache st nt k i X → occurrence_done cache st' nt k i X.
Proof.
  intros (Hv & Hf & Hr) (HX & row & after & Hrow & Hafter & Hsub & Hrel).
  split; [by apply Hv|]. exists row, after. split; [done|]. split; [done|].
  split; [|by auto]. etrans; [exact Hsub | apply Hf].
Qed.

Lemma nt_done_mono (by_nt : by_nt_dict) (cache : list (list (gset tok)))
    (st st' : follow_state) (nt : nt_name) :
  follow_le st st' → nt_done by_nt cache st nt → nt_done by_nt cache st' nt.
Proof.
  intros Hle Hdone k rhs i X Hk Hi. eapply occurrence_done_mono; [done|]. by eapply Hdone.
Qed.

Lemma walk_progress_refl (by_nt : by_nt_dict) (cache : list (list (gset tok)))
    (st : follow_state) :
  walk_progress by_nt cache st st.
Proof. split; [apply follow_le_refl|]. by split. Qed.

Lemma walk_progress_trans (by_nt : by_nt_dict) (cache : list (list (gset tok)))
    (st1 st2 st3 : follow_state) :
  walk_progress by_nt cache st1 st2 → walk_progress by_nt cache st2 st3 →
  walk_progress by_nt cache st1 st3.
Proof.
  intros (Hle & Hnew & Hne) (Hle' & Hnew' & Hne').
  split; [by eapply follow_le_trans|]. split; [|auto].
  intros n Hn Hnot. destruct (decide (n ∈ visited st2)).
  - eapply nt_done_mono; [exact Hle'|]. by apply Hnew.
  - by apply Hnew'.
Qed.

(** The update of [follow] and [subsumes_relation] for one occurrence. *)
Lemma occurrence_step (by_nt : by_nt_dict) (cache : list (list (gset tok)))
    (st : follow_state) (nt symbol : nt_name) (k i : nat)
    (row : list (gset tok)) (after : gset tok) :
  symbol ∈ visited st →
  cache !! k = Some row → row !! S i = Some after →
  let '(after', relation) :=
    if decide (EMPTY ∈ after)
    then (after ∖ {[ EMPTY ]}, ordered_add (subsumes_relation st) (symbol, nt))
    else (after, subsumes_relation st) in
  let st' := mkFollowState (visited st)
               (<[symbol := follow_of (follow st) symbol ∪ after']> (follow st))
               relation in
  walk_progress by_nt cache st st' ∧ occurrence_done cache st' nt k i symbol.
Proof.
  intros Hvisited Hrow Hafter.
  destruct (decide (EMPTY ∈ after)) as [Hempty|Hempty]; cbn zeta.
  - assert (follow_le st
      (mkFollowState (visited st)
         (<[symbol := follow_of (follow st) symbol ∪ after ∖ {[EMPTY]}]> (follow st))
         (ordered_add (subsumes_relation st) (symbol, nt)))) as Hle.
    { split; [done|]. split; cbn.
      - intros n. rewrite follow_of_insert. destruct (decide (n = symbol)) as [->|];
          set_solver.
      - intros x Hx. unfold ordered_add. destruct (decide _); [done|].
        apply elem_of_app. by left. }
    split; [split; [done|]; split|].
    + cbn. intros n Hn Hnot. done.
    + cbn. intros Hne n. rewrite follow_of_insert.
      destruct (decide (n = symbol)) as [->|]; [|apply Hne].
      specialize (Hne symbol). set_solver.
    + split; [done|]. exists row, after. split; [done|]. split; [done|]. cbn. split.
      * rewrite follow_of_insert, decide_True by done. set_solver.
      * intros _. unfold ordered_add. destruct (decide _); [done|].
        apply elem_of_app. right. by left.
  - assert (follow_le st
      (mkFollowState (visited st)
         (<[symbol := follow_of (follow st) symbol ∪ after]> (follow st))
         (subsumes_relation st))) as Hle.
    { split; [done|]. split; cbn; [|done].
      intros n. rewrite follow_of_insert. destruct (decide (n = symbol)) as [->|];
        set_solver. }
    split; [split; [done|]; split|].
    + cbn. intros n Hn Hnot. done.
    + cbn. intros Hne n. rewrite follow_of_insert.
      destruct (decide (n = symbol)) as [->|]; [|apply Hne].
      specialize (Hne symbol). set_solver.
    + split; [done|]. exists row, after. split; [done|]. split; [done|]. cbn. split.
      * rewrite follow_of_insert, decide_True by done. set_solver.
      * done.
Qed.

Lemma visit_progress (fuel : nat) (by_nt : by_nt_dict) (cache : list (list (gset tok)))
    (nt : nt_name) (st st' : follow_state) :
  visit fuel by_nt cache nt st = Ok st' →
  walk_progress by_nt cache st st' ∧ nt ∈ visited st'.
Proof.
  revert nt st st'. induction fuel as [|fuel IH]; intros nt st st'; simpl; [done|].
  destruct (decide (nt ∈ visited st)) as [Hin|Hnot].
  { intros [= <-]. split; [apply walk_progress_refl | done]. }
  set (st0 := mkFollowState ({[nt]} ∪ visited st) (follow st) (subsumes_relation st)).
  intros Hfold.
  apply (rfoldl_prefix_invariant _
    (λ pre s, walk_progress by_nt cache st0 s
              ∧ ∀ x i X, x ∈ pre → x.2 !! i = Some (Nt X) →
                  occurrence_done cache s nt x.1 i X)) in Hfold.
  - destruct Hfold as [(Hle & Hnew & Hne) Hocc].
    assert (follow_le st st0) as Hle0.
    { split; [cbn; set_solver|]. by split. }
    split; [|apply Hle; cbn; set_solver].
    split; [by eapply follow_le_trans|]. split; [|exact Hne].
    intros n Hn Hn'. destruct (decide (n = nt)) as [->|Hne'].
    + intros k rhs i X Hk Hi. by apply (Hocc (k, rhs) i X).
    + apply Hnew; [done|]. cbn. set_solver.
  - split; [apply walk_progress_refl|]. by intros ??? ?%elem_of_nil.
  - intros pre [k rhs] s s' [Hprog Hocc] Hinner. cbn [fst snd] in Hinner.
    apply (rfoldl_prefix_invariant _
      (λ pre' s'', walk_progress by_nt cache s s''
                   ∧ ∀ y X, y ∈ pre' → y.2 = Nt X →
                       occurrence_done cache s'' nt k y.1 X)) in Hinner.
    + destruct Hinner as [Hprog' Hocc']. split; [by eapply walk_progress_trans|].
      intros x i X [Hx|Hx%list_elem_of_singleton]%elem_of_app Hi.
      * eapply occurrence_done_mono; [apply Hprog'|]. by apply Hocc.
      * subst x. cbn [fst snd] in *. apply (Hocc' (i, Nt X)); [|done].
        apply list_elem_of_lookup. exists i. by rewrite list_lookup_imap, Hi.
    + split; [apply walk_progress_refl|]. by intros ?? ?%elem_of_nil.
    + intros pre' [i e] s1 s2 [Hprog1 Hocc1] Hstep. cbn [fst snd] in Hstep.
      destruct e as [t|symbol|inner|rule];
        try (injection Hstep as <-; split; [done|];
             intros y X [Hy|Hy%list_elem_of_singleton]%elem_of_app HX;
             [by apply Hocc1 | by subst y]).
      apply rbind_Ok in Hstep as (s1' & Hvisit & Hstep).
      apply rbind_Ok in Hstep as (row & Hrow%of_option_Ok & Hstep).
      apply rbind_Ok in Hstep as (after & Hafter%of_option_Ok & Hstep).
      apply IH in Hvisit as [Hprog1' Hsymbol].
      pose proof (occurrence_step by_nt cache s1' nt symbol k i row after
                    Hsymbol Hrow Hafter) as Hocc2.
      destruct (decide (EMPTY ∈ after)); cbn zeta in Hocc2, Hstep;
        injection Hstep as <-; destruct Hocc2 as [Hprog2 Hdone].
      all: assert (walk_progress by_nt cache s1 _) as Hprog12
             by (eapply walk_progress_trans; [exact Hprog1' | exact Hprog2]).
      all: split; [by eapply walk_progress_trans|].
      all: intros y X [Hy|Hy%list_elem_of_singleton]%elem_of_app HX;
             [eapply occurrence_done_mono; [apply Hprog12 | by apply Hocc1]|].
      all: subst y; cbn [fst snd] in *; by injection HX as <-.
Qed.

Lemma subsume_round_grows (relation : list (nt_name * nt_name))
    (follow follow' : gmap nt_name (gset tok)) (done done' : bool) :
  subsume_round relation follow done = (follow', done') →
  (∀ n, follow_of follow n ⊆ follow_of follow' n)
  ∧ (no_empty follow → no_empty follow')
  ∧ (done = false → done' = false).
Proof.
  revert follow done. induction relation as [|[target source] relation IH];
    intros follow done; simpl.
  - intros [= <- <-]. by repeat split.
  - destruct (decide (follow_of follow source ∖ follow_of follow target ≠ ∅)) as [Hd|Hd].
    + intros (Hle & Hne & Hdone)%IH. split; [|split; [|by intros _; apply Hdone]].
      * intros n. etrans; [|apply Hle]. rewrite follow_of_insert.
        destruct (decide (n = target)) as [->|]; set_solver.
      * intros Hne'. apply Hne. intros n. rewrite follow_of_insert.
        destruct (decide (n = target)) as [->|]; [|apply Hne'].
        pose proof (Hne' target). pose proof (Hne' source). set_solver.
    + apply IH.
Qed.

Lemma subsume_round_done (relation : list (nt_name * nt_name))
    (follow follow' : gmap nt_name (gset tok)) :
  subsume_round relation follow true = (follow', true) →
  follow' = follow
  ∧ ∀ target source, (target, source) ∈ relation →
      follow_of follow source ⊆ follow_of follow target.
Proof.
  induction relation as [|[target source] relation IH]; simpl.
  - intros [= <-]. split; [done|]. by intros ?? ?%elem_of_nil.
  - destruct (decide (follow_of follow source ∖ follow_of follow target ≠ ∅)) as [|Heq].
    + intros (_ & _ & Hdone)%subsume_round_grows. by specialize (Hdone eq_refl).
    + intros [-> Hall]%IH. split; [done|].
      intros t s [[= -> ->]|?]%elem_of_cons; [|by apply Hall].
      apply dec_stable in Heq. set_solver.
Qed.

Lemma subsume_loop_Ok (fuel : nat) (relation : list (nt_name * nt_name))
    (follow follow' : gmap nt_name (gset tok)) :
  subsume_loop fuel relation follow = Ok follow' →
  (∀ n, follow_of follow n ⊆ follow_of follow' n)
  ∧ (no_empty follow → no_empty follow')
  ∧ ∀ target source, (target, source) ∈ relation →
      follow_of follow' source ⊆ follow_of follow' target.
Proof.
  revert follow. induction fuel as [|fuel IH]; intros follow; simpl; [done|].
  destruct (subsume_round relation follow true) as [follow1 [|]] eqn:Hround.
  - intros [= <-]. by destruct (subsume_round_done _ _ _ Hround) as [-> Hall].
  - intros (Hle & Hne & Hall)%IH.
    destruct (subsume_round_grows _ _ _ _ _ Hround) as (Hle1 & Hne1 & _).
    split; [|split; [by auto | done]]. intros n. etrans; [apply Hle1 | apply Hle].
Qed.

Lemma follow_seeded (inits : list nt_name) (follow : gmap nt_name (gset tok)) :
  let seeded :=
    foldl (λ follow init_nt, <[init_nt := follow_of follow init_nt ∪ {[ END ]}]> follow)
          follow inits in
  (∀ n, follow_of follow n ⊆ follow_of seeded n)
  ∧ (∀ init, init ∈ inits → END ∈ follow_of seeded init)
  ∧ (no_empty follow → no_empty seeded).
Proof.
  revert follow. induction inits as [|init inits IH]; intros follow; simpl.
  - split; [done|]. split; [by intros ? ?%elem_of_nil | done].
  - destruct (IH (<[init := follow_of follow init ∪ {[END]}]> follow))
      as (Hle & Hend & Hne).
    split; [|split].
    + intros n. etrans; [|apply Hle]. rewrite follow_of_insert.
      destruct (decide (n = init)) as [->|]; set_solver.
    + intros i [->|?]%elem_of_cons; [|by apply Hend].
      apply Hle. rewrite follow_of_insert, decide_True by done. set_solver.
    + intros Hne'. apply Hne. intros n. rewrite follow_of_insert.
      destruct (decide (n = init)) as [->|]; [|apply Hne'].
      specialize (Hne' init). set_solver.
Qed.

(** X18.  In the follow sets that [follow_sets] returns, [END] is in the set
    of every initial nonterminal and [EMPTY] is in no set; and the sets are
    closed at every nonterminal reached from an initial nonterminal: for a
    nonterminal [X] at a position [i] of one of its right-hand sides, the
    follow set of [X] holds [start_set_cache[prod_index][i + 1]] without
    [EMPTY], and the whole follow set of the nonterminal when that set has
    [EMPTY]. *)
Theorem follow_sets_spec (grammar : Grammar) (by_nt : by_nt_dict)
    (start_set_cache : list (list (gset tok))) (final : gmap nt_name (gset tok)) :
  follow_sets grammar by_nt start_set_cache = Ok final →
  (∀ init, init ∈ init_nts grammar → END ∈ follow_of final init)
  ∧ (∀ nt, EMPTY ∉ follow_of final nt)
  ∧ ∀ init nt, init ∈ init_nts grammar → rtc (occurs_in by_nt) init nt →
      follow_closed by_nt start_set_cache final nt.
Proof.
  rename start_set_cache into cache.
  unfold follow_sets. intros (st & Hwalk & Hloop)%rbind_Ok.
  destruct (follow_seeded (init_nts grammar) ∅) as (_ & Hend & Hne).
  set (seeded := foldl _ ∅ (init_nts grammar)) in *.
  assert (no_empty seeded) as Hne0.
  { apply Hne. intros n. unfold follow_of. rewrite lookup_empty. set_solver. }
  apply (rfoldl_prefix_invariant _
    (λ pre s, follow_le (mkFollowState ∅ seeded []) s
              ∧ (∀ n, n ∈ visited s → nt_done by_nt cache s n)
              ∧ no_empty (follow s)
              ∧ ∀ init, init ∈ pre → init ∈ visited s)) in Hwalk.
  - destruct Hwalk as ((_ & Hle & _) & Hdone & Hne1 & Hinits). cbn in Hle.
    apply subsume_loop_Ok in Hloop as (Hle2 & Hne2 & Hrel).
    split; [|split; [exact (Hne2 Hne1)|]].
    + intros init Hinit. by apply Hle2, Hle, Hend.
    + intros init nt Hinit Hreach.
      assert (nt ∈ visited st) as Hnt.
      { revert nt Hreach. apply rtc_ind_r; [by apply Hinits|].
        intros b c _ (k & rhs & Hk & [i Hi]%list_elem_of_lookup) IHr.
        by destruct (Hdone b IHr k rhs i c Hk Hi). }
      intros k rhs i X Hk Hi.
      destruct (Hdone nt Hnt k rhs i X Hk Hi) as (_ & row & after & ? & ? & Hsub & Hemp).
      exists row, after. split; [done|]. split; [done|]. split.
      * etrans; [exact Hsub | apply Hle2].
      * intros Hin. by apply Hrel, Hemp.
  - split; [apply follow_le_refl|]. split; [by intros n ?%elem_of_empty|].
    split; [done|]. by intros ? ?%elem_of_nil.
  - intros pre init s s' (Hle & Hdone & Hne1 & Hinits) Hvisit.
    apply visit_progress in Hvisit as [(Hle' & Hnew & Hne') Hinit].
    split; [by eapply follow_le_trans|]. split; [|split; [by auto|]].
    + intros n Hn. destruct (decide (n ∈ visited s)) as [Hd|Hd].
      * eapply nt_done_mono; [exact Hle'|]. by apply Hdone.
      * by apply Hnew.
    + intros i [Hi|Hi%list_elem_of_singleton]%elem_of_app; [|by subst i].
      apply Hle'. by apply Hinits.
Qed.

Lemma follow_sets_spec_witness :
  (∀ init, init ∈ init_nts arith_grammar → END ∈ follow_of arith_follow init)
  ∧ (∀ nt, EMPTY ∉ follow_of arith_follow nt)
  ∧ ∀ init nt, init ∈ init_nts arith_grammar → rtc (occurs_in arith_by_nt) init nt →
      follow_closed arith_by_nt arith_cache arith_follow nt.
Proof.
  apply (follow_sets_spec arith_grammar arith_by_nt arith_cache arith_follow).
  vm_refl.
Defined.

(** ** The path algorithm *)

Lemma dict_set_new {K V} `{EqDecision K} (d : list (K * V)) (k : K) (v : V) :
  dict_get d k = None → dict_set d k v = d ++ [(k, v)].
Proof.
  induction d as [|[k' v'] d IH]; simpl; [done|].
  destruct (decide (k = k')); [done|]. intros ?%IH. by f_equal.
Qed.

Lemma dict_get_app {K V} `{EqDecision K} (d d' : list (K * V)) (k : K) :
  dict_get (d ++ d') k = match dict_get d k with
                         | Some v => Some v
                         | None => dict_get d' k
                         end.
Proof.
  induction d as [|[k' v'] d IH]; simpl; [done|].
  by destruct (decide (k = k')).
Qed.

Section find_path_properties.

Context {P E : Type} `{EqDecision P}.
Context (successors : P → list (E * P)) (test : P → bool).

Lemma is_Some_dict_set (links : list (P * option (P * E))) (k p : P) (v : option (P * E)) :
  is_Some (dict_get (dict_set links k v) p) ↔ p = k ∨ is_Some (dict_get links p).
Proof.
  rewrite dict_get_set. destruct (decide (p = k)) as [->|].
  - split; [by left | by eexists].
  - split; [by right | by intros [|]].
Qed.

Lemma links_ok_parent (start_set : list P) (links : list (P * option (P * E))) (b a : P) (e : E) :
  links_ok successors start_set links →
  dict_get links b = Some (Some (a, e)) →
  is_Some (dict_get links a) ∧ (e, b) ∈ successors a.
Proof.
  induction 1 as [|links b0 Hok IH Hnew Hstart|links b0 a0 e0 Hok IH Hnew Ha0 Hedge];
    [done| |]; rewrite dict_get_app.
  - destruct (dict_get links b) as [v|] eqn:Hb.
    + intros [= ->]. destruct (IH eq_refl) as [[w Hw] ?]. split; [|done].
      rewrite dict_get_app, Hw. by eexists.
    + simpl. by destruct (decide (b = b0)).
  - destruct (dict_get links b) as [v|] eqn:Hb.
    + intros [= ->]. destruct (IH eq_refl) as [[w Hw] ?]. split; [|done].
      rewrite dict_get_app, Hw. by eexists.
    + simpl. destruct (decide (b = b0)) as [->|]; [|done]. intros [= -> ->].
      split; [|done]. destruct Ha0 as [w Hw]. rewrite dict_get_app, Hw. by eexists.
Qed.

Lemma links_ok_root_start (start_set : list P) (links : list (P * option (P * E))) (b : P) :
  links_ok successors start_set links →
  dict_get links b = Some None → b ∈ start_set.
Proof.
  induction 1 as [|links b0 Hok IH Hnew Hstart|links b0 a0 e0 Hok IH Hnew Ha0 Hedge];
    [done| |]; rewrite dict_get_app.
  - destruct (dict_get links b) as [v|] eqn:Hb; [by intros [= ->]; apply IH|].
    simpl. by destruct (decide (b = b0)) as [->|].
  - destruct (dict_get links b) as [v|] eqn:Hb; [by intros [= ->]; apply IH|].
    simpl. by destruct (decide (b = b0)) as [->|].
Qed.

Lemma seed_loop_inl (start_set : list P) (links : list (P * option (P * E))) (todo : list P) (p : P) :
  seed_loop test start_set links todo = inl p → p ∈ start_set ∧ test p = true.
Proof.
  revert links todo. induction start_set as [|q rest IH]; intros links todo; simpl; [done|].
  destruct (dict_get links q).
  - intros [? ?]%IH. split; [by right | done].
  - destruct (test q) eqn:Hq.
    + intros [= <-]. split; [by left | done].
    + intros [? ?]%IH. split; [by right | done].
Qed.

Lemma seed_loop_links_ok (all start_set : list P) (links links' : list (P * option (P * E)))
    (todo todo' : list P) :
  seed_loop test start_set links todo = inr (links', todo') →
  (∀ p, p ∈ start_set → p ∈ all) →
  links_ok successors all links → links_ok successors all links'.
Proof.
  revert links todo. induction start_set as [|q rest IH]; intros links todo; simpl.
  - by intros [= <- _].
  - intros Hloop Hsub Hok. destruct (dict_get links q) eqn:Hq.
    + eapply IH; [done| |done]. intros p Hp. apply Hsub. by right.
    + destruct (test q); [done|]. eapply IH; [done| |].
      * intros p Hp. apply Hsub. by right.
      * rewrite dict_set_new by done. apply links_ok_root; [done..|]. apply Hsub. by left.
Qed.

Lemma scan_successors_links_ok (all : list P) (a : P) (succ : list (E * P))
    (links : list (P * option (P * E))) (todo : list P) :
  links_ok successors all links →
  is_Some (dict_get links a) →
  (∀ x, x ∈ succ → x ∈ successors a) →
  match scan_successors test a succ links todo with
  | inl (b, links') =>
      links_ok successors all links' ∧ is_Some (dict_get links' b) ∧ test b = true
  | inr (links', todo') =>
      links_ok successors all links'
      ∧ (∀ p, is_Some (dict_get links p) → is_Some (dict_get links' p))
      ∧ (∀ p, p ∈ todo' → p ∈ todo ∨ is_Some (dict_get links' p))
  end.
Proof.
  revert links todo. induction succ as [|[edge b] rest IH]; intros links todo Hok Ha Hsub;
    simpl.
  - split; [done|]. split; [done|]. by left.
  - assert (∀ x, x ∈ rest → x ∈ successors a) as Hsub'.
    { intros x Hx. apply Hsub. by right. }
    destruct (dict_get links b) eqn:Hb; [by apply IH|].
    assert (links_ok successors all (dict_set links b (Some (a, edge)))) as Hok'.
    { rewrite dict_set_new by done. apply links_ok_link; [done..|]. apply Hsub. by left. }
    destruct (test b) eqn:Htest.
    + split; [done|]. split; [|done]. apply is_Some_dict_set. by left.
    + specialize (IH (dict_set links b (Some (a, edge))) (todo ++ [b]) Hok').
      destruct (scan_successors test a rest _ _) as [[b' links']|[links' todo']].
      * apply IH; [|done]. apply is_Some_dict_set. by right.
      * destruct IH as (Hok'' & Hmono & Htodo); [apply is_Some_dict_set; by right|done|].
        split; [done|]. split.
        -- intros p Hp. apply Hmono, is_Some_dict_set. by right.
        -- intros p [[Hp|Hp%list_elem_of_singleton]%elem_of_app|Hp]%Htodo; [by left| |by right].
           subst p. right. apply Hmono, is_Some_dict_set. by left.
Qed.

Lemma search_loop_found (all : list P) (fuel : nat) (links links' : list (P * option (P * E)))
    (todo : list P) (b : P) :
  search_loop successors test fuel links todo = Ok (Some (b, links')) →
  links_ok successors all links →
  (∀ p, p ∈ todo → is_Some (dict_get links p)) →
  links_ok successors all links' ∧ is_Some (dict_get links' b) ∧ test b = true.
Proof.
  revert links todo. induction fuel as [|fuel IH]; intros links [|a todo]; simpl;
    try done.
  intros Hloop Hok Htodo.
  pose proof (scan_successors_links_ok all a (successors a) links todo Hok
                (Htodo a ltac:(by left)) ltac:(done)) as Hscan.
  destruct (scan_successors test a (successors a) links todo)
    as [[b' links1]|[links1 todo1]].
  - by injection Hloop as -> ->.
  - destruct Hscan as (Hok1 & Hmono & Htodo1). eapply IH; [done..|].
    intros p [Hp|Hp]%Htodo1; [|done]. apply Hmono, Htodo. by right.
Qed.

Lemma trace_back_app (all : list P) (fuel : nat) (links more : list (P * option (P * E))) (b : P)
    (path : list (path_elem P E)) :
  links_ok successors all links →
  is_Some (dict_get links b) →
  trace_back fuel (links ++ more) b path = trace_back fuel links b path.
Proof.
  intros Hok. revert b path. induction fuel as [|fuel IH]; intros b path [v Hb]; simpl;
    rewrite dict_get_app, Hb; [done|].
  destruct v as [[a e]|]; [|done]. apply IH.
  by destruct (links_ok_parent _ _ _ _ _ Hok Hb).
Qed.

Lemma trace_back_ok (all : list P) (links : list (P * option (P * E))) :
  links_ok successors all links →
  ∀ fuel b path,
    is_Some (dict_get links b) → length links ≤ fuel →
    ∃ steps root,
      trace_back fuel links b path = Ok (path ++ steps)
      ∧ back_path successors b steps root ∧ root ∈ all.
Proof.
  induction 1 as [|links b0 Hok IH Hnew Hstart|links b0 a0 e0 Hok IH Hnew Ha0 Hedge];
    intros fuel b path [v Hb] Hfuel; [done| |];
    rewrite length_app in Hfuel; simpl in Hfuel; rewrite dict_get_app in Hb.
  - destruct (dict_get links b) as [w|] eqn:Hw.
    + rewrite (trace_back_app all) by (done || by eexists).
      apply IH; [by eexists | lia].
    + simpl in Hb. destruct (decide (b = b0)) as [->|]; [|done].
      exists [], b0. split; [|split; [constructor | done]].
      destruct fuel; simpl; rewrite dict_get_app, Hnew; simpl;
        rewrite decide_True by done; by rewrite app_nil_r.
  - destruct (dict_get links b) as [w|] eqn:Hw.
    + rewrite (trace_back_app all) by (done || by eexists).
      apply IH; [by eexists | lia].
    + simpl in Hb. destruct (decide (b = b0)) as [->|]; [|done].
      destruct fuel as [|fuel]; [lia|]. simpl. rewrite dict_get_app, Hnew. simpl.
      rewrite decide_True by done.
      rewrite (trace_back_app all) by done.
      destruct (IH fuel a0 (path ++ [Edge e0; Point a0]) Ha0 ltac:(lia))
        as (steps & root & Htrace & Hback & Hroot).
      exists (Edge e0 :: Point a0 :: steps), root. split; [|split; [|done]].
      * rewrite Htrace. by rewrite <- app_assoc.
      * by constructor.
Qed.

Lemma is_path_snoc (a z z' : P) (e : E) (path : list (path_elem P E)) :
  is_path successors a path z → (e, z') ∈ successors z →
  is_path successors a (path ++ [Edge e; Point z']) z'.
Proof.
  induction 1 as [p|a e0 b rest z Hedge Hrest IH]; intros Hz; simpl.
  - eapply is_path_step; [done | constructor].
  - eapply is_path_step; [done | by apply IH].
Qed.

Lemma back_path_is_path (b root : P) (steps : list (path_elem P E)) :
  back_path successors b steps root →
  is_path successors root (reverse (Point b :: steps)) b.
Proof.
  induction 1 as [b|b e a steps root Hedge Hback IH].
  - constructor.
  - rewrite !reverse_cons. rewrite !reverse_cons in IH.
    rewrite <- app_assoc. simpl. by eapply is_path_snoc.
Qed.

(** X19.  A path returned by [find_path] is one: it starts at a point of
    [start_set], each edge in it leads from the point before it to the
    point after it as [successors] says, and its last point passes
    [test]. *)
Theorem find_path_sound (fuel : nat) (start_set : list P)
    (path : list (path_elem P E)) :
  find_path successors test fuel start_set = Ok (Some path) →
  ∃ a z, a ∈ start_set ∧ is_path successors a path z ∧ test z = true.
Proof.
  unfold find_path.
  destruct (seed_loop test start_set [] []) as [p|[links todo]] eqn:Hseed.
  - intros [= <-]. apply seed_loop_inl in Hseed as [Hp Htest].
    exists p, p. split; [done|]. split; [constructor | done].
  - intros ([[b links']|] & Hsearch & Hpath)%rbind_Ok; [|done].
    apply rbind_Ok in Hpath as (steps' & Htrace & [= <-]).
    pose proof (seed_loop_links_ok start_set _ _ _ _ _ Hseed ltac:(done)
                  (links_ok_nil successors start_set)) as Hok.
    assert (∀ p, p ∈ todo → is_Some (dict_get links p)) as Htodo.
    { clear -Hseed. assert (∀ p, p ∈ [] → is_Some (dict_get ([] : list (P * option (P * E))) p)) as H0
        by (by intros ? ?%elem_of_nil).
      revert Hseed H0. generalize ([] : list (P * option (P * E))) ([] : list P).
      induction start_set as [|q rest IH]; intros l t; simpl.
      - by intros [= <- <-].
      - destruct (dict_get l q) eqn:Hq; [apply IH|].
        destruct (test q); [done|]. intros Hloop Ht. eapply IH; [done|].
        intros p [Hp|Hp%list_elem_of_singleton]%elem_of_app; apply is_Some_dict_set;
          [right; by apply Ht | by left]. }
    destruct (search_loop_found start_set _ _ _ _ _ Hsearch Hok Htodo)
      as (Hok' & Hb & Htest).
    destruct (trace_back_ok start_set links' Hok' (length links') b [Point b] Hb
                ltac:(done)) as (steps & root & Htrace' & Hback & Hroot).
    rewrite Htrace' in Htrace. injection Htrace as <-.
    exists root, b. split; [done|]. split; [|done].
    by apply back_path_is_path.
Qed.

Lemma seed_loop_search_ok (start_set : list P) (links links' : list (P * option (P * E)))
    (todo todo' : list P) :
  seed_loop test start_set links todo = inr (links', todo') →
  (∀ p, is_Some (dict_get links p) ↔ p ∈ todo) →
  (∀ p, p ∈ todo → test p = false) →
  (∀ p, is_Some (dict_get links' p) ↔ p ∈ todo')
  ∧ (∀ p, p ∈ todo' → test p = false)
  ∧ (∀ p, p ∈ start_set → p ∈ todo')
  ∧ (∀ p, p ∈ todo → p ∈ todo').
Proof.
  clear successors.
  revert links todo. induction start_set as [|q rest IH]; intros links todo; simpl.
  - intros [= <- <-] Hbound Htest. split; [done|]. split; [done|].
    split; [by intros ? ?%elem_of_nil | done].
  - intros Hloop Hbound Htest. destruct (dict_get links q) eqn:Hq.
    + destruct (IH _ _ Hloop Hbound Htest) as (Hb & Ht & Hs & Hm).
      split; [done|]. split; [done|]. split; [|done].
      intros p [->|Hp]%elem_of_cons; [|by apply Hs].
      apply Hm, Hbound. by eexists.
    + destruct (test q) eqn:Htq; [done|].
      destruct (IH _ _ Hloop) as (Hb & Ht & Hs & Hm).
      * intros p. rewrite is_Some_dict_set, elem_of_app, list_elem_of_singleton, Hbound.
        tauto.
      * intros p [Hp|Hp%list_elem_of_singleton]%elem_of_app; [by apply Htest | by subst].
      * split; [done|]. split; [done|]. split.
        -- intros p [->|Hp]%elem_of_cons; [|by apply Hs].
           apply Hm, elem_of_app. right. by left.
        -- intros p Hp. apply Hm, elem_of_app. by left.
Qed.

(** The invariant of the search while the successors of [a] are gone
    through: [a] has left the queue, and its successors need not be bound
    yet. *)
Lemma scan_successors_search_ok (start_set : list P) (a : P) (succ : list (E * P))
    (links links' : list (P * option (P * E))) (todo todo' : list P) :
  scan_successors test a succ links todo = inr (links', todo') →
  (∀ p, p ∈ start_set → is_Some (dict_get links p)) →
  (∀ p, is_Some (dict_get links p) → test p = false) →
  (∀ p, p ∈ todo → is_Some (dict_get links p)) →
  (∀ a' e b, is_Some (dict_get links a') → a' ∉ todo → a' ≠ a →
     (e, b) ∈ successors a' → is_Some (dict_get links b)) →
  (∀ p, p ∈ start_set → is_Some (dict_get links' p))
  ∧ (∀ p, is_Some (dict_get links' p) → test p = false)
  ∧ (∀ p, p ∈ todo' → is_Some (dict_get links' p))
  ∧ (∀ a' e b, is_Some (dict_get links' a') → a' ∉ todo' → a' ≠ a →
       (e, b) ∈ successors a' → is_Some (dict_get links' b))
  ∧ (∀ p, is_Some (dict_get links p) → is_Some (dict_get links' p))
  ∧ (∀ x, x ∈ succ → is_Some (dict_get links' x.2)).
Proof.
  revert links todo. induction succ as [|[edge b] rest IH]; intros links todo; simpl.
  - intros [= <- <-] H1 H2 H3 H4. repeat split; try done. by intros ? ?%elem_of_nil.
  - intros Hscan H1 H2 H3 H4. destruct (dict_get links b) eqn:Hb.
    + destruct (IH _ _ Hscan H1 H2 H3 H4) as (I1 & I2 & I3 & I4 & I5 & I6).
      repeat split; try done.
      intros x [->|Hx]%elem_of_cons; [|by apply I6]. apply I5. by eexists.
    + destruct (test b) eqn:Htb; [done|].
      destruct (IH _ _ Hscan) as (I1 & I2 & I3 & I4 & I5 & I6).
      * intros p Hp. apply is_Some_dict_set. right. by apply H1.
      * intros p [->|Hp]%is_Some_dict_set; [done | by apply H2].
      * intros p [Hp|Hp%list_elem_of_singleton]%elem_of_app; apply is_Some_dict_set;
          [right; by apply H3 | by left].
      * intros a' e b' [->|Ha']%is_Some_dict_set Hnot Hne Hedge.
        -- exfalso. apply Hnot, elem_of_app. right. by left.
        -- apply is_Some_dict_set. right. eapply H4; [done| |done..].
           intros Hin. apply Hnot, elem_of_app. by left.
      * repeat split; try done.
        -- intros p Hp. apply I5, is_Some_dict_set. by right.
        -- intros x [->|Hx]%elem_of_cons; [|by apply I6].
           apply I5, is_Some_dict_set. by left.
Qed.

Lemma search_loop_none (start_set : list P) (fuel : nat)
    (links : list (P * option (P * E))) (todo : list P) :
  search_loop successors test fuel links todo = Ok None →
  search_ok successors test start_set links todo →
  ∃ links', search_ok successors test start_set links' [].
Proof.
  revert links todo. induction fuel as [|fuel IH]; intros links [|a todo]; simpl;
    try done.
  - intros _ Hok. by exists links.
  - intros _ Hok. by exists links.
  - intros Hloop (H1 & H2 & H3 & H4).
    destruct (scan_successors test a (successors a) links todo)
      as [[b' links1]|[links1 todo1]] eqn:Hscan; [done|].
    apply (scan_successors_search_ok start_set) in Hscan
      as (I1 & I2 & I3 & I4 & I5 & I6); try done.
    + apply (IH _ _ Hloop). split; [done|]. split; [done|]. split; [done|].
      intros a' e b Ha' Hnot Hedge. destruct (decide (a' = a)) as [->|Hne].
      * apply (I6 (e, b) Hedge).
      * by eapply I4.
    + intros p Hp. apply H3. by right.
    + intros a' e b Ha' Hnot Hne Hedge. eapply H4; [done| |done].
      intros [->|Hin]%elem_of_cons; done.
Qed.

(** X20.  When [find_path] returns [None], no path exists: every point that
    a path leads to from a point of [start_set] fails [test]. *)
Theorem find_path_none (fuel : nat) (start_set : list P) (a z : P)
    (path : list (path_elem P E)) :
  find_path successors test fuel start_set = Ok None →
  a ∈ start_set →
  is_path successors a path z →
  test z = false.
Proof.
  unfold find_path.
  destruct (seed_loop test start_set [] []) as [p|[links todo]] eqn:Hseed; [done|].
  intros ([[b links']|] & Hsearch & Hpath)%rbind_Ok Ha Hp.
  { by destruct (trace_back _ _ _ _). }
  apply seed_loop_search_ok in Hseed as (Hb & Ht & Hs & _).
  2:{ intros p. split; [by intros [? ?] | by intros ?%elem_of_nil]. }
  2:{ by intros p ?%elem_of_nil. }
  destruct (search_loop_none start_set _ _ _ Hsearch) as (final & H1 & H2 & _ & H4).
  { split; [|split; [|split]].
    - intros p Hin. by apply Hb, Hs.
    - intros p Hin. by apply Ht, Hb.
    - intros p Hin. by apply Hb.
    - intros a' e b' Ha' Hnot. exfalso. by apply Hnot, Hb. }
  apply H2. specialize (H1 a Ha). clear -H1 H4 Hp.
  induction Hp as [p|a e b rest z Hedge Hrest IH]; [done|].
  apply IH. eapply H4; [done| |done]. by intros ?%elem_of_nil.
Qed.

Lemma seed_loop_first (start_set : list P) (links : list (P * option (P * E)))
    (todo : list P) (i : nat) (p : P) :
  (∀ q, is_Some (dict_get links q) → test q = false) →
  list_find (λ q, test q = true) start_set = Some (i, p) →
  seed_loop test start_set links todo = inl p.
Proof.
  clear successors.
  revert links todo i. induction start_set as [|q rest IH]; intros links todo i Hbound;
    simpl; [done|].
  destruct (decide (test q = true)) as [Hq|Hq].
  - intros [= _ <-]. destruct (dict_get links q) eqn:Hlq.
    + rewrite Hbound in Hq by (by eexists). done.
    + by rewrite Hq.
  - destruct (list_find _ rest) as [[j p']|] eqn:Hfind; [|done]. simpl.
    intros [= _ <-]. apply not_true_is_false in Hq.
    destruct (dict_get links q) eqn:Hlq; [by eapply IH|]. rewrite Hq.
    eapply IH; [|done]. intros q' [->|?]%is_Some_dict_set; [done | by apply Hbound].
Qed.

(** X21.  When a point of [start_set] passes [test], [find_path] returns the
    path that consists of the first such point alone, whatever its budget
    and whatever [successors] gives. *)
Theorem find_path_start_point (fuel : nat) (start_set : list P) (i : nat) (p : P) :
  list_find (λ q, test q = true) start_set = Some (i, p) →
  find_path successors test fuel start_set = Ok (Some [Point p]).
Proof.
  intros Hfind. unfold find_path.
  rewrite (seed_loop_first start_set [] [] i p); [done| |done].
  by intros q [? ?].
Qed.

End find_path_properties.

Lemma find_path_sound_witness :
  ∃ a z, a ∈ [0]
         ∧ is_path chain_successors a
             [Point 0; Edge "next"; Point 1; Edge "next"; Point 2] z
         ∧ chain_test z = true.
Proof.
  apply (find_path_sound chain_successors chain_test 10 [0]). vm_compute. reflexivity.
Defined.

Lemma find_path_none_witness : far_test 3 = false.
Proof.
  apply (find_path_none chain_successors far_test 10 [0] 0 3
           [Point 0; Edge "next"; Point 1; Edge "next"; Point 2; Edge "next"; Point 3]).
  - vm_compute. reflexivity.
  - by left.
  - repeat (eapply is_path_step; [vm_compute; right; by left|]). constructor.
Defined.

Lemma find_path_start_point_witness :
  find_path chain_successors chain_test 0 [1; 2; 0] = Ok (Some [Point 2]).
Proof. apply (find_path_start_point chain_successors chain_test 0 [1; 2; 0] 1 2). reflexivity. Defined.

(** ** Items made by [make_lr_item] *)

Lemma skip_lookahead_rules_spec (rest : list symbol) (offset : nat)
    (lookahead : option LookaheadRule) :
  let r := skip_lookahead_rules rest offset lookahead in
  offset ≤ r.1
  ∧ Forall (λ e, is_lookahead_rule e = true) (take (r.1 - offset) rest)
  ∧ (∀ rule, rest !! (r.1 - offset) ≠ Some (LA rule))
  ∧ r.2 = foldl (λ acc e, match e with
                          | LA rule => lookahead_intersect acc (Some rule)
                          | _ => acc
                          end)
                lookahead (take (r.1 - offset) rest).
Proof.
  revert offset lookahead. induction rest as [|e rest IH]; intros offset lookahead.
  - simpl. rewrite Nat.sub_diag. by repeat split.
  - destruct e as [t|n|inner|rule]; simpl;
      try (rewrite Nat.sub_diag; simpl; repeat split; (done || lia)).
    destruct (IH (S offset) (lookahead_intersect lookahead (Some rule)))
      as (Hle & Hall & Hnext & Hla).
    set (r := skip_lookahead_rules rest (S offset) _) in *.
    replace (r.1 - offset) with (S (r.1 - S offset)) by lia. simpl.
    split; [lia|]. split; [by constructor|]. by split.
Qed.

(** X22.  An item that [make_lr_item] returns is never placed in front of a
    lookahead rule: the production exists, the elements from the offset asked
    for up to the offset of the item are the lookahead rules that were
    passed, the lookahead of the item is the one asked for intersected with
    these rules in turn, and making an item again from the item's own
    offset and lookahead gives the same item. *)
Theorem make_lr_item_skips (context : PgenContext) (p o : nat)
    (la : option LookaheadRule) (fb : gset tok) (item : LRItem) :
  make_lr_item context p o la fb = Ok item →
  ∃ prod,
    context_prods context !! p = Some prod
    ∧ prod_index item = p ∧ followed_by item = fb ∧ o ≤ offset item
    ∧ (o ≤ length (prod_rhs prod) → offset item ≤ length (prod_rhs prod))
    ∧ (∀ k, o ≤ k < offset item → ∃ rule, prod_rhs prod !! k = Some (LA rule))
    ∧ (∀ rule, prod_rhs prod !! offset item ≠ Some (LA rule))
    ∧ lookahead item
      = foldl (λ acc e, match e with
                        | LA rule => lookahead_intersect acc (Some rule)
                        | _ => acc
                        end)
              la (take (offset item - o) (drop o (prod_rhs prod)))
    ∧ make_lr_item context p (offset item) (lookahead item) fb = Ok item.
Proof.
  unfold make_lr_item. intros (prod & Hprod%of_option_Ok & Hrest)%rbind_Ok.
  rewrite Hprod. cbn [of_option rbind].
  pose proof (skip_lookahead_rules_spec (drop o (prod_rhs prod)) o la)
    as (Hle & Hall & Hnext & Hla).
  pose proof (skip_lookahead_rules_bounds (drop o (prod_rhs prod)) o la) as [_ Hhi].
  destruct (skip_lookahead_rules _ _ _) as [o' la'] eqn:Hskip.
  injection Hrest as <-. cbn [fst snd prod_index offset lookahead followed_by] in *.
  exists prod. split; [done|]. split; [done|]. split; [done|]. split; [done|].
  split; [rewrite length_drop in Hhi; lia|].
  assert (∀ rule, prod_rhs prod !! o' ≠ Some (LA rule)) as Hnext'.
  { intros rule Hrule. apply (Hnext rule). rewrite lookup_drop.
    by replace (o + (o' - o)) with o' by lia. }
  split; [|split; [done|split; [done|]]].
  - intros k [Hk1 Hk2]. rewrite Forall_forall in Hall.
    assert (is_Some (take (o' - o) (drop o (prod_rhs prod)) !! (k - o))) as [e He].
    { apply lookup_lt_is_Some. rewrite length_take, length_drop.
      assert (o' ≤ o + length (drop o (prod_rhs prod))) as Hb by done.
      rewrite length_drop in Hb. lia. }
    specialize (Hall e (list_elem_of_lookup_2 _ _ _ He)).
    apply lookup_take_Some in He as [He _]. rewrite lookup_drop in He.
    replace (o + (k - o)) with k in He by lia.
    destruct e; try done. by eexists.
  - destruct (drop o' (prod_rhs prod)) as [|e rest] eqn:Hdrop; simpl; [done|].
    assert (prod_rhs prod !! o' = Some e) as He.
    { rewrite <- (Nat.add_0_r o'), <- lookup_drop, Hdrop. done. }
    destruct e as [?|?|?|rule]; try done. by destruct (Hnext' rule).
Qed.

Lemma make_lr_item_skips_witness :
  ∃ prod,
    context_prods nullable_goal_context !! 3 = Some prod
    ∧ prod_index (mkLRItem 3 1 (Some not_y) {[ END ]}) = 3
    ∧ followed_by (mkLRItem 3 1 (Some not_y) {[ END ]}) = {[ END ]}
    ∧ 0 ≤ offset (mkLRItem 3 1 (Some not_y) {[ END ]})
    ∧ (0 ≤ length (prod_rhs prod) →
       offset (mkLRItem 3 1 (Some not_y) {[ END ]}) ≤ length (prod_rhs prod))
    ∧ (∀ k, 0 ≤ k < offset (mkLRItem 3 1 (Some not_y) {[ END ]}) →
         ∃ rule, prod_rhs prod !! k = Some (LA rule))
    ∧ (∀ rule, prod_rhs prod !! offset (mkLRItem 3 1 (Some not_y) {[ END ]})
               ≠ Some (LA rule))
    ∧ lookahead (mkLRItem 3 1 (Some not_y) {[ END ]})
      = foldl (λ acc e, match e with
                        | LA rule => lookahead_intersect acc (Some rule)
                        | _ => acc
                        end)
              None
              (take (offset (mkLRItem 3 1 (Some not_y) {[ END ]}) - 0)
                    (drop 0 (prod_rhs prod)))
    ∧ make_lr_item nullable_goal_context 3
        (offset (mkLRItem 3 1 (Some not_y) {[ END ]}))
        (lookahead (mkLRItem 3 1 (Some not_y) {[ END ]})) {[ END ]}
      = Ok (mkLRItem 3 1 (Some not_y) {[ END ]}).
Proof.
  apply (make_lr_item_skips nullable_goal_context 3 0 None {[ END ]}
           (mkLRItem 3 1 (Some not_y) {[ END ]})).
  reflexivity.
Defined.

(** ** What may follow a nonterminal inside a right-hand side *)

(** X23.  With a cache that [make_start_set_cache] returned for [prods],
    [specific_follow] returns for every production and every offset before
    the end of its right-hand side; what it returns is
    [cache[prod_id][offset + 1]] without [EMPTY], together with
    [followed_by] when [EMPTY] was there, so it is free of [EMPTY] when
    [followed_by] is. *)
Theorem specific_follow_defined (debug : bool) (prods : list Prod)
    (start : gmap nt_name (gset tok)) (cache : list (list (gset tok)))
    (prod_id offset : nat) (prod : Prod) (followed_by : gset tok) :
  make_start_set_cache debug prods start = Ok cache →
  prods !! prod_id = Some prod →
  offset < length (prod_rhs prod) →
  ∃ row after result,
    cache !! prod_id = Some row ∧ row !! (offset + 1) = Some after
    ∧ specific_follow cache prod_id offset followed_by = Ok result
    ∧ (∀ t, t ∈ result ↔ t ≠ EMPTY ∧ t ∈ after ∨ EMPTY ∈ after ∧ t ∈ followed_by)
    ∧ (EMPTY ∉ followed_by → EMPTY ∉ result).
Proof.
  intros Hcache Hprod Hlt.
  unfold make_start_set_cache in Hcache. apply rmap_Ok in Hcache.
  destruct (Forall2_lookup_l _ _ _ _ _ Hcache Hprod)
    as (row & Hrow & (Hlen & _ & _)%suffix_start_list_rows).
  assert (is_Some (row !! (offset + 1))) as [after Hafter].
  { apply lookup_lt_is_Some. lia. }
  unfold specific_follow. rewrite Hrow. cbn [of_option rbind].
  rewrite Hafter. cbn [of_option rbind].
  eexists row, after, _. split; [done|]. split; [done|]. split; [done|].
  destruct (decide (EMPTY ∈ after)); split; set_solver.
Qed.

Lemma specific_follow_defined_witness :
  ∃ row after result,
    arith_cache !! 1 = Some row ∧ row !! (0 + 1) = Some after
    ∧ specific_follow arith_cache 1 0 {[ END ]} = Ok result
    ∧ (∀ t, t ∈ result ↔ t ≠ EMPTY ∧ t ∈ after ∨ EMPTY ∈ after ∧ t ∈ ({[ END ]} : gset tok))
    ∧ (EMPTY ∉ ({[ END ]} : gset tok) → EMPTY ∉ result).
Proof.
  apply (specific_follow_defined true arith_prods arith_start arith_cache 1 0
           (mkProd (Name "E") 0 [Nt (Name "E"); T "+"; Nt (Name "T")] []
              (RCallMethod "E" [RInt 0; RInt 1; RInt 2])) {[ END ]}).
  - vm_refl.
  - reflexivity.
  - simpl. lia.
Defined.

(** ** The closure of a state *)

Lemma rfoldl_prefix_invariant_in {A S} (f : S → A → result S)
    (P : list A → S → Prop) (st : S) (l : list A) (st' : S) :
  rfoldl f st l = Ok st' →
  P [] st →
  (∀ pre x s s', x ∈ l → P pre s → f s x = Ok s' → P (pre ++ [x]) s') →
  P l st'.
Proof.
  intros Hfold Hinit Hstep.
  assert (∀ rest pre s, (∀ x, x ∈ rest → x ∈ l) → P pre s →
                        rfoldl f s rest = Ok st' → P (pre ++ rest) st') as H.
  { clear st Hfold Hinit. induction rest as [|x rest IH]; intros pre s Hsub Hpre Hfold.
    - simpl in Hfold. injection Hfold as <-. by rewrite app_nil_r.
    - simpl in Hfold. apply rbind_Ok in Hfold as (s1 & Hx & Hrest).
      rewrite (cons_middle x pre rest), app_assoc.
      apply (IH _ s1); [|by eapply Hstep; [apply Hsub; left|..] | done].
      intros y Hy. apply Hsub. by right. }
  by apply (H l [] st).
Qed.

Lemma closure_step_in (context : PgenContext) (item : LRItem) (prod : Prod)
    (next_symbol : nt_name) (closure closure_todo : list LRItem)
    (both : list LRItem * list LRItem) :
  context_prods context !! prod_index item = Some prod →
  prod_rhs prod !! offset item = Some (Nt next_symbol) →
  rfoldl (λ (acc : list LRItem * list LRItem) (x : nat * list symbol),
      still_there ←
        match x.2 with
        | _ :: _ => Ok true
        | [] =>
            plist ← of_option KeyError
                      (dict_get (nonterminals (context_grammar context)) next_symbol);
            Ok (existsb (λ p, bool_decide (p_body p = x.2)) plist)
        end;
      if still_there : bool then
        followers ← specific_follow (context_start_set_cache context)
                      (prod_index item) (offset item) (followed_by item);
        new_item ← make_lr_item context x.1 0 (lookahead item) followers;
        if decide (new_item ∈ acc.1) then Ok acc
        else Ok (acc.1 ++ [new_item], acc.2 ++ [new_item])
      else Ok acc)
    (closure, closure_todo)
    (prods_of (context_prods_with_indexes_by_nt context) next_symbol) = Ok both →
  ∃ new,
    both = (closure ++ new, closure_todo ++ new)
    ∧ (∀ x, x ∈ new → steps_into context item x)
    ∧ (∀ x, steps_into context item x → x ∈ closure ++ new).
Proof.
  intros Hprod Hnext Hfold.
  apply (rfoldl_prefix_invariant_in _
    (λ pre acc,
       ∃ new, acc = (closure ++ new, closure_todo ++ new)
         ∧ (∀ x, x ∈ new → steps_into context item x)
         ∧ (∀ y followers new_item,
              y ∈ pre →
              (y.2 ≠ [] ∨ ∃ plist p,
                 dict_get (nonterminals (context_grammar context)) next_symbol = Some plist
                 ∧ p ∈ plist ∧ p_body p = y.2) →
              specific_follow (context_start_set_cache context)
                (prod_index item) (offset item) (followed_by item) = Ok followers →
              make_lr_item context y.1 0 (lookahead item) followers = Ok new_item →
              new_item ∈ closure ++ new))) in Hfold.
  - destruct Hfold as (new & -> & Hnew & Hall). exists new.
    split; [done|]. split; [done|].
    intros x (prod' & N & k & rhs & followers & Hprod' & Hnext' & Hin & Hcond & Hf & Hm).
    assert (prod' = prod) as -> by congruence.
    assert (N = next_symbol) as -> by congruence.
    by apply (Hall (k, rhs) followers x Hin Hcond Hf Hm).
  - exists []. rewrite !app_nil_r. split; [done|].
    split; [by intros ? ?%elem_of_nil|]. by intros ??? ?%elem_of_nil.
  - intros pre [k rhs] acc acc' Hx (new & -> & Hnew & Hall) Hstep.
    cbn [fst snd] in Hstep.
    apply rbind_Ok in Hstep as (still & Hstill & Hstep).
    assert (still = true
            ↔ (rhs ≠ [] ∨ ∃ plist p,
                 dict_get (nonterminals (context_grammar context)) next_symbol = Some plist
                 ∧ p ∈ plist ∧ p_body p = rhs)) as Hcond.
    { destruct rhs as [|e rhs].
      - apply rbind_Ok in Hstill as (plist & Hplist%of_option_Ok & [= <-]).
        rewrite existsb_exists. split.
        + intros (p & Hp%list_elem_of_In & Hbody%bool_decide_eq_true). right.
          by exists plist, p.
        + intros [?|(plist' & p & Hplist' & Hp & Hbody)]; [done|].
          assert (plist' = plist) as -> by congruence.
          exists p. split; [by apply list_elem_of_In | by apply bool_decide_eq_true].
      - injection Hstill as <-. split; [by left | done]. }
    destruct still.
    + apply rbind_Ok in Hstep as (followers & Hf & Hstep).
      apply rbind_Ok in Hstep as (new_item & Hm & Hstep).
      assert (steps_into context item new_item) as Hsteps.
      { exists prod, next_symbol, k, rhs, followers. repeat split; try done.
        by apply Hcond. }
      destruct (decide (new_item ∈ closure ++ new)) as [Hin|Hnotin];
        injection Hstep as <-.
      * exists new. split; [done|]. split; [done|].
        intros y followers' new_item' [Hy|Hy%list_elem_of_singleton]%elem_of_app Hc Hf' Hm';
          [by eapply Hall|]. subst y. cbn [fst snd] in *. congruence.
      * exists (new ++ [new_item]). rewrite !app_assoc. split; [done|]. split.
        -- intros x [?|?%list_elem_of_singleton]%elem_of_app; [by apply Hnew | by subst].
        -- intros y followers' new_item' [Hy|Hy%list_elem_of_singleton]%elem_of_app
             Hc Hf' Hm'.
           ++ apply elem_of_app. left. by eapply Hall.
           ++ subst y. cbn [fst snd] in *. apply elem_of_app. right.
              apply list_elem_of_singleton. congruence.
    + injection Hstep as <-. exists new. split; [done|]. split; [done|].
      intros y followers' new_item' [Hy|Hy%list_elem_of_singleton]%elem_of_app Hc Hf' Hm';
        [by eapply Hall|]. subst y. cbn [fst snd] in *.
      by apply Hcond in Hc.
Qed.

Lemma closure_loop_spec (R : LRItem → Prop) (fuel : nat) (context : PgenContext)
    (closure closure_todo result : list LRItem) :
  closure_loop fuel context closure closure_todo = Ok result →
  (∀ x, x ∈ closure_todo → x ∈ closure) →
  (∀ item new, item ∈ closure → item ∉ closure_todo →
     steps_into context item new → new ∈ closure) →
  (∀ x y, R x → steps_into context x y → R y) →
  (∀ x, x ∈ closure → R x) →
  closure `prefix_of` result
  ∧ (∀ item new, item ∈ result → steps_into context item new → new ∈ result)
  ∧ (∀ x, x ∈ result → R x).
Proof.
  intros Hloop Htodo Hclosed HR. revert closure closure_todo Hloop Htodo Hclosed.
  induction fuel as [|fuel IH]; intros closure [|item todo]; simpl; try done.
  - intros [= <-] _ Hclosed Hgen. split; [done|]. split; [|done].
    intros item new Hin. apply Hclosed; [done|]. by intros ?%elem_of_nil.
  - intros [= <-] _ Hclosed Hgen. split; [done|]. split; [|done].
    intros item new Hin. apply Hclosed; [done|]. by intros ?%elem_of_nil.
  - intros (prod & Hprod%of_option_Ok & Hloop)%rbind_Ok Htodo Hclosed Hgen.
    destruct (prod_rhs prod !! offset item) as [[t|next_symbol|inner|rule]|] eqn:Hnext.
    2:{ apply rbind_Ok in Hloop as (both & Hfold & Hloop).
        destruct (closure_step_in _ _ _ _ _ _ _ Hprod Hnext Hfold)
          as (new & -> & Hnew & Hall). cbn [fst snd] in Hloop.
        apply IH in Hloop as (Hpre & Hclosed' & Hgen').
        - split; [|done]. etrans; [|exact Hpre]. by apply prefix_app_r.
        - intros x [Hx|Hx]%elem_of_app; apply elem_of_app; [left|by right].
          apply Htodo. by right.
        - intros x new' [Hx|Hx]%elem_of_app Hnot Hsteps.
          + destruct (decide (x = item)) as [->|Hne]; [by apply Hall|].
            apply elem_of_app. left. apply (Hclosed x new'); [done| |done].
            intros [?|Hin]%elem_of_cons; [done|]. apply Hnot, elem_of_app. by left.
          + exfalso. apply Hnot, elem_of_app. by right.
        - intros x [Hx|Hx]%elem_of_app; [by apply Hgen|].
          apply (HR item); [|by apply Hnew]. apply Hgen, Htodo. by left. }
    all: apply IH in Hloop as (Hpre & Hclosed' & Hgen'); [done| | |done].
    all: try (intros x Hx; apply Htodo; by right).
    all: intros x new' Hx Hnot Hsteps;
         (destruct (decide (x = item)) as [->|Hne];
          [destruct Hsteps as (prod' & N & ? & ? & ? & Hprod' & Hnext' & _);
           assert (prod' = prod) as -> by congruence; congruence|]);
         apply (Hclosed x new'); [done| |done];
         intros [?|Hin]%elem_of_cons; done.
Qed.

(** X24.  The closure that [State.closure] returns starts with the items of
    the state, in their order, and holds exactly the items that can be
    reached from an item of the state by stepping in any number of times:
    from an item whose dot is in front of a nonterminal to the item that
    starts a production of this nonterminal that is still in the grammar,
    with the lookahead of the item stepped from and the followers that
    [specific_follow] gives. *)
Theorem State_closure_spec (fuel : nat) (context : PgenContext) (self : State)
    (closure : list LRItem) :
  State_closure fuel context self = Ok closure →
  lr_items self `prefix_of` closure
  ∧ ∀ x, x ∈ closure
         ↔ ∃ root, root ∈ lr_items self ∧ rtc (steps_into context) root x.
Proof.
  unfold State_closure. intros Hloop.
  apply (closure_loop_spec
           (λ x, ∃ root, root ∈ lr_items self ∧ rtc (steps_into context) root x))
    in Hloop as (Hpre & Hclosed & Hreach).
  - split; [done|]. intros x. split; [by apply Hreach|].
    intros (root & Hroot & Hsteps).
    assert (Hin : root ∈ closure).
    { destruct Hpre as [rest ->]. apply elem_of_app. by left. }
    clear Hroot. induction Hsteps as [|a b c Hab _ IH]; [done|].
    apply IH. by apply (Hclosed a).
  - done.
  - by intros item new Hin Hnot.
  - intros x y (root & Hroot & Hsteps) Hxy. exists root. split; [done|].
    by eapply rtc_r.
  - intros x Hx. by exists x.
Qed.

Lemma State_closure_spec_witness :
  ∃ closure,
    State_closure 100 arith_context
      (mkState [ mkLRItem 0 0 None {[ END ]} ] {[ (0, 0, None) ]} (Some 0) None None)
    = Ok closure
    ∧ [ mkLRItem 0 0 None {[ END ]} ] `prefix_of` closure
    ∧ ∀ x, x ∈ closure
           ↔ ∃ root, root ∈ [ mkLRItem 0 0 None {[ END ]} ]
                     ∧ rtc (steps_into arith_context) root x.
Proof.
  eexists. split; [vm_compute; reflexivity|].
  apply (State_closure_spec 100 arith_context
           (mkState [ mkLRItem 0 0 None {[ END ]} ] {[ (0, 0, None) ]} (Some 0) None None)).
  vm_refl.
Defined.

(** ** State analysis: what step 1 records *)

Lemma elem_of_ordered_add {A} `{EqDecision A} (s : list A) (x y : A) :
  y ∈ ordered_add s x ↔ y ∈ s ∨ y = x.
Proof.
  unfold ordered_add. destruct (decide (x ∈ s)) as [Hin|Hnotin].
  - split; [by left | by intros [?| ->]].
  - by rewrite elem_of_app, list_elem_of_singleton.
Qed.

Lemma dict_add_get {K A} `{EqDecision K} `{EqDecision A}
    (d : list (K * list A)) (k k' : K) (x y : A) :
  (∃ l, dict_get (dict_add d k x) k' = Some l ∧ y ∈ l)
  ↔ (∃ l, dict_get d k' = Some l ∧ y ∈ l) ∨ (k' = k ∧ y = x).
Proof.
  unfold dict_add. rewrite dict_get_set.
  destruct (decide (k' = k)) as [->|Hne].
  - split.
    + intros (l & [= <-] & [Hy| ->]%elem_of_ordered_add); [|by right].
      left. destruct (dict_get d k) as [l|]; [by exists l | by apply elem_of_nil in Hy].
    + intros [(l & Hl & Hy)|[_ ->]]; eexists; (split; [done|]);
        apply elem_of_ordered_add; [left | by right]. by rewrite Hl.
  - split; [by left | by intros [?|[??]]].
Qed.

Lemma install_reduces_complete (context : PgenContext) (nt : nt_name) (item : LRItem)
    (reduce_prods reduce_prods' : list (tok * nat)) :
  install_reduces context nt item reduce_prods = Ok reduce_prods' →
  (∀ t p, dict_get reduce_prods t = Some p → dict_get reduce_prods' t = Some p)
  ∧ (∀ t, t ∈ followed_by item → t ∈ follow_of (context_follow context) nt →
          dict_get reduce_prods' t = Some (prod_index item)).
Proof.
  unfold install_reduces. intros Hfold.
  apply (rfoldl_prefix_invariant _
    (λ pre rp,
       (∀ t p, dict_get reduce_prods t = Some p → dict_get rp t = Some p)
       ∧ (∀ t, t ∈ pre → t ∈ follow_of (context_follow context) nt →
               dict_get rp t = Some (prod_index item)))) in Hfold.
  - destruct Hfold as [Hold Hnew]. split; [done|].
    intros t Ht. apply Hnew. by apply elem_of_elements.
  - split; [done|]. by intros t ?%elem_of_nil.
  - intros pre x rp rp' [Hold Hnew] Hstep.
    destruct (decide (x ∈ follow_of (context_follow context) nt)) as [Hx|Hx].
    + destruct (dict_get rp x) eqn:Hrp; [done|]. injection Hstep as <-.
      assert (∀ t p, dict_get rp t = Some p →
                     dict_get (dict_set rp x (prod_index item)) t = Some p) as Hkeep.
      { intros t p Ht. rewrite dict_get_set, decide_False; [done|]. congruence. }
      split; [by intros t p ?%Hold%Hkeep|].
      intros t [Ht| ->%list_elem_of_singleton]%elem_of_app Hf.
      * by apply Hkeep, Hnew.
      * by rewrite dict_get_set, decide_True.
    + injection Hstep as <-. split; [done|].
      intros t [Ht| ->%list_elem_of_singleton]%elem_of_app Hf; [by apply Hnew | done].
Qed.

Lemma item_recorded_mono (context : PgenContext) (tables tables' : step1_tables)
    (item : LRItem) :
  (∀ t x, (∃ l, dict_get (shift_items tables) t = Some l ∧ x ∈ l) →
          ∃ l, dict_get (shift_items tables') t = Some l ∧ x ∈ l) →
  (∀ n x, (∃ l, dict_get (ctn_items tables) n = Some l ∧ x ∈ l) →
          ∃ l, dict_get (ctn_items tables') n = Some l ∧ x ∈ l) →
  (∀ t p, dict_get (reduce_prods tables) t = Some p →
          dict_get (reduce_prods tables') t = Some p) →
  item_recorded context tables item → item_recorded context tables' item.
Proof.
  intros Hshift Hctn Hreduce (prod & Hprod & Hrec). exists prod. split; [done|].
  destruct (prod_rhs prod !! offset item) as [[t|n|?|?]|]; try done.
  - intros Hla. destruct (Hrec Hla) as (next_item & items & Hadv & Hget & Hin).
    destruct (Hshift t next_item) as (l & Hl & Hx); [by exists items|].
    by exists next_item, l.
  - destruct Hrec as (next_item & items & Hadv & Hget & Hin).
    destruct (Hctn n next_item) as (l & Hl & Hx); [by exists items|].
    by exists next_item, l.
  - destruct Hrec as [Hla Hrec]. split; [done|]. intros t Ht Hf.
    by apply Hreduce, Hrec.
Qed.

Lemma analyze_item_records (context : PgenContext) (tables tables' : step1_tables)
    (item : LRItem) :
  analyze_item context tables item = Ok tables' →
  item_recorded context tables' item
  ∧ (∀ t x, (∃ l, dict_get (shift_items tables') t = Some l ∧ x ∈ l)
            ↔ (∃ l, dict_get (shift_items tables) t = Some l ∧ x ∈ l)
              ∨ ∃ prod, context_prods context !! prod_index item = Some prod
                        ∧ prod_rhs prod !! offset item = Some (T t)
                        ∧ lookahead_contains (lookahead item) t = true
                        ∧ advance context item = Ok x)
  ∧ (∀ n x, (∃ l, dict_get (ctn_items tables') n = Some l ∧ x ∈ l)
            ↔ (∃ l, dict_get (ctn_items tables) n = Some l ∧ x ∈ l)
              ∨ ∃ prod, context_prods context !! prod_index item = Some prod
                        ∧ prod_rhs prod !! offset item = Some (Nt n)
                        ∧ advance context item = Ok x)
  ∧ (∀ t p, dict_get (reduce_prods tables) t = Some p →
            dict_get (reduce_prods tables') t = Some p).
Proof.
  unfold analyze_item, item_recorded.
  intros (prod & Hprod%of_option_Ok & Hstep)%rbind_Ok.
  assert (∀ (P : Prod → Prop), (∃ prod', context_prods context !! prod_index item
                                         = Some prod' ∧ P prod') ↔ P prod) as Hex.
  { intros P. split; [|by exists prod]. intros (prod' & Hprod' & HP).
    assert (prod' = prod) as -> by congruence. done. }
  destruct (prod_rhs prod !! offset item) as [[a|n|?|?]|] eqn:Hnext; try done.
  - destruct (lookahead_contains (lookahead item) a) eqn:Hla.
    + apply rbind_Ok in Hstep as (next_item & Hmake & [= <-]). simpl.
      split; [|split; [|split; [|done]]].
      * exists prod. rewrite Hnext. split; [done|]. intros _.
        destruct (proj2 (dict_add_get (shift_items tables) a a next_item next_item))
          as (l & Hl & Hin); [by right|]. by exists next_item, l.
      * intros t x. rewrite dict_add_get, Hex. split; (intros [?|H]; [by left | right]).
        -- by destruct H as [-> ->].
        -- destruct H as (Ht & _ & Hadv). rewrite Hnext in Ht. injection Ht as <-.
           unfold advance in Hadv. split; [done | congruence].
      * intros n x. rewrite Hex. split; [by left|]. intros [?|[Hn _]]; [done|]. by rewrite Hnext in Hn.
    + injection Hstep as <-. split; [|split; [|split; [|done]]].
      * exists prod. rewrite Hnext. split; [done|]. intros Hla'.
        rewrite Hla in Hla'. done.
      * intros t x. rewrite Hex. split; [by left|]. intros [?|(Ht & ? & _)]; [done|].
        rewrite Hnext in Ht. injection Ht as <-. congruence.
      * intros n x. rewrite Hex. split; [by left|]. intros [?|[Hn _]]; [done|]. by rewrite Hnext in Hn.
  - apply rbind_Ok in Hstep as (next_item & Hmake & [= <-]). simpl.
    split; [|split; [|split; [|done]]].
    + exists prod. rewrite Hnext. split; [done|].
      destruct (proj2 (dict_add_get (ctn_items tables) n n next_item next_item))
        as (l & Hl & Hin); [by right|]. by exists next_item, l.
    + intros t x. rewrite Hex. split; [by left|]. intros [?|[Hn _]]; [done|]. by rewrite Hnext in Hn.
    + intros n' x. rewrite dict_add_get, Hex. split; (intros [?|H]; [by left | right]).
      * by destruct H as [-> ->].
      * destruct H as (Hn & Hadv). rewrite Hnext in Hn. injection Hn as <-.
        unfold advance in Hadv. split; [done | congruence].
  - destruct (lookahead item) eqn:Hla; [done|].
    apply rbind_Ok in Hstep as (rp & [Hold Hnew]%install_reduces_complete & [= <-]).
    simpl. split; [|split; [|split; [|done]]].
    + exists prod. rewrite Hnext. done.
    + intros t x. rewrite Hex. split; [by left|]. intros [?|[Hn _]]; [done|]. by rewrite Hnext in Hn.
    + intros n x. rewrite Hex. split; [by left|]. intros [?|[Hn _]]; [done|]. by rewrite Hnext in Hn.
Qed.

Lemma analyze_step1_complete (context : PgenContext) (closure : list LRItem)
    (tables : step1_tables) :
  analyze_step1 context closure = Ok tables →
  ∀ item, item ∈ closure → item_recorded context tables item.
Proof.
  unfold analyze_step1. intros Hfold.
  apply (rfoldl_prefix_invariant _
    (λ pre tb, ∀ item, item ∈ pre → item_recorded context tb item) _ _ _ Hfold);
    [by intros item ?%elem_of_nil |].
  intros pre x tb tb' IH Hstep.
  destruct (analyze_item_records _ _ _ _ Hstep) as (Hrec & Hshift & Hctn & Hreduce).
  intros item [Hin| ->%list_elem_of_singleton]%elem_of_app; [|done].
  apply (item_recorded_mono context tb); [| |done|by apply IH].
  - intros t y Hy. apply Hshift. by left.
  - intros n y Hy. apply Hctn. by left.
Qed.

(** X25.  When step 1 of [State.analyze] gets through the closure, it has
    recorded every item: for an item in front of a terminal that its
    lookahead allows, the item advanced over the terminal is in
    [shift_items] of this terminal; for an item in front of a nonterminal,
    the advanced item is in [ctn_items] of this nonterminal; no item is in
    front of another kind of element; an item at the end of its production
    has no lookahead left and [reduce_prods] maps every terminal of its
    [followed_by] that is in the follow set of the production's nonterminal
    to the production.  And [shift_items] and [ctn_items] hold nothing
    else. *)
Theorem analyze_step1_spec (context : PgenContext) (closure : list LRItem)
    (tables : step1_tables) :
  analyze_step1 context closure = Ok tables →
  (∀ item, item ∈ closure → item_recorded context tables item)
  ∧ (∀ t items next_item,
       dict_get (shift_items tables) t = Some items → next_item ∈ items →
       ∃ item prod,
         item ∈ closure
         ∧ context_prods context !! prod_index item = Some prod
         ∧ prod_rhs prod !! offset item = Some (T t)
         ∧ lookahead_contains (lookahead item) t = true
         ∧ advance context item = Ok next_item)
  ∧ (∀ n items next_item,
       dict_get (ctn_items tables) n = Some items → next_item ∈ items →
       ∃ item prod,
         item ∈ closure
         ∧ context_prods context !! prod_index item = Some prod
         ∧ prod_rhs prod !! offset item = Some (Nt n)
         ∧ advance context item = Ok next_item).
Proof.
  intros Hfold. split; [by apply analyze_step1_complete|].
  unfold analyze_step1 in Hfold.
  apply (rfoldl_prefix_invariant _
    (λ pre tb,
       (∀ t items next_item,
          dict_get (shift_items tb) t = Some items → next_item ∈ items →
          ∃ item prod,
            item ∈ pre
            ∧ context_prods context !! prod_index item = Some prod
            ∧ prod_rhs prod !! offset item = Some (T t)
            ∧ lookahead_contains (lookahead item) t = true
            ∧ advance context item = Ok next_item)
       ∧ (∀ n items next_item,
            dict_get (ctn_items tb) n = Some items → next_item ∈ items →
            ∃ item prod,
              item ∈ pre
              ∧ context_prods context !! prod_index item = Some prod
              ∧ prod_rhs prod !! offset item = Some (Nt n)
              ∧ advance context item = Ok next_item))) in Hfold; [done|by split|].
  intros pre x tb tb' [IHs IHc] Hstep.
  destruct (analyze_item_records _ _ _ _ Hstep) as (_ & Hshift & Hctn & _). split.
  - intros t items next_item Hget Hin.
    destruct (proj1 (Hshift t next_item)) as [(l & Hl & Hx)|(prod & ? & ? & ? & ?)];
      [by exists items| |].
    + destruct (IHs t l next_item Hl Hx) as (item & prod & Hpre & Hrest).
      exists item, prod. split; [|done]. apply elem_of_app. by left.
    + exists x, prod. split; [|done]. apply elem_of_app. right.
      by apply list_elem_of_singleton.
  - intros n items next_item Hget Hin.
    destruct (proj1 (Hctn n next_item)) as [(l & Hl & Hx)|(prod & ? & ? & ?)];
      [by exists items| |].
    + destruct (IHc n l next_item Hl Hx) as (item & prod & Hpre & Hrest).
      exists item, prod. split; [|done]. apply elem_of_app. by left.
    + exists x, prod. split; [|done]. apply elem_of_app. right.
      by apply list_elem_of_singleton.
Qed.

Lemma analyze_step1_spec_witness :
  (∀ item, item ∈ lr_items arith_state4 →
     item_recorded arith_context arith_state4_tables item)
  ∧ (∀ t items next_item,
       dict_get (shift_items arith_state4_tables) t = Some items → next_item ∈ items →
       ∃ item prod,
         item ∈ lr_items arith_state4
         ∧ context_prods arith_context !! prod_index item = Some prod
         ∧ prod_rhs prod !! offset item = Some (T t)
         ∧ lookahead_contains (lookahead item) t = true
         ∧ advance arith_context item = Ok next_item)
  ∧ (∀ n items next_item,
       dict_get (ctn_items arith_state4_tables) n = Some items → next_item ∈ items →
       ∃ item prod,
         item ∈ lr_items arith_state4
         ∧ context_prods arith_context !! prod_index item = Some prod
         ∧ prod_rhs prod !! offset item = Some (Nt n)
         ∧ advance arith_context item = Ok next_item).
Proof.
  apply (analyze_step1_spec arith_context (lr_items arith_state4) arith_state4_tables).
  vm_refl.
Defined.

(** ** The graph of states: how it grows *)

Lemma covers_le (s s' : State) (item : LRItem) :
  state_le s s' → covers s item → covers s' item.
Proof.
  intros [_ Hle] (x & Hx & Hk & Hsub).
  destruct (Hle x Hx) as (y & Hy & Hk' & Hsub').
  exists y. split; [done|]. split; [congruence | set_solver].
Qed.

Lemma state_le_refl (s : State) : state_le s s.
Proof. split; [done|]. intros item Hin. by exists item. Qed.

Lemma state_le_trans (s1 s2 s3 : State) :
  state_le s1 s2 → state_le s2 s3 → state_le s1 s3.
Proof.
  intros [Hk1 H1] [Hk2 H2]. split; [congruence|].
  intros item Hin. apply (covers_le s2); [by split | by apply H1].
Qed.

Lemma states_le_refl (l : list State) : states_le l l.
Proof. intros j s Hs. exists s. split; [done | apply state_le_refl]. Qed.

Lemma states_le_trans (l1 l2 l3 : list State) :
  states_le l1 l2 → states_le l2 l3 → states_le l1 l3.
Proof.
  intros H1 H2 j s Hs. destruct (H1 j s Hs) as (s2 & Hs2 & Hle2).
  destruct (H2 j s2 Hs2) as (s3 & Hs3 & Hle3).
  exists s3. split; [done|]. by eapply state_le_trans.
Qed.

Lemma builder_le_refl (b : builder) : builder_le b b.
Proof. split; [apply states_le_refl|]. split; [done|]. intros j s' Hs. by left. Qed.

Lemma builder_le_trans (b1 b2 b3 : builder) :
  builder_le b1 b2 → builder_le b2 b3 → builder_le b1 b3.
Proof.
  intros (Hs1 & Ht1 & Hc1) (Hs2 & Ht2 & Hc2).
  split; [by eapply states_le_trans|]. split; [by intros j ?%Ht1%Ht2|].
  intros j s' [Hs|Hs]%Hc2; [|by right].
  destruct (Hc1 j s' Hs) as [?|?%Ht2]; [by left | by right].
Qed.

Lemma State_init_covers (context : PgenContext) (items : list LRItem) (s : State)
    (x : LRItem) :
  State_init context items = Ok s → x ∈ items → covers s x.
Proof.
  intros Hs Hx. destruct (consolidate_spec items) as (_ & Hkeys & Hget).
  destruct (dict_get (consolidate items) (item_key x)) as [v|] eqn:Hv.
  - exists (mkLRItem (prod_index x) (offset x) (lookahead x) v).
    split; [by apply (State_init_elem _ _ _ _ Hs)|]. split; [done|].
    intros t Ht. apply (Hget _ _ Hv). by exists x.
  - apply dict_get_None_keys in Hv. destruct Hv. apply Hkeys, list_elem_of_fmap.
    by exists x.
Qed.

Lemma State_init_rows (context : PgenContext) (items : list LRItem) (s : State) :
  State_init context items = Ok s → action_row s = None ∧ ctn_row s = None.
Proof. unfold State_init. by intros ([] & _ & [= <-])%rbind_Ok. Qed.

Lemma State_update_le (self new_state self' : State) (changed : bool) :
  state_wf self → state_wf new_state → key new_state = key self →
  State_update self new_state = Ok (self', changed) →
  state_le self self'
  ∧ (∀ x, x ∈ lr_items new_state → covers self' x)
  ∧ action_row self' = action_row self ∧ ctn_row self' = ctn_row self
  ∧ (changed = false → self' = self).
Proof.
  intros Hwf Hwf' Hkey Hupd.
  destruct (State_update_computes _ _ Hwf Hwf' Hkey) as (Hpartner & c & Hc & Hs).
  rewrite Hupd in Hs. injection Hs as -> <-.
  destruct (same_key_same_triples _ _ Hwf Hwf' Hkey) as [Hiff _].
  assert (Hfind : ∀ x, x ∈ lr_items new_state →
            ∃ i, i ∈ lr_items self ∧ item_key i = item_key x
                 ∧ dict_get (foldl (λ d item, dict_set d (item_key item) (followed_by item))
                                   [] (lr_items new_state)) (item_key i)
                   = Some (followed_by x)).
  { intros x Hx.
    assert (Hin : item_key x ∈ map item_key (lr_items self)).
    { apply Hiff, list_elem_of_fmap. eauto. }
    apply list_elem_of_fmap in Hin as (i & Hi & Hin).
    exists i. split; [done|]. split; [done|]. rewrite <- Hi.
    apply new_followed_by_get; [apply Hwf' | done]. }
  destruct changed.
  - split; [|split; [|done]].
    + split; [done|]. intros i Hi. eexists. split.
      * simpl. apply list_elem_of_fmap. by exists i.
      * split; [done|]. simpl. set_solver.
    + intros x Hx. destruct (Hfind x Hx) as (i & Hi & Hk & Hget). eexists. split.
      * simpl. apply list_elem_of_fmap. by exists i.
      * split; [done|]. simpl. rewrite Hget. simpl. set_solver.
  - split; [apply state_le_refl|]. split; [|done].
    intros x Hx. destruct (Hfind x Hx) as (i & Hi & Hk & _).
    exists i. split; [done|]. split; [done|]. by apply (proj1 Hc eq_refl i x).
Qed.

Lemma get_state_index_le (context : PgenContext) (b b' : builder)
    (successor : State) (i : nat) :
  builder_ok context b → state_wf successor →
  get_state_index b successor = Ok (i, b') →
  builder_le b b'
  ∧ ∃ target, states b' !! i = Some target
              ∧ ∀ x, x ∈ lr_items successor → covers target x.
Proof.
  intros [Hstates Hkeys] Hwf. unfold get_state_index.
  destruct (dict_get (states_by_key b) (key successor)) as [j|] eqn:Hj.
  - destruct (Hkeys _ _ Hj) as (s & Hs & Hk & Hid). rewrite Hs. simpl.
    intros ([self' changed] & Hupd & Hrest)%rbind_Ok. simpl in Hrest.
    assert (Hsok : state_ok context s).
    { rewrite Forall_forall in Hstates. apply Hstates. by eapply list_elem_of_lookup_2. }
    destruct (State_update_ok _ _ _ _ _ Hsok Hwf (eq_sym Hk) Hupd) as (_ & _ & Hid').
    destruct (State_update_le _ _ _ _ (proj1 Hsok) Hwf (eq_sym Hk) Hupd)
      as (Hle & Hcov & _ & _ & Hsame).
    rewrite Hid', Hid in Hrest. simpl in Hrest. injection Hrest as <- <-. simpl.
    assert (Hlt : j < length (states b)) by (by eapply lookup_lt_Some).
    split; [split; [|split]|]; simpl.
    + intros k s0 Hs0. destruct (decide (k = j)) as [->|Hne].
      * exists self'. rewrite list_lookup_insert_eq by done.
        rewrite Hs in Hs0. by injection Hs0 as <-.
      * exists s0. rewrite list_lookup_insert_ne by done.
        split; [done | apply state_le_refl].
    + intros k Hk0. destruct changed; [|done]. apply elem_of_app. by left.
    + intros k s0. destruct (decide (k = j)) as [->|Hne].
      * rewrite list_lookup_insert_eq by done. intros [= <-].
        destruct changed; [right | left].
        -- apply elem_of_app. right. by apply list_elem_of_singleton.
        -- by rewrite Hsame.
      * rewrite list_lookup_insert_ne by done. by left.
    + exists self'. by rewrite list_lookup_insert_eq.
  - intros [= <- <-]. simpl. split; [split; [|split]|]; simpl.
    + intros k s0 Hs0. exists s0. split; [|apply state_le_refl].
      by apply lookup_app_l_Some.
    + intros k Hk0. apply elem_of_app. by left.
    + intros k s0 Hs0. destruct (decide (k < length (states b))) as [Hlt|Hge].
      * left. by rewrite lookup_app_l in Hs0.
      * right. apply elem_of_app. right. apply list_elem_of_singleton.
        apply lookup_lt_Some in Hs0. rewrite length_app in Hs0. simpl in Hs0. lia.
    + eexists. rewrite lookup_app_r, Nat.sub_diag by done. split; [done|].
      intros x Hx. by exists x.
Qed.

Lemma rfoldl_split_invariant {A S} (f : S → A → result S)
    (P : list A → S → Prop) (st : S) (l : list A) (st' : S) :
  rfoldl f st l = Ok st' →
  P [] st →
  (∀ pre x post s s', l = pre ++ x :: post → P pre s → f s x = Ok s' →
                      P (pre ++ [x]) s') →
  P l st'.
Proof.
  intros Hfold Hinit Hstep.
  assert (∀ rest pre s, l = pre ++ rest → P pre s →
                        rfoldl f s rest = Ok st' → P (pre ++ rest) st') as H.
  { clear st Hfold Hinit. induction rest as [|x rest IH]; intros pre s Hl Hpre Hfold.
    - simpl in Hfold. injection Hfold as <-. by rewrite app_nil_r.
    - simpl in Hfold. apply rbind_Ok in Hfold as (s1 & Hx & Hrest).
      rewrite (cons_middle x pre rest), app_assoc.
      apply (IH _ s1); [by rewrite <- app_assoc | by eapply Hstep | done]. }
  by apply (H l [] st).
Qed.

Lemma analyze_step1_NoDup (context : PgenContext) (closure : list LRItem)
    (tables : step1_tables) :
  analyze_step1 context closure = Ok tables →
  NoDup (shift_items tables).*1 ∧ NoDup (ctn_items tables).*1.
Proof.
  unfold analyze_step1. intros Hfold.
  apply (rfoldl_invariant _
           (λ tb, NoDup (shift_items tb).*1 ∧ NoDup (ctn_items tb).*1)
           _ _ _ Hfold); [split; constructor|].
  intros tb item tb' _ [Hshift Hctn] Hstep. unfold analyze_item in Hstep.
  apply rbind_Ok in Hstep as (prod & _ & Hstep).
  destruct (prod_rhs prod !! offset item) as [[a|n|?|?]|]; try done.
  - destruct (lookahead_contains (lookahead item) a); [|by injection Hstep as <-].
    apply rbind_Ok in Hstep as (next_item & _ & [= <-]). simpl.
    split; [by apply dict_set_NoDup | done].
  - apply rbind_Ok in Hstep as (next_item & _ & [= <-]). simpl.
    split; [done | by apply dict_set_NoDup].
  - destruct (lookahead item); [done|].
    by apply rbind_Ok in Hstep as (rp & _ & [= <-]).
Qed.

Lemma covers_via (s target : State) (x : LRItem) :
  covers s x → (∀ y, y ∈ lr_items s → covers target y) → covers target x.
Proof.
  intros (y & Hy & Hk & Hsub) Hall. destruct (Hall y Hy) as (z & Hz & Hk' & Hsub').
  exists z. split; [done|]. split; [congruence | set_solver].
Qed.

Lemma encode_shifts_le (context : PgenContext) (b b' : builder)
    (shift_items : list (terminal * list LRItem)) (row : list (tok * Z)) :
  builder_ok context b →
  Forall (λ kv, Forall (item_in_range context) kv.2) shift_items →
  NoDup shift_items.*1 →
  encode_shifts context b shift_items = Ok (row, b') →
  builder_le b b'
  ∧ (∀ t v, dict_get row t = Some v →
       ∃ a j, t = Tk a ∧ a ∈ shift_items.*1 ∧ v = Z.of_nat j
              ∧ j < length (states b'))
  ∧ (∀ a items, (a, items) ∈ shift_items →
       ∃ j target, dict_get row (Tk a) = Some (Z.of_nat j)
                   ∧ states b' !! j = Some target
                   ∧ ∀ x, x ∈ items → covers target x).
Proof.
  unfold encode_shifts. intros Hb Hitems Hnd Hfold.
  apply (rfoldl_split_invariant _
    (λ pre (acc : list (tok * Z) * builder),
       builder_ok context acc.2 ∧ builder_le b acc.2
       ∧ (∀ t v, dict_get acc.1 t = Some v →
            ∃ a j, t = Tk a ∧ a ∈ pre.*1 ∧ v = Z.of_nat j
                   ∧ j < length (states acc.2))
       ∧ (∀ a items, (a, items) ∈ pre →
            ∃ j target, dict_get acc.1 (Tk a) = Some (Z.of_nat j)
                        ∧ states acc.2 !! j = Some target
                        ∧ ∀ x, x ∈ items → covers target x))) in Hfold.
  - by destruct Hfold as (_ & ? & ? & ?).
  - split; [done|]. split; [apply builder_le_refl|]. split; [done|].
    by intros a items ?%elem_of_nil.
  - intros pre [a items] post acc acc' Hl (Hacc & Hle & Hrow & Hcov) Hstep.
    unfold encode_shift in Hstep. cbn [fst snd] in Hstep.
    apply rbind_Ok in Hstep as (successor & Hs & Hstep).
    apply rbind_Ok in Hstep as ([i b1] & Hr & [= <-]). cbn [fst snd] in *.
    assert (Hin : (a, items) ∈ shift_items).
    { rewrite Hl. apply elem_of_app. right. left. }
    assert (Hsok : state_ok context successor).
    { rewrite Forall_forall in Hitems. apply (State_init_ok _ _ _ Hs (Hitems _ Hin)). }
    destruct (get_state_index_ok _ _ _ _ _ Hacc Hsok Hr) as (Hok & Hlen & _).
    destruct (get_state_index_le _ _ _ _ _ Hacc (proj1 Hsok) Hr)
      as (Hle1 & target & Htarget & Htcov).
    assert (Hfresh : a ∉ pre.*1).
    { rewrite Hl, fmap_app in Hnd. apply NoDup_app in Hnd as (_ & Hdisj & _).
      intros Ha. apply (Hdisj a Ha). simpl. left. }
    split; [done|]. split; [by eapply builder_le_trans|]. split.
    + intros t v. rewrite dict_get_set. destruct (decide (t = Tk a)) as [->|Hne].
      * intros [= <-]. exists a, i. split; [done|]. split.
        -- rewrite fmap_app. apply elem_of_app. right. simpl. left.
        -- split; [done|]. by eapply lookup_lt_Some.
      * intros (a' & j & -> & Ha' & -> & Hj)%Hrow. exists a', j. split; [done|]. split.
        -- rewrite fmap_app. apply elem_of_app. by left.
        -- split; [done | lia].
    + intros a' items' [Hpre|Hx%list_elem_of_singleton]%elem_of_app.
      * destruct (Hcov a' items' Hpre) as (j & tg & Hget & Htg & Hall).
        destruct (proj1 Hle1 j tg Htg) as (tg' & Htg' & Hle').
        exists j, tg'. rewrite dict_get_set, decide_False.
        -- split; [done|]. split; [done|]. intros x Hx. by apply (covers_le tg), Hall.
        -- intros [= <-]. apply Hfresh. apply list_elem_of_fmap. by exists (a', items').
      * injection Hx as -> ->. exists i, target.
        rewrite dict_get_set, decide_True by done. split; [done|]. split; [done|].
        intros x Hx. apply (covers_via successor); [|done].
        by apply (State_init_covers _ _ _ _ Hs).
Qed.

Lemma encode_ctns_le (context : PgenContext) (b b' : builder)
    (ctn_items : list (nt_name * list LRItem)) (row : list (nt_name * nat)) :
  builder_ok context b →
  Forall (λ kv, Forall (item_in_range context) kv.2) ctn_items →
  NoDup ctn_items.*1 →
  encode_ctns context b ctn_items = Ok (row, b') →
  builder_le b b'
  ∧ (∀ n j, dict_get row n = Some j → n ∈ ctn_items.*1 ∧ j < length (states b'))
  ∧ (∀ n items, (n, items) ∈ ctn_items →
       ∃ j target, dict_get row n = Some j
                   ∧ states b' !! j = Some target
                   ∧ ∀ x, x ∈ items → covers target x).
Proof.
  unfold encode_ctns. intros Hb Hitems Hnd Hfold.
  apply (rfoldl_split_invariant _
    (λ pre (acc : list (nt_name * nat) * builder),
       builder_ok context acc.2 ∧ builder_le b acc.2
       ∧ (∀ n j, dict_get acc.1 n = Some j →
                 n ∈ pre.*1 ∧ j < length (states acc.2))
       ∧ (∀ n items, (n, items) ∈ pre →
            ∃ j target, dict_get acc.1 n = Some j
                        ∧ states acc.2 !! j = Some target
                        ∧ ∀ x, x ∈ items → covers target x))) in Hfold.
  - by destruct Hfold as (_ & ? & ? & ?).
  - split; [done|]. split; [apply builder_le_refl|]. split; [done|].
    by intros a items ?%elem_of_nil.
  - intros pre [a items] post acc acc' Hl (Hacc & Hle & Hrow & Hcov) Hstep.
    unfold encode_ctn in Hstep. cbn [fst snd] in Hstep.
    apply rbind_Ok in Hstep as (successor & Hs & Hstep).
    apply rbind_Ok in Hstep as ([i b1] & Hr & [= <-]). cbn [fst snd] in *.
    assert (Hin : (a, items) ∈ ctn_items).
    { rewrite Hl. apply elem_of_app. right. left. }
    assert (Hsok : state_ok context successor).
    { rewrite Forall_forall in Hitems. apply (State_init_ok _ _ _ Hs (Hitems _ Hin)). }
    destruct (get_state_index_ok _ _ _ _ _ Hacc Hsok Hr) as (Hok & Hlen & _).
    destruct (get_state_index_le _ _ _ _ _ Hacc (proj1 Hsok) Hr)
      as (Hle1 & target & Htarget & Htcov).
    assert (Hfresh : a ∉ pre.*1).
    { rewrite Hl, fmap_app in Hnd. apply NoDup_app in Hnd as (_ & Hdisj & _).
      intros Ha. apply (Hdisj a Ha). simpl. left. }
    split; [done|]. split; [by eapply builder_le_trans|]. split.
    + intros n j. rewrite dict_get_set. destruct (decide (n = a)) as [->|Hne].
      * intros [= <-]. split.
        -- rewrite fmap_app. apply elem_of_app. right. simpl. left.
        -- by eapply lookup_lt_Some.
      * intros [Hn Hj]%Hrow. split; [|lia].
        rewrite fmap_app. apply elem_of_app. by left.
    + intros a' items' [Hpre|Hx%list_elem_of_singleton]%elem_of_app.
      * destruct (Hcov a' items' Hpre) as (j & tg & Hget & Htg & Hall).
        destruct (proj1 Hle1 j tg Htg) as (tg' & Htg' & Hle').
        exists j, tg'. rewrite dict_get_set, decide_False.
        -- split; [done|]. split; [done|]. intros x Hx. by apply (covers_le tg), Hall.
        -- intros <-. apply Hfresh. apply list_elem_of_fmap. by exists (a', items').
      * injection Hx as -> ->. exists i, target.
        rewrite dict_get_set, decide_True by done. split; [done|]. split; [done|].
        intros x Hx. apply (covers_via successor); [|done].
        by apply (State_init_covers _ _ _ _ Hs).
Qed.

(** ** The graph of states: its shape *)

Lemma rows_in_range_mono (ACCEPT : Z) (context : PgenContext) (n m : nat) (s : State) :
  n ≤ m → rows_in_range ACCEPT context n s → rows_in_range ACCEPT context m s.
Proof.
  intros Hle [Ha Hc]. split.
  - intros row t v Hrow Hv. destruct (Ha row t v Hrow Hv) as [(j & -> & Hj)|?]; [|by right].
    left. exists j. split; [done | lia].
  - intros row nt j Hrow Hj. specialize (Hc row nt j Hrow Hj). lia.
Qed.

Lemma rows_in_range_eq (ACCEPT : Z) (context : PgenContext) (n : nat) (s s' : State) :
  action_row s' = action_row s → ctn_row s' = ctn_row s →
  rows_in_range ACCEPT context n s → rows_in_range ACCEPT context n s'.
Proof. unfold rows_in_range. by intros -> ->. Qed.

Lemma get_state_index_wf (ACCEPT : Z) (context : PgenContext) (hole : option nat)
    (b b' : builder) (successor : State) (i : nat) :
  builder_ok context b → graph_wf ACCEPT context hole b →
  state_ok context successor →
  action_row successor = None → ctn_row successor = None →
  get_state_index b successor = Ok (i, b') →
  graph_wf ACCEPT context hole b'.
Proof.
  intros [Hstates Hkeys] Hwf Hsok Harow Hcrow. unfold get_state_index.
  destruct (dict_get (states_by_key b) (key successor)) as [j|] eqn:Hj.
  - destruct (Hkeys _ _ Hj) as (s & Hs & Hk & Hid). rewrite Hs. simpl.
    intros ([self' changed] & Hupd & Hrest)%rbind_Ok. simpl in Hrest.
    assert (Hsok' : state_ok context s).
    { rewrite Forall_forall in Hstates. apply Hstates. by eapply list_elem_of_lookup_2. }
    destruct (State_update_ok _ _ _ _ _ Hsok' (proj1 Hsok) (eq_sym Hk) Hupd)
      as (_ & Hk' & Hid').
    destruct (State_update_le _ _ _ _ (proj1 Hsok') (proj1 Hsok) (eq_sym Hk) Hupd)
      as (_ & _ & Ha & Hc & _).
    rewrite Hid', Hid in Hrest. simpl in Hrest. injection Hrest as <- <-.
    assert (Hlt : j < length (states b)) by (by eapply lookup_lt_Some).
    intros k s0. simpl. rewrite length_insert.
    destruct (decide (k = j)) as [->|Hne].
    + rewrite list_lookup_insert_eq by done. intros [= <-].
      destruct (Hwf j s Hs) as (_ & Hreg & Hrange & Hrows).
      split; [congruence|]. split; [congruence|].
      split; [by apply (rows_in_range_eq _ _ _ s)|].
      destruct Hrows as [Hq|[?|?]].
      * left. destruct changed; [apply elem_of_app; by left | done].
      * right. by left.
      * right. right. by rewrite Ha, Hc.
    + rewrite list_lookup_insert_ne by done. intros Hs0.
      destruct (Hwf k s0 Hs0) as (? & ? & ? & Hrows). repeat (split; [done|]).
      destruct Hrows as [Hq|?]; [|by right].
      left. destruct changed; [apply elem_of_app; by left | done].
  - intros [= <- <-] k s0. simpl. rewrite length_app. simpl.
    destruct (decide (k < length (states b))) as [Hlt|Hge].
    + rewrite lookup_app_l by done. intros Hs0.
      destruct (Hwf k s0 Hs0) as (? & Hreg & Hrange & Hrows). split; [done|]. split.
      * rewrite dict_get_set, decide_False; [done|]. intros Heq.
        rewrite Heq in Hreg. congruence.
      * split; [apply (rows_in_range_mono _ _ (length (states b))); [lia | done]|].
        destruct Hrows as [Hq|?]; [|by right]. left. apply elem_of_app. by left.
    + intros Hs0. assert (k = length (states b)) as ->.
      { apply lookup_lt_Some in Hs0. rewrite length_app in Hs0. simpl in Hs0. lia. }
      rewrite lookup_app_r, Nat.sub_diag in Hs0 by done. injection Hs0 as <-. simpl.
      split; [done|]. split; [by rewrite dict_get_set, decide_True|]. split.
      * split; simpl; [by rewrite Harow | by rewrite Hcrow].
      * left. apply elem_of_app. right. by apply list_elem_of_singleton.
Qed.

Lemma encode_shifts_wf (ACCEPT : Z) (context : PgenContext) (hole : option nat)
    (b b' : builder) (shift_items : list (terminal * list LRItem))
    (row : list (tok * Z)) :
  builder_ok context b → graph_wf ACCEPT context hole b →
  Forall (λ kv, Forall (item_in_range context) kv.2) shift_items →
  encode_shifts context b shift_items = Ok (row, b') →
  graph_wf ACCEPT context hole b'.
Proof.
  unfold encode_shifts. intros Hb Hwf Hitems Hfold.
  change b' with (row, b').2.
  apply (rfoldl_invariant _
           (λ acc : list (tok * Z) * builder,
              builder_ok context acc.2 ∧ graph_wf ACCEPT context hole acc.2)
           _ _ _ Hfold); [by split|].
  intros acc x acc' Hx [Hacc Hgw] Hstep. unfold encode_shift in Hstep.
  apply rbind_Ok in Hstep as (successor & Hs & Hstep).
  apply rbind_Ok in Hstep as ([i b1] & Hr & [= <-]). simpl.
  rewrite Forall_forall in Hitems.
  pose proof (State_init_ok _ _ _ Hs (Hitems _ Hx)) as Hsok.
  destruct (State_init_rows _ _ _ Hs) as [Ha Hc].
  split; [by destruct (get_state_index_ok _ _ _ _ _ Hacc Hsok Hr)|].
  by apply (get_state_index_wf _ _ _ _ _ _ _ Hacc Hgw Hsok Ha Hc Hr).
Qed.

Lemma encode_ctns_wf (ACCEPT : Z) (context : PgenContext) (hole : option nat)
    (b b' : builder) (ctn_items : list (nt_name * list LRItem))
    (row : list (nt_name * nat)) :
  builder_ok context b → graph_wf ACCEPT context hole b →
  Forall (λ kv, Forall (item_in_range context) kv.2) ctn_items →
  encode_ctns context b ctn_items = Ok (row, b') →
  graph_wf ACCEPT context hole b'.
Proof.
  unfold encode_ctns. intros Hb Hwf Hitems Hfold.
  change b' with (row, b').2.
  apply (rfoldl_invariant _
           (λ acc : list (nt_name * nat) * builder,
              builder_ok context acc.2 ∧ graph_wf ACCEPT context hole acc.2)
           _ _ _ Hfold); [by split|].
  intros acc x acc' Hx [Hacc Hgw] Hstep. unfold encode_ctn in Hstep.
  apply rbind_Ok in Hstep as (successor & Hs & Hstep).
  apply rbind_Ok in Hstep as ([i b1] & Hr & [= <-]). simpl.
  rewrite Forall_forall in Hitems.
  pose proof (State_init_ok _ _ _ Hs (Hitems _ Hx)) as Hsok.
  destruct (State_init_rows _ _ _ Hs) as [Ha Hc].
  split; [by destruct (get_state_index_ok _ _ _ _ _ Hacc Hsok Hr)|].
  by apply (get_state_index_wf _ _ _ _ _ _ _ Hacc Hgw Hsok Ha Hc Hr).
Qed.

Lemma encode_reduces_complete (ACCEPT : Z) (context : PgenContext)
    (row row' : list (tok * Z)) (reduce_prods : list (tok * nat)) :
  encode_reduces ACCEPT context row reduce_prods = Ok row' →
  (∀ t v, dict_get row t = Some v → dict_get row' t = Some v)
  ∧ (∀ t p, (t, p) ∈ reduce_prods →
       ∃ prod, context_prods context !! p = Some prod
               ∧ dict_get row' t = Some (match prod_nt prod with
                                         | InitNt _ => ACCEPT
                                         | _ => (- Z.of_nat p - 1)%Z
                                         end)).
Proof.
  unfold encode_reduces. revert row.
  induction reduce_prods as [|[t0 p0] reduce_prods IH]; intros row; simpl.
  - intros [= <-]. split; [done|]. by intros t p ?%elem_of_nil.
  - intros (row1 & Hstep & Hrest)%rbind_Ok.
    apply rbind_Ok in Hstep as (prod & Hprod%of_option_Ok & Hstep). simpl in *.
    destruct (dict_get row t0) eqn:Hrow0; [done|]. injection Hstep as <-.
    destruct (IH _ Hrest) as [Hold Hnew]. split.
    + intros t v Hv. apply Hold. rewrite dict_get_set, decide_False; [done|].
      congruence.
    + intros t p [[= -> ->]|Hin]%elem_of_cons; [|by apply Hnew].
      exists prod. split; [done|]. apply Hold. by rewrite dict_get_set, decide_True.
Qed.

Section graph_shape.

Context (ACCEPT : Z).

Lemma State_analyze_wf (fuel : nat) (context : PgenContext) (b b' : builder) (i : nat) :
  builder_ok context b → graph_wf ACCEPT context (Some i) b →
  State_analyze ACCEPT fuel context b i = Ok b' →
  graph_wf ACCEPT context None b' ∧ length (states b) ≤ length (states b').
Proof.
  intros Hb Hwf. unfold State_analyze.
  intros (self & Hself%of_option_Ok & Hrest)%rbind_Ok.
  apply rbind_Ok in Hrest as (closure & Hclosure & Hrest).
  apply rbind_Ok in Hrest as (tables & Htables & Hrest).
  apply rbind_Ok in Hrest as ([shifted b1] & Hshift & Hrest).
  apply rbind_Ok in Hrest as (row & Hreduce & Hrest).
  apply rbind_Ok in Hrest as ([ctns b2] & Hctn & Hrest).
  apply rbind_Ok in Hrest as (self' & Hself'%of_option_Ok & [= <-]). simpl in *.
  destruct (analyze_step1_in_range _ _ _ Htables) as [Hsh Hct].
  destruct (analyze_step1_NoDup _ _ _ Htables) as [Hnds Hndc].
  destruct (encode_shifts_ok _ _ _ _ _ Hb Hsh Hshift) as [Hb1 Hlen1].
  pose proof (encode_shifts_wf _ _ _ _ _ _ _ Hb Hwf Hsh Hshift) as Hwf1.
  destruct (encode_shifts_le _ _ _ _ _ Hb Hsh Hnds Hshift) as (_ & Hrow1 & _).
  destruct (encode_ctns_ok _ _ _ _ _ Hb1 Hct Hctn) as [Hb2 Hlen2].
  pose proof (encode_ctns_wf _ _ _ _ _ _ _ Hb1 Hwf1 Hct Hctn) as Hwf2.
  destruct (encode_ctns_le _ _ _ _ _ Hb1 Hct Hndc Hctn) as (_ & Hrow2 & _).
  assert (Hlt : i < length (states b2)) by (by eapply lookup_lt_Some).
  split; [|rewrite length_insert; lia].
  intros k s. simpl. rewrite length_insert. destruct (decide (k = i)) as [->|Hne].
  - rewrite list_lookup_insert_eq by done. intros [= <-]. simpl.
    destruct (Hwf2 i self' Hself') as (Hid & Hreg & _ & _).
    split; [done|]. split; [done|]. split; [|right; right; by split].
    split; simpl.
    + intros row0 t v [= <-] Hv.
      destruct (encode_reduces_spec _ _ _ _ _ Hreduce t v Hv)
        as [[Hget _]|(_ & p & prod & _ & Hprod & ->)].
      * destruct (Hrow1 t v Hget) as (a & j & _ & _ & -> & Hj).
        left. exists j. split; [done | lia].
      * right. by exists p, prod.
    + intros row0 nt j [= <-] Hj. by destruct (Hrow2 nt j Hj).
  - rewrite list_lookup_insert_ne by done. intros Hs.
    destruct (Hwf2 k s Hs) as (? & ? & ? & Hrows). repeat (split; [done|]).
    destruct Hrows as [?|[[= ->]|?]]; [by left | done | by right; right].
Qed.

Lemma analyze_loop_wf (fuel : nat) (context : PgenContext) (b b' : builder) :
  builder_ok context b → graph_wf ACCEPT context None b →
  analyze_loop ACCEPT fuel context b = Ok b' →
  graph_wf ACCEPT context None b' ∧ todo b' = []
  ∧ length (states b) ≤ length (states b').
Proof.
  revert b. induction fuel as [|fuel IH]; intros b Hb Hwf; simpl.
  - destruct (todo b) eqn:Htodo; [|done]. by intros [= <-].
  - destruct (todo b) as [|i rest] eqn:Htodo; [by intros [= <-]|].
    intros (b1 & Hanalyze & Hloop)%rbind_Ok.
    assert (Hb0 : builder_ok context (mkBuilder (states b) (states_by_key b) rest)).
    { exact Hb. }
    assert (Hwf0 : graph_wf ACCEPT context (Some i)
                     (mkBuilder (states b) (states_by_key b) rest)).
    { intros k s Hs. destruct (Hwf k s Hs) as (? & ? & ? & Hrows).
      repeat (split; [done|]). simpl in *. rewrite Htodo in Hrows.
      destruct Hrows as [[->|?]%elem_of_cons|[?|?]];
        [right; by left | by left | done | right; by right]. }
    destruct (State_analyze_wf _ _ _ _ _ Hb0 Hwf0 Hanalyze) as [Hwf1 Hlen1].
    destruct (IH b1) as (? & ? & ?); [|done|done|].
    + by eapply State_analyze_ok.
    + repeat (split; [done|]). simpl in Hlen1. lia.
Qed.

(** X26.  In the states that [analyze_states] returns, every state has its
    index as [id] and has both rows; an entry of an action row is the index
    of a returned state or the code of an existing production, and an entry
    of a [ctn_row] is the index of a returned state; no two states have the
    same key; and [init_state_map] has an entry for the goal of each initial
    nonterminal of the grammar and for nothing else, each the index of a
    returned state. *)
Theorem analyze_states_graph (fuel : nat) (context : PgenContext)
    (result : list State) (init_state_map : list (string * nat)) :
  analyze_states ACCEPT fuel context = Ok (result, init_state_map) →
  (∀ i s, result !! i = Some s →
     id s = Some i ∧ is_Some (action_row s) ∧ is_Some (ctn_row s)
     ∧ rows_in_range ACCEPT context (length result) s)
  ∧ (∀ i j s1 s2, result !! i = Some s1 → result !! j = Some s2 →
       key s1 = key s2 → i = j)
  ∧ (∀ goal, InitNt goal ∈ init_nts (context_grammar context)
             ↔ is_Some (dict_get init_state_map goal))
  ∧ (∀ goal j, dict_get init_state_map goal = Some j → j < length result).
Proof.
  unfold analyze_states. intros ([m b0] & Hstart & Hrest)%rbind_Ok.
  apply rbind_Ok in Hrest as (b & Hloop & [= <- <-]). simpl in *.
  apply (rfoldl_prefix_invariant _
    (λ pre (acc : list (string * nat) * builder),
       builder_ok context acc.2 ∧ graph_wf ACCEPT context None acc.2
       ∧ (∀ goal, InitNt goal ∈ pre ↔ is_Some (dict_get acc.1 goal))
       ∧ (∀ goal j, dict_get acc.1 goal = Some j → j < length (states acc.2))))
    in Hstart.
  - destruct Hstart as (Hb0 & Hwf0 & Hgoals & Hids). simpl in *.
    destruct (analyze_loop_wf _ _ _ _ Hb0 Hwf0 Hloop) as (Hwf & Htodo & Hlen).
    split; [|split; [|split; [done|]]].
    + intros i s Hs. destruct (Hwf i s Hs) as (Hid & _ & Hrange & Hrows).
      rewrite Htodo in Hrows. destruct Hrows as [?%elem_of_nil|[?|[??]]]; done.
    + intros i j s1 s2 Hs1 Hs2 Hkey.
      destruct (Hwf i s1 Hs1) as (_ & Hreg1 & _), (Hwf j s2 Hs2) as (_ & Hreg2 & _).
      rewrite Hkey in Hreg1. congruence.
    + intros goal j Hj. specialize (Hids goal j Hj). lia.
  - simpl. split; [|split; [done|split]].
    + split; [constructor | done].
    + intros goal. split; [by intros ?%elem_of_nil | by intros [? ?]].
    + done.
  - intros pre init_nt acc acc' (Hacc & Hgw & Hgoals & Hids) Hstep.
    unfold add_init_state in Hstep.
    apply rbind_Ok in Hstep as (goal & Hgoal & Hstep).
    apply rbind_Ok in Hstep as (found & _ & Hstep).
    apply rbind_Ok in Hstep as (start_item & Hmake & Hstep).
    apply rbind_Ok in Hstep as (init_state & Hinit & Hstep).
    apply rbind_Ok in Hstep as ([i b1] & Hr & [= <-]). simpl in *.
    destruct init_nt as [?|g]; [done|]. injection Hgoal as ->.
    assert (Hsok : state_ok context init_state).
    { apply (State_init_ok _ _ _ Hinit), Forall_singleton.
      apply (make_lr_item_in_range _ _ _ _ _ _ Hmake). intros; lia. }
    destruct (State_init_rows _ _ _ Hinit) as [Ha Hc].
    destruct (get_state_index_ok _ _ _ _ _ Hacc Hsok Hr) as (Hok & Hlen & s & Hs & _).
    split; [done|].
    split; [by apply (get_state_index_wf _ _ _ _ _ _ _ Hacc Hgw Hsok Ha Hc Hr)|].
    split.
    + intros goal'. rewrite elem_of_app, list_elem_of_singleton, dict_get_set.
      destruct (decide (goal' = goal)) as [->|Hne].
      * split; [by eexists | by right].
      * rewrite Hgoals. split; [by intros [?|[= ?]] | by left].
    + intros goal' j. rewrite dict_get_set.
      destruct (decide (goal' = goal)) as [->|Hne].
      * intros [= <-]. by eapply lookup_lt_Some.
      * intros Hj%Hids. lia.
Qed.

End graph_shape.

Lemma analyze_states_graph_witness :
  (∀ i s, arith_states !! i = Some s →
     id s = Some i ∧ is_Some (action_row s) ∧ is_Some (ctn_row s)
     ∧ rows_in_range accept_code arith_context (length arith_states) s)
  ∧ (∀ i j s1 s2, arith_states !! i = Some s1 → arith_states !! j = Some s2 →
       key s1 = key s2 → i = j)
  ∧ (∀ goal, InitNt goal ∈ init_nts (context_grammar arith_context)
             ↔ is_Some (dict_get [("E", 0)] goal))
  ∧ (∀ goal j, dict_get [("E", 0)] goal = Some j → j < length arith_states).
Proof.
  apply (analyze_states_graph accept_code 100 arith_context arith_states [("E", 0)]).
  vm_refl.
Defined.

(** ** The graph of states: its transitions *)

Lemma item_served_mono (ACCEPT : Z) (context : PgenContext) (sts sts' : list State)
    (s : State) (item : LRItem) :
  states_le sts sts' →
  item_served ACCEPT context sts s item → item_served ACCEPT context sts' s item.
Proof.
  intros Hle (prod & Hprod & Hserved). exists prod. split; [done|].
  destruct (prod_rhs prod !! offset item) as [[t|n|?|?]|]; try done.
  - intros Hla. destruct (Hserved Hla) as (row & j & tg & nx & ? & ? & Htg & ? & Hcov).
    destruct (Hle j tg Htg) as (tg' & Htg' & Hle').
    exists row, j, tg', nx. repeat (split; [done|]). by apply (covers_le tg).
  - destruct Hserved as (row & j & tg & nx & ? & ? & Htg & ? & Hcov).
    destruct (Hle j tg Htg) as (tg' & Htg' & Hle').
    exists row, j, tg', nx. repeat (split; [done|]). by apply (covers_le tg).
Qed.

Lemma graph_served_le (ACCEPT : Z) (context : PgenContext) (hole : option nat)
    (b b' : builder) :
  graph_served ACCEPT context hole b → builder_le b b' →
  graph_served ACCEPT context hole b'.
Proof.
  intros Hserved (Hle & Htodo & Hsame) k s' Hs'.
  destruct (Hsame k s' Hs') as [Hs|?]; [|by left].
  destruct (Hserved k s' Hs) as [?%Htodo|[?|Hok]]; [by left | right; by left |].
  right. right. intros root item Hroot Hreach.
  apply (item_served_mono _ _ (states b)); [done | by apply Hok with root].
Qed.

Lemma states_le_insert (sts : list State) (i : nat) (s s' : State) :
  sts !! i = Some s → state_le s s' → states_le sts (<[i := s']> sts).
Proof.
  intros Hs Hle j s0 Hs0. destruct (decide (j = i)) as [->|Hne].
  - exists s'. rewrite list_lookup_insert_eq by (by eapply lookup_lt_Some).
    split; [done|]. congruence.
  - exists s0. rewrite list_lookup_insert_ne by done.
    split; [done | apply state_le_refl].
Qed.

Lemma State_closure_reach (fuel : nat) (context : PgenContext) (self : State)
    (closure : list LRItem) :
  State_closure fuel context self = Ok closure →
  ∀ x, x ∈ closure
       ↔ ∃ root, root ∈ lr_items self ∧ rtc (steps_into context) root x.
Proof.
  unfold State_closure. intros Hloop.
  apply (closure_loop_spec
           (λ x, ∃ root, root ∈ lr_items self ∧ rtc (steps_into context) root x))
    in Hloop as (Hpre & Hclosed & Hreach).
  - intros x. split; [by apply Hreach|].
    intros (root & Hroot & Hsteps).
    assert (Hin : root ∈ closure).
    { destruct Hpre as [rest ->]. apply elem_of_app. by left. }
    clear Hroot. induction Hsteps as [|a b c Hab _ IH]; [done|].
    apply IH. by apply (Hclosed a).
  - done.
  - by intros item new Hin Hnot.
  - intros x y (root & Hroot & Hsteps) Hxy. exists root. split; [done|].
    by eapply rtc_r.
  - intros x Hx. by exists x.
Qed.

Section graph_transitions.

Context (ACCEPT : Z).

Lemma State_analyze_served (fuel : nat) (context : PgenContext) (b b' : builder)
    (i : nat) :
  builder_ok context b → graph_served ACCEPT context (Some i) b →
  State_analyze ACCEPT fuel context b i = Ok b' →
  graph_served ACCEPT context None b' ∧ states_le (states b) (states b').
Proof.
  intros Hb Hserved. unfold State_analyze.
  intros (self & Hself%of_option_Ok & Hrest)%rbind_Ok.
  apply rbind_Ok in Hrest as (closure & Hclosure & Hrest).
  apply rbind_Ok in Hrest as (tables & Htables & Hrest).
  apply rbind_Ok in Hrest as ([shifted b1] & Hshift & Hrest).
  apply rbind_Ok in Hrest as (row & Hreduce & Hrest).
  apply rbind_Ok in Hrest as ([ctns b2] & Hctn & Hrest).
  apply rbind_Ok in Hrest as (self' & Hself'%of_option_Ok & [= <-]). simpl in *.
  destruct (analyze_step1_in_range _ _ _ Htables) as [Hsh Hct].
  destruct (analyze_step1_NoDup _ _ _ Htables) as [Hnds Hndc].
  destruct (encode_shifts_ok _ _ _ _ _ Hb Hsh Hshift) as [Hb1 _].
  destruct (encode_shifts_le _ _ _ _ _ Hb Hsh Hnds Hshift) as (Hle1 & _ & Hcov1).
  destruct (encode_ctns_le _ _ _ _ _ Hb1 Hct Hndc Hctn) as (Hle2 & _ & Hcov2).
  destruct (encode_reduces_complete _ _ _ _ _ Hreduce) as [Hold Hnew].
  pose proof (builder_le_trans _ _ _ Hle1 Hle2) as Hle.
  pose proof (graph_served_le _ _ _ _ _ Hserved Hle) as Hserved2.
  set (final := mkState (lr_items self') (key self') (id self') (Some row) (Some ctns)).
  assert (Hfinal : states_le (states b2) (<[i := final]> (states b2))).
  { apply (states_le_insert _ _ self'); [done|]. split; [done|].
    intros x Hx. by exists x. }
  assert (Hlt : i < length (states b2)) by (by eapply lookup_lt_Some).
  split; [|by eapply states_le_trans; [apply Hle|]].
  intros k s. simpl. destruct (decide (k = i)) as [->|Hne].
  - rewrite list_lookup_insert_eq by done. intros [= <-].
    destruct (proj2 (proj2 Hle) i self' Hself') as [Hsame|Hqueued]; [|by left].
    right. right. assert (self' = self) as -> by congruence.
    intros root item Hroot Hreach.
    assert (Hin : item ∈ closure).
    { apply (State_closure_reach _ _ _ _ Hclosure). by exists root. }
    destruct (analyze_step1_complete _ _ _ Htables item Hin) as (prod & Hprod & Hrec).
    exists prod. split; [done|].
    destruct (prod_rhs prod !! offset item) as [[t|n|?|?]|]; try done.
    + intros Hla. destruct (Hrec Hla) as (nx & items & Hadv & Hget & Hnx).
      destruct (Hcov1 t items (dict_get_Some_elem _ _ _ Hget))
        as (j & tg & Hrow & Htg & Hall).
      destruct (proj1 Hle2 j tg Htg) as (tg2 & Htg2 & Hle2').
      destruct (Hfinal j tg2 Htg2) as (tg3 & Htg3 & Hle3).
      exists row, j, tg3, nx. split; [done|]. split; [by apply Hold|].
      split; [done|]. split; [done|].
      by apply (covers_le tg2), (covers_le tg), Hall.
    + destruct Hrec as (nx & items & Hadv & Hget & Hnx).
      destruct (Hcov2 n items (dict_get_Some_elem _ _ _ Hget))
        as (j & tg & Hrow & Htg & Hall).
      destruct (Hfinal j tg Htg) as (tg3 & Htg3 & Hle3).
      exists ctns, j, tg3, nx. repeat (split; [done|]).
      by apply (covers_le tg), Hall.
    + destruct Hrec as [Hla Hrec]. split; [done|]. intros t Ht Hf.
      destruct (Hnew t (prod_index item)) as (prod' & Hprod' & Hrow).
      { apply dict_get_Some_elem. by apply Hrec. }
      exists row. split; [done|]. by assert (prod' = prod) as -> by congruence.
  - rewrite list_lookup_insert_ne by done. intros Hs.
    destruct (Hserved2 k s Hs) as [?|[[= ->]|Hok]]; [by left | done |].
    right. right. intros root item Hroot Hreach.
    apply (item_served_mono _ _ (states b2)); [done | by apply Hok with root].
Qed.

Lemma analyze_loop_served (fuel : nat) (context : PgenContext) (b b' : builder) :
  builder_ok context b → graph_served ACCEPT context None b →
  analyze_loop ACCEPT fuel context b = Ok b' →
  graph_served ACCEPT context None b' ∧ todo b' = []
  ∧ states_le (states b) (states b').
Proof.
  revert b. induction fuel as [|fuel IH]; intros b Hb Hserved; simpl.
  - destruct (todo b) eqn:Htodo; [|done]. intros [= <-].
    split; [done|]. split; [done | apply states_le_refl].
  - destruct (todo b) as [|i rest] eqn:Htodo.
    { intros [= <-]. split; [done|]. split; [done | apply states_le_refl]. }
    intros (b1 & Hanalyze & Hloop)%rbind_Ok.
    assert (Hb0 : builder_ok context (mkBuilder (states b) (states_by_key b) rest)).
    { exact Hb. }
    assert (Hserved0 : graph_served ACCEPT context (Some i)
                         (mkBuilder (states b) (states_by_key b) rest)).
    { intros k s Hs. destruct (Hserved k s Hs) as [Hq|[?|?]]; [|done|right; by right].
      rewrite Htodo in Hq. apply elem_of_cons in Hq as [->|?]; [right|]; by left. }
    destruct (State_analyze_served _ _ _ _ _ Hb0 Hserved0 Hanalyze) as [Hserved1 Hle1].
    destruct (IH b1) as (? & ? & ?); [|done|done|].
    + by eapply State_analyze_ok.
    + repeat (split; [done|]). by eapply states_le_trans.
Qed.

(** X27.  In the states that [analyze_states] returns, the rows of every
    state serve every item of its closure: for an item in front of a
    terminal that its lookahead allows, the action row has for this terminal
    the index of a returned state that holds the advanced item with at least
    its [followed_by]; for an item in front of a nonterminal, [ctn_row] has
    such an index for this nonterminal; no item is in front of another kind
    of element; for an item at the end of its production, which has no
    lookahead left, the action row has the code of the production for every
    terminal of its [followed_by] that is in the follow set of the
    production's nonterminal.  And the state that [init_state_map] gives for
    a goal holds the start item of the production [InitNt(goal) ::= goal],
    with [END] in its [followed_by]. *)
Theorem analyze_states_transitions (fuel : nat) (context : PgenContext)
    (result : list State) (init_state_map : list (string * nat)) :
  analyze_states ACCEPT fuel context = Ok (result, init_state_map) →
  (∀ i s fuel' closure item,
     result !! i = Some s → State_closure fuel' context s = Ok closure →
     item ∈ closure → item_served ACCEPT context result s item)
  ∧ (∀ goal j, dict_get init_state_map goal = Some j →
       ∃ s p prod start_item,
         result !! j = Some s
         ∧ context_prods context !! p = Some prod
         ∧ is_init_prod (InitNt goal) goal prod = true
         ∧ make_lr_item context p 0 None {[ END ]} = Ok start_item
         ∧ covers s start_item).
Proof.
  unfold analyze_states. intros ([m b0] & Hstart & Hrest)%rbind_Ok.
  apply rbind_Ok in Hrest as (b & Hloop & [= <- <-]). simpl in *.
  apply (rfoldl_invariant _
    (λ acc : list (string * nat) * builder,
       builder_ok context acc.2 ∧ graph_served ACCEPT context None acc.2
       ∧ (∀ goal j, dict_get acc.1 goal = Some j →
            ∃ s p prod start_item,
              states acc.2 !! j = Some s
              ∧ context_prods context !! p = Some prod
              ∧ is_init_prod (InitNt goal) goal prod = true
              ∧ make_lr_item context p 0 None {[ END ]} = Ok start_item
              ∧ covers s start_item))) in Hstart.
  - destruct Hstart as (Hb0 & Hserved0 & Hinit). simpl in *.
    destruct (analyze_loop_served _ _ _ _ Hb0 Hserved0 Hloop) as (Hserved & Htodo & Hle).
    split.
    + intros i s fuel' closure item Hs Hclosure Hin.
      destruct (Hserved i s Hs) as [Hq|[?|Hok]]; [|done|].
      * rewrite Htodo in Hq. by apply elem_of_nil in Hq.
      * apply (State_closure_reach _ _ _ _ Hclosure) in Hin as (root & Hroot & Hreach).
        by apply Hok with root.
    + intros goal j Hj.
      destruct (Hinit goal j Hj) as (s & p & prod & start_item & Hs & ? & ? & ? & Hcov).
      destruct (Hle j s Hs) as (s' & Hs' & Hle').
      exists s', p, prod, start_item. repeat (split; [done|]). by apply (covers_le s).
  - simpl. split; [|split; [by intros k s|done]]. split; [constructor | done].
  - intros acc init_nt acc' _ (Hacc & Hserved & Hinit) Hstep.
    unfold add_init_state in Hstep.
    apply rbind_Ok in Hstep as (goal & Hgoal & Hstep).
    apply rbind_Ok in Hstep as ([p prod] & Hfound%of_option_Ok & Hstep).
    apply rbind_Ok in Hstep as (start_item & Hmake & Hstep).
    apply rbind_Ok in Hstep as (init_state & Hstate & Hstep).
    apply rbind_Ok in Hstep as ([i b1] & Hr & [= <-]). simpl in *.
    destruct init_nt as [?|g]; [done|]. injection Hgoal as ->.
    apply list_find_Some in Hfound as (Hprod & Hp & _).
    assert (Hsok : state_ok context init_state).
    { apply (State_init_ok _ _ _ Hstate), Forall_singleton.
      apply (make_lr_item_in_range _ _ _ _ _ _ Hmake). intros; lia. }
    destruct (get_state_index_ok _ _ _ _ _ Hacc Hsok Hr) as (Hok & _ & _).
    destruct (get_state_index_le _ _ _ _ _ Hacc (proj1 Hsok) Hr)
      as (Hle & target & Htarget & Hcov).
    split; [done|]. split; [by apply (graph_served_le _ _ _ acc.2)|].
    intros goal' j. rewrite dict_get_set.
    destruct (decide (goal' = goal)) as [->|Hne].
    + intros [= <-]. exists target, p, prod, start_item. repeat (split; [done|]).
      apply (covers_via init_state); [|done].
      apply (State_init_covers _ _ _ _ Hstate). by apply list_elem_of_singleton.
    + intros (s & p' & prod' & item' & Hs & ? & ? & ? & Hcov')%Hinit.
      destruct (proj1 Hle j s Hs) as (s' & Hs' & Hle').
      exists s', p', prod', item'. repeat (split; [done|]). by apply (covers_le s).
Qed.

End graph_transitions.

Lemma analyze_states_transitions_witness :
  (∀ i s fuel' closure item,
     arith_states !! i = Some s → State_closure fuel' arith_context s = Ok closure →
     item ∈ closure → item_served accept_code arith_context arith_states s item)
  ∧ (∀ goal j, dict_get [("E", 0)] goal = Some j →
       ∃ s p prod start_item,
         arith_states !! j = Some s
         ∧ context_prods arith_context !! p = Some prod
         ∧ is_init_prod (InitNt goal) goal prod = true
         ∧ make_lr_item arith_context p 0 None {[ END ]} = Ok start_item
         ∧ covers s start_item).
Proof.
  apply (analyze_states_transitions accept_code 100 arith_context arith_states
           [("E", 0)]).
  vm_refl.
Defined.

(** ** Looking a state up again *)

Lemma covers_same_key (s : State) (x i : LRItem) :
  state_wf s → covers s x → i ∈ lr_items s → item_key x = item_key i →
  followed_by x ⊆ followed_by i.
Proof.
  intros [Hnd _] (y & Hy & Hk & Hsub) Hi Hkey.
  assert (y = i) as ->; [|done].
  apply list_elem_of_lookup in Hy as [n Hn], Hi as [m Hm].
  assert (n = m) as ->; [|congruence].
  apply (NoDup_lookup _ n m (item_key y) Hnd).
  - change (map item_key (lr_items s)) with (item_key <$> lr_items s).
    by rewrite list_lookup_fmap, Hn.
  - change (map item_key (lr_items s)) with (item_key <$> lr_items s).
    rewrite list_lookup_fmap, Hm. simpl. congruence.
Qed.

(** X28.  Once [get_state_index(successor)] has returned [i], the state
    [states[i]] has the key of [successor] and covers its items; a further
    call with the same successor returns [i] again and changes nothing (no
    state is changed, added or queued); and a call with any state that has
    the same key returns [i] as well, without adding a state. *)
Theorem get_state_index_again (context : PgenContext) (b b1 : builder)
    (successor : State) (i : nat) :
  builder_ok context b → state_ok context successor →
  get_state_index b successor = Ok (i, b1) →
  (∃ target, states b1 !! i = Some target ∧ key target = key successor
             ∧ ∀ x, x ∈ lr_items successor → covers target x)
  ∧ get_state_index b1 successor = Ok (i, b1)
  ∧ ∀ other, state_wf other → key other = key successor →
      ∃ b2, get_state_index b1 other = Ok (i, b2)
            ∧ length (states b2) = length (states b1)
            ∧ states_by_key b2 = states_by_key b1.
Proof.
  intros Hb Hsok Hr.
  destruct (get_state_index_ok _ _ _ _ _ Hb Hsok Hr)
    as ([Hstates1 Hkeys1] & _ & s & Hs & Hk & Hid).
  destruct (get_state_index_le _ _ _ _ _ Hb (proj1 Hsok) Hr)
    as (_ & target & Htarget & Hcov).
  assert (target = s) as -> by congruence.
  assert (Hreg : dict_get (states_by_key b1) (key successor) = Some i).
  { revert Hr. unfold get_state_index.
    destruct (dict_get (states_by_key b) (key successor)) as [j|] eqn:Hj.
    - destruct Hb as [_ Hkeys]. destruct (Hkeys _ _ Hj) as (s0 & Hs0 & Hk0 & Hid0).
      rewrite Hs0. simpl. intros ([self' changed] & Hupd & Hrest)%rbind_Ok.
      apply rbind_Ok in Hrest as (state_id & Hsid%of_option_Ok & [= <- <-]). simpl in *.
      destruct (Hkeys1 _ _ Hj) as (s1 & Hs1 & _ & Hid1).
      rewrite list_lookup_insert_eq in Hs1 by (by eapply lookup_lt_Some).
      injection Hs1 as <-. congruence.
    - intros [= <- <-]. simpl. by rewrite dict_get_set, decide_True. }
  assert (Hswf : state_wf s).
  { rewrite Forall_forall in Hstates1.
    by apply (Hstates1 s), list_elem_of_lookup_2 with i. }
  split; [by exists s|]. split.
  - unfold get_state_index. rewrite Hreg, Hs. simpl.
    destruct (State_update_computes s successor Hswf (proj1 Hsok) (eq_sym Hk))
      as (_ & changed & Hchanged & Hupd).
    assert (changed = false) as ->.
    { apply Hchanged. intros x n Hx Hn Hkey.
      by apply (covers_same_key s n x Hswf (Hcov n Hn) Hx). }
    rewrite Hupd. simpl. rewrite Hid. simpl.
    rewrite list_insert_id by done. by destruct b1.
  - intros other Hwf Hkey. unfold get_state_index. rewrite Hkey, Hreg, Hs. simpl.
    destruct (State_update_computes s other Hswf Hwf) as (_ & changed & _ & Hupd);
      [congruence|].
    rewrite Hupd. simpl.
    destruct changed; simpl; rewrite Hid; simpl; eexists;
      (split; [reflexivity|]); simpl; by rewrite length_insert.
Qed.

Lemma get_state_index_again_witness :
  (∃ target, states merge_builder !! 0 = Some target ∧ key target = key merge_new
             ∧ ∀ x, x ∈ lr_items merge_new → covers target x)
  ∧ get_state_index merge_builder merge_new = Ok (0, merge_builder)
  ∧ ∀ other, state_wf other → key other = key merge_new →
      ∃ b2, get_state_index merge_builder other = Ok (0, b2)
            ∧ length (states b2) = length (states merge_builder)
            ∧ states_by_key b2 = states_by_key merge_builder.
Proof.
  apply (get_state_index_again arith_context (mkBuilder [] [] []) merge_builder
           merge_new 0).
  - split; [constructor | by intros k i].
  - split.
    + split; [refine (bool_decide_unpack _ _); vm_compute; exact I | vm_refl].
    + repeat constructor; eexists; (split; [reflexivity | simpl; lia]).
  - vm_refl.
Defined.

(** ** The path algorithm: the path is a shortest one *)

Section find_path_levels_properties.

Context {P E : Type} `{EqDecision P}.
Context (successors : P → list (E * P)) (test : P → bool).

Lemma depth_functional (links : list (P * option (P * E))) (p : P) (n m : nat) :
  depth links p n → depth links p m → n = m.
Proof.
  intros Hn. revert m. induction Hn as [p Hp|p a e n Hp Ha IH]; intros m Hm.
  - destruct Hm as [p Hq|p a e m Hq Hm]; [done | congruence].
  - destruct Hm as [p Hq|p a' e' m Hq Hm]; [congruence|].
    assert (a' = a) as -> by congruence. f_equal. by apply IH.
Qed.

Lemma depth_is_Some (links : list (P * option (P * E))) (p : P) (n : nat) :
  depth links p n → is_Some (dict_get links p).
Proof. destruct 1; by eexists. Qed.

Lemma depth_dict_set (links : list (P * option (P * E))) (k p : P)
    (v : option (P * E)) (n : nat) :
  dict_get links k = None → depth links p n → depth (dict_set links k v) p n.
Proof.
  intros Hk. induction 1 as [p Hp|p a e n Hp Ha IH].
  - apply depth_root. rewrite dict_get_set, decide_False; [done | congruence].
  - apply depth_link with a e; [|done].
    rewrite dict_get_set, decide_False; [done | congruence].
Qed.

Lemma is_path_reach_in (start_set : list P) (a z : P) (path : list (path_elem P E)) :
  is_path successors a path z →
  ∃ m, length path = 2 * m + 1
       ∧ ∀ n, reach_in successors start_set n a →
              reach_in successors start_set (n + m) z.
Proof.
  induction 1 as [p|a e b rest z Hedge Hrest (m & Hlen & IH)].
  - exists 0. split; [done|]. intros n. by rewrite Nat.add_0_r.
  - exists (S m). split; [simpl; lia|]. intros n Hn.
    replace (n + S m) with (S n + m) by lia. apply IH. by eapply reach_in_step.
Qed.

Lemma trace_back_length (links : list (P * option (P * E))) (b : P) (n : nat) :
  depth links b n →
  ∀ fuel path r, trace_back fuel links b path = Ok r →
                 length r = length path + 2 * n.
Proof.
  induction 1 as [p Hp|p a e n Hp Ha IH]; intros fuel path r.
  - destruct fuel; simpl; rewrite Hp; intros [= <-]; lia.
  - destruct fuel as [|fuel]; simpl; rewrite Hp; [done|].
    intros Hr%IH. rewrite length_app in Hr. simpl in Hr. lia.
Qed.

Lemma scan_successors_levels (start_set : list P) (a : P) (succ : list (E * P))
    (links : list (P * option (P * E))) (front back : list P) (k : nat) :
  scan_ok successors test start_set a succ links front back k →
  match scan_successors test a succ links (front ++ back) with
  | inl (b, links') =>
      depth links' b (S k)
      ∧ ∀ m z, reach_in successors start_set m z → test z = true → S k ≤ m
  | inr (links', todo') =>
      ∃ back', todo' = front ++ back'
               ∧ bfs_ok successors test start_set links' front back' k
  end.
Proof.
  revert links back.
  induction succ as [|[edge b] rest IH]; intros links back
    (Hmin & Hfront & Hback & Ha & Hreach & Htest & Hdone); simpl.
  - exists back. split; [done|]. repeat (split; [done|]).
    intros a' e b Ha' Hnot Hedge.
    destruct (Hdone a' e b Ha' Hnot Hedge) as [?|[_ ?%elem_of_nil]]; done.
  - destruct (dict_get links b) as [v|] eqn:Hb.
    + apply IH. repeat (split; [done|]). intros a' e b' Ha' Hnot Hedge.
      destruct (Hdone a' e b' Ha' Hnot Hedge) as [?|[-> [[= -> ->]|?]%elem_of_cons]];
        [by left | left; by eexists | by right].
    + assert (Hb1 : depth (dict_set links b (Some (a, edge))) b (S k)).
      { apply depth_link with a edge; [by rewrite dict_get_set, decide_True|].
        by apply depth_dict_set. }
      assert (Hlate : ∀ m, reach_in successors start_set m b → S k ≤ m).
      { intros m Hm. destruct (decide (m ≤ k)) as [Hle|]; [|lia].
        destruct (Hreach m b Hm Hle) as [? ?]. congruence. }
      destruct (test b) eqn:Htb.
      * split; [done|]. intros m z Hm Hz.
        destruct (decide (m ≤ k)) as [Hle|]; [|lia].
        rewrite (Htest z) in Hz; [done | by apply (Hreach m)].
      * rewrite <- app_assoc. apply IH. split; [|split; [|split; [|split; [|split; [|split]]]]].
        -- intros p [->|Hp]%is_Some_dict_set; [by exists (S k)|].
           destruct (Hmin p Hp) as (n & Hn & Hle). exists n. split; [|done].
           by apply depth_dict_set.
        -- intros p Hp. by apply depth_dict_set, Hfront.
        -- intros p [Hp| ->%list_elem_of_singleton]%elem_of_app; [|done].
           by apply depth_dict_set, Hback.
        -- by apply depth_dict_set.
        -- intros m p Hm Hle. apply is_Some_dict_set. right. by apply (Hreach m).
        -- intros p [->|Hp]%is_Some_dict_set; [done | by apply Htest].
        -- intros a' e b' [->|Ha']%is_Some_dict_set Hnot Hedge.
           { destruct Hnot. rewrite app_assoc. apply elem_of_app. right.
             by apply list_elem_of_singleton. }
           destruct (Hdone a' e b' Ha') as [?|[-> [[= -> ->]|?]%elem_of_cons]];
             [|done|left; apply is_Some_dict_set; by right
              |left; apply is_Some_dict_set; by left|by right].
           intros Hin. apply Hnot. rewrite app_assoc. apply elem_of_app. by left.
Qed.

Lemma bfs_ok_next_level (start_set : list P) (links : list (P * option (P * E)))
    (back : list P) (k : nat) :
  bfs_ok successors test start_set links [] back k →
  bfs_ok successors test start_set links back [] (S k).
Proof.
  intros (Hmin & _ & Hback & Hreach & Htest & Hdone).
  repeat (split; [done|]). split; [by intros p ?%elem_of_nil|]. split; [|split; [done|]].
  - intros m p Hm Hle. destruct (decide (m ≤ k)) as [Hle'|Hgt]; [by apply (Hreach m)|].
    assert (m = S k) as -> by lia.
    inversion Hm as [|k0 q e b0 Hq Hedge]; subst.
    apply (Hdone q e p); [by apply (Hreach k)| |done].
    destruct (Hmin q) as (n & Hn & Hle''); [by apply (Hreach k)|].
    specialize (Hle'' k Hq). simpl. intros Hin%Hback.
    pose proof (depth_functional _ _ _ _ Hn Hin). lia.
  - intros a' e b Ha' Hnot. apply Hdone; [done|]. by rewrite app_nil_r in Hnot.
Qed.

Lemma search_loop_levels (start_set : list P) (fuel : nat)
    (links links' : list (P * option (P * E))) (front back : list P) (k : nat) (b : P) :
  bfs_ok successors test start_set links front back k →
  search_loop successors test fuel links (front ++ back) = Ok (Some (b, links')) →
  ∃ n, depth links' b n
       ∧ ∀ m z, reach_in successors start_set m z → test z = true → n ≤ m.
Proof.
  revert links front back k. induction fuel as [|fuel IH]; intros links front back k.
  { destruct front, back; done. }
  assert (Hstep : ∀ a front' back' k',
            bfs_ok successors test start_set links (a :: front') back' k' →
            search_loop successors test (S fuel) links (a :: front' ++ back')
            = Ok (Some (b, links')) →
            ∃ n, depth links' b n
                 ∧ ∀ m z, reach_in successors start_set m z → test z = true → n ≤ m).
  { intros a front' back' k' (Hmin & Hfront & Hback & Hreach & Htest & Hdone). simpl.
    pose proof (scan_successors_levels start_set a (successors a) links front' back' k')
      as Hscan.
    destruct (scan_successors test a (successors a) links (front' ++ back'))
      as [[b1 links1]|[links1 todo1]].
    - intros [= -> ->]. exists (S k'). apply Hscan.
      split; [done|]. split; [intros p Hp; apply Hfront; by right|].
      split; [done|]. split; [apply Hfront; by left|]. repeat (split; [done|]).
      intros a' e b' Ha' Hnot Hedge. destruct (decide (a' = a)) as [->|Hne].
      + right. done.
      + left. apply (Hdone a' e b'); [done| |done].
        intros [?|?]%elem_of_cons; done.
    - intros Hloop. destruct Hscan as (back1 & -> & Hok).
      + split; [done|]. split; [intros p Hp; apply Hfront; by right|].
        split; [done|]. split; [apply Hfront; by left|]. repeat (split; [done|]).
        intros a' e b' Ha' Hnot Hedge. destruct (decide (a' = a)) as [->|Hne].
        * right. done.
        * left. apply (Hdone a' e b'); [done| |done].
          intros [?|?]%elem_of_cons; done.
      + by apply (IH _ _ _ _ Hok). }
  intros Hok. destruct front as [|a front'].
  - destruct back as [|a back']; [done|]. intros Hloop.
    apply (Hstep a back' [] (S k)); [by apply bfs_ok_next_level|].
    by rewrite app_nil_r.
  - intros Hloop. by apply (Hstep a front' back k).
Qed.

Lemma seed_loop_roots (start_set : list P) (links links' : list (P * option (P * E)))
    (todo todo' : list P) :
  seed_loop test start_set links todo = inr (links', todo') →
  (∀ p v, dict_get links p = Some v → v = None) →
  ∀ p v, dict_get links' p = Some v → v = None.
Proof.
  clear successors.
  revert links todo. induction start_set as [|q rest IH]; intros links todo; simpl.
  - by intros [= <- _].
  - destruct (dict_get links q) eqn:Hq; [apply IH|].
    destruct (test q); [done|]. intros Hloop Hroots. apply (IH _ _ Hloop).
    intros p v. rewrite dict_get_set. destruct (decide (p = q)); [congruence|].
    apply Hroots.
Qed.

(** X29.  The path that [find_path] returns is a shortest one, as its
    docstring says: no path from a point of [start_set] to a point that
    passes [test] has fewer elements. *)
Theorem find_path_shortest (fuel : nat) (start_set : list P)
    (path : list (path_elem P E)) :
  find_path successors test fuel start_set = Ok (Some path) →
  ∀ a z other, a ∈ start_set → is_path successors a other z → test z = true →
               length path ≤ length other.
Proof.
  unfold find_path.
  destruct (seed_loop test start_set [] []) as [p|[links todo]] eqn:Hseed.
  - intros [= <-] a z other _ Hother _. destruct Hother; simpl; lia.
  - intros ([[b links']|] & Hsearch & Hpath)%rbind_Ok; [|done].
    apply rbind_Ok in Hpath as (steps & Htrace & [= <-]).
    intros a z other Ha Hother Hz.
    destruct (seed_loop_search_ok test start_set [] links [] todo Hseed)
      as (Hbound & Htest & Hstart & _).
    { intros p. split; [by intros [? ?] | by intros ?%elem_of_nil]. }
    { by intros p ?%elem_of_nil. }
    pose proof (seed_loop_roots _ _ _ _ _ Hseed ltac:(done)) as Hroots.
    assert (Hok : bfs_ok successors test start_set links todo [] 0).
    { assert (Hzero : ∀ p, is_Some (dict_get links p) → depth links p 0).
      { intros p [v Hv]. apply depth_root. by rewrite Hv, (Hroots p v Hv). }
      split; [|split; [|split; [|split; [|split]]]].
      - intros p Hp. exists 0. split; [by apply Hzero | lia].
      - intros p Hp. by apply Hzero, Hbound.
      - by intros p ?%elem_of_nil.
      - intros m p Hm Hle. inversion Hm; subst; [|lia]. by apply Hbound, Hstart.
      - intros p Hp. by apply Htest, Hbound.
      - intros a' e b' Ha' Hnot. destruct Hnot. rewrite app_nil_r. by apply Hbound. }
    rewrite <- (app_nil_r todo) in Hsearch.
    destruct (search_loop_levels _ _ _ _ _ _ _ _ Hok Hsearch) as (n & Hn & Hleast).
    pose proof (trace_back_length _ _ _ Hn _ _ _ Htrace) as Hlen.
    destruct (is_path_reach_in start_set _ _ _ Hother) as (m & Hm & Hreach).
    specialize (Hleast (0 + m) z (Hreach 0 (reach_in_start _ _ _ Ha)) Hz).
    rewrite length_reverse, Hlen, Hm. simpl. lia.
Qed.

End find_path_levels_properties.

Lemma find_path_shortest_witness :
  ∃ path,
    find_path chain_successors chain_test 10 [0] = Ok (Some path)
    ∧ ∀ a z other, a ∈ [0] → is_path chain_successors a other z → chain_test z = true →
                   length path ≤ length other.
Proof.
  eexists. split; [vm_compute; reflexivity|].
  apply (find_path_shortest chain_successors chain_test 10 [0]). vm_compute. reflexivity.
Defined.

(** ** Stepping in stays within the final grammar *)

Lemma dict_get_aligned {K V W} `{EqDecision K} (R : K → V → W → Prop)
    (d : list (K * V)) (d' : list (K * W)) (k : K) (w : W) :
  Forall2 (λ x y, x.1 = y.1 ∧ R x.1 x.2 y.2) d d' →
  dict_get d' k = Some w →
  ∃ v, dict_get d k = Some v ∧ R k v w.
Proof.
  induction 1 as [|[k1 v1] [k2 w2] d d' [Hk HR] _ IH]; simpl in *; [done|].
  subst k2. destruct (decide (k = k1)) as [->|]; [|exact IH].
  intros [= <-]. by exists v1.
Qed.

Lemma dict_get_map_pair {K V W} `{EqDecision K} (g : K → V → W)
    (d : list (K * V)) (k : K) :
  dict_get (map (λ '(key, v), (key, g key v)) d) k = g k <$> dict_get d k.
Proof.
  induction d as [|[k' v] d IH]; simpl; [done|].
  destruct (decide (k = k')) as [->|]; [done | exact IH].
Qed.

(** X30.  In the data that [generate_parser] gathers, [State.closure] steps
    only into productions of the final grammar: the flat production that a
    new item starts belongs to the nonterminal after the dot of the item
    stepped from, its right-hand side is the body of a production that the
    grammar still has for this nonterminal after
    [make_epsilon_free_step_2], and it is empty only for a goal
    nonterminal. *)
Theorem steps_into_final_grammar (debug : bool) (grammar : Grammar)
    (context : PgenContext) (item new_item : LRItem) :
  make_context debug grammar = Ok context →
  steps_into context item new_item →
  ∃ prod0 next_symbol prod plist p,
    context_prods context !! prod_index item = Some prod0
    ∧ prod_rhs prod0 !! offset item = Some (Nt next_symbol)
    ∧ context_prods context !! prod_index new_item = Some prod
    ∧ prod_nt prod = next_symbol
    ∧ dict_get (nonterminals (context_grammar context)) next_symbol = Some plist
    ∧ p ∈ plist ∧ p_body p = prod_rhs prod
    ∧ (prod_rhs prod = [] → next_symbol ∈ goals (context_grammar context)).
Proof.
  unfold make_context.
  destruct (lower_grammar grammar) as [[[final prods] by_nt]|] eqn:Hlower; [|done].
  intros (start & _ & (cache & _ & (follow & _ & [= <-])%rbind_Ok)%rbind_Ok)%rbind_Ok.
  intros (prod0 & N & k & rhs & followers & Hprod0 & Hnext & Hin & Hstill & _ & Hmake).
  cbn [context_prods context_grammar context_prods_with_indexes_by_nt] in *.
  apply make_lr_item_spec in Hmake as (Hk & _). cbn [context_prods] in Hk.
  revert Hlower. unfold lower_grammar.
  intros ([] & _ & ([] & _ & (grammar1 & _ & Hexp)%rbind_Ok)%rbind_Ok)%rbind_Ok.
  destruct (expand_all_optional_elements grammar1) as [[[grammar2 ps] bn]|] eqn:Hall;
    [|done].
  injection Hexp as <- <- <-.
  revert Hall. unfold expand_all_optional_elements.
  intros ([[eg ps'] bn'] & Hloop & [= <- <- <-])%rbind_Ok.
  apply expand_all_loop_indexes in Hloop as (Hagree & _ & _);
    [|apply Forall2_nil; done|intros ??; by rewrite lookup_nil].
  unfold prods_of in Hin.
  destruct (dict_get bn' N) as [entries|] eqn:Hentries; [|by apply elem_of_nil in Hin].
  simpl in Hin.
  destruct (dict_get_aligned
              (λ n plist entries,
                 Forall2 (λ q e, ∃ prod, ps' !! e.1 = Some prod
                                         ∧ prod_nt prod = n ∧ prod_rhs prod = e.2
                                         ∧ p_body q = e.2)
                         plist entries)
              eg bn' N entries) as (plist2 & Hplist2 & Hall); [|done|].
  { eapply Forall2_impl; [exact Hagree|]. intros x y [Hxy Hl]. split; [done|].
    eapply Forall2_impl; [exact Hl|].
    intros q e (prod & ? & ? & ? & ? & _). by exists prod. }
  apply list_elem_of_lookup in Hin as [j Hj].
  destruct (Forall2_lookup_r _ _ _ _ _ Hall Hj)
    as (q & Hq & prod & Hprod & Hnt & Hrhs & Hbody).
  cbn [fst snd] in *.
  set (keep := λ (nt : nt_name) (plist : list Production),
         filter (λ p, 0 < length (p_body p) ∨ nt ∈ goals grammar1) plist).
  assert (Hfinal : dict_get (nonterminals (make_epsilon_free_step_2
                                             (with_nonterminals grammar1 eg))) N
                   = Some (keep N plist2)).
  { unfold make_epsilon_free_step_2. cbn [nonterminals with_nonterminals goals].
    by rewrite (dict_get_map_pair keep), Hplist2. }
  exists prod0, N, prod. rewrite Hk.
  destruct Hstill as [Hne|(plist & p & Hplist & Hp & Hpbody)].
  - exists (keep N plist2), q. repeat (split; [done|]).
    split; [|split; [congruence|]].
    + apply list_elem_of_filter. split; [|by eapply list_elem_of_lookup_2].
      left. rewrite Hbody. destruct rhs; [done | simpl; lia].
    + intros Hempty. destruct Hne. congruence.
  - exists plist, p. repeat (split; [done|]). split; [congruence|].
    intros Hempty. rewrite Hfinal in Hplist. injection Hplist as <-.
    apply list_elem_of_filter in Hp as [[Hlen|Hgoal] _]; [|done].
    rewrite Hpbody, <- Hrhs, Hempty in Hlen. simpl in Hlen. lia.
Qed.

Lemma steps_into_final_grammar_witness :
  ∃ prod0 next_symbol prod plist p,
    context_prods arith_context !! prod_index (mkLRItem 0 0 None {[ END ]}) = Some prod0
    ∧ prod_rhs prod0 !! offset (mkLRItem 0 0 None {[ END ]}) = Some (Nt next_symbol)
    ∧ context_prods arith_context !! prod_index (mkLRItem 2 0 None {[ END ]})
      = Some prod
    ∧ prod_nt prod = next_symbol
    ∧ dict_get (nonterminals (context_grammar arith_context)) next_symbol = Some plist
    ∧ p ∈ plist ∧ p_body p = prod_rhs prod
    ∧ (prod_rhs prod = [] → next_symbol ∈ goals (context_grammar arith_context)).
Proof.
  apply (steps_into_final_grammar true arith_grammar arith_context
           (mkLRItem 0 0 None {[ END ]}) (mkLRItem 2 0 None {[ END ]})).
  - vm_refl.
  - exists (mkProd (InitNt "E") 0 [Nt (Name "E")] [] RAccept), (Name "E"), 2,
      [Nt (Name "T")], {[ END ]}.
    split; [reflexivity|]. split; [reflexivity|].
    split; [right; left|]. split; [by left|]. split; vm_refl.
Defined.

(** ** State analysis: the states that the action row names *)




Section action_row_ids.

Context (ACCEPT : Z).


End action_row_ids.


